(** * Robust aggregations of rgnn_at_scale: a shallow embedding

    This development embeds [rgnn_at_scale/aggregation.py] (the chunking
    driver, the CPU top-k selector, the distance primitives and the robust
    means, the soft median included) and the adjacency normalisation of
    [models.DenseGCN] as Rocq functions over lists and states the
    properties of the specification about them.

    Tensors are lists (a matrix is a list of rows).  The element type is a
    parameter: every function is written once over the classes [Num] and
    [Floating] (and [Power] for the p-norm of the soft median) and used at
    three instances,
    - [Q], exact rationals, where the code only adds, multiplies and
      compares (the examples of the test-suite run there);
    - [R], exact real arithmetic, the setting of the algebraic theorems;
    - [fval], reals extended with the IEEE special values, where a result
      whose magnitude exceeds the largest float32 overflows to an infinity
      and undefined operations give NaN.  Rounding is left out of it: what
      is stated in [fval] is what rounding leaves in place (which results
      are finite, infinite or NaN, and their signs).
    What is to hold of the floats as they are is stated for every
    instance, under the laws of the comparison where the proof needs them
    ([Ordered]).
    Library functions whose result is only specified up to the order of ties
    (numpy's [argsort], torch's [sort] and [topk]) are passed in as a
    [backend]: a function together with the proof that it sorts. *)

From Stdlib Require Import List Arith ZArith QArith Qabs Qminmax Bool Lia Permutation Sorted.
From Stdlib Require Import Reals Lra Psatz.
Import ListNotations.

Close Scope Q_scope.
Close Scope R_scope.
Close Scope Z_scope.
Open Scope nat_scope.

Set Implicit Arguments.

(* ================================================================== *)
(** * Part I: definitions *)
(* ================================================================== *)

(** ** Errors raised by the Python code *)

Inductive error : Type :=
| NotImplementedError
| IndexError
| ValueError
| RuntimeError
| ZeroDivisionError
| AttributeError.

Inductive result (A : Type) : Type :=
| Ok (a : A)
| Err (e : error).

Arguments Ok {A} a.
Arguments Err {A} e.

Definition bind {A B : Type} (r : result A) (f : A -> result B) : result B :=
  match r with
  | Ok a => f a
  | Err e => Err e
  end.

Notation "x <- e ;; k" := (bind e (fun x => k))
  (at level 61, e at next level, right associativity).
Notation "' p <- e ;; k" := (bind e (fun x => match x with p => k end))
  (at level 61, p pattern, e at next level, right associativity).

Definition of_option {A : Type} (e : error) (o : option A) : result A :=
  match o with
  | Some a => Ok a
  | None => Err e
  end.

(** [mapM f l]: run [f] on every element, left to right, stopping at the
    first error. *)
Fixpoint mapM {A B : Type} (f : A -> result B) (l : list A) : result (list B) :=
  match l with
  | [] => Ok []
  | a :: l' => b <- f a ;; bs <- mapM f l' ;; Ok (b :: bs)
  end.

(** ** Numbers *)

(** The arithmetic the code performs on tensor elements. *)
Class Num (W : Type) : Type := {
  nzero : W;
  none : W;
  nadd : W -> W -> W;
  nsub : W -> W -> W;
  nmul : W -> W -> W;
  ndiv : W -> W -> W;
  nopp : W -> W;
  nabs : W -> W;
  nmax : W -> W -> W;
  nltb : W -> W -> bool;   (* a < b  *)
  neqb : W -> W -> bool;   (* a == b *)
}.

(** What only floating-point tensors offer: [torch.sqrt], [torch.exp],
    [torch.isfinite], the constants of [torch.finfo] and the dtype. *)
Class Floating (W : Type) {N : Num W} : Type := {
  nsqrt : W -> W;
  nexp : W -> W;
  isfinite : W -> bool;
  finfo_max : W;
  finfo_eps : W;
  nofQ : Q -> W;           (* a Python float literal *)
  dtype_float32 : bool;    (* [t.dtype == torch.float] *)
}.

Arguments Floating W {N}.

Definition Qltb (a b : Q) : bool := negb (Qle_bool b a).

#[export] Instance Num_Q : Num Q := {|
  nzero := 0%Q;
  none := 1%Q;
  nadd := Qplus;
  nsub := Qminus;
  nmul := Qmult;
  ndiv := Qdiv;
  nopp := Qopp;
  nabs := Qabs;
  nmax := Qmax;
  nltb := Qltb;
  neqb := Qeq_bool;
|}.

Definition Rltb (a b : R) : bool := if Rlt_dec a b then true else false.
Definition Reqb (a b : R) : bool := if Req_dec_T a b then true else false.

#[export] Instance Num_R : Num R := {|
  nzero := 0%R;
  none := 1%R;
  nadd := Rplus;
  nsub := Rminus;
  nmul := Rmult;
  ndiv := Rdiv;
  nopp := Ropp;
  nabs := Rabs;
  nmax := Rmax;
  nltb := Rltb;
  neqb := Reqb;
|}.

(** float32: the largest finite value is (2 - 2^-23) * 2^127 and the machine
    epsilon is 2^-23. *)
Definition float32_max : R := ((2 - / 2 ^ 23) * 2 ^ 127)%R.
Definition float32_eps : R := (/ 2 ^ 23)%R.

(** In exact arithmetic a value is taken to be a finite float when its
    magnitude does not exceed [float32_max]. *)
Definition Risfinite (r : R) : bool :=
  if Rle_dec (Rabs r) float32_max then true else false.

#[export] Instance Floating_R : Floating R := {|
  nsqrt := sqrt;
  nexp := exp;
  isfinite := Risfinite;
  finfo_max := float32_max;
  finfo_eps := float32_eps;
  nofQ := Q2R;
  dtype_float32 := true;
|}.

(** ** Floats with their special values

    [fval] keeps the exact value of a finite result and adds what IEEE
    arithmetic does at the edges: a result beyond [float32_max] becomes an
    infinity, and infinity minus infinity, zero times infinity and the like
    become NaN.  Rounding, underflow and the sign of zero are left out. *)
Inductive fval : Type :=
| Finite (r : R)
| PInf
| NInf
| NaN.

Definition fround (r : R) : fval :=
  if Rlt_dec float32_max r then PInf
  else if Rlt_dec r (- float32_max) then NInf
  else Finite r.

Definition fopp (a : fval) : fval :=
  match a with
  | NaN => NaN
  | PInf => NInf
  | NInf => PInf
  | Finite x => Finite (- x)
  end.

Definition fadd (a b : fval) : fval :=
  match a with
  | NaN => NaN
  | PInf => match b with NaN | NInf => NaN | _ => PInf end
  | NInf => match b with NaN | PInf => NaN | _ => NInf end
  | Finite x =>
      match b with
      | NaN => NaN
      | PInf => PInf
      | NInf => NInf
      | Finite y => fround (x + y)
      end
  end.

Definition fsub (a b : fval) : fval := fadd a (fopp b).

(** The sign of an infinity scaled by the finite [x]; zero times infinity
    is NaN. *)
Definition scaled_inf (x : R) (pos : bool) : fval :=
  if Req_dec_T x 0 then NaN
  else if Rlt_dec 0 x then (if pos then PInf else NInf)
  else (if pos then NInf else PInf).

Definition fmul (a b : fval) : fval :=
  match a with
  | NaN => NaN
  | PInf =>
      match b with
      | NaN => NaN | PInf => PInf | NInf => NInf
      | Finite y => scaled_inf y true
      end
  | NInf =>
      match b with
      | NaN => NaN | PInf => NInf | NInf => PInf
      | Finite y => scaled_inf y false
      end
  | Finite x =>
      match b with
      | NaN => NaN
      | PInf => scaled_inf x true
      | NInf => scaled_inf x false
      | Finite y => fround (x * y)
      end
  end.

Definition fdiv (a b : fval) : fval :=
  match a with
  | NaN => NaN
  | PInf =>
      match b with
      | NaN | PInf | NInf => NaN
      | Finite y => if Rlt_dec y 0 then NInf else PInf
      end
  | NInf =>
      match b with
      | NaN | PInf | NInf => NaN
      | Finite y => if Rlt_dec y 0 then PInf else NInf
      end
  | Finite x =>
      match b with
      | NaN => NaN
      | PInf | NInf => Finite 0
      | Finite y =>
          if Req_dec_T y 0 then
            (if Req_dec_T x 0 then NaN else if Rlt_dec 0 x then PInf else NInf)
          else fround (x / y)
      end
  end.

Definition fabs (a : fval) : fval :=
  match a with
  | NaN => NaN
  | PInf | NInf => PInf
  | Finite x => Finite (Rabs x)
  end.

Definition fltb (a b : fval) : bool :=
  match a, b with
  | Finite x, Finite y => Rltb x y
  | Finite _, PInf => true
  | NInf, Finite _ => true
  | NInf, PInf => true
  | _, _ => false
  end.

Definition feqb (a b : fval) : bool :=
  match a, b with
  | Finite x, Finite y => Reqb x y
  | PInf, PInf => true
  | NInf, NInf => true
  | _, _ => false
  end.

Definition fmax (a b : fval) : fval :=
  match a, b with
  | NaN, _ => NaN
  | _, NaN => NaN
  | _, _ => if fltb a b then b else a
  end.

Definition fsqrt (a : fval) : fval :=
  match a with
  | NaN | NInf => NaN
  | PInf => PInf
  | Finite x => if Rlt_dec x 0 then NaN else Finite (sqrt x)
  end.

Definition fexp (a : fval) : fval :=
  match a with
  | NaN => NaN
  | PInf => PInf
  | NInf => Finite 0
  | Finite x => fround (exp x)
  end.

Definition fisfinite (a : fval) : bool :=
  match a with
  | Finite _ => true
  | _ => false
  end.

#[export] Instance Num_fval : Num fval := {|
  nzero := Finite 0;
  none := Finite 1;
  nadd := fadd;
  nsub := fsub;
  nmul := fmul;
  ndiv := fdiv;
  nopp := fopp;
  nabs := fabs;
  nmax := fmax;
  nltb := fltb;
  neqb := feqb;
|}.

#[export] Instance Floating_fval : Floating fval := {|
  nsqrt := fsqrt;
  nexp := fexp;
  isfinite := fisfinite;
  finfo_max := Finite float32_max;
  finfo_eps := Finite float32_eps;
  nofQ := fun q => fround (Q2R q);
  dtype_float32 := true;
|}.

(** A total order on [fval] that contains [<]: NaN is put below every other
    value.  A comparison with NaN is false either way, so a NaN is in order
    wherever it stands, and a sort by this order is a sort by [<]. *)
Definition ftotal_ltb (a b : fval) : bool :=
  match a, b with
  | NaN, NaN => false
  | NaN, _ => true
  | _, NaN => false
  | _, _ => fltb a b
  end.

(** ** Lists as tensors *)

Section Tensors.
Context {W : Type} {N : Num W}.

Definition vec : Type := list W.
Definition matrix : Type := list (list W).

(** [t.sum()] *)
Definition nsum (l : list W) : W := fold_right nadd nzero l.

(** [t.cumsum(0)] *)
Fixpoint cumsum_from (acc : W) (l : list W) : list W :=
  match l with
  | [] => []
  | a :: l' => nadd acc a :: cumsum_from (nadd acc a) l'
  end.
Definition cumsum (l : list W) : list W := cumsum_from nzero l.

(** [t.max()] of a non-empty tensor. *)
Definition nmax_list (d : W) (l : list W) : W :=
  match l with
  | [] => d
  | a :: l' => fold_left nmax l' a
  end.

(** [a @ b] for two vectors. *)
Definition dot (a b : list W) : W := nsum (map (fun p => nmul (fst p) (snd p)) (combine a b)).

(** [c * v] *)
Definition scale (c : W) (v : list W) : list W := map (nmul c) v.

(** [u + v] *)
Definition vadd (u v : list W) : list W := map (fun p => nadd (fst p) (snd p)) (combine u v).

(** [m[i, j]] for in-range indices. *)
Definition mget (m : matrix) (i j : nat) : W := nth j (nth i m []) nzero.

(** Column [j] of a matrix. *)
Definition column (m : matrix) (j : nat) : list W := map (fun r => nth j r nzero) m.

(** [w @ x] for a row of weights over the rows of [x]: sum_j w_j * x[j]. *)
Definition row_matmul (d : nat) (w : list W) (x : matrix) : list W :=
  map (fun c => dot w (column x c)) (seq 0 d).

(** [t.argmin()]: the index of the first minimal value. *)
Fixpoint argmin_from (best : nat) (bv : W) (i : nat) (l : list W) : nat :=
  match l with
  | [] => best
  | a :: l' => if nltb a bv then argmin_from i a (S i) l' else argmin_from best bv (S i) l'
  end.
Definition argmin (l : list W) : nat :=
  match l with
  | [] => 0
  | a :: l' => argmin_from 0 a 1 l'
  end.
End Tensors.

(** List update [l[i] = v]; out of range it leaves the list unchanged (the
    callers below only write in range). *)
Fixpoint upd {A : Type} (l : list A) (i : nat) (v : A) : list A :=
  match l, i with
  | [], _ => []
  | _ :: l', O => v :: l'
  | a :: l', S i' => a :: upd l' i' v
  end.

(** [m[i, j] = v] *)
Definition upd2 {A : Type} (m : list (list A)) (i j : nat) (v : A) : list (list A) :=
  upd m i (upd (nth i m []) j v).

(** [range(n)] for a Python int. *)
Definition range (n : Z) : list Z := map Z.of_nat (seq 0 (Z.to_nat n)).

(** ** The chunking driver ([Chunker], [chunked_message_and_aggregate]) *)

(** [int(math.ceil(n / n_chunks))] for Python ints, [n_chunks] not zero. *)
Definition ceil_div (n m : Z) : Z := (- ((- n) / m))%Z.

Record Chunker : Type := {
  chunker_n : Z;
  chunker_n_chunks : Z;
  requires_grad : bool;
  do_synchronize : bool;
  chunk_size : Z;
  lower : list Z;
  upper : list Z;
}.

(** [l[-1] = v]; an [IndexError] on the empty list. *)
Definition set_last {A : Type} (l : list A) (v : A) : result (list A) :=
  match l with
  | [] => Err IndexError
  | _ => Ok (removelast l ++ [v])
  end.

(** [Chunker.__init__] *)
Definition Chunker_init (n n_chunks : Z) (requires_grad do_synchronize : bool)
  : result Chunker :=
  if (n_chunks =? 0)%Z then Err ZeroDivisionError
  else
    let chunk_size := ceil_div n n_chunks in
    let lower := map (fun chunk => (chunk * chunk_size)%Z) (range n_chunks) in
    let upper := map (fun chunk => ((chunk + 1) * chunk_size)%Z) (range n_chunks) in
    upper <- set_last upper n ;;
    Ok {| chunker_n := n; chunker_n_chunks := n_chunks;
          requires_grad := requires_grad; do_synchronize := do_synchronize;
          chunk_size := chunk_size; lower := lower; upper := upper |}.

(** [torch.utils.checkpoint.checkpoint]: the forward value is that of the
    wrapped call; only what is kept for the backward pass differs. *)
Definition checkpoint {I O : Type} (f : I -> O) (args : I) : O := f args.

(** [torch.cat(result)] along the rows; it refuses an empty list. *)
Definition torch_cat {B : Type} (blocks : list (list B)) : result (list B) :=
  match blocks with
  | [] => Err RuntimeError
  | _ => Ok (concat blocks)
  end.

(** [Chunker.chunk]: [torch.cuda.synchronize()] does not touch values. *)
Definition chunk {I B : Type} (self : Chunker)
    (get_run : Z -> Z -> I -> result (list B)) (input_tensors : I) : result (list B) :=
  blocks <- mapM (fun lu : Z * Z =>
                    let (lower, upper) := lu in
                    if requires_grad self
                    then checkpoint (get_run lower upper) input_tensors
                    else get_run lower upper input_tensors)
                 (combine (lower self) (upper self)) ;;
  torch_cat blocks.

(** A [torch_sparse.SparseTensor]: per row the (column, weight) entries, the
    number of columns, and whether the weights track gradients. *)
Record SparseTensor (W : Type) : Type := {
  st_rows : list (list (nat * W));
  st_ncols : nat;
  st_requires_grad : bool;
}.

(** [adj[lower:upper, :]].  torch_sparse turns the slice into
    [narrow(0, start, max(stop - start, 0))], which narrows the row pointer
    to [length + 1] entries and raises when they are not all there. *)
Definition slice_rows {W : Type} (adj : SparseTensor W) (lower upper : Z)
  : result (SparseTensor W) :=
  let size := Z.of_nat (length (st_rows adj)) in
  let start := if (lower <? 0)%Z then (size + lower)%Z else lower in
  let stop := if (upper <? 0)%Z then (size + upper)%Z else upper in
  let len := Z.max (stop - start) 0 in
  if ((0 <=? start) && (start + len <=? size))%Z
  then Ok {| st_rows := firstn (Z.to_nat len) (skipn (Z.to_nat start) (st_rows adj));
             st_ncols := st_ncols adj;
             st_requires_grad := st_requires_grad adj |}
  else Err RuntimeError.

Section Chunking.
Context {W : Type} {N : Num W}.

(** [torch_sparse.matmul(adj, x, reduce='sum')]: row i is the sum of
    [w * x[c]] over the entries [(c, w)] of row i. *)
Definition spmm_row (d : nat) (x : list (list W)) (entries : list (nat * W)) : list W :=
  fold_right (fun e acc => vadd (scale (snd e) (nth (fst e) x (repeat nzero d))) acc)
             (repeat nzero d) entries.

Definition ncols (x : list (list W)) : nat := length (nth 0 x []).

Definition sparse_matmul (adj : SparseTensor W) (x : list (list W)) : result (list (list W)) :=
  Ok (map (spmm_row (ncols x) x) (st_rows adj)).

(** [rgnn_at_scale.utils] is not part of the sources at hand: the two
    conversions are parameters. *)
Variable tuple_rest : Type.
Variable sparse_tensor_to_tuple : SparseTensor W -> list W * tuple_rest.
Variable tuple_to_sparse_tensor : list W -> tuple_rest -> SparseTensor W.

Definition chunked_message_and_aggregate
    (adj_t : SparseTensor W) (x : list (list W)) (n_chunks : Z)
    (aggregation_function :
       option (SparseTensor W -> list (list W) -> result (list (list W))))
  : result (list (list W)) :=
  let aggregation_function :=
    match aggregation_function with
    | None => sparse_matmul
    | Some f => f
    end in
  let n := Z.of_nat (length x) in
  if negb (st_requires_grad adj_t) then aggregation_function adj_t x
  else
    let (edge_weight, rest) := sparse_tensor_to_tuple adj_t in
    let row_chunked_matmul (lower upper : Z) (rest : tuple_rest) :=
      fun inputs : list W * list (list W) =>
        let (edge_weight, x) := inputs in
        let adj := tuple_to_sparse_tensor edge_weight rest in
        a <- slice_rows adj lower upper ;;
        aggregation_function a x in
    chunker <- Chunker_init n n_chunks true false ;;
    chunk chunker (fun lower upper => row_chunked_matmul lower upper rest)
          (edge_weight, x).
End Chunking.

(** ** Library sorts *)

Section Sorter.
Variable K : Type.
Variable lt : K -> K -> bool.

(** Position [i] may stand before position [j]: the key at [j] is not
    smaller than the key at [i]. *)
Definition key_le (l : list K) (i j : nat) : Prop :=
  forall ki kj, nth_error l i = Some ki -> nth_error l j = Some kj -> lt kj ki = false.

(** What numpy and torch promise of an argsort: a permutation of the
    positions that puts the keys in order.  Nothing is promised about the
    order of equal keys (the default sorts are not stable). *)
Record sorter : Type := {
  run_sort :> list K -> list nat;
  sort_perm : forall l, Permutation (run_sort l) (seq 0 (length l));
  sort_sorted : forall l, StronglySorted (key_le l) (run_sort l);
}.

(** One such function: a stable insertion sort of the (position, key)
    pairs. *)
Fixpoint insert_key (x : nat * K) (s : list (nat * K)) : list (nat * K) :=
  match s with
  | [] => [x]
  | y :: s' => if lt (snd y) (snd x) then y :: insert_key x s' else x :: y :: s'
  end.

Definition insertion_argsort (l : list K) : list nat :=
  map fst (fold_right insert_key [] (combine (seq 0 (length l)) l)).
End Sorter.

(** The external functions the aggregations call. *)
Record backend (W : Type) {N : Num W} : Type := {
  (** [row_idx.argsort()] in [_select_k_idx_cpu] (integer keys) *)
  np_argsort_int : sorter Nat.ltb;
  (** [(-values[...]).argsort()] in [_select_k_idx_cpu] *)
  np_argsort : sorter nltb;
  (** the index tensor of [torch.sort(x, dim=0)], column by column *)
  torch_sort : sorter nltb;
  (** [torch.topk(A_dense, k, dim=1)]: the first [k] positions of a
      descending order of the row *)
  torch_topk_order : sorter (fun a b => nltb b a);
  (** [custom_cuda_kernels.topk(A_indices, A_values, n, k)]: the kernel is
      not part of the sources at hand *)
  cuda_topk : list nat -> list nat -> list W -> nat -> nat -> list (list W) * list (list Z);
  (** [custom_cuda_kernels.dimmedian_idx(x, A)], likewise *)
  cuda_dimmedian_idx : list (list W) -> list nat -> list nat -> list W -> list (list nat);
}.

Arguments backend W {N}.

(** ** Sparse adjacency matrices *)

(** The COO form of an [n] by [n] sparse matrix ([A.coo()]). *)
Record coo (W : Type) : Type := {
  A_rows : list nat;
  A_cols : list nat;
  A_values : list W;
  A_size : nat;
}.

(** An adjacency argument: a dense tensor or a sparse one ([A.is_sparse]). *)
Inductive adjacency (W : Type) : Type :=
| DenseAdj (m : list (list W))
| SparseAdj (a : coo W).

(** The two classes of sparse matrix that are handed to the soft k-medoid:
    a [torch.sparse.FloatTensor] (as [RGNNConv.propagate] builds it) and a
    [torch_sparse.SparseTensor] (the annotated class, as the test-suite
    builds it), each with its COO data.  The classes differ in their
    attributes ([A.is_sparse] against [A.coo()]) and in [A.to_dense()]. *)
Inductive sparse_arg (W : Type) : Type :=
| TorchSparseCoo (a : coo W)
| TorchSparseTensor (a : coo W).

Definition arg_coo {W : Type} (A : sparse_arg W) : coo W :=
  match A with
  | TorchSparseCoo a => a
  | TorchSparseTensor a => a
  end.

Section Sparse.
Context {W : Type} {N : Num W}.

(** [torch_scatter.scatter_sum(src, index)]: one slot per index up to the
    largest one that occurs. *)
Definition scatter_size (index : list nat) : nat :=
  match index with
  | [] => 0
  | _ => S (fold_right Nat.max 0 index)
  end.

Definition scatter_sum (src : list W) (index : list nat) : list W :=
  map (fun i => nsum (map snd (filter (fun p => fst p =? i) (combine index src))))
      (seq 0 (scatter_size index)).

(** [A.to_dense()] of a torch.sparse tensor: entries at one position are
    added up. *)
Definition to_dense (A : coo W) : list (list W) :=
  map (fun i =>
         map (fun j =>
                nsum (map snd (filter (fun p => (fst (fst p) =? i) && (snd (fst p) =? j))
                                      (combine (combine (A_rows A) (A_cols A)) (A_values A)))))
             (seq 0 (A_size A)))
      (seq 0 (A_size A)).

Definition densify (A : adjacency W) : list (list W) :=
  match A with
  | DenseAdj m => m
  | SparseAdj a => to_dense a
  end.
End Sparse.

(** ** The top-k selector ([_select_k_idx_cpu], [_sparse_top_k]) *)

(** [np.hstack(arrays)]: a [ValueError] on the empty list. *)
Definition hstack {A : Type} (arrays : list (list A)) : result (list A) :=
  match arrays with
  | [] => Err ValueError
  | _ => Ok (concat arrays)
  end.

(** [a[start:stop]] for [0 <= start <= stop]. *)
Definition slice {A : Type} (a : list A) (start stop : nat) : list A :=
  firstn (stop - start) (skipn start a).

(** What [_sparse_top_k] returns: a sparse tensor, or the padded [n] by [k]
    values and indices. *)
Inductive top_k_result (W : Type) : Type :=
| TopKSparse (rows : list nat) (cols : list Z) (vals : list W)
| TopKDense (values : list (list W)) (indices : list (list Z)).

Section TopK.
Context {W : Type} {N : Num W}.
Variable lib : backend W.

(** The inner [while] loop: advance [row_idx_end] past the entries of
    rows [<= i].  It runs at most [len(row_idx)] times. *)
Fixpoint advance_end (fuel : nat) (row_idx : list nat) (i row_idx_end : nat) : nat :=
  match fuel with
  | O => row_idx_end
  | S fuel' =>
      match nth_error row_idx row_idx_end with
      | Some r =>
          if r <? i + 1 then advance_end fuel' row_idx i (S row_idx_end) else row_idx_end
      | None => row_idx_end
      end
  end.

Record select_state : Type := {
  row_idx_start : nat;
  row_idx_end : nat;
  new_idx : list (list nat * list nat);
  valiue_idx : list (list nat);
  unroll_idx : list (list nat);
}.

(** One turn of [for i in range(n)].  numba compiles the function without
    bounds checks, so reading [k_per_row[i]] past the end is undefined:
    the model stops with an [IndexError] there. *)
Definition select_step (row_idx col_idx : list nat) (values : list W)
    (k_per_row : list nat) (st : select_state) (i : nat) : result select_state :=
  k_of_row <- of_option IndexError (nth_error k_per_row i) ;;
  let row_idx_end := advance_end (length row_idx) row_idx i (row_idx_end st) in
  let row_idx_start := row_idx_start st in
  if 0 <? k_of_row then
    let curr_idx :=
      firstn k_of_row
             (np_argsort lib (map nopp (slice values row_idx_start row_idx_end))) in
    Ok {| row_idx_start := row_idx_end;
          row_idx_end := row_idx_end;
          new_idx := new_idx st ++
                     [(map (fun _ => i) curr_idx,
                       map (fun c => nth (row_idx_start + c) col_idx 0) curr_idx)];
          valiue_idx := valiue_idx st ++ [map (fun c => row_idx_start + c) curr_idx];
          unroll_idx := unroll_idx st ++ [seq 0 (length curr_idx)] |}
  else
    Ok {| row_idx_start := row_idx_end;
          row_idx_end := row_idx_end;
          new_idx := new_idx st;
          valiue_idx := valiue_idx st;
          unroll_idx := unroll_idx st |}.

Fixpoint select_loop (row_idx col_idx : list nat) (values : list W)
    (k_per_row : list nat) (st : select_state) (rows : list nat) : result select_state :=
  match rows with
  | [] => Ok st
  | i :: rows' =>
      st' <- select_step row_idx col_idx values k_per_row st i ;;
      select_loop row_idx col_idx values k_per_row st' rows'
  end.

(** [_select_k_idx_cpu(row_idx, col_idx, values, k_per_row, n, 'top')].
    Note that [row_idx] and [col_idx] are reordered by [sort_idx] while
    [values] is used as it came. *)
Definition _select_k_idx_cpu (row_idx col_idx : list nat) (values : list W)
    (k_per_row : list nat) (n : nat)
  : result (list (list nat * list nat) * list (list nat) * list (list nat)) :=
  let sort_idx := np_argsort_int lib row_idx in
  let row_idx := map (fun j => nth j row_idx 0) sort_idx in
  let col_idx := map (fun j => nth j col_idx 0) sort_idx in
  st <- select_loop row_idx col_idx values k_per_row
          {| row_idx_start := 0; row_idx_end := 0;
             new_idx := []; valiue_idx := []; unroll_idx := [] |}
          (seq 0 n) ;;
  Ok (new_idx st, valiue_idx st, unroll_idx st).

(** [t[rows, cols] = vals] on an [n] by [k] tensor. *)
Fixpoint index_put {A : Type} (t : list (list A)) (rows cols : list nat) (vals : list A)
  : list (list A) :=
  match rows, cols, vals with
  | r :: rows', c :: cols', v :: vals' => index_put (upd2 t r c v) rows' cols' vals'
  | _, _, _ => t
  end.

(** [_sparse_top_k(A_indices, A_values, n, k, return_sparse)] *)
Definition _sparse_top_k (is_cuda : bool) (A_rows A_cols : list nat) (A_values : list W)
    (n k : nat) (return_sparse : bool) : result (top_k_result W) :=
  if is_cuda then
    let (topk_values, topk_idx) := cuda_topk lib A_rows A_cols A_values n k in
    if negb return_sparse then Ok (TopKDense topk_values topk_idx)
    else
      let flat := concat (map (fun i => combine (map (fun c => (i, c)) (nth i topk_idx []))
                                                (nth i topk_values []))
                              (seq 0 n)) in
      let kept := filter (fun e => negb (snd (fst e) =? -1)%Z) flat in
      Ok (TopKSparse (map (fun e => fst (fst e)) kept)
                     (map (fun e => snd (fst e)) kept)
                     (map snd kept))
  else
    match A_rows with
    | [] => Err RuntimeError      (* no entries: [index.max()] of an empty tensor raises in
                                     torch_scatter's own size computation; a version that
                                     returns an empty tensor leaves [k_per_row] empty *)
    | _ =>
        let n_edges_per_row :=
          map (fun i => count_occ Nat.eq_dec A_rows i) (seq 0 (scatter_size A_rows)) in
        let k_per_row := map (fun c => Nat.min c k) n_edges_per_row in
        '(new_idx, value_idx, unroll_idx) <-
            _select_k_idx_cpu A_rows A_cols A_values k_per_row n ;;
        new_rows <- hstack (map fst new_idx) ;;
        new_cols <- hstack (map snd new_idx) ;;
        value_idx <- hstack value_idx ;;
        let picked := map (fun j => nth j A_values nzero) value_idx in
        if return_sparse then
          Ok (TopKSparse new_rows (map Z.of_nat new_cols) picked)
        else
          unroll_idx <- hstack unroll_idx ;;
          let values := repeat (repeat nzero k) n in
          let indices := repeat (repeat (-1)%Z k) n in
          Ok (TopKDense (index_put values new_rows unroll_idx picked)
                        (index_put indices new_rows unroll_idx (map Z.of_nat new_cols)))
    end.
End TopK.

(** ** The distance primitives ([_distance_matrix], [partial_distance_matrix]) *)

(** [x[z]] with Python's index rules: a negative index counts from the end,
    anything else out of range is an [IndexError]. *)
Definition tensor_index {A : Type} (x : list A) (z : Z) : result A :=
  let n := Z.of_nat (length x) in
  if ((0 <=? z) && (z <? n))%Z then of_option IndexError (nth_error x (Z.to_nat z))
  else if ((- n <=? z) && (z <? 0))%Z then of_option IndexError (nth_error x (Z.to_nat (n + z)))
  else Err IndexError.

(** [t.view(rows, cols)] of a flat tensor. *)
Fixpoint reshape {A : Type} (rows cols : nat) (flat : list A) : list (list A) :=
  match rows with
  | O => []
  | S rows' => firstn cols flat :: reshape rows' cols (skipn cols flat)
  end.

(** [out[mask] = vals]: the selected slots take the values in order. *)
Fixpoint masked_put {A : Type} (out : list A) (mask : list bool) (vals : list A) : list A :=
  match out, mask with
  | o :: out', true :: mask' =>
      match vals with
      | v :: vals' => v :: masked_put out' mask' vals'
      | [] => o :: masked_put out' mask' []
      end
  | o :: out', false :: mask' => o :: masked_put out' mask' vals
  | _, _ => out
  end.

(** [torch.unique(t, return_inverse=True)]: the distinct values in
    increasing order, and for every element its position among them. *)
Fixpoint insert_unique (z : Z) (s : list Z) : list Z :=
  match s with
  | [] => [z]
  | y :: s' =>
      if (z <? y)%Z then z :: y :: s'
      else if (z =? y)%Z then y :: s'
      else y :: insert_unique z s'
  end.

Definition unique_values (t : list Z) : list Z := fold_right insert_unique [] t.

Fixpoint position_of (z : Z) (s : list Z) : nat :=
  match s with
  | [] => 0
  | y :: s' => if (z =? y)%Z then 0 else S (position_of z s')
  end.

Definition torch_unique (t : list Z) : list Z * list nat :=
  let u := unique_values t in (u, map (fun z => position_of z u) t).

Section Distances.
Context {W : Type} {N : Num W} {F : Floating W}.

Definition ntwo : W := nadd none none.

(** [torch.norm(v)]: the Euclidean norm. *)
Definition norm (v : list W) : W := nsqrt (nsum (map (fun a => nmul a a) v)).

(** [u - v] *)
Definition vsub (u v : list W) : list W :=
  map (fun p => nsub (fst p) (snd p)) (combine u v).

(** [_distance_matrix(x, eps_factor)] *)
Definition _distance_matrix (x : list (list W)) (eps_factor : W) : list (list W) :=
  let x_norm := map (fun r => nsum (map (fun a => nmul a a) r)) x in
  let squared :=
    map (fun i =>
           map (fun j =>
                  nsub (nadd (nth i x_norm nzero) (nth j x_norm nzero))
                       (nmul ntwo (dot (nth i x []) (nth j x []))))
               (seq 0 (length x)))
        (seq 0 (length x)) in
  let eps := nmul eps_factor finfo_eps in
  map (map (fun s => nsqrt (nadd (nabs s) eps))) squared.

(** The flattened [idx_row] and [idx_column] of [partial_distance_matrix],
    as pairs: position (i, a, b) holds
    [(partial_idx[i, b], partial_idx[i, a])]. *)
Definition index_pairs (partial_idx : list (list Z)) : list (Z * Z) :=
  flat_map (fun row => flat_map (fun va => map (fun vb => (vb, va)) row) row) partial_idx.

(** [missing_mask]: neither index is the sentinel -1. *)
Definition has_index (p : Z * Z) : bool :=
  negb (fst p =? -1)%Z && negb (snd p =? -1)%Z.

(** The swap under [symmetry_mask]: the smaller index first. *)
Definition symmetric_order (p : Z * Z) : Z * Z :=
  if (snd p <? fst p)%Z then (snd p, fst p) else p.

(** [linear_index = idx_row * n + idx_column] over the kept pairs. *)
Definition linear_index (partial_idx : list (list Z)) : list Z :=
  let n := length partial_idx in
  map (fun p => (fst p * Z.of_nat n + snd p)%Z)
      (map symmetric_order (filter has_index (index_pairs partial_idx))).

(** [torch.norm(x[u // n] - x[u % n])] for one linear index. *)
Definition pair_distance (x : list (list W)) (n : nat) (u : Z) : result W :=
  a <- tensor_index x (u / Z.of_nat n)%Z ;;
  b <- tensor_index x (u mod Z.of_nat n)%Z ;;
  Ok (norm (vsub a b)).

(** The body of [partial_distance_matrix(x, partial_idx)].  With the
    result it hands back [distance_matrix_idx], the linear indices of the
    pairs of rows whose distance [torch.norm] computes, one distance per
    element.  [out] is allocated with [dtype=torch.float]: writing the
    distances into it raises for an [x] of another dtype. *)
Definition partial_distance_matrix_with_idx (x : list (list W)) (partial_idx : list (list Z))
  : result (list Z * list (list (list W))) :=
  let n := length partial_idx in
  let k := length (nth 0 partial_idx []) in
  let missing_mask := map has_index (index_pairs partial_idx) in
  let (distance_matrix_idx, unique_reverse_index) :=
    torch_unique (linear_index partial_idx) in
  sparse_distances <- mapM (pair_distance x n) distance_matrix_idx ;;
  let out := repeat nzero (n * k * k) in
  if dtype_float32 then
    let out := masked_put out missing_mask
                 (map (fun j => nth j sparse_distances nzero) unique_reverse_index) in
    Ok (distance_matrix_idx, map (reshape k k) (reshape n (k * k) out))
  else Err RuntimeError.

(** [partial_distance_matrix(x, partial_idx)] *)
Definition partial_distance_matrix (x : list (list W)) (partial_idx : list (list Z))
  : result (list (list (list W))) :=
  r <- partial_distance_matrix_with_idx x partial_idx ;; Ok (snd r).

(** ** Soft maximum *)

(** [F.softmax(v, dim=-1)]: torch subtracts the largest entry before it
    exponentiates. *)
Definition softmax (v : list W) : list W :=
  let m := nmax_list nzero v in
  let e := map (fun a => nexp (nsub a m)) v in
  let s := nsum e in
  map (fun a => ndiv a s) e.

(** [t[~torch.isfinite(t)] = torch.finfo(t.dtype).max], elementwise. *)
Definition clamp_nonfinite (d : W) : W := if isfinite d then d else finfo_max.

(** [-d / temperature] *)
Definition neg_over (temperature : W) (d : W) : W := ndiv (nopp d) temperature.

(** [row[cols] = vals] on one row (the columns of a top-k row are
    distinct). *)
Fixpoint put_row (row : list W) (cols : list nat) (vals : list W) : list W :=
  match cols, vals with
  | c :: cols', v :: vals' => put_row (upd row c v) cols' vals'
  | _, _ => row
  end.
End Distances.

(** What the choice of a minimum needs of the comparison [<], of
    [torch.isfinite] and of the float maximum.  It holds of the IEEE
    floats, where a comparison with NaN is false, and of the reals. *)
Class Ordered (W : Type) {N : Num W} {F : Floating W} : Prop := {
  nltb_asym : forall a b : W, nltb a b = true -> nltb b a = false;
  nltb_le_trans : forall a b c : W,
      isfinite c = true -> nltb a b = true -> nltb c b = false -> nltb a c = true;
  finfo_max_isfinite : isfinite finfo_max = true;
  finfo_max_sum : forall n : nat,
      0 < n -> isfinite (nsum (repeat finfo_max n)) = true ->
      nsum (repeat finfo_max n) = finfo_max;
}.

Arguments Ordered W {N F}.

(** ** The robust means *)

Section RobustMeans.
Context {W : Type} {N : Num W} {F : Floating W}.
Variable lib : backend W.

(** [torch.topk(row, k)]: values and indices, largest first. *)
Definition topk_idx (row : list W) (k : nat) : list nat :=
  firstn k (torch_topk_order lib row).

Definition topk_values (row : list W) (k : nat) : list W :=
  map (fun j => nth j row nzero) (topk_idx row k).

(** The weighted distance sums of a top-k row: entry [a] is
    sum_b [topk_a[b] * l2[idx[b], idx[a]]]. *)
Definition topk_distances (l2 : list (list W)) (topk_a : list W) (idx : list nat)
  : list W :=
  map (fun ia => nsum (map (fun p => nmul (fst p) (mget l2 (snd p) ia)) (combine topk_a idx)))
      idx.

(** One row of [dense_cpu_soft_weighted_medoid_k_neighborhood]. *)
Definition dense_row (x l2 : list (list W)) (k : nat) (temperature : W)
    (with_weight_correction : bool) (eps : W) (row : list W) : list W :=
  let n := length row in
  let topk_a := topk_values row k in
  let topk_a_idx := topk_idx row k in
  let distances_k := map clamp_nonfinite (topk_distances l2 topk_a topk_a_idx) in
  let row_sum := nsum row in
  let topk_weights := repeat nzero n in
  let topk_weights :=
    put_row topk_weights topk_a_idx (softmax (map (neg_over temperature) distances_k)) in
  let topk_weights :=
    if with_weight_correction then
      let topk_weights :=
        put_row topk_weights topk_a_idx
                (map (fun p => nmul (nth (fst p) topk_weights nzero) (snd p))
                     (combine topk_a_idx topk_a)) in
      map (fun w => ndiv w (nadd (nsum topk_weights) eps)) topk_weights
    else topk_weights in
  scale row_sum (row_matmul (ncols x) topk_weights x).

(** [A.to_dense()] of a [torch_sparse.SparseTensor]: [mat[row, col] =
    value] on a matrix of zeros, so that of two entries at one position
    the later one stays. *)
Definition sparse_tensor_to_dense (A : coo W) : list (list W) :=
  index_put (repeat (repeat nzero (A_size A)) (A_size A))
            (A_rows A) (A_cols A) (A_values A).

(** [A.to_dense()] for either class. *)
Definition arg_to_dense (A : sparse_arg W) : list (list W) :=
  match A with
  | TorchSparseCoo a => to_dense a
  | TorchSparseTensor a => sparse_tensor_to_dense a
  end.

(** [dense_cpu_soft_weighted_medoid_k_neighborhood(A, x, k, temperature,
    with_weight_correction, eps)].  [torch.topk] raises when [k] exceeds
    the row length. *)
Definition dense_cpu_soft_weighted_medoid_k_neighborhood
    (A : sparse_arg W) (x : list (list W)) (k : nat) (temperature : W)
    (with_weight_correction : bool) (eps : W) : result (list (list W)) :=
  let A_dense := arg_to_dense A in
  let l2 := _distance_matrix x (nofQ 100) in
  if A_size (arg_coo A) <? k then Err RuntimeError
  else Ok (map (dense_row x l2 k temperature with_weight_correction eps) A_dense).

(** [distances[A_cpu_dense == 0] = max; distances.sum(-1)] and the
    replacement of non-finite sums, for row [i] of the adjacency: entry
    [j] of the result belongs to candidate [j]. *)
Definition masked_distance_sums (l2 : list (list W)) (row : list W) : list W :=
  map (fun j =>
         let distances :=
           if neqb (nth j row nzero) nzero
           then repeat finfo_max (length row)
           else map (fun p => nmul (fst p) (snd p)) (combine row (nth j l2 [])) in
         clamp_nonfinite (nsum distances))
      (seq 0 (length row)).

(** [weighted_medoid(A, x)] *)
Definition weighted_medoid (A : adjacency W) (x : list (list W)) : list (list W) :=
  let l2 := _distance_matrix x (nofQ 100) in
  let A_cpu_dense := densify A in
  map (fun row =>
         let distances := masked_distance_sums l2 row in
         scale (nsum row) (nth (argmin distances) x []))
      A_cpu_dense.

(** [soft_weighted_medoid(A, x, temperature)] *)
Definition soft_weighted_medoid (A : adjacency W) (x : list (list W)) (temperature : W)
  : list (list W) :=
  let l2 := _distance_matrix x (nofQ 100) in
  let A_cpu_dense := densify A in
  map (fun row =>
         let distances := masked_distance_sums l2 row in
         scale (nsum row)
               (row_matmul (ncols x) (softmax (map (neg_over temperature) distances)) x))
      A_cpu_dense.

(** [weighted_medoid_k_neighborhood(A, x, k)] *)
Definition weighted_medoid_k_neighborhood (A : adjacency W) (x : list (list W)) (k : nat)
  : list (list W) :=
  if length x <? k then weighted_medoid A x
  else
    let l2 := _distance_matrix x (nofQ 100) in
    let A_dense := densify A in
    map (fun row =>
           let topk_a := topk_values row k in
           let topk_a_idx := topk_idx row k in
           let distances_k := topk_distances l2 topk_a topk_a_idx in
           let distances_k :=
             map (fun p => if neqb (snd p) nzero then finfo_max else fst p)
                 (combine distances_k topk_a) in
           let distances_k := map clamp_nonfinite distances_k in
           scale (nsum row) (nth (nth (argmin distances_k) topk_a_idx 0) x []))
        A_dense.

(** The rows that [A.coo()] does not mention get one entry of weight zero
    (column 0), appended at the end. *)
Definition add_missing_rows (n : nat) (A_rows A_cols : list nat) (A_values : list W)
  : list nat * list nat * list W :=
  if length (nodup Nat.eq_dec A_rows) =? n then (A_rows, A_cols, A_values)
  else
    let all_row_idx_once := seq 0 n in
    let missing_row_idx :=
      filter (fun r => negb (existsb (Nat.eqb r) A_rows)) all_row_idx_once in
    (A_rows ++ missing_row_idx,
     A_cols ++ map (fun _ => 0) missing_row_idx,
     A_values ++ map (fun _ => nzero) missing_row_idx).

(** [torch_sparse.spmm(index, value, m, n, matrix)]: row i sums
    [value * matrix[col]] over the entries of row i. *)
Definition spmm (d : nat) (rows : list nat) (cols : list Z) (vals : list W) (m : nat)
    (matrix : list (list W)) : list (list W) :=
  map (fun i =>
         fold_right
           (fun e acc =>
              if fst (fst e) =? i
              then vadd (scale (snd e) (nth (Z.to_nat (snd (fst e))) matrix (repeat nzero d))) acc
              else acc)
           (repeat nzero d)
           (combine (combine rows cols) vals))
      (seq 0 m).

(** [(top_k_weights[:, None, :].expand(n, k, k) * distances_top_k).sum(-1)]
    with the two replacements that follow it: the slots without a neighbour
    and the non-finite sums get the float maximum. *)
Definition weighted_top_k_distances (top_k_weights : list (list W))
    (top_k_idx : list (list Z)) (distances_top_k : list (list (list W))) : list (list W) :=
  let distances_top_k :=
    map (fun wd => map (fun drow => dot (fst wd) drow) (snd wd))
        (combine top_k_weights distances_top_k) in
  let distances_top_k :=
    map (fun di =>
           map (fun p => if (snd p =? -1)%Z then finfo_max else fst p)
               (combine (fst di) (snd di)))
        (combine distances_top_k top_k_idx) in
  map (map clamp_nonfinite) distances_top_k.

(** The soft maximum over the distances and the weight correction. *)
Definition reliable_adj (temperature : W) (with_weight_correction : bool) (eps : W)
    (distances_top_k top_k_weights : list (list W)) : list (list W) :=
  let reliable_adj_values :=
    map (fun d => softmax (map (neg_over temperature) d)) distances_top_k in
  if with_weight_correction then
    map (fun rw =>
           let r := map (fun p => nmul (fst p) (snd p)) (combine (fst rw) (snd rw)) in
           map (fun v => ndiv v (nadd (nsum r) eps)) r)
        (combine reliable_adj_values top_k_weights)
  else reliable_adj_values.

(** The entries (row, column, value) of the sparse [n, n] matrix the top k
    results are mapped back to: the slots whose index is not -1. *)
Definition top_k_entries (n k : nat) (top_k_idx : list (list Z))
    (reliable_adj_values : list (list W)) : list (nat * Z * W) :=
  let top_k_inv_idx_row := flat_map (fun i => repeat i k) (seq 0 n) in
  let top_k_inv_idx_column := concat top_k_idx in
  filter (fun e => negb (snd (fst e) =? -1)%Z)
         (combine (combine top_k_inv_idx_row top_k_inv_idx_column)
                  (concat reliable_adj_values)).

(** The sparse branch of [soft_weighted_medoid_k_neighborhood], from
    [A.coo()] on: only a [torch_sparse.SparseTensor] has that method. *)
Definition sparse_soft_weighted_medoid_k_neighborhood
    (is_cuda : bool) (A : sparse_arg W) (x : list (list W)) (k : nat) (temperature : W)
    (with_weight_correction : bool) (eps : W) : result (list (list W)) :=
  let n := length x in
  match A with
  | TorchSparseCoo _ => Err AttributeError
  | TorchSparseTensor A =>
  let '(A_rows, A_cols, A_values) :=
    add_missing_rows n (A_rows A) (A_cols A) (A_values A) in
  top_k <- _sparse_top_k lib is_cuda A_rows A_cols A_values n k false ;;
  match top_k with
  | TopKSparse _ _ _ => Err RuntimeError
  | TopKDense top_k_weights top_k_idx =>
      distances_top_k <- partial_distance_matrix x top_k_idx ;;
      let distances_top_k :=
        weighted_top_k_distances top_k_weights top_k_idx distances_top_k in
      let reliable_adj_values :=
        reliable_adj temperature with_weight_correction eps distances_top_k top_k_weights in
      let entries := top_k_entries n k top_k_idx reliable_adj_values in
      let a_row_sum := scatter_sum A_values A_rows in
      let prod :=
        spmm (ncols x) (map (fun e => fst (fst e)) entries) (map (fun e => snd (fst e)) entries)
             (map snd entries) n x in
      if length a_row_sum =? n
      then Ok (map (fun p => scale (fst p) (snd p)) (combine a_row_sum prod))
      else Err RuntimeError
  end
  end.

(** [soft_weighted_medoid(A, x, temperature)] called with the argument of
    the soft k-medoid as it is: [A.is_sparse] is an attribute of torch
    tensors, a [torch_sparse.SparseTensor] does not have it. *)
Definition soft_weighted_medoid_of_arg (A : sparse_arg W) (x : list (list W))
    (temperature : W) : result (list (list W)) :=
  match A with
  | TorchSparseCoo a => Ok (soft_weighted_medoid (SparseAdj a) x temperature)
  | TorchSparseTensor _ => Err AttributeError
  end.

(** [soft_weighted_medoid_k_neighborhood(A, x, k, temperature,
    with_weight_correction, threshold_for_dense_if_cpu, eps)].  The dense
    call does not pass [eps] on: it runs with its default [1e-10]. *)
Definition soft_weighted_medoid_k_neighborhood
    (x_is_cuda : bool) (A : sparse_arg W) (x : list (list W)) (k : nat) (temperature : W)
    (with_weight_correction : bool) (threshold_for_dense_if_cpu : nat) (eps : W)
  : result (list (list W)) :=
  let n := length x in
  if n <? k then
    if with_weight_correction then Err NotImplementedError
    else soft_weighted_medoid_of_arg A x temperature
  else if negb x_is_cuda && (n <? threshold_for_dense_if_cpu) then
    dense_cpu_soft_weighted_medoid_k_neighborhood
      A x k temperature with_weight_correction (nofQ (1 # 10000000000))
  else
    sparse_soft_weighted_medoid_k_neighborhood
      x_is_cuda A x k temperature with_weight_correction eps.
End RobustMeans.

(** ** The weighted dimension-wise median *)

Section DimMedian.
Context {W : Type} {N : Num W}.
Variable lib : backend W.

(** The number of entries of [l] that satisfy [p]. *)
Definition count_if {A : Type} (p : A -> bool) (l : list A) : nat := length (filter p l).

(** One entry of [weighted_dimwise_median_cpu]: row [row] of the
    adjacency, feature dimension [d].  Indexing [index_x] with a median
    position past the end is an [IndexError]. *)
Definition median_entry (x : list (list W)) (row : list W) (d : nat) : result W :=
  let index_x := torch_sort lib (column x d) in
  let cum_sorted_weights := cumsum (map (fun j => nth j row nzero) index_x) in
  let weight_sum_per_node := nmax_list nzero cum_sorted_weights in
  let median_element :=
    count_if (fun c => nltb c (ndiv weight_sum_per_node (nadd none none)))
             cum_sorted_weights in
  j <- of_option IndexError (nth_error index_x median_element) ;;
  let x_selected := nth d (nth j x []) nzero in
  Ok (nmul weight_sum_per_node x_selected).

(** [weighted_dimwise_median_cpu(A, x)] *)
Definition weighted_dimwise_median_cpu (A : adjacency W) (x : list (list W))
  : result (list (list W)) :=
  let A_cpu_dense := densify A in
  mapM (fun row => mapM (median_entry x row) (seq 0 (ncols x))) A_cpu_dense.

(** [weighted_dimwise_median(A, x)]: on a CUDA device the median indices
    come from the kernel, and the row sums are expanded to the shape of
    [x]: [a_row_sum.view(-1, 1).expand(N, D)] needs one row sum per node,
    or a single one, which then serves every node. *)
Definition weighted_dimwise_median (A_is_cuda : bool) (A : coo W) (x : list (list W))
  : result (list (list W)) :=
  if negb A_is_cuda then weighted_dimwise_median_cpu (SparseAdj A) x
  else
    let n := length x in
    let d := ncols x in
    let median_idx := cuda_dimmedian_idx lib x (A_rows A) (A_cols A) (A_values A) in
    x_selected <-
      mapM (fun i =>
              mapM (fun c =>
                      j <- of_option IndexError (nth_error (nth i median_idx []) c) ;;
                      r <- of_option IndexError (nth_error x j) ;;
                      Ok (nth c r nzero))
                   (seq 0 d))
           (seq 0 n) ;;
    match A_rows A with
    | [] => Err RuntimeError      (* no entries: [index.max()] of an empty tensor raises in
                                     torch_scatter's own size computation; a version that
                                     returns an empty tensor leaves [k_per_row] empty *)
    | _ =>
        let a_row_sum := scatter_sum (A_values A) (A_rows A) in
        if length a_row_sum =? n
        then Ok (map (fun p => scale (fst p) (snd p)) (combine a_row_sum x_selected))
        else if length a_row_sum =? 1
        then Ok (map (scale (nth 0 a_row_sum nzero)) x_selected)
        else Err RuntimeError
    end.
End DimMedian.

(** ** The soft median ([soft_median]) *)

(** Integer powers and roots of floating-point values. *)
Class Power (W : Type) : Type := {
  nofnat : nat -> W;          (* an int turned into a float *)
  nroot : nat -> W -> W;      (* [s ** (1 / p)] for [p >= 1] and [s >= 0] *)
}.

#[export] Instance Power_R : Power R := {|
  nofnat := INR;
  nroot := fun p s => if Req_dec_T s 0 then 0%R else Rpower s (/ INR p);
|}.

Section SoftMedian.
Context {W : Type} {N : Num W} {F : Floating W} {P : Power W}.
Variable lib : backend W.

(** [a ** p] for a non-negative integer [p]. *)
Fixpoint npow (a : W) (p : nat) : W :=
  match p with
  | O => none
  | S p' => nmul a (npow a p')
  end.

(** [torch.norm(v, p=p)] *)
Definition pnorm (p : nat) (v : list W) : W :=
  nroot p (nsum (map (fun a => npow (nabs a) p) v)).

(** [torch_scatter.scatter_max(src, index)[0]]: per slot the largest of
    its entries. *)
Definition scatter_max (src : list W) (index : list nat) : list W :=
  map (fun i => nmax_list nzero (map snd (filter (fun p => fst p =? i) (combine index src))))
      (seq 0 (scatter_size index)).

(** [torch_scatter.composite.scatter_softmax(src, index, eps=eps)]: the
    soft maximum within every slot, each slot recentred by its largest
    entry, with [eps] added to the normalising sum. *)
Definition scatter_softmax (src : list W) (index : list nat) (eps : W) : list W :=
  let max_value_per_index := scatter_max src index in
  let recentered_scores_exp :=
    map (fun p => nexp (nsub (snd p) (nth (fst p) max_value_per_index nzero)))
        (combine index src) in
  let sum_per_index := scatter_sum recentered_scores_exp index in
  map (fun p => ndiv (snd p) (nadd (nth (fst p) sum_per_index nzero) eps))
      (combine index recentered_scores_exp).

(** The weights [soft_median] gives the entries of the adjacency, from
    their distances to the median of their row: the soft maximum of
    [-distances / temperature] within every row, times the weight of the
    entry, renormalised so that the row keeps its weight. *)
Definition final_adj_weights (row_index : list nat)
    (edge_weights weight_sums distances : list W) (temperature eps : W) : list W :=
  let soft_weights :=
    scatter_softmax (map (neg_over temperature) distances) row_index eps in
  let weighted_values :=
    map (fun sw => nmul (fst sw) (snd sw)) (combine soft_weights edge_weights) in
  let row_sum_weighted_values := scatter_sum weighted_values row_index in
  map (fun rv => nmul (ndiv (snd rv) (nth (fst rv) row_sum_weighted_values nzero))
                      (nth (fst rv) weight_sums nzero))
      (combine row_index weighted_values).

(** [soft_median(A, x, p, temperature, eps)].  The median indices come
    from the CUDA kernel whatever the device of [A]; indexing with a row,
    column or median index that is out of range is an error; [1 / p]
    raises for [p = 0] once the norm has been taken. *)
Definition soft_median (A : coo W) (x : list (list W)) (p : nat) (temperature eps : W)
  : result (list (list W)) :=
  let n := length x in
  let d := ncols x in
  let row_index := A_rows A in
  let col_index := A_cols A in
  let edge_weights := A_values A in
  match row_index with
  | [] => Err RuntimeError      (* [index.max()] of an empty tensor *)
  | _ =>
      let weight_sums := scatter_sum edge_weights row_index in
      let median_idx := cuda_dimmedian_idx lib x row_index col_index edge_weights in
      x_median <-
        mapM (fun i =>
                mapM (fun c =>
                        j <- of_option IndexError (nth_error (nth i median_idx []) c) ;;
                        r <- of_option IndexError (nth_error x j) ;;
                        Ok (nth c r nzero))
                     (seq 0 d))
             (seq 0 n) ;;
      x_median_rows <- mapM (fun r => of_option IndexError (nth_error x_median r)) row_index ;;
      x_cols <- mapM (fun c => of_option IndexError (nth_error x c)) col_index ;;
      if p =? 0 then Err ZeroDivisionError
      else
        let distances :=
          map (fun uv => ndiv (pnorm p (vsub (fst uv) (snd uv))) (nroot p (nofnat d)))
              (combine x_median_rows x_cols) in
        Ok (spmm d row_index (map Z.of_nat col_index)
                 (final_adj_weights row_index edge_weights weight_sums distances
                                    temperature eps) n x)
  end.

(** Row [i] of [x_median] and the distances of the entries to the median
    of their row, for indices that are in range. *)
Definition median_row (A : coo W) (x : list (list W)) (i : nat) : list W :=
  let median_idx := cuda_dimmedian_idx lib x (A_rows A) (A_cols A) (A_values A) in
  map (fun c => nth c (nth (nth c (nth i median_idx []) 0) x []) nzero) (seq 0 (ncols x)).

Definition median_distances (A : coo W) (x : list (list W)) (p : nat) : list W :=
  map (fun rc => ndiv (pnorm p (vsub (median_row A x (fst rc)) (nth (snd rc) x [])))
                      (nroot p (nofnat (ncols x))))
      (combine (A_rows A) (A_cols A)).
End SoftMedian.

(** ** The dense GCN of the attacks ([models.DenseGCN]) *)

Section DenseGCN.
Context {W : Type} {N : Num W} {F : Floating W}.

(** [torch.triu(adj, diagonal=1)]: the entries above the diagonal. *)
Definition triu1 (adj : list (list W)) : list (list W) :=
  map (fun i => map (fun j => if i <? j then mget adj i j else nzero) (seq 0 (ncols adj)))
      (seq 0 (length adj)).

(** [m.T] *)
Definition transpose (m : list (list W)) : list (list W) :=
  map (fun j => column m j) (seq 0 (ncols m)).

(** [a + b] for two matrices of the same shape. *)
Definition madd (a b : list (list W)) : list (list W) :=
  map (fun p => vadd (fst p) (snd p)) (combine a b).

(** [a @ b] *)
Definition matmul (a b : list (list W)) : list (list W) :=
  map (fun row => row_matmul (ncols b) row b) a.

(** [torch.diag(v)]: the square matrix with [v] on its diagonal. *)
Definition diag (v : list W) : list (list W) :=
  map (fun i => map (fun j => if i =? j then nth i v nzero else nzero) (seq 0 (length v)))
      (seq 0 (length v)).

(** [torch.pow(s, -1 / 2)] *)
Definition pow_neg_half (s : W) : W := ndiv none (nsqrt s).

(** The first two lines of [normalize_dense_adjacency_matrix]: the upper
    triangle mirrored to both sides, with ones on the diagonal. *)
Definition mirror_upper (adj : list (list W)) : list (list W) :=
  let adj_norm := madd (triu1 adj) (transpose (triu1 adj)) in
  map (fun i => upd (nth i adj_norm []) i none) (seq 0 (length adj)).

(** [DenseGCN.normalize_dense_adjacency_matrix(adj)], for a square
    matrix. *)
Definition normalize_dense_adjacency_matrix (adj : list (list W)) : list (list W) :=
  let adj_norm := mirror_upper adj in
  let deg := diag (map (fun row => pow_neg_half (nsum row)) adj_norm) in
  matmul (matmul deg adj_norm) deg.
End DenseGCN.

(** ** Stand-ins for the absent conversions

    One way to split a sparse tensor into its weights and the rest, and to
    put it together again; the theorems on chunking hold for any pair of
    conversions that round-trips, and the examples run with this one. *)

Definition st_to_tuple {W : Type} (a : SparseTensor W)
  : list W * (list (list nat) * nat * bool) :=
  (concat (map (map snd) (st_rows a)),
   (map (map fst) (st_rows a), st_ncols a, st_requires_grad a)).

Fixpoint fill_rows {W : Type} (cols : list (list nat)) (w : list W) : list (list (nat * W)) :=
  match cols with
  | [] => []
  | r :: cols' => combine r (firstn (length r) w) :: fill_rows cols' (skipn (length r) w)
  end.

Definition st_of_tuple {W : Type} (w : list W) (rest : list (list nat) * nat * bool)
  : SparseTensor W :=
  let '(cols, nc, rg) := rest in
  {| st_rows := fill_rows cols w; st_ncols := nc; st_requires_grad := rg |}.

(** The inputs of the examples: the adjacency and features of the
    test-suite, and a graph of five nodes for the chunking driver. *)
Definition test_A : coo Q :=
  {| A_rows := [0; 0; 0; 1; 1; 2; 2; 3; 3; 3];
     A_cols := [0; 1; 3; 0; 1; 2; 3; 0; 2; 3];
     A_values := [5 # 10; 3 # 10; 4 # 10; 3 # 10; 2 # 10; 9 # 10; 3 # 10; 4 # 10; 4 # 10; 4 # 10]%Q;
     A_size := 4 |}.

Definition test_x : list (list Q) :=
  [[-10 # 1; 10 # 1; 10 # 1]; [-1 # 1; 1 # 1; 1 # 1]; [0; 0; 0]; [10 # 1; -10 # 1; -10 # 1]]%Q.

Definition five_adj : SparseTensor Q :=
  {| st_rows := [[(0, 1%Q)]; [(1, 1%Q)]; [(2, 1%Q)]; [(3, 1%Q)]; [(4, 1%Q)]];
     st_ncols := 5;
     st_requires_grad := true |}.

Definition five_x : list (list Q) := [[1 # 1]; [2 # 1]; [3 # 1]; [4 # 1]; [5 # 1]]%Q.

(** ** Notions of the statements *)

(** The squared Euclidean distance of two rows. *)
Definition sqdist (u v : list R) : R := nsum (map (fun a => (a * a)%R) (vsub u v)).

Section PartialDistanceNotions.
Context {W : Type} {N : Num W} {F : Floating W}.

(** Row [z] of [x], for an index that is in range. *)
Definition xrow (x : list (list W)) (z : Z) : list W := nth (Z.to_nat z) x [].

(** What [partial_distance_matrix] puts at a position whose pair of
    indices is [p]: zero next to a sentinel, else the norm of the
    difference of the two rows, the row of the smaller index first. *)
Definition computed_entry (x : list (list W)) (p : Z * Z) : W :=
  if has_index p
  then norm (vsub (xrow x (fst (symmetric_order p))) (xrow x (snd (symmetric_order p))))
  else nzero.
End PartialDistanceNotions.

(** The value [weighted_dimwise_median_cpu] computes for a row of the
    adjacency and a feature dimension: the row's total weight times the
    feature at the selected position of the sorted order. *)
Definition median_value (lib : backend R) (x : list (list R)) (row : list R) (d : nat) : R :=
  let index_x := torch_sort lib (column x d) in
  let cum := cumsum (map (fun j => nth j row 0%R) index_x) in
  let p := count_if (fun c => Rltb c (nsum row / 2)) cum in
  (nsum row * nth d (nth (nth p index_x 0%nat) x []) 0)%R.

(** The call does not end in [NotImplementedError]. *)
Definition implemented {A : Type} (r : result A) : Prop := r <> Err NotImplementedError.

(** A matrix of the float model all of whose entries are finite. *)
Definition finite_matrix (m : list (list fval)) : Prop :=
  forall i j, exists r, nth j (nth i m []) (Finite 0) = Finite r.

(** Rows of at most [d] finite entries of magnitude at most [B]. *)
Definition bounded_matrix (B : R) (d : nat) (x : list (list fval)) : Prop :=
  forall r, In r x ->
    length r <= d /\ forall a, In a r -> exists v, a = Finite v /\ (Rabs v <= B)%R.

(** The default [eps] of the soft k-medoid, [1e-10]. *)
Definition eps_default : R := Q2R (1 # 10000000000).

(** Rows of [d] finite floats. *)
Definition finite_features (d : nat) (x : list (list fval)) : Prop :=
  forall r, In r x -> length r = d /\ forall a, In a r -> exists v, a = Finite v.

(** The total weight that [row] gives to the nodes whose feature (in
    [col], one per node) satisfies [p]. *)
Definition weight_where (p : R -> bool) (row col : list R) : R :=
  nsum (map fst (filter (fun wv => p (snd wv)) (combine row col))).

(** The number of entries of [rows] below [i]: where the entries of row
    [i] start in a row index that is in order. *)
Definition row_start (rows : list nat) (i : nat) : nat :=
  length (filter (fun r => r <? i) rows).

Section TopKNotions.
Context {W : Type} {N : Num W}.
Variable lib : backend W.

(** The number of entries the selector takes from row [i]. *)
Definition k_of_row (rows : list nat) (k i : nat) : nat :=
  Nat.min (count_occ Nat.eq_dec rows i) k.

(** The positions (into the COO lists) that the selector takes for row
    [i] of a row index that is in order, best weight first. *)
Definition selected (rows : list nat) (vals : list W) (k i : nat) : list nat :=
  let s := row_start rows i in
  map (fun c => s + c)
      (firstn (k_of_row rows k i)
              (np_argsort lib (map nopp (slice vals s (row_start rows (S i)))))).
End TopKNotions.

(** [sel] holds the entries of row [i] that a top-k selection takes:
    positions into the COO lists of [min(k, out-degree)] different entries
    of row [i], by weight from the largest on, such that no entry of the
    row that is left out weighs more than one that is taken. *)
Definition is_top_k_of_row (rows : list nat) (vals : list R) (k i : nat) (sel : list nat)
  : Prop :=
  length sel = Nat.min (count_occ Nat.eq_dec rows i) k
  /\ NoDup sel
  /\ (forall e, In e sel -> e < length rows /\ nth e rows 0 = i)
  /\ StronglySorted (fun e1 e2 => (nth e2 vals 0 <= nth e1 vals 0)%R) sel
  /\ (forall e e', In e sel -> e' < length rows -> nth e' rows 0 = i -> ~ In e' sel ->
                   (nth e' vals 0 <= nth e vals 0)%R).

(** The weighted distance sum of candidate [j] over the top-k
    neighbourhood [idx] of a row. *)
Definition neighbourhood_sum {W : Type} {N : Num W} (l2 : list (list W)) (row : list W)
    (idx : list nat) (j : nat) : W :=
  nsum (map (fun b => nmul (nth b row nzero) (mget l2 b j)) idx).

(** The entries of slot [i]. *)
Definition slot (idx : list nat) (i : nat) : list nat :=
  filter (fun e => nth e idx 0 =? i) (seq 0 (length idx)).

(** Entry (i, j) of the matrix that [normalize_dense_adjacency_matrix]
    normalises: the entry of [adj] above the diagonal that belongs to the
    pair, and 1 on the diagonal. *)
Definition mirrored (adj : list (list R)) (i j : nat) : R :=
  if i =? j then 1%R else if i <? j then mget adj i j else mget adj j i.

(** The degree of node [i] in that matrix. *)
Definition mirrored_degree (adj : list (list R)) (i : nat) : R :=
  nsum (map (mirrored adj i) (seq 0 (length adj))).

(** ** Further inputs *)

(** The regression case of the specification (four nodes, the last one
    without edges) with the temperature of the test-suite. *)
Definition disconnected_A : list (list fval) :=
  map (map Finite)
      [[5 / 10; 3 / 10; 0; 0]; [3 / 10; 2 / 10; 0; 0]; [0; 0; 9 / 10; 0]; [0; 0; 0; 0]]%R.

Definition disconnected_x : list (list fval) :=
  map (map Finite) [[-10; 10; 10]; [-1; 1; 1]; [0; 0; 0]; [10; -10; -10]]%R.

(** The regression case as a sparse matrix: the adjacency of
    [disconnected_A], whose node 3 has no entry. *)
Definition disconnected_coo : coo fval :=
  {| A_rows := [0; 0; 1; 1; 2]; A_cols := [0; 1; 0; 1; 2];
     A_values := map Finite [5 / 10; 3 / 10; 3 / 10; 2 / 10; 9 / 10]%R;
     A_size := 4 |}.

(** Nodes 0 and 2 have a self-loop of weight 1, node 1 has no edge. *)
Definition gap_A : coo R :=
  {| A_rows := [0; 2]; A_cols := [0; 2]; A_values := [1; 1]%R; A_size := 3 |}.

Definition gap_x : list (list R) := [[1]; [2]; [3]]%R.

(** Three nodes, one of them with a feature at the float maximum; every
    node has the neighbours 1 and 2. *)
Definition overflow_A : adjacency R := DenseAdj [[0; 1; 1]; [0; 1; 1]; [0; 1; 1]]%R.
Definition overflow_x : list (list R) := [[1]; [0]; [float32_max]]%R.

(** Two nodes with the same features, both rows with the weights 3/4 and
    1/4. *)
Definition twin_A : coo R :=
  {| A_rows := [0; 0; 1; 1]; A_cols := [0; 1; 0; 1];
     A_values := [3 / 4; 1 / 4; 3 / 4; 1 / 4]%R; A_size := 2 |}.

Definition twin_x : list (list R) := [[5]; [5]]%R.

(** Three nodes at the corners of an equilateral triangle; row 0 has the
    weights 1/2, 1/3 and 1/6. *)
Definition equi_A : coo R :=
  {| A_rows := [0; 0; 0; 1; 2]; A_cols := [0; 1; 2; 1; 2];
     A_values := [1 / 2; 1 / 3; 1 / 6; 1; 1]%R; A_size := 3 |}.

Definition equi_x : list (list R) := [[100; 0; 0]; [0; 100; 0]; [0; 0; 100]]%R.


(** A stand-in for the absent median kernel in the examples: it names
    node 0 as the median of every row and dimension. *)
Definition first_node_kernel {W : Type} (x : list (list W)) : list (list nat) :=
  repeat (repeat 0 (length (nth 0 x []))) (length x).

(** Two nodes with one feature; node 0 has the neighbours 0 and 1. *)
Definition pair_A : coo R :=
  {| A_rows := [0; 0; 1]; A_cols := [0; 1; 1]; A_values := [1; 3; 2]%R; A_size := 2 |}.
Definition pair_x : list (list R) := [[0]; [4]]%R.

(** Node 0 with the neighbours 0 and 1; node 1 has no entry. *)
Definition lone_A : coo R :=
  {| A_rows := [0; 0]; A_cols := [0; 1]; A_values := [1; 3]%R; A_size := 2 |}.

(** A graph on three nodes whose last node has no entry. *)
Definition short_A : coo R :=
  {| A_rows := [0; 1]; A_cols := [1; 0]; A_values := [1; 1]%R; A_size := 3 |}.
Definition short_x : list (list R) := [[0]; [4]; [2]]%R.

(* ================================================================== *)
(** * Part II: theorems *)
(* ================================================================== *)

(** ** The insertion sort is a library sort *)

Section InsertionSorter.
Variable K : Type.
Variable lt : K -> K -> bool.
Hypothesis lt_asym : forall a b, lt a b = true -> lt b a = false.
Hypothesis le_trans : forall a b c, lt b a = false -> lt c b = false -> lt c a = false.

Let pair_le (p q : nat * K) : Prop := lt (snd q) (snd p) = false.

Lemma insert_key_perm x s : Permutation (insert_key lt x s) (x :: s).
Proof.
  induction s as [|y s IH]; simpl; [reflexivity|].
  destruct (lt (snd y) (snd x)); [|reflexivity].
  rewrite IH. apply perm_swap.
Qed.

Lemma insert_key_sorted x s :
  StronglySorted pair_le s -> StronglySorted pair_le (insert_key lt x s).
Proof.
  induction 1 as [|y s Hs IH Hy]; simpl.
  - repeat constructor.
  - destruct (lt (snd y) (snd x)) eqn:E.
    + constructor; [exact IH|].
      apply (Permutation_Forall (x := x :: s)).
      * symmetry. apply insert_key_perm.
      * constructor; [|exact Hy]. unfold pair_le. now apply lt_asym.
    + constructor; [constructor; assumption|].
      constructor; [exact E|].
      eapply Forall_impl; [|exact Hy].
      intros z Hz. unfold pair_le in *. eapply le_trans; eassumption.
Qed.

Lemma fold_insert_perm ps : Permutation (fold_right (insert_key lt) [] ps) ps.
Proof.
  induction ps as [|p ps IH]; simpl; [reflexivity|].
  rewrite insert_key_perm. now constructor.
Qed.

Lemma fold_insert_sorted ps : StronglySorted pair_le (fold_right (insert_key lt) [] ps).
Proof.
  induction ps as [|p ps IH]; simpl; [constructor|]. now apply insert_key_sorted.
Qed.

Lemma combine_seq_lookup (l : list K) (b : nat) p :
  In p (combine (seq b (length l)) l) -> nth_error l (fst p - b) = Some (snd p) /\ b <= fst p.
Proof.
  revert b. induction l as [|a l IH]; simpl; intros b Hin; [contradiction|].
  destruct Hin as [<-|Hin]; simpl.
  - rewrite Nat.sub_diag. auto.
  - destruct (IH _ Hin) as [H1 H2]. split; [|lia].
    replace (fst p - b) with (S (fst p - S b)) by lia. exact H1.
Qed.

Lemma map_fst_combine_seq (l : list K) b : map fst (combine (seq b (length l)) l) = seq b (length l).
Proof.
  revert b. induction l as [|a l IH]; simpl; intros b; [reflexivity|]. now rewrite IH.
Qed.

Lemma sorted_pairs_keys (l : list K) s :
  Forall (fun p => nth_error l (fst p) = Some (snd p)) s ->
  StronglySorted pair_le s -> StronglySorted (key_le lt l) (map fst s).
Proof.
  intros Hall Hs. induction Hs as [|p s Hs IH Hp]; simpl; [constructor|].
  inversion Hall as [|? ? Hp0 Hall']; subst.
  constructor; [now apply IH|].
  rewrite Forall_map. rewrite Forall_forall in *.
  intros q Hq ki kj Hi Hj. rewrite Hp0 in Hi. rewrite (Hall' _ Hq) in Hj.
  injection Hi as <-. injection Hj as <-. now apply Hp.
Qed.

Lemma insertion_argsort_perm l :
  Permutation (insertion_argsort lt l) (seq 0 (length l)).
Proof.
  unfold insertion_argsort. rewrite <- (map_fst_combine_seq l 0) at 2.
  apply Permutation_map, fold_insert_perm.
Qed.

Lemma insertion_argsort_sorted l :
  StronglySorted (key_le lt l) (insertion_argsort lt l).
Proof.
  unfold insertion_argsort. apply sorted_pairs_keys; [|apply fold_insert_sorted].
  apply (Permutation_Forall (x := combine (seq 0 (length l)) l)).
  - symmetry. apply fold_insert_perm.
  - rewrite Forall_forall. intros p Hp.
    destruct (combine_seq_lookup l 0 p Hp) as [H _]. now rewrite Nat.sub_0_r in H.
Qed.

Definition insertion_sorter : sorter lt :=
  {| run_sort := insertion_argsort lt;
     sort_perm := insertion_argsort_perm;
     sort_sorted := insertion_argsort_sorted |}.
End InsertionSorter.

Lemma Rltb_true a b : Rltb a b = true <-> (a < b)%R.
Proof. unfold Rltb. destruct (Rlt_dec a b); split; intros; try discriminate; tauto. Qed.

Lemma Rltb_false a b : Rltb a b = false <-> (b <= a)%R.
Proof.
  unfold Rltb. destruct (Rlt_dec a b); split; intros; try discriminate; try lra; reflexivity.
Qed.

Lemma Qltb_true a b : Qltb a b = true <-> (a < b)%Q.
Proof.
  unfold Qltb. rewrite negb_true_iff, <- not_true_iff_false, Qle_bool_iff.
  split; [apply Qnot_le_lt | apply Qlt_not_le].
Qed.

Lemma Qltb_false a b : Qltb a b = false <-> (b <= a)%Q.
Proof. unfold Qltb. now rewrite negb_false_iff, Qle_bool_iff. Qed.

Definition nat_sorter : sorter Nat.ltb.
Proof.
  apply insertion_sorter.
  - intros a b. rewrite Nat.ltb_lt, Nat.ltb_ge. lia.
  - intros a b c. rewrite !Nat.ltb_ge. lia.
Defined.

Definition R_sorter : sorter (@nltb R _).
Proof.
  apply insertion_sorter; simpl.
  - intros a b. rewrite Rltb_true, Rltb_false. lra.
  - intros a b c. rewrite !Rltb_false. lra.
Defined.

Definition R_sorter_desc : sorter (fun a b : R => nltb b a).
Proof.
  apply insertion_sorter; simpl.
  - intros a b. rewrite Rltb_true, Rltb_false. lra.
  - intros a b c. rewrite !Rltb_false. lra.
Defined.

Definition Q_sorter : sorter (@nltb Q _).
Proof.
  apply insertion_sorter; simpl.
  - intros a b. rewrite Qltb_true, Qltb_false. apply Qlt_le_weak.
  - intros a b c. rewrite !Qltb_false. intros H1 H2. eapply Qle_trans; eassumption.
Defined.

Definition Q_sorter_desc : sorter (fun a b : Q => nltb b a).
Proof.
  apply insertion_sorter; simpl.
  - intros a b. rewrite Qltb_true, Qltb_false. apply Qlt_le_weak.
  - intros a b c. rewrite !Qltb_false. intros H1 H2. eapply Qle_trans; eassumption.
Defined.

(** A backend over the rationals and one over the reals: every theorem
    below that quantifies over backends has these to apply to.  The CUDA
    kernels are absent; the stand-ins return nothing. *)
Definition backend_Q : backend Q :=
  {| np_argsort_int := nat_sorter;
     np_argsort := Q_sorter;
     torch_sort := Q_sorter;
     torch_topk_order := Q_sorter_desc;
     cuda_topk := fun _ _ _ _ _ => ([], []);
     cuda_dimmedian_idx := fun _ _ _ _ => [] |}.

Definition backend_R : backend R :=
  {| np_argsort_int := nat_sorter;
     np_argsort := R_sorter;
     torch_sort := R_sorter;
     torch_topk_order := R_sorter_desc;
     cuda_topk := fun _ _ _ _ _ => ([], []);
     cuda_dimmedian_idx := fun _ _ _ _ => [] |}.

(** The same for the float model. *)
Lemma ftotal_ltb_extends (a b : fval) : ftotal_ltb a b = false -> fltb a b = false.
Proof. destruct a, b; cbn; auto. Qed.

Lemma ftotal_ltb_asym (a b : fval) : ftotal_ltb a b = true -> ftotal_ltb b a = false.
Proof.
  destruct a, b; cbn; try reflexivity; try discriminate.
  rewrite Rltb_true, Rltb_false. lra.
Qed.

Lemma ftotal_ltb_trans (a b c : fval) :
  ftotal_ltb b a = false -> ftotal_ltb c b = false -> ftotal_ltb c a = false.
Proof.
  destruct a, b, c; cbn; try reflexivity; try discriminate.
  rewrite !Rltb_false. lra.
Qed.

Lemma StronglySorted_weaken {A : Type} (R1 R2 : A -> A -> Prop) (l : list A) :
  (forall a b, R1 a b -> R2 a b) -> StronglySorted R1 l -> StronglySorted R2 l.
Proof.
  intros H. induction 1; constructor; auto.
  eapply Forall_impl; [|eassumption]. intros b. apply H.
Qed.

(** A sort by an order that contains [lt2] is a sort by [lt2]. *)
Definition sorter_weaken {K : Type} (lt lt2 : K -> K -> bool)
    (H : forall a b, lt b a = false -> lt2 b a = false) (s : sorter lt) : sorter lt2.
Proof.
  refine {| run_sort := run_sort s; sort_perm := sort_perm s; sort_sorted := _ |}.
  intros l. eapply StronglySorted_weaken; [|apply (sort_sorted s)].
  intros i j Hij ki kj Hi Hj. apply H. eapply Hij; eassumption.
Defined.

Definition fval_sorter : sorter (@nltb fval _).
Proof.
  apply (@sorter_weaken _ ftotal_ltb); [exact (fun a b => ftotal_ltb_extends b a)|].
  apply insertion_sorter.
  - exact ftotal_ltb_asym.
  - exact ftotal_ltb_trans.
Defined.

Definition fval_sorter_desc : sorter (fun a b : fval => nltb b a).
Proof.
  apply (@sorter_weaken _ (fun a b => ftotal_ltb b a)); [exact ftotal_ltb_extends|].
  apply insertion_sorter.
  - intros a b H. now apply ftotal_ltb_asym.
  - intros a b c H1 H2. exact (ftotal_ltb_trans _ _ _ H2 H1).
Defined.

Definition backend_fval : backend fval :=
  {| np_argsort_int := nat_sorter;
     np_argsort := fval_sorter;
     torch_sort := fval_sorter;
     torch_topk_order := fval_sorter_desc;
     cuda_topk := fun _ _ _ _ _ => ([], []);
     cuda_dimmedian_idx := fun _ _ _ _ => [] |}.

(** ** Lists and results *)

Lemma mapM_ok {A B : Type} (f : A -> result B) (g : A -> B) (l : list A) :
  (forall a, In a l -> f a = Ok (g a)) -> mapM f l = Ok (map g l).
Proof.
  induction l as [|a l IH]; simpl; intros H; [reflexivity|].
  rewrite (H a) by now left. simpl. rewrite IH by (intros; apply H; now right).
  reflexivity.
Qed.

Lemma mapM_length {A B : Type} (f : A -> result B) (l : list A) (r : list B) :
  mapM f l = Ok r -> length r = length l.
Proof.
  revert r. induction l as [|a l IH]; simpl; intros r H.
  - now injection H as <-.
  - destruct (f a) as [b|]; simpl in H; [|discriminate].
    destruct (mapM f l) as [bs|]; simpl in H; [|discriminate].
    injection H as <-. simpl. f_equal. now apply IH.
Qed.

Lemma firstn_add_skipn {A : Type} (a b : nat) (l : list A) :
  firstn a l ++ firstn b (skipn a l) = firstn (a + b) l.
Proof.
  revert l. induction a as [|a IH]; intros l; simpl; [reflexivity|].
  destruct l as [|h l]; simpl.
  - now rewrite firstn_nil.
  - now rewrite IH.
Qed.

Lemma combine_app {A B : Type} (l1 l2 : list A) (r1 r2 : list B) :
  length l1 = length r1 -> combine (l1 ++ l2) (r1 ++ r2) = combine l1 r1 ++ combine l2 r2.
Proof.
  revert r1. induction l1 as [|a l1 IH]; intros [|b r1] H; simpl in *; try discriminate; auto.
  f_equal. apply IH. lia.
Qed.

Lemma nth_upd_same {A : Type} (l : list A) (i : nat) (v d : A) :
  i < length l -> nth i (upd l i v) d = v.
Proof.
  revert i. induction l as [|a l IH]; intros [|i] H; simpl in *; try lia; auto.
  apply IH. lia.
Qed.

Lemma nth_upd_other {A : Type} (l : list A) (i j : nat) (v d : A) :
  i <> j -> nth j (upd l i v) d = nth j l d.
Proof.
  revert i j. induction l as [|a l IH]; intros [|i] [|j] H; simpl; auto; try lia.
Qed.

Lemma upd_length {A : Type} (l : list A) (i : nat) (v : A) : length (upd l i v) = length l.
Proof.
  revert i. induction l as [|a l IH]; intros [|i]; simpl; auto.
Qed.

(** ** The chunking driver (C5) *)

Section ChunkerFacts.

(** The blocks [Chunker.__init__] computes for [m + 1] chunks: [m] blocks
    of [chunk_size] rows and a last one that ends at [n]. *)
Lemma range_succ (m : nat) : range (Z.of_nat (S m)) = range (Z.of_nat m) ++ [Z.of_nat m].
Proof.
  unfold range. rewrite !Nat2Z.id, seq_S, map_app. reflexivity.
Qed.

Lemma Chunker_init_blocks (n : Z) (m : nat) (rg ds : bool) :
  exists c,
    Chunker_init n (Z.of_nat (S m)) rg ds = Ok c /\
    requires_grad c = rg /\
    chunk_size c = ceil_div n (Z.of_nat (S m)) /\
    combine (lower c) (upper c) =
      map (fun j => (j * chunk_size c, (j + 1) * chunk_size c)%Z) (range (Z.of_nat m))
      ++ [(Z.of_nat m * chunk_size c, n)%Z].
Proof.
  unfold Chunker_init.
  replace (Z.of_nat (S m) =? 0)%Z with false by (symmetry; apply Z.eqb_neq; lia).
  set (cs := ceil_div n (Z.of_nat (S m))).
  rewrite range_succ, !map_app. simpl map.
  unfold set_last.
  destruct (map (fun chunk => ((chunk + 1) * cs)%Z) (range (Z.of_nat m))
            ++ [((Z.of_nat m + 1) * cs)%Z]) eqn:E.
  { destruct (map _ (range (Z.of_nat m))); discriminate. }
  rewrite <- E. rewrite removelast_last. simpl.
  eexists. split; [reflexivity|]. simpl. repeat split.
  rewrite combine_app by now rewrite !length_map.
  simpl. f_equal.
  clear E. induction (range (Z.of_nat m)) as [|j js IH]; simpl; [reflexivity|].
  now rewrite IH.
Qed.

(** [math.ceil(n / m)] for positive [m]. *)
Lemma ceil_div_spec (n m : Z) :
  (0 < m)%Z -> ((ceil_div n m - 1) * m < n <= ceil_div n m * m)%Z.
Proof.
  intros Hm. unfold ceil_div.
  pose proof (Z.div_mod (- n) m ltac:(lia)) as H.
  pose proof (Z.mod_pos_bound (- n) m Hm) as H'.
  nia.
Qed.

Lemma ceil_div_pos (n m : Z) : (0 < n)%Z -> (0 < m)%Z -> (0 < ceil_div n m)%Z.
Proof.
  intros Hn Hm. pose proof (ceil_div_spec n Hm). nia.
Qed.
End ChunkerFacts.

Section ChunkedAggregation.
Context {W : Type} {N : Num W}.
Variable tuple_rest : Type.
Variable sparse_tensor_to_tuple : SparseTensor W -> list W * tuple_rest.
Variable tuple_to_sparse_tensor : list W -> tuple_rest -> SparseTensor W.

Lemma slice_rows_ok (adj : SparseTensor W) (l u : Z) :
  (0 <= l <= u)%Z -> (u <= Z.of_nat (length (st_rows adj)))%Z ->
  exists a, slice_rows adj l u = Ok a /\
            st_rows a = firstn (Z.to_nat (u - l)) (skipn (Z.to_nat l) (st_rows adj)).
Proof.
  intros H1 H2. unfold slice_rows.
  replace (l <? 0)%Z with false by (symmetry; apply Z.ltb_ge; lia).
  replace (u <? 0)%Z with false by (symmetry; apply Z.ltb_ge; lia).
  rewrite Z.max_l by lia.
  replace ((0 <=? l) && (l + (u - l) <=? Z.of_nat (length (st_rows adj))))%Z with true.
  - eexists. split; reflexivity.
  - symmetry. apply andb_true_iff. split; apply Z.leb_le; lia.
Qed.

(** The first [m] blocks of [cs] rows cover the first [m * cs] rows. *)
Lemma full_blocks_concat {A : Type} (rows : list A) (cs : Z) (m : nat) :
  (0 <= cs)%Z ->
  concat (map (fun lu : Z * Z =>
                 firstn (Z.to_nat (snd lu - fst lu)) (skipn (Z.to_nat (fst lu)) rows))
              (map (fun j => (j * cs, (j + 1) * cs)%Z) (range (Z.of_nat m))))
  = firstn (m * Z.to_nat cs) rows.
Proof.
  intros Hcs. induction m as [|m IH].
  - reflexivity.
  - rewrite range_succ, !map_app, concat_app, IH. simpl. rewrite app_nil_r.
    replace (Z.to_nat ((Z.of_nat m + 1) * cs - Z.of_nat m * cs)) with (Z.to_nat cs)
      by (f_equal; lia).
    replace (Z.to_nat (Z.of_nat m * cs)) with (m * Z.to_nat cs)
      by (rewrite Z2Nat.inj_mul, Nat2Z.id by lia; reflexivity).
    rewrite firstn_add_skipn. f_equal. lia.
Qed.

(** Chunked aggregation agrees with the unchunked call when the blocks
    stay inside the matrix, i.e. when the [n_chunks - 1] full blocks need
    no more than [n] rows, for every aggregation that works row by row. *)
Theorem chunked_message_and_aggregate_rowwise
    (adj_t : SparseTensor W) (x : list (list W)) (m : nat)
    (f : SparseTensor W -> list (list W) -> result (list (list W)))
    (g : list (list W) -> list (nat * W) -> list W) :
  (forall a, let (w, r) := sparse_tensor_to_tuple a in tuple_to_sparse_tensor w r = a) ->
  (forall a y, f a y = Ok (map (g y) (st_rows a))) ->
  length (st_rows adj_t) = length x ->
  (Z.of_nat m * ceil_div (Z.of_nat (length x)) (Z.of_nat (S m)) <= Z.of_nat (length x))%Z ->
  chunked_message_and_aggregate sparse_tensor_to_tuple tuple_to_sparse_tensor
    adj_t x (Z.of_nat (S m)) (Some f) = f adj_t x.
Proof.
  intros Hrt Hf Hlen Hfit. unfold chunked_message_and_aggregate.
  destruct (st_requires_grad adj_t); cbn [negb]; [|reflexivity].
  specialize (Hrt adj_t). destruct (sparse_tensor_to_tuple adj_t) as [ew rest].
  destruct (Chunker_init_blocks (Z.of_nat (length x)) m true false)
    as (c & Hc & Hrg & Hcs & Hblocks).
  rewrite Hc. cbn [bind]. unfold chunk. rewrite Hrg, Hblocks.
  set (n := Z.of_nat (length x)) in *. set (cs := chunk_size c) in *.
  assert (Hcs0 : (0 <= cs)%Z).
  { rewrite Hcs. pose proof (ceil_div_spec n (m := Z.of_nat (S m)) ltac:(lia)).
    destruct (Z_lt_le_dec (ceil_div n (Z.of_nat (S m))) 0); [nia|assumption]. }
  set (sl := fun lu : Z * Z =>
               firstn (Z.to_nat (snd lu - fst lu)) (skipn (Z.to_nat (fst lu)) (st_rows adj_t))).
  rewrite (mapM_ok _ (fun lu => map (g x) (sl lu))).
  - simpl. unfold torch_cat.
    destruct (map _ (map _ (range (Z.of_nat m)) ++ [(Z.of_nat m * cs, n)%Z])) eqn:E.
    { rewrite map_app in E. destruct (map _ (map _ (range (Z.of_nat m)))); discriminate. }
    rewrite <- E. rewrite Hf. f_equal.
    rewrite <- (map_map sl (map (g x))), <- concat_map. f_equal.
    rewrite map_app, concat_app. unfold sl at 1. rewrite (full_blocks_concat _ m Hcs0).
    simpl. rewrite app_nil_r. unfold sl. simpl.
    replace (Z.to_nat (Z.of_nat m * cs)) with (m * Z.to_nat cs)
      by (rewrite Z2Nat.inj_mul, Nat2Z.id by lia; reflexivity).
    rewrite firstn_add_skipn.
    apply firstn_all2. rewrite Hlen. subst n.
    rewrite Hcs in *. nia.
  - intros [l u] Hin. unfold checkpoint.
    assert (Hb : (0 <= l <= u)%Z /\ (u <= n)%Z).
    { apply in_app_or in Hin. destruct Hin as [Hin|[Hin|[]]].
      - apply in_map_iff in Hin. destruct Hin as (j & Hj & Hin). injection Hj as <- <-.
        unfold range in Hin. apply in_map_iff in Hin. destruct Hin as (i & <- & Hi).
        apply in_seq in Hi. rewrite Nat2Z.id in Hi. rewrite Hcs in *. nia.
      - injection Hin as <- <-. rewrite Hcs in *. nia. }
    destruct Hb as [Hb1 Hb2].
    destruct (slice_rows_ok adj_t Hb1) as (a & Ha & Hrows).
    { rewrite Hlen. exact Hb2. }
    rewrite Hrt, Ha. simpl. rewrite Hf, Hrows. reflexivity.
Qed.
End ChunkedAggregation.

Lemma combine_fst_snd {A B : Type} (r : list (A * B)) : combine (map fst r) (map snd r) = r.
Proof. induction r as [|[a b] r IH]; simpl; [reflexivity|]. now rewrite IH. Qed.

Lemma fill_rows_roundtrip {W : Type} (rows : list (list (nat * W))) :
  fill_rows (map (map fst) rows) (concat (map (map snd) rows)) = rows.
Proof.
  induction rows as [|r rows IH]; simpl; [reflexivity|].
  rewrite length_map, <- (length_map snd r), firstn_app, skipn_app.
  rewrite Nat.sub_diag, firstn_all, skipn_all, firstn_O, app_nil_r, skipn_O.
  simpl. now rewrite combine_fst_snd, IH.
Qed.

Lemma st_tuple_roundtrip {W : Type} (a : SparseTensor W) :
  let (w, r) := st_to_tuple a in st_of_tuple w r = a.
Proof.
  unfold st_to_tuple, st_of_tuple. rewrite fill_rows_roundtrip. now destruct a.
Qed.

(** A run of the theorem: three rows in two chunks. *)
Lemma chunked_message_and_aggregate_rowwise_witness :
  let adj := {| st_rows := [[(0, 1%Q)]; [(1, 2%Q)]; [(0, 3%Q); (2, 1%Q)]];
                st_ncols := 3; st_requires_grad := true |} in
  let x := [[1 # 1]; [2 # 1]; [3 # 1]]%Q in
  chunked_message_and_aggregate st_to_tuple st_of_tuple adj x 2 (Some sparse_matmul)
  = sparse_matmul adj x.
Proof.
  intros adj x.
  apply (chunked_message_and_aggregate_rowwise (W := Q) st_to_tuple st_of_tuple
           adj x 1 sparse_matmul (fun y => spmm_row (ncols y) y)).
  - apply st_tuple_roundtrip.
  - reflexivity.
  - reflexivity.
  - vm_compute. discriminate.
Defined.

(** C5 (as the code has it).  With five rows and four chunks the blocks are
    [0,2), [2,4), [4,6) and [6,5): the third reaches past the last row and
    the fourth ends before it starts.  Slicing the adjacency to rows that do
    not exist raises, so the chunked call fails where the unchunked call
    returns the aggregation.  The default of eight chunks does the same for
    nine rows. *)
Theorem chunker_blocks_leave_the_matrix :
  (c <- Chunker_init 5 4 true false ;; Ok (chunk_size c, combine (lower c) (upper c)))
    = Ok (2, [(0, 2); (2, 4); (4, 6); (6, 5)])%Z
  /\ chunked_message_and_aggregate st_to_tuple st_of_tuple five_adj five_x 4 None
     = Err RuntimeError
  /\ sparse_matmul five_adj five_x = Ok five_x
  /\ (c <- Chunker_init 9 8 true false ;; Ok (combine (lower c) (upper c)))
     = Ok [(0, 2); (2, 4); (4, 6); (6, 8); (8, 10); (10, 12); (12, 14); (14, 9)]%Z.
Proof.
  repeat split; vm_compute; reflexivity.
Qed.

(** ** Where [NotImplementedError] can come from *)

Section Implemented.
Context {W : Type} {N : Num W} {F : Floating W}.
Variable lib : backend W.

Lemma implemented_ok {A : Type} (a : A) : implemented (Ok a).
Proof. discriminate. Qed.

Lemma implemented_err {A : Type} (e : error) :
  e <> NotImplementedError -> implemented (@Err A e).
Proof. intros H E. injection E as E. contradiction. Qed.

Lemma implemented_bind {A B : Type} (m : result A) (f : A -> result B) :
  implemented m -> (forall a, implemented (f a)) -> implemented (bind m f).
Proof.
  intros Hm Hf. destruct m as [a|e]; cbn [bind]; [apply Hf|].
  intros E. apply Hm. injection E as ->. reflexivity.
Qed.

Lemma implemented_of_option {A : Type} (e : error) (o : option A) :
  e <> NotImplementedError -> implemented (of_option e o).
Proof. destruct o; cbn; [discriminate|apply implemented_err]. Qed.

Lemma implemented_mapM {A B : Type} (f : A -> result B) (l : list A) :
  (forall a, implemented (f a)) -> implemented (mapM f l).
Proof.
  intros Hf. induction l as [|a l IH]; cbn [mapM]; [apply implemented_ok|].
  apply implemented_bind; [apply Hf|]. intros b.
  apply implemented_bind; [exact IH|]. intros bs. apply implemented_ok.
Qed.

Lemma implemented_tensor_index {A : Type} (x : list A) (z : Z) :
  implemented (tensor_index x z).
Proof.
  unfold tensor_index.
  repeat match goal with |- context [if ?c then _ else _] => destruct c end;
    try (apply implemented_of_option; discriminate).
  apply implemented_err. discriminate.
Qed.

Lemma implemented_partial_distance_matrix (x : list (list W)) (partial_idx : list (list Z)) :
  implemented (partial_distance_matrix x partial_idx).
Proof.
  unfold partial_distance_matrix, partial_distance_matrix_with_idx.
  destruct (torch_unique _) as [u inv].
  apply implemented_bind; [|intros; apply implemented_ok].
  apply implemented_bind.
  - apply implemented_mapM. intros z. unfold pair_distance.
    apply implemented_bind; [apply implemented_tensor_index|]. intros a.
    apply implemented_bind; [apply implemented_tensor_index|]. intros b.
    apply implemented_ok.
  - intros sd. destruct dtype_float32; [apply implemented_ok|].
    apply implemented_err. discriminate.
Qed.

Lemma implemented_hstack {A : Type} (arrays : list (list A)) : implemented (hstack arrays).
Proof. destruct arrays; cbn; [apply implemented_err|apply implemented_ok]; discriminate. Qed.

Lemma implemented_select_loop (row_idx col_idx : list nat) (values : list W)
    (k_per_row : list nat) (rows : list nat) (st : select_state) :
  implemented (select_loop lib row_idx col_idx values k_per_row st rows).
Proof.
  revert st. induction rows as [|i rows IH]; intros st; cbn [select_loop];
    [apply implemented_ok|].
  apply implemented_bind; [|intros; apply IH].
  unfold select_step.
  apply implemented_bind; [apply implemented_of_option; discriminate|].
  intros k_of_row. destruct (0 <? k_of_row); apply implemented_ok.
Qed.

Lemma implemented_sparse_top_k (is_cuda : bool) (A_rows A_cols : list nat)
    (A_values : list W) (n k : nat) (return_sparse : bool) :
  implemented (_sparse_top_k lib is_cuda A_rows A_cols A_values n k return_sparse).
Proof.
  unfold _sparse_top_k. destruct is_cuda.
  - destruct (cuda_topk _ _ _ _ _ _). destruct (negb return_sparse); apply implemented_ok.
  - destruct A_rows as [|r rs]; [apply implemented_err; discriminate|].
    apply implemented_bind.
    + unfold _select_k_idx_cpu.
      apply implemented_bind; [apply implemented_select_loop|intros; apply implemented_ok].
    + intros [[new_idx value_idx] unroll_idx].
      repeat (apply implemented_bind; [apply implemented_hstack|intros]).
      destruct return_sparse; [apply implemented_ok|].
      apply implemented_bind; [apply implemented_hstack|intros; apply implemented_ok].
Qed.

(** For [k <= n] no path of the soft k-medoid ends in
    [NotImplementedError], with or without weight correction. *)
Lemma implemented_soft_k_medoid (x_is_cuda : bool) (A : sparse_arg W) (x : list (list W))
    (k : nat) (temperature : W) (wwc : bool) (threshold : nat) (eps : W) :
  k <= length x ->
  implemented
    (soft_weighted_medoid_k_neighborhood lib x_is_cuda A x k temperature wwc threshold eps).
Proof.
  intros Hk. unfold soft_weighted_medoid_k_neighborhood.
  replace (length x <? k) with false by (symmetry; apply Nat.ltb_ge; lia).
  destruct (negb x_is_cuda && (length x <? threshold)).
  - unfold dense_cpu_soft_weighted_medoid_k_neighborhood.
    destruct (A_size (arg_coo A) <? k); [apply implemented_err; discriminate|apply implemented_ok].
  - unfold sparse_soft_weighted_medoid_k_neighborhood.
    destruct A as [a|a]; [apply implemented_err; discriminate|].
    destruct (add_missing_rows _ _ _ _) as [[Ar Ac] Av].
    apply implemented_bind; [apply implemented_sparse_top_k|].
    intros [rows cols vals|Wt It]; [apply implemented_err; discriminate|].
    apply implemented_bind; [apply implemented_partial_distance_matrix|]. intros D.
    destruct (_ =? _); [apply implemented_ok|apply implemented_err; discriminate].
Qed.
End Implemented.

(** ** Requests for more neighbours than nodes (C4) *)

Section Fallback.
Context {W : Type} {N : Num W} {F : Floating W}.
Variable lib : backend W.

(** C4.  When [k] exceeds the number of nodes, the soft k-medoid with
    weight correction raises [NotImplementedError] (nothing is computed
    before the test), and the k-medoid is the medoid of the whole graph.
    Without weight correction the soft k-medoid hands its argument to
    [soft_weighted_medoid] as it is: for a torch.sparse tensor the result
    is the soft medoid of the whole graph; for a
    [torch_sparse.SparseTensor], the class the function is annotated with
    and needs on its sparse path, that call raises [AttributeError], so
    that there is no fallback.  [NotImplementedError] belongs to [k > n]
    only: up to [k = n] no path raises it. *)
Theorem k_above_n_fallback (x_is_cuda : bool) (A : sparse_arg W) (A' : adjacency W)
    (x : list (list W)) (k : nat) (temperature : W) (threshold : nat) (eps : W) :
  (length x < k ->
   soft_weighted_medoid_k_neighborhood lib x_is_cuda A x k temperature true threshold eps
     = Err NotImplementedError
   /\ soft_weighted_medoid_k_neighborhood lib x_is_cuda A x k temperature false threshold eps
     = match A with
       | TorchSparseCoo a => Ok (soft_weighted_medoid (SparseAdj a) x temperature)
       | TorchSparseTensor _ => Err AttributeError
       end
   /\ weighted_medoid_k_neighborhood lib A' x k = weighted_medoid A' x)
  /\ (k <= length x ->
      implemented
        (soft_weighted_medoid_k_neighborhood lib x_is_cuda A x k temperature true
                                             threshold eps)).
Proof.
  split.
  - intros Hk. apply Nat.ltb_lt in Hk.
    unfold soft_weighted_medoid_k_neighborhood, weighted_medoid_k_neighborhood.
    rewrite Hk. repeat split.
  - apply implemented_soft_k_medoid.
Qed.

(** At [k = n] and below the test does not fire: the call is the dense or
    the sparse computation. *)
Lemma k_up_to_n_computes (x_is_cuda : bool) (A : sparse_arg W) (x : list (list W)) (k : nat)
    (temperature : W) (wwc : bool) (threshold : nat) (eps : W) :
  k <= length x ->
  soft_weighted_medoid_k_neighborhood lib x_is_cuda A x k temperature wwc threshold eps
  = if negb x_is_cuda && (length x <? threshold)
    then dense_cpu_soft_weighted_medoid_k_neighborhood
           lib A x k temperature wwc (nofQ (1 # 10000000000))
    else sparse_soft_weighted_medoid_k_neighborhood
           lib x_is_cuda A x k temperature wwc eps.
Proof.
  intros Hk. apply Nat.ltb_ge in Hk.
  unfold soft_weighted_medoid_k_neighborhood. now rewrite Hk.
Qed.
End Fallback.

Lemma k_above_n_fallback_witness :
  (soft_weighted_medoid_k_neighborhood backend_R false (TorchSparseTensor twin_A) twin_x 3 1%R
                                       true 5000 1%R
     = Err NotImplementedError
   /\ soft_weighted_medoid_k_neighborhood backend_R false (TorchSparseTensor twin_A) twin_x 3
                                          1%R false 5000 1%R
     = Err AttributeError
   /\ weighted_medoid_k_neighborhood backend_R (SparseAdj twin_A) twin_x 3
     = weighted_medoid (SparseAdj twin_A) twin_x)
  /\ soft_weighted_medoid_k_neighborhood backend_R false (TorchSparseCoo twin_A) twin_x 3 1%R
                                         false 5000 1%R
     = Ok (soft_weighted_medoid (SparseAdj twin_A) twin_x 1%R)
  /\ implemented
       (soft_weighted_medoid_k_neighborhood backend_R false (TorchSparseTensor twin_A) twin_x 2
                                            1%R true 5000 1%R).
Proof.
  split; [|split].
  - apply (proj1 (k_above_n_fallback backend_R false (TorchSparseTensor twin_A)
                    (SparseAdj twin_A) twin_x 3 1%R 5000 1%R)).
    simpl; lia.
  - apply (proj1 (k_above_n_fallback backend_R false (TorchSparseCoo twin_A)
                    (SparseAdj twin_A) twin_x 3 1%R 5000 1%R)).
    simpl; lia.
  - apply (proj2 (k_above_n_fallback backend_R false (TorchSparseTensor twin_A)
                    (SparseAdj twin_A) twin_x 2 1%R 5000 1%R)).
    simpl; lia.
Defined.

(** ** The float32 range *)

Lemma float32_eps_pos : (0 < float32_eps)%R.
Proof. unfold float32_eps. apply Rinv_0_lt_compat, pow_lt. lra. Qed.

Lemma float32_eps_lt_1 : (float32_eps < 1)%R.
Proof.
  unfold float32_eps. rewrite <- Rinv_1. apply Rinv_lt_contravar.
  - rewrite Rmult_1_l. apply pow_lt. lra.
  - apply Rlt_pow_R1; [lra|lia].
Qed.

Lemma float32_max_lower : (2 ^ 127 <= float32_max)%R.
Proof.
  unfold float32_max. fold float32_eps.
  pose proof float32_eps_pos. pose proof float32_eps_lt_1.
  assert (0 < 2 ^ 127)%R by (apply pow_lt; lra). nra.
Qed.

Lemma float32_max_upper : (float32_max < 2 * 2 ^ 127)%R.
Proof.
  unfold float32_max. fold float32_eps.
  pose proof float32_eps_pos.
  assert (0 < 2 ^ 127)%R by (apply pow_lt; lra). nra.
Qed.

Lemma float32_max_ge_2 : (2 <= float32_max)%R.
Proof.
  eapply Rle_trans; [|apply float32_max_lower].
  replace 2%R with (2 ^ 1)%R at 1 by lra. apply Rle_pow; [lra|lia].
Qed.

Lemma float32_max_pos : (0 < float32_max)%R.
Proof. pose proof float32_max_ge_2. lra. Qed.

Lemma fround_finite (r : R) :
  (- float32_max <= r <= float32_max)%R -> fround r = Finite r.
Proof.
  intros H. unfold fround.
  destruct (Rlt_dec float32_max r); [lra|].
  destruct (Rlt_dec r (- float32_max)); [lra|reflexivity].
Qed.

Lemma fround_overflow (r : R) : (float32_max < r)%R -> fround r = PInf.
Proof. intros H. unfold fround. destruct (Rlt_dec float32_max r); [reflexivity|lra]. Qed.

Lemma fround_underflow (r : R) : (r < - float32_max)%R -> fround r = NInf.
Proof.
  intros H. pose proof float32_max_pos. unfold fround.
  destruct (Rlt_dec float32_max r); [lra|].
  destruct (Rlt_dec r (- float32_max)); [reflexivity|lra].
Qed.

Lemma Q2R_100 : Q2R 100 = 100%R.
Proof. unfold Q2R. simpl. lra. Qed.

Lemma Risfinite_true (r : R) : Risfinite r = true <-> (Rabs r <= float32_max)%R.
Proof.
  unfold Risfinite. destruct (Rle_dec (Rabs r) float32_max); split; intros; try discriminate; tauto.
Qed.

(** ** The dense distance matrix (C10) *)

Lemma nth_map_seq {A : Type} (f : nat -> A) (n i : nat) (d : A) :
  i < n -> nth i (map f (seq 0 n)) d = f i.
Proof.
  intros H. rewrite (nth_indep _ d (f 0)) by now rewrite length_map, length_seq.
  rewrite map_nth, seq_nth by assumption. reflexivity.
Qed.

Section DistanceMatrixR.
Open Scope R_scope.

Lemma ntwo_R : @ntwo R _ = 2.
Proof. unfold ntwo. simpl. lra. Qed.

Lemma nsum_squares_nonneg (l : list R) : 0 <= nsum (map (fun a => a * a) l).
Proof.
  induction l as [|a l IH]; simpl; [lra|]. simpl in IH. nra.
Qed.

Lemma sqdist_nonneg (u v : list R) : 0 <= sqdist u v.
Proof. apply nsum_squares_nonneg. Qed.

Lemma squared_expansion (u v : list R) :
  length u = length v ->
  nsum (map (fun a => a * a) u) + nsum (map (fun a => a * a) v) - 2 * dot u v = sqdist u v.
Proof.
  unfold sqdist, dot, vsub. revert v.
  induction u as [|a u IH]; intros [|b v] H; simpl in *; try discriminate; [lra|].
  specialize (IH v ltac:(lia)). simpl in IH. lra.
Qed.

Lemma sqdist_diag (u : list R) : sqdist u u = 0.
Proof.
  unfold sqdist, vsub. induction u as [|a u IH]; simpl in *; [reflexivity|].
  rewrite IH. lra.
Qed.

(** In exact arithmetic, entry (i, j) is the square root of the squared
    distance plus [eps_factor * eps]. *)
Lemma distance_matrix_entry (x : list (list R)) (eps_factor : R) (i j : nat) :
  (i < length x)%nat -> (j < length x)%nat ->
  length (nth i x []) = length (nth j x []) ->
  mget (_distance_matrix x eps_factor) i j
  = sqrt (sqdist (nth i x []) (nth j x []) + eps_factor * float32_eps).
Proof.
  intros Hi Hj Hlen. unfold mget, _distance_matrix.
  rewrite map_map, nth_map_seq by assumption.
  rewrite map_map, nth_map_seq by assumption.
  rewrite ntwo_R. cbn [nsqrt nadd nabs nsub nmul nzero Num_R Floating_R finfo_eps].
  assert (Hn : forall r, nth r (map (fun r0 : list R => nsum (map (fun a => a * a) r0)) x) 0
                         = nsum (map (fun a => a * a) (nth r x []))).
  { intros r. change 0 with ((fun r0 : list R => nsum (map (fun a => a * a) r0)) []) at 1.
    apply map_nth. }
  rewrite !Hn.
  rewrite squared_expansion by assumption.
  rewrite Rabs_pos_eq by apply sqdist_nonneg. reflexivity.
Qed.
End DistanceMatrixR.

(** ** Overflow in the distance matrix *)

Lemma ntwo_fval : @ntwo fval _ = Finite 2.
Proof.
  unfold ntwo. simpl. replace (1 + 1)%R with 2%R by lra.
  apply fround_finite. pose proof float32_max_ge_2. lra.
Qed.

(** A feature whose square leaves the float32 range makes the squared norm
    infinite, and [inf + inf - 2 * inf] is NaN. *)
Lemma distance_matrix_overflow (r : R) (eps_factor : fval) :
  (float32_max < r * r)%R -> _distance_matrix [[Finite r]] eps_factor = [[NaN]].
Proof.
  intros H. unfold _distance_matrix, dot.
  cbn -[ntwo nofQ finfo_eps].
  rewrite ntwo_fval, (fround_overflow H).
  cbn. unfold scaled_inf.
  destruct (Req_dec_T 2 0); [lra|].
  destruct (Rlt_dec 0 2); [|lra].
  reflexivity.
Qed.

Lemma two64_square_overflows : (float32_max < 2 ^ 64 * 2 ^ 64)%R.
Proof.
  rewrite <- pow_add. change (64 + 64) with (S 127).
  rewrite <- tech_pow_Rmult. apply float32_max_upper.
Qed.

(** C10 (as stated) fails: the one-by-one feature matrix [[2^64]] is finite
    and its distance matrix is NaN. *)
Lemma distance_matrix_nan_for_finite_input :
  _distance_matrix [[Finite (2 ^ 64)]] (nofQ 100) = [[NaN]]
  /\ fisfinite (Finite (2 ^ 64)) = true.
Proof.
  split; [|reflexivity]. apply distance_matrix_overflow, two64_square_overflows.
Qed.

(** ** Disconnected nodes in the soft medoid (C2) *)

Section SoftMedoidNaN.

Lemma nsum_zero_row (n : nat) : nsum (repeat (Finite 0) n) = Finite 0.
Proof.
  induction n as [|n IH]; simpl; [reflexivity|].
  simpl in IH. rewrite IH. simpl. rewrite Rplus_0_l.
  apply fround_finite. pose proof float32_max_pos. lra.
Qed.

Lemma nsum_max_row (n : nat) :
  clamp_nonfinite (nsum (repeat (Finite float32_max) (S n))) = Finite float32_max.
Proof.
  assert (H1 : nsum (repeat (Finite float32_max) 1) = Finite float32_max).
  { simpl. rewrite Rplus_0_r. apply fround_finite. pose proof float32_max_pos. lra. }
  assert (H2 : forall m, nsum (repeat (Finite float32_max) (S (S m))) = PInf).
  { induction m as [|m IH].
    - change (nsum (repeat (Finite float32_max) 2))
        with (fadd (Finite float32_max) (nsum (repeat (Finite float32_max) 1))).
      rewrite H1. simpl. apply fround_overflow. pose proof float32_max_pos. lra.
    - change (nsum (repeat (Finite float32_max) (S (S (S m)))))
        with (fadd (Finite float32_max) (nsum (repeat (Finite float32_max) (S (S m))))).
      rewrite IH. reflexivity. }
  destruct n as [|n]; [rewrite H1|rewrite H2]; reflexivity.
Qed.

Lemma map_const_seq {A : Type} (c : A) (b n : nat) : map (fun _ => c) (seq b n) = repeat c n.
Proof. revert b. induction n as [|n IH]; intros b; simpl; [reflexivity|]. now rewrite IH. Qed.

Lemma masked_sums_zero_row (l2 : list (list fval)) (n : nat) :
  masked_distance_sums l2 (repeat (Finite 0) (S n)) = repeat (Finite float32_max) (S n).
Proof.
  unfold masked_distance_sums. rewrite repeat_length.
  rewrite <- (map_const_seq (Finite float32_max) 0 (S n)).
  apply map_ext_in. intros j Hj. apply in_seq in Hj.
  rewrite nth_repeat_lt by lia.
  replace (neqb (Finite 0) nzero) with true.
  - apply nsum_max_row.
  - simpl. unfold Reqb. destruct (Req_dec_T 0 0); [reflexivity|contradiction].
Qed.

Lemma neg_over_max (t : R) :
  (0 < t < 1)%R -> neg_over (Finite t) (Finite float32_max) = NInf.
Proof.
  intros Ht. unfold neg_over. simpl.
  destruct (Req_dec_T t 0); [lra|].
  apply fround_underflow. pose proof float32_max_pos as Hm.
  apply Rmult_lt_reg_r with t; [lra|].
  unfold Rdiv. rewrite Rmult_assoc, Rinv_l by lra. nra.
Qed.

Lemma softmax_all_ninf (n : nat) : softmax (repeat NInf (S n)) = repeat NaN (S n).
Proof.
  unfold softmax.
  assert (Hm : nmax_list nzero (repeat NInf (S n)) = NInf).
  { simpl. induction n as [|n IH]; simpl; [reflexivity|exact IH]. }
  rewrite Hm.
  assert (He : map (fun a => nexp (nsub a NInf)) (repeat NInf (S n)) = repeat NaN (S n)).
  { rewrite map_repeat. reflexivity. }
  rewrite He. rewrite map_repeat. reflexivity.
Qed.

Lemma dot_nan (n : nat) (c : fval) (col : list fval) : dot (repeat NaN (S n)) (c :: col) = NaN.
Proof. reflexivity. Qed.

(** With a temperature below one, [soft_weighted_medoid] turns the row of
    every node without neighbours into NaN: all its distance sums are
    replaced by the float maximum, [-max / temperature] overflows to minus
    infinity, and the soft maximum of minus infinities is NaN. *)
Lemma soft_weighted_medoid_row_nan (A x : list (list fval)) (t : R) (i n : nat) :
  (0 < t < 1)%R -> i < length A -> nth i A [] = repeat (Finite 0) (S n) -> x <> [] ->
  nth i (soft_weighted_medoid (DenseAdj A) x (Finite t)) [] = repeat NaN (ncols x).
Proof.
  intros Ht Hi Hrow Hx. unfold soft_weighted_medoid, densify.
  set (f := fun row : list fval => _).
  rewrite (nth_indep _ [] (f [])) by now rewrite length_map.
  rewrite map_nth. subst f. cbv beta. rewrite Hrow.
  rewrite masked_sums_zero_row, map_repeat, (neg_over_max Ht), softmax_all_ninf, nsum_zero_row.
  unfold row_matmul, scale. rewrite map_map.
  rewrite <- (map_const_seq NaN 0 (ncols x)).
  apply map_ext. intros c.
  destruct x as [|r x]; [contradiction|]. reflexivity.
Qed.
End SoftMedoidNaN.

(** C2 (as the code has it).  On the four-node graph whose last node has no
    edges, the soft medoid at temperature 1/1000 returns NaN in every entry
    of the last row: the row is neither zero nor finite. *)
Theorem soft_weighted_medoid_disconnected_node_nan :
  nth 3 (soft_weighted_medoid (DenseAdj disconnected_A) disconnected_x (Finite (/ 1000))) []
  = [NaN; NaN; NaN].
Proof.
  apply (@soft_weighted_medoid_row_nan disconnected_A disconnected_x (/ 1000) 3 3).
  - lra.
  - simpl. lia.
  - reflexivity.
  - discriminate.
Qed.

(** ** What every library sort returns *)

Section SorterFacts.
Variable K : Type.
Variable lt : K -> K -> bool.
Variable s : sorter lt.

Lemma sorter_singleton (a : K) : s [a] = [0].
Proof.
  pose proof (sort_perm s [a]) as H. simpl in H.
  apply Permutation_sym, Permutation_length_1_inv in H. exact H.
Qed.

Lemma sorter_length (l : list K) : length (s l) = length l.
Proof.
  rewrite (Permutation_length (sort_perm s l)). apply length_seq.
Qed.

Lemma sorter_in (l : list K) (i : nat) : In i (s l) <-> i < length l.
Proof.
  split; intros H.
  - apply (Permutation_in _ (sort_perm s l)) in H. apply in_seq in H. lia.
  - apply (Permutation_in _ (Permutation_sym (sort_perm s l))). apply in_seq. lia.
Qed.

Lemma sorter_NoDup (l : list K) : NoDup (s l).
Proof.
  apply (Permutation_NoDup (Permutation_sym (sort_perm s l))), seq_NoDup.
Qed.

(** Two orders of the same positions agree when no two keys tie. *)
Lemma sorted_perm_unique (l : list K) (p q : list nat) :
  (forall i j ki kj, nth_error l i = Some ki -> nth_error l j = Some kj -> i <> j ->
                     lt ki kj = true \/ lt kj ki = true) ->
  (forall i, In i p -> i < length l) ->
  Permutation p q -> NoDup p ->
  StronglySorted (key_le lt l) p -> StronglySorted (key_le lt l) q -> p = q.
Proof.
  intros Hstrict. revert q.
  induction p as [|a p IH]; intros q Hin Hperm Hnd Hp Hq.
  - apply Permutation_nil in Hperm. now subst.
  - destruct q as [|b q]; [apply Permutation_sym, Permutation_nil in Hperm; discriminate|].
    inversion Hp as [|? ? Hp' Ha]; subst. inversion Hq as [|? ? Hq' Hb]; subst.
    inversion Hnd as [|? ? Hna Hnd']; subst.
    destruct (Nat.eq_dec a b) as [->|Hab].
    + f_equal. apply IH; auto.
      * intros i Hi. apply Hin. now right.
      * eapply Permutation_cons_inv; eassumption.
    + exfalso.
      assert (Hbp : In b p).
      { assert (In b (a :: p)) as [->|H]
            by (apply (Permutation_in _ (Permutation_sym Hperm)); now left);
          [contradiction|exact H]. }
      assert (Haq : In a q).
      { assert (In a (b :: q)) as [->|H]
            by (apply (Permutation_in _ Hperm); now left);
          [contradiction|exact H]. }
      rewrite Forall_forall in Ha, Hb.
      assert (Hla : a < length l) by (apply Hin; now left).
      assert (Hlb : b < length l) by (apply Hin; right; exact Hbp).
      destruct (nth_error l a) as [ka|] eqn:Ea; [|apply nth_error_None in Ea; lia].
      destruct (nth_error l b) as [kb|] eqn:Eb; [|apply nth_error_None in Eb; lia].
      specialize (Ha b Hbp ka kb Ea Eb). specialize (Hb a Haq kb ka Eb Ea).
      destruct (Hstrict a b ka kb Ea Eb Hab) as [H|H]; congruence.
Qed.

(** Without ties the library sort is the insertion sort. *)
Lemma sorter_determined (l : list K) (q : list nat) :
  (forall i j ki kj, nth_error l i = Some ki -> nth_error l j = Some kj -> i <> j ->
                     lt ki kj = true \/ lt kj ki = true) ->
  Permutation q (seq 0 (length l)) -> StronglySorted (key_le lt l) q -> s l = q.
Proof.
  intros Hstrict Hperm Hq.
  apply sorted_perm_unique with (l := l); auto.
  - intros i. apply sorter_in.
  - rewrite Hperm. apply sort_perm.
  - apply sorter_NoDup.
  - apply sort_sorted.
Qed.

(** The first position of the order holds a key that no other key
    precedes. *)
Lemma sorter_head (l : list K) (j : nat) (kj : K) :
  nth_error l j = Some kj ->
  (forall i ki, nth_error l i = Some ki -> i <> j -> lt kj ki = true) ->
  exists rest, s l = j :: rest.
Proof.
  intros Hj Hmin.
  destruct (s l) as [|a rest] eqn:E.
  - exfalso. assert (H : In j (s l)) by (apply sorter_in, nth_error_Some; congruence).
    rewrite E in H. contradiction.
  - exists rest. f_equal.
    destruct (Nat.eq_dec a j) as [|Haj]; [assumption|exfalso].
    assert (Hin : In j (s l)) by (apply sorter_in, nth_error_Some; congruence).
    rewrite E in Hin. destruct Hin as [|Hin]; [contradiction|].
    pose proof (sort_sorted s l) as Hs. rewrite E in Hs.
    inversion Hs as [|? ? _ Ha]; subst. rewrite Forall_forall in Ha.
    assert (Hla : a < length l) by (apply sorter_in; rewrite E; now left).
    destruct (nth_error l a) as [ka|] eqn:Ea; [|apply nth_error_None in Ea; lia].
    specialize (Ha j Hin ka kj Ea Hj). rewrite (Hmin a ka Ea Haj) in Ha. discriminate.
Qed.
End SorterFacts.

Lemma nat_keys_strict (l : list nat) :
  NoDup l ->
  forall i j ki kj, nth_error l i = Some ki -> nth_error l j = Some kj -> i <> j ->
                    (ki <? kj) = true \/ (kj <? ki) = true.
Proof.
  intros Hnd i j ki kj Hi Hj Hij.
  destruct (Nat.lt_total ki kj) as [H|[H|H]].
  - left. now apply Nat.ltb_lt.
  - subst. exfalso. apply Hij. eapply NoDup_nth_error; eauto.
    + apply nth_error_Some. congruence.
    + congruence.
  - right. now apply Nat.ltb_lt.
Qed.

(** On distinct integer keys every library sort returns what the insertion
    sort returns. *)
Lemma argsort_int_determined (s : sorter Nat.ltb) (l : list nat) :
  NoDup l -> s l = nat_sorter l.
Proof.
  intros Hnd. apply sorter_determined.
  - now apply nat_keys_strict.
  - apply sort_perm.
  - apply sort_sorted.
Qed.

(** ** The top-k selector on rows that are not sorted (C3) *)

(** C3 (as the code has it).  The matrix with the entries (1,0) = 5 and
    (0,1) = 7, given with row 1 first: [row_idx] and [col_idx] are put in
    row order but [values] is not, so row 0 is returned with the weight 5 of
    row 1 and row 1 with the weight 7 of row 0.  The same matrix given in
    row order comes out right. *)
Theorem sparse_top_k_unsorted_rows (lib : backend Q) :
  _sparse_top_k lib false [1; 0] [0; 1] [5; 7]%Q 2 1 false
    = Ok (TopKDense [[5]; [7]]%Q [[1]; [0]]%Z)
  /\ _sparse_top_k lib false [0; 1] [1; 0] [7; 5]%Q 2 1 false
    = Ok (TopKDense [[7]; [5]]%Q [[1]; [0]]%Z).
Proof.
  split.
  - unfold _sparse_top_k, _select_k_idx_cpu.
    rewrite (argsort_int_determined (np_argsort_int lib) (l := [1; 0]))
      by (repeat constructor; simpl; intuition lia).
    cbn. rewrite !sorter_singleton. reflexivity.
  - unfold _sparse_top_k, _select_k_idx_cpu.
    rewrite (argsort_int_determined (np_argsort_int lib) (l := [0; 1]))
      by (repeat constructor; simpl; intuition lia).
    cbn. rewrite !sorter_singleton. reflexivity.
Qed.

(** ** The dense and the sparse soft k-medoid on a graph with an isolated
    node in the middle (C1) *)

Lemma eps_default_pos : (0 < eps_default)%R.
Proof.
  unfold eps_default, Q2R. simpl. apply Rmult_lt_0_compat; [lra|].
  apply Rinv_0_lt_compat. lra.
Qed.

Lemma eps_default_small : (eps_default < / 2)%R.
Proof.
  unfold eps_default, Q2R. simpl. rewrite Rmult_1_l.
  apply Rinv_lt_contravar; lra.
Qed.

(** Equality of tensors of reals, entry by entry. *)
Ltac tensor_eq :=
  repeat match goal with
         | |- Ok _ = Ok _ => f_equal
         | |- (_ :: _) = (_ :: _) => f_equal
         | |- @eq (list _) [] [] => reflexivity
         end.

Lemma exp_sub_self (a : R) : exp (a - a) = 1%R.
Proof. replace (a - a)%R with 0%R by ring. apply exp_0. Qed.

Lemma scale_zero (c : R) (v : list R) : c = 0%R -> scale c v = repeat 0%R (length v).
Proof.
  intros ->. unfold scale. induction v as [|a v IH]; simpl; [reflexivity|].
  f_equal; [ring|exact IH].
Qed.

Lemma row_matmul_length {W : Type} {N : Num W} (d : nat) (w : list W) (x : list (list W)) :
  length (row_matmul d w x) = d.
Proof. unfold row_matmul. now rewrite length_map, length_seq. Qed.

(** In exact arithmetic a row whose weights sum to zero gives the zero
    vector in the dense soft k-medoid. *)
Lemma dense_row_zero_sum (lib : backend R) (x l2 : list (list R)) (k : nat) (temperature : R)
    (wwc : bool) (eps : R) (row : list R) :
  nsum row = 0%R ->
  dense_row lib x l2 k temperature wwc eps row = repeat 0%R (ncols x).
Proof.
  intros H. unfold dense_row. rewrite scale_zero by exact H.
  now rewrite row_matmul_length.
Qed.

Lemma topk_one_hot (lib : backend R) (row : list R) (j : nat) (w : R) :
  nth_error row j = Some w ->
  (forall i v, nth_error row i = Some v -> i <> j -> (v < w)%R) ->
  topk_idx lib row 1 = [j].
Proof.
  intros Hj Hmax. unfold topk_idx.
  destruct (sorter_head (torch_topk_order lib) row (j := j) (kj := w) Hj) as [rest ->].
  - intros i ki Hi Hij. simpl. apply Rltb_true. eauto.
  - reflexivity.
Qed.

Lemma to_dense_gap : to_dense gap_A = [[1; 0; 0]; [0; 0; 0]; [0; 0; 1]]%R.
Proof. cbn. rewrite !Rplus_0_r. reflexivity. Qed.

Lemma sparse_tensor_to_dense_gap :
  sparse_tensor_to_dense gap_A = [[1; 0; 0]; [0; 0; 0]; [0; 0; 1]]%R.
Proof. reflexivity. Qed.

Lemma dense_gap (lib : backend R) :
  dense_cpu_soft_weighted_medoid_k_neighborhood lib (TorchSparseTensor gap_A) gap_x 1 1%R true
                                                eps_default
  = Ok [[1 / (1 + eps_default)]; [0]; [3 / (1 + eps_default)]]%R.
Proof.
  pose proof eps_default_pos as He.
  unfold dense_cpu_soft_weighted_medoid_k_neighborhood.
  cbn [arg_to_dense arg_coo].
  rewrite sparse_tensor_to_dense_gap. cbn [A_size gap_A Nat.ltb Nat.leb map].
  rewrite (dense_row_zero_sum lib _ _ _ _ _ _ [0; 0; 0]%R) by (simpl; lra).
  tensor_eq.
  - unfold dense_row, topk_values.
    rewrite (@topk_one_hot lib [1; 0; 0]%R 0 1%R);
      [|reflexivity|
       intros [|[|[|i]]] v Hi Hne; simpl in Hi; try congruence;
       [injection Hi as <-; lra | injection Hi as <-; lra | destruct i; discriminate]].
    unfold topk_distances. cbn -[_distance_matrix nofQ clamp_nonfinite].
    rewrite !exp_sub_self. tensor_eq. field. lra.
  - unfold dense_row, topk_values.
    rewrite (@topk_one_hot lib [0; 0; 1]%R 2 1%R);
      [|reflexivity|
       intros [|[|[|i]]] v Hi Hne; simpl in Hi; try congruence;
       [injection Hi as <-; lra | injection Hi as <-; lra | destruct i; discriminate]].
    unfold topk_distances. cbn -[_distance_matrix nofQ clamp_nonfinite].
    rewrite !exp_sub_self. tensor_eq. field. lra.
Qed.

Lemma sparse_top_k_gap (lib : backend R) :
  _sparse_top_k lib false [0; 2; 1] [0; 2; 0] [1; 1; 0]%R 3 1 false
  = Ok (TopKDense [[1]; [1]; [0]]%R [[0]; [0]; [2]]%Z).
Proof.
  unfold _sparse_top_k, _select_k_idx_cpu.
  rewrite (argsort_int_determined (np_argsort_int lib) (l := [0; 2; 1]))
      by (repeat constructor; simpl; intuition lia).
  cbn. rewrite !sorter_singleton. reflexivity.
Qed.

Lemma norm_self (a : R) : norm (vsub [a] [a]) = 0%R.
Proof.
  unfold norm, vsub. simpl. replace ((a - a) * (a - a) + 0)%R with 0%R by ring.
  apply sqrt_0.
Qed.

Lemma partial_distance_matrix_gap :
  partial_distance_matrix gap_x [[0]; [0]; [2]]%Z = Ok [[[0%R]]; [[0%R]]; [[0%R]]].
Proof.
  unfold partial_distance_matrix, partial_distance_matrix_with_idx, pair_distance.
  cbn -[norm vsub].
  change (Pos.to_nat 2) with 2. cbn -[norm vsub]. rewrite !norm_self. reflexivity.
Qed.

Lemma sparse_gap (lib : backend R) :
  sparse_soft_weighted_medoid_k_neighborhood lib false (TorchSparseTensor gap_A) gap_x 1 1%R
                                             true eps_default
  = Ok [[1 / (1 + eps_default)]; [0]; [0]]%R.
Proof.
  pose proof eps_default_pos as He.
  unfold sparse_soft_weighted_medoid_k_neighborhood.
  cbn [add_missing_rows gap_A A_rows A_cols A_values length gap_x nodup in_dec Nat.eq_dec].
  cbn -[_sparse_top_k partial_distance_matrix weighted_top_k_distances reliable_adj top_k_entries].
  rewrite sparse_top_k_gap. cbn [bind]. fold gap_x.
  rewrite partial_distance_matrix_gap. cbn [bind].
  unfold weighted_top_k_distances, reliable_adj, top_k_entries.
  cbn -[clamp_nonfinite]. change (Pos.to_nat 2) with 2. cbn -[clamp_nonfinite].
  rewrite !exp_sub_self.
  tensor_eq; field; lra.
Qed.

(** C1 (as the code has it).  Weight correction on, k = 1, temperature 1,
    the default eps: below the threshold the dense path runs and gives node
    2 its own feature, 3 / (1 + eps); with the threshold at 0 the sparse
    path runs and gives node 2 the zero vector, because the placeholder
    entry appended for node 1 shifts the weights of all later rows in the
    top-k selector.  The two outputs differ by more than 2. *)
Theorem dense_and_sparse_disagree (lib : backend R) :
  soft_weighted_medoid_k_neighborhood lib false (TorchSparseTensor gap_A) gap_x 1 1%R true 5000
                                      eps_default
    = Ok [[1 / (1 + eps_default)]; [0]; [3 / (1 + eps_default)]]%R
  /\ soft_weighted_medoid_k_neighborhood lib false (TorchSparseTensor gap_A) gap_x 1 1%R true 0
                                         eps_default
    = Ok [[1 / (1 + eps_default)]; [0]; [0]]%R
  /\ (2 < 3 / (1 + eps_default) - 0)%R.
Proof.
  split; [|split].
  - unfold soft_weighted_medoid_k_neighborhood.
    cbn [gap_x length Nat.ltb Nat.leb negb andb]. apply dense_gap.
  - unfold soft_weighted_medoid_k_neighborhood.
    cbn [gap_x length Nat.ltb Nat.leb negb andb]. apply sparse_gap.
  - pose proof eps_default_pos. pose proof eps_default_small.
    rewrite Rminus_0_r. apply Rmult_lt_reg_r with (1 + eps_default)%R; [lra|].
    unfold Rdiv. rewrite Rmult_assoc, Rinv_l by lra. lra.
Qed.

(** ** The partial distance matrix (C6) *)

Lemma masked_put_map {A B : Type} (z : A) (m : B -> bool) (g : B -> A) (l : list B) :
  masked_put (repeat z (length l)) (map m l) (map g (filter m l))
  = map (fun p => if m p then g p else z) l.
Proof.
  induction l as [|a l IH]; simpl; [reflexivity|].
  destruct (m a); simpl; now rewrite IH.
Qed.

Lemma insert_unique_in (z y : Z) (s : list Z) :
  In y (insert_unique z s) <-> y = z \/ In y s.
Proof.
  induction s as [|h s IH]; simpl; [intuition|].
  destruct (z <? h)%Z eqn:E1; simpl; [intuition|].
  destruct (z =? h)%Z eqn:E2; simpl.
  - apply Z.eqb_eq in E2. subst. intuition.
  - rewrite IH. intuition.
Qed.

Lemma unique_values_in (y : Z) (t : list Z) : In y (unique_values t) <-> In y t.
Proof.
  unfold unique_values. induction t as [|a t IH]; simpl; [tauto|].
  rewrite insert_unique_in, IH. intuition.
Qed.

Lemma insert_unique_sorted (z : Z) (s : list Z) :
  StronglySorted Z.lt s -> StronglySorted Z.lt (insert_unique z s).
Proof.
  induction 1 as [|h s Hs IH Hh]; simpl; [repeat constructor|].
  destruct (z <? h)%Z eqn:E1.
  - apply Z.ltb_lt in E1. constructor; [now constructor|].
    constructor; [exact E1|]. eapply Forall_impl; [|exact Hh]. intros; simpl in *; lia.
  - destruct (z =? h)%Z eqn:E2; [now constructor|].
    apply Z.ltb_ge in E1. apply Z.eqb_neq in E2.
    constructor; [exact IH|].
    rewrite Forall_forall in *. intros y Hy. apply insert_unique_in in Hy.
    destruct Hy as [->|Hy]; [lia|now apply Hh].
Qed.

Lemma unique_values_sorted (t : list Z) : StronglySorted Z.lt (unique_values t).
Proof.
  unfold unique_values. induction t as [|a t IH]; simpl; [constructor|].
  now apply insert_unique_sorted.
Qed.

Lemma sorted_lt_NoDup (s : list Z) : StronglySorted Z.lt s -> NoDup s.
Proof.
  induction 1 as [|h s Hs IH Hh]; constructor; [|exact IH].
  intros Hin. rewrite Forall_forall in Hh. specialize (Hh h Hin). lia.
Qed.

(** The distinct values come without repetition. *)
Lemma unique_values_NoDup (t : list Z) : NoDup (unique_values t).
Proof. apply sorted_lt_NoDup, unique_values_sorted. Qed.

Lemma position_of_nth (z : Z) (s : list Z) (d : Z) :
  In z s -> nth (position_of z s) s d = z.
Proof.
  induction s as [|h s IH]; simpl; [contradiction|].
  destruct (z =? h)%Z eqn:E.
  - apply Z.eqb_eq in E. now subst.
  - intros [H|H]; [apply Z.eqb_neq in E; congruence|]. now apply IH.
Qed.

Lemma position_of_lt (z : Z) (s : list Z) : In z s -> position_of z s < length s.
Proof.
  induction s as [|h s IH]; simpl; [contradiction|].
  destruct (z =? h)%Z eqn:E; [lia|].
  intros [H|H]; [apply Z.eqb_neq in E; congruence|]. specialize (IH H). lia.
Qed.

(** Reading the distances back through the inverse index gives every
    linear index its own distance. *)
Lemma unique_inverse_lookup {A : Type} (D : Z -> A) (d : A) (t : list Z) :
  map (fun j => nth j (map D (unique_values t)) d)
      (map (fun z => position_of z (unique_values t)) t)
  = map D t.
Proof.
  rewrite map_map. apply map_ext_in. intros z Hz.
  apply <- unique_values_in in Hz.
  rewrite (nth_indep _ d (D 0%Z)) by (rewrite length_map; now apply position_of_lt).
  rewrite map_nth. f_equal. now apply position_of_nth.
Qed.

Lemma tensor_index_in_range {A : Type} (x : list A) (z : Z) (d : A) :
  (0 <= z < Z.of_nat (length x))%Z -> tensor_index x z = Ok (nth (Z.to_nat z) x d).
Proof.
  intros H. unfold tensor_index.
  replace ((0 <=? z) && (z <? Z.of_nat (length x)))%Z with true
    by (symmetry; apply andb_true_iff; split; [apply Z.leb_le|apply Z.ltb_lt]; lia).
  rewrite (nth_error_nth' x d) by lia. reflexivity.
Qed.

Lemma linear_index_decode (n r c : Z) :
  (0 <= r)%Z -> (0 <= c < n)%Z ->
  ((r * n + c) / n = r)%Z /\ ((r * n + c) mod n = c)%Z.
Proof.
  intros Hr Hc. split.
  - symmetry. apply (Z.div_unique (r * n + c) n r c); [left; lia|lia].
  - symmetry. apply (Z.mod_unique (r * n + c) n r c); [left; lia|lia].
Qed.

Lemma reshape_flat_map {A B : Type} (f : A -> list B) (c : nat) (l : list A) :
  (forall a, In a l -> length (f a) = c) ->
  reshape (length l) c (flat_map f l) = map f l.
Proof.
  induction l as [|a l IH]; simpl; intros H; [reflexivity|].
  rewrite firstn_app, skipn_app, (H a) by now left.
  rewrite Nat.sub_diag, firstn_O, app_nil_r, skipn_O.
  rewrite firstn_all2 by (rewrite (H a); auto).
  rewrite skipn_all2 by (rewrite (H a); auto).
  simpl. f_equal. apply IH. intros; apply H; now right.
Qed.

Lemma flat_map_length_const {A B : Type} (f : A -> list B) (c : nat) (l : list A) :
  (forall a, In a l -> length (f a) = c) -> length (flat_map f l) = length l * c.
Proof.
  induction l as [|a l IH]; simpl; intros H; [reflexivity|].
  rewrite length_app, (H a), IH by auto. reflexivity.
Qed.

Lemma map_flat_map {A B C : Type} (g : B -> C) (f : A -> list B) (l : list A) :
  map g (flat_map f l) = flat_map (fun a => map g (f a)) l.
Proof.
  induction l as [|a l IH]; simpl; [reflexivity|]. now rewrite map_app, IH.
Qed.

Lemma index_pairs_in (partial_idx : list (list Z)) (p : Z * Z) :
  In p (index_pairs partial_idx) ->
  exists row, In row partial_idx /\ In (fst p) row /\ In (snd p) row.
Proof.
  unfold index_pairs. rewrite in_flat_map. intros (row & Hrow & Hp).
  rewrite in_flat_map in Hp. destruct Hp as (va & Hva & Hp).
  rewrite in_map_iff in Hp. destruct Hp as (vb & <- & Hvb).
  exists row. auto.
Qed.

Lemma index_pairs_length (partial_idx : list (list Z)) (k : nat) :
  (forall row, In row partial_idx -> length row = k) ->
  length (index_pairs partial_idx) = length partial_idx * k * k.
Proof.
  intros H. unfold index_pairs.
  rewrite (flat_map_length_const _ (c := k * k)); [lia|].
  intros row Hrow. rewrite (flat_map_length_const _ (c := k)).
  - now rewrite (H row Hrow).
  - intros va _. rewrite length_map. now apply H.
Qed.

Section PartialDistance.
Context {W : Type} {N : Num W} {F : Floating W}.

Lemma has_index_range (n : Z) (p : Z * Z) :
  (-1 <= fst p < n)%Z -> (-1 <= snd p < n)%Z -> has_index p = true ->
  (0 <= fst (symmetric_order p) <= snd (symmetric_order p))%Z
  /\ (snd (symmetric_order p) < n)%Z.
Proof.
  unfold has_index, symmetric_order. intros H1 H2 H.
  apply andb_true_iff in H. destruct H as [Ha Hb].
  apply negb_true_iff, Z.eqb_neq in Ha. apply negb_true_iff, Z.eqb_neq in Hb.
  destruct (snd p <? fst p)%Z eqn:E; simpl.
  - apply Z.ltb_lt in E. lia.
  - apply Z.ltb_ge in E. lia.
Qed.

Lemma pair_distance_canonical (x : list (list W)) (n : nat) (p : Z * Z) :
  length x = n ->
  (-1 <= fst p < Z.of_nat n)%Z -> (-1 <= snd p < Z.of_nat n)%Z -> has_index p = true ->
  pair_distance x n (fst (symmetric_order p) * Z.of_nat n + snd (symmetric_order p))
  = Ok (computed_entry x p).
Proof.
  intros Hx H1 H2 H. unfold pair_distance, computed_entry. rewrite H.
  destruct (@has_index_range (Z.of_nat n) p H1 H2 H) as [Hr Hc].
  destruct (@linear_index_decode (Z.of_nat n) (fst (symmetric_order p))
              (snd (symmetric_order p))) as [Hd Hm]; [lia|lia|].
  rewrite Hd, Hm.
  rewrite !(@tensor_index_in_range _ x _ []) by (rewrite Hx; lia).
  reflexivity.
Qed.

(** The tensor that [partial_distance_matrix] returns, in closed form,
    and the linear indices it computes the distances of. *)
Lemma partial_distance_matrix_with_idx_value (x : list (list W)) (partial_idx : list (list Z)) :
  dtype_float32 = true ->
  length x = length partial_idx ->
  (forall row, In row partial_idx -> length row = length (nth 0 partial_idx [])) ->
  (forall row v, In row partial_idx -> In v row ->
                 (-1 <= v < Z.of_nat (length partial_idx))%Z) ->
  partial_distance_matrix_with_idx x partial_idx
  = Ok (unique_values (linear_index partial_idx),
        map (fun row => map (fun va => map (fun vb => computed_entry x (vb, va)) row) row)
            partial_idx).
Proof.
  intros Hdt Hx Hk Hrange. unfold partial_distance_matrix_with_idx, torch_unique.
  rewrite Hdt.
  set (n := length partial_idx) in *. set (k := length (nth 0 partial_idx [])) in *.
  assert (Hpairs : forall p, In p (index_pairs partial_idx) ->
                             (-1 <= fst p < Z.of_nat n)%Z /\ (-1 <= snd p < Z.of_nat n)%Z).
  { intros p Hp. destruct (index_pairs_in _ _ Hp) as (row & Hrow & Hf & Hs).
    split; eapply Hrange; eauto. }
  set (g := fun p : Z * Z =>
              (fst (symmetric_order p) * Z.of_nat n + snd (symmetric_order p))%Z).
  assert (Hlin : linear_index partial_idx = map g (filter has_index (index_pairs partial_idx))).
  { unfold linear_index. now rewrite map_map. }
  pose (D := fun u : Z =>
               norm (vsub (xrow x (u / Z.of_nat n)) (xrow x (u mod Z.of_nat n)))).
  assert (HD : forall p, In p (filter has_index (index_pairs partial_idx)) ->
                         pair_distance x n (g p) = Ok (D (g p)) /\ D (g p) = computed_entry x p).
  { intros p Hp. apply filter_In in Hp. destruct Hp as [Hp Hh].
    destruct (Hpairs p Hp) as [H1 H2].
    pose proof (@pair_distance_canonical x n p Hx H1 H2 Hh) as Hpd. fold (g p) in Hpd.
    split.
    - rewrite Hpd. f_equal. unfold D, computed_entry. rewrite Hh.
      destruct (@has_index_range (Z.of_nat n) p H1 H2 Hh) as [Hr Hc].
      destruct (@linear_index_decode (Z.of_nat n) (fst (symmetric_order p))
                  (snd (symmetric_order p))) as [Hd Hm]; [lia|lia|].
      unfold g. now rewrite Hd, Hm.
    - unfold D, computed_entry. rewrite Hh.
      destruct (@has_index_range (Z.of_nat n) p H1 H2 Hh) as [Hr Hc].
      destruct (@linear_index_decode (Z.of_nat n) (fst (symmetric_order p))
                  (snd (symmetric_order p))) as [Hd Hm]; [lia|lia|].
      unfold g. now rewrite Hd, Hm. }
  rewrite (mapM_ok _ D).
  2: { intros u Hu. apply -> unique_values_in in Hu. rewrite Hlin in Hu.
       apply in_map_iff in Hu. destruct Hu as (p & <- & Hp). now apply HD. }
  cbn [bind]. f_equal. f_equal.
  rewrite unique_inverse_lookup, Hlin, map_map.
  pose proof (@index_pairs_length partial_idx k Hk) as Hlen. fold n in Hlen.
  rewrite <- Hlen.
  rewrite masked_put_map.
  assert (Hext : map (fun p => if has_index p then D (g p) else nzero) (index_pairs partial_idx)
                 = map (computed_entry x) (index_pairs partial_idx)).
  { apply map_ext_in. intros p Hp. destruct (has_index p) eqn:Hh.
    - apply HD. apply filter_In. auto.
    - unfold computed_entry. now rewrite Hh. }
  rewrite Hext. clear Hext HD Hlin Hpairs Hlen. subst D g n.
  unfold index_pairs. rewrite map_flat_map.
  rewrite reshape_flat_map.
  2: { intros row Hrow. rewrite length_map, (flat_map_length_const _ (c := k)).
       - now rewrite (Hk row Hrow).
       - intros va _. rewrite length_map. now apply Hk. }
  rewrite map_map. apply map_ext_in. intros row Hrow.
  rewrite map_flat_map. rewrite <- (Hk row Hrow) at 1.
  rewrite reshape_flat_map.
  - apply map_ext. intros va. now rewrite map_map.
  - intros va _. rewrite !length_map. now apply Hk.
Qed.

Lemma partial_distance_matrix_value (x : list (list W)) (partial_idx : list (list Z)) :
  dtype_float32 = true ->
  length x = length partial_idx ->
  (forall row, In row partial_idx -> length row = length (nth 0 partial_idx [])) ->
  (forall row v, In row partial_idx -> In v row ->
                 (-1 <= v < Z.of_nat (length partial_idx))%Z) ->
  partial_distance_matrix x partial_idx
  = Ok (map (fun row => map (fun va => map (fun vb => computed_entry x (vb, va)) row) row)
            partial_idx).
Proof.
  intros Hdt Hx Hk Hrange. unfold partial_distance_matrix.
  now rewrite partial_distance_matrix_with_idx_value.
Qed.

Lemma symmetric_order_swap (va vb : Z) : symmetric_order (vb, va) = symmetric_order (va, vb).
Proof.
  unfold symmetric_order. cbn [fst snd].
  destruct (va <? vb)%Z eqn:E1, (vb <? va)%Z eqn:E2; try reflexivity.
  - apply Z.ltb_lt in E1, E2. lia.
  - apply Z.ltb_ge in E1, E2. f_equal; lia.
Qed.

Lemma symmetric_order_min_max (va vb : Z) :
  symmetric_order (vb, va) = (Z.min va vb, Z.max va vb).
Proof.
  unfold symmetric_order. cbn [fst snd].
  destruct (va <? vb)%Z eqn:E.
  - apply Z.ltb_lt in E. now rewrite Z.min_l, Z.max_r by lia.
  - apply Z.ltb_ge in E. now rewrite Z.min_r, Z.max_l by lia.
Qed.

Lemma has_index_swap (va vb : Z) : has_index (vb, va) = has_index (va, vb).
Proof. unfold has_index. cbn [fst snd]. apply andb_comm. Qed.

(** The entry of a pair does not depend on the order of the pair. *)
Lemma computed_entry_swap (x : list (list W)) (va vb : Z) :
  computed_entry x (vb, va) = computed_entry x (va, vb).
Proof.
  unfold computed_entry. now rewrite has_index_swap, symmetric_order_swap.
Qed.

Lemma computed_entry_min_max (x : list (list W)) (va vb : Z) :
  computed_entry x (vb, va)
  = if ((va =? -1) || (vb =? -1))%Z then nzero
    else norm (vsub (xrow x (Z.min va vb)) (xrow x (Z.max va vb))).
Proof.
  unfold computed_entry. rewrite symmetric_order_min_max. unfold has_index. cbn [fst snd].
  destruct (va =? -1)%Z, (vb =? -1)%Z; reflexivity.
Qed.
End PartialDistance.

Lemma nth_map_error {A B : Type} (f : A -> B) (l : list A) (i : nat) (a : A) (d : B) :
  nth_error l i = Some a -> nth i (map f l) d = f a.
Proof.
  intros H. apply nth_error_nth. now apply map_nth_error.
Qed.



(** *** The pairs whose distance is computed *)

Lemma index_pairs_in_iff (partial_idx : list (list Z)) (va vb : Z) :
  In (vb, va) (index_pairs partial_idx)
  <-> exists row, In row partial_idx /\ In va row /\ In vb row.
Proof.
  unfold index_pairs. rewrite in_flat_map. split.
  - intros (row & Hrow & Hp). rewrite in_flat_map in Hp. destruct Hp as (va' & Hva & Hp).
    rewrite in_map_iff in Hp. destruct Hp as (vb' & E & Hvb). injection E as -> ->.
    exists row. auto.
  - intros (row & Hrow & Hva & Hvb). exists row. split; [assumption|].
    rewrite in_flat_map. exists va. split; [assumption|].
    apply in_map_iff. exists vb. auto.
Qed.

(** The linear indices whose distance is computed are those of the pairs
    of indices of one row, neither of them the sentinel, the smaller one
    first. *)
Lemma distance_matrix_idx_in (partial_idx : list (list Z)) (u : Z) :
  In u (unique_values (linear_index partial_idx))
  <-> exists row va vb,
        In row partial_idx /\ In va row /\ In vb row
        /\ va <> (-1)%Z /\ vb <> (-1)%Z /\ (va <= vb)%Z
        /\ u = (va * Z.of_nat (length partial_idx) + vb)%Z.
Proof.
  rewrite unique_values_in. unfold linear_index. rewrite map_map, in_map_iff. split.
  - intros ([vb va] & <- & Hp). apply filter_In in Hp. destruct Hp as [Hp Hh].
    apply index_pairs_in_iff in Hp. destruct Hp as (row & Hrow & Hva & Hvb).
    unfold has_index in Hh. cbn [fst snd] in Hh. apply andb_true_iff in Hh.
    destruct Hh as [H1 H2]. apply negb_true_iff, Z.eqb_neq in H1, H2.
    rewrite symmetric_order_min_max. cbn [fst snd].
    destruct (Z.le_ge_cases va vb) as [Hle|Hle].
    + exists row, va, vb. rewrite Z.min_l, Z.max_r by lia. repeat split; auto.
    + exists row, vb, va. rewrite Z.min_r, Z.max_l by lia. repeat split; auto.
  - intros (row & va & vb & Hrow & Hva & Hvb & H1 & H2 & Hle & ->).
    exists (va, vb). split.
    + unfold symmetric_order. cbn [fst snd].
      replace (vb <? va)%Z with false by (symmetry; apply Z.ltb_ge; lia). reflexivity.
    + apply filter_In. split.
      * apply index_pairs_in_iff. exists row. auto.
      * unfold has_index. cbn [fst snd]. apply andb_true_iff.
        split; apply negb_true_iff, Z.eqb_neq; assumption.
Qed.

Lemma triangle_length {A : Type} (f : nat -> nat -> A) (k : nat) :
  2 * length (flat_map (fun a => map (f a) (seq 0 (S a))) (seq 0 k)) = k * (k + 1).
Proof.
  induction k as [|k IH]; [reflexivity|].
  rewrite seq_S, flat_map_app, length_app. cbn [flat_map Nat.add].
  rewrite app_nil_r, length_map, length_seq. lia.
Qed.

Lemma triangles_length {A : Type} (code : list Z -> nat -> nat -> A) (rows : list (list Z))
    (k : nat) :
  (forall row, In row rows -> length row = k) ->
  2 * length (flat_map (fun row => flat_map (fun a => map (code row a) (seq 0 (S a)))
                                            (seq 0 (length row)))
                       rows)
  = length rows * k * (k + 1).
Proof.
  induction rows as [|row rows IH]; intros Hk; [reflexivity|].
  cbn [flat_map length]. rewrite length_app.
  pose proof (triangle_length (code row) (length row)) as Ht. cbv beta in Ht.
  rewrite (Hk row) in Ht by now left. rewrite (Hk row) by now left.
  specialize (IH ltac:(intros; apply Hk; now right)).
  replace (S (length rows) * k * (k + 1)) with (k * (k + 1) + length rows * k * (k + 1))
    by (cbn [Nat.mul]; rewrite Nat.mul_add_distr_r; reflexivity).
  lia.
Qed.

(** At most [k * (k + 1) / 2] distances are computed for every row of
    the index matrix. *)
Lemma distance_matrix_idx_count (partial_idx : list (list Z)) (k : nat) :
  (forall row, In row partial_idx -> length row = k) ->
  2 * length (unique_values (linear_index partial_idx)) <= length partial_idx * k * (k + 1).
Proof.
  intros Hk.
  set (n := Z.of_nat (length partial_idx)).
  set (code := fun (row : list Z) (a b : nat) =>
                 let p := symmetric_order (nth b row 0%Z, nth a row 0%Z) in
                 (fst p * n + snd p)%Z).
  set (L := flat_map (fun row => flat_map (fun a => map (code row a) (seq 0 (S a)))
                                          (seq 0 (length row)))
                     partial_idx).
  assert (HL : 2 * length L = length partial_idx * k * (k + 1))
    by (apply triangles_length; exact Hk).
  rewrite <- HL.
  assert (Hincl : incl (unique_values (linear_index partial_idx)) L).
  { intros u Hu. apply -> unique_values_in in Hu. unfold linear_index in Hu.
    rewrite map_map in Hu. apply in_map_iff in Hu. destruct Hu as ([vb va] & <- & Hp).
    apply filter_In in Hp. destruct Hp as [Hp _].
    apply index_pairs_in_iff in Hp. destruct Hp as (row & Hrow & Hva & Hvb).
    destruct (In_nth row va 0%Z Hva) as (a & Ha & Ea).
    destruct (In_nth row vb 0%Z Hvb) as (b & Hb & Eb).
    unfold L. apply in_flat_map. exists row. split; [assumption|].
    destruct (Nat.le_gt_cases b a) as [Hba|Hab].
    - apply in_flat_map. exists a. split; [apply in_seq; lia|].
      apply in_map_iff. exists b. split; [|apply in_seq; lia].
      unfold code. cbv zeta. now rewrite Ea, Eb.
    - apply in_flat_map. exists b. split; [apply in_seq; lia|].
      apply in_map_iff. exists a. split; [|apply in_seq; lia].
      unfold code. cbv zeta. rewrite Ea, Eb. now rewrite symmetric_order_swap. }
  pose proof (NoDup_incl_length (unique_values_NoDup (linear_index partial_idx)) Hincl).
  lia.
Qed.

(** For an [x] of another dtype than float32 the call raises. *)
Lemma partial_distance_matrix_other_dtype {W : Type} {N : Num W} {F : Floating W}
    (x : list (list W)) (partial_idx : list (list Z)) :
  dtype_float32 = false -> exists e, partial_distance_matrix x partial_idx = Err e.
Proof.
  intros Hd. unfold partial_distance_matrix, partial_distance_matrix_with_idx.
  destruct (torch_unique (linear_index partial_idx)) as [D rev].
  destruct (mapM (pair_distance x (length partial_idx)) D) as [ds|e]; cbn [bind].
  - rewrite Hd. cbn [bind]. eauto.
  - eauto.
Qed.

(** C6 (amended).  For a float32 [x] with [n] rows and an [n] by [k] index
    matrix with entries in -1 .. n-1, [partial_distance_matrix] returns (it
    does not fail, also not on rows of sentinels) an [n] by [k] by [k]
    tensor.  Entry (i, a, b) is what [torch.norm] computes for the
    difference of the rows of [x] that [partial_idx[i, a]] and
    [partial_idx[i, b]] name, the row of the smaller index first, and the
    zero of the arithmetic when one of the two is -1; the tensor is
    symmetric in (a, b).  This holds in every arithmetic: in exact
    arithmetic the norm is the Euclidean distance, in float arithmetic it
    is subject to rounding and to overflow of the squares.  The distances
    are computed for the linear indices [D] only: these are without
    repetition the pairs of indices of one row, neither of them -1, with
    the smaller one first, so that every pair's distance is computed once,
    and there are at most [n * k * (k + 1) / 2] of them. *)
Theorem partial_distance_matrix_entries {W : Type} {N : Num W} {F : Floating W}
    (x : list (list W)) (partial_idx : list (list Z)) :
  dtype_float32 = true ->
  length x = length partial_idx ->
  (forall row, In row partial_idx -> length row = length (nth 0 partial_idx [])) ->
  (forall row v, In row partial_idx -> In v row ->
                 (-1 <= v < Z.of_nat (length partial_idx))%Z) ->
  let n := length partial_idx in
  let k := length (nth 0 partial_idx []) in
  exists D out,
    partial_distance_matrix_with_idx x partial_idx = Ok (D, out)
    /\ partial_distance_matrix x partial_idx = Ok out
    /\ length out = n
    /\ (forall m, In m out -> length m = k /\ forall r, In r m -> length r = k)
    /\ (forall i a b row va vb,
          nth_error partial_idx i = Some row ->
          nth_error row a = Some va -> nth_error row b = Some vb ->
          nth b (nth a (nth i out []) []) nzero
          = (if ((va =? -1) || (vb =? -1))%Z then nzero
             else norm (vsub (xrow x (Z.min va vb)) (xrow x (Z.max va vb))))
          /\ nth b (nth a (nth i out []) []) nzero = nth a (nth b (nth i out []) []) nzero)
    /\ NoDup D
    /\ (forall u, In u D <->
          exists row va vb,
            In row partial_idx /\ In va row /\ In vb row
            /\ va <> (-1)%Z /\ vb <> (-1)%Z /\ (va <= vb)%Z
            /\ u = (va * Z.of_nat n + vb)%Z)
    /\ 2 * length D <= n * k * (k + 1).
Proof.
  intros Hdt Hx Hk Hrange n k.
  exists (unique_values (linear_index partial_idx)). eexists.
  split; [now apply partial_distance_matrix_with_idx_value|].
  split; [now apply partial_distance_matrix_value|].
  split; [now rewrite length_map|]. split; [|split; [|split; [|split]]].
  - intros m Hm. apply in_map_iff in Hm. destruct Hm as (row & <- & Hrow).
    rewrite length_map. split; [now apply Hk|].
    intros r Hr. apply in_map_iff in Hr. destruct Hr as (va & <- & _).
    rewrite length_map. now apply Hk.
  - intros i a b row va vb Hi Ha Hb.
    repeat (erewrite nth_map_error; [|eassumption]).
    split; [apply computed_entry_min_max|apply computed_entry_swap].
  - apply unique_values_NoDup.
  - intros u. apply distance_matrix_idx_in.
  - apply distance_matrix_idx_count. exact Hk.
Qed.

Lemma partial_distance_matrix_entries_witness :
  let x := [[0%R]; [3%R]] in
  let partial_idx := [[0; 1]; [1; -1]]%Z in
  let n := length partial_idx in
  let k := length (nth 0 partial_idx []) in
  exists D out,
    partial_distance_matrix_with_idx x partial_idx = Ok (D, out)
    /\ partial_distance_matrix x partial_idx = Ok out
    /\ length out = n
    /\ (forall m, In m out -> length m = k /\ forall r, In r m -> length r = k)
    /\ (forall i a b row va vb,
          nth_error partial_idx i = Some row ->
          nth_error row a = Some va -> nth_error row b = Some vb ->
          nth b (nth a (nth i out []) []) 0%R
          = (if ((va =? -1) || (vb =? -1))%Z then 0%R
             else norm (vsub (xrow x (Z.min va vb)) (xrow x (Z.max va vb))))
          /\ nth b (nth a (nth i out []) []) 0%R = nth a (nth b (nth i out []) []) 0%R)
    /\ NoDup D
    /\ (forall u, In u D <->
          exists row va vb,
            In row partial_idx /\ In va row /\ In vb row
            /\ va <> (-1)%Z /\ vb <> (-1)%Z /\ (va <= vb)%Z
            /\ u = (va * Z.of_nat n + vb)%Z)
    /\ 2 * length D <= n * k * (k + 1).
Proof.
  intros x partial_idx n k.
  refine (@partial_distance_matrix_entries R _ _ x partial_idx _ _ _ _).
  - reflexivity.
  - reflexivity.
  - intros row [<-|[<-|[]]]; reflexivity.
  - intros row v [<-|[<-|[]]] Hv; simpl in Hv; simpl; intuition lia.
Defined.

(** *** Overflow of the squares

    C6 (counterexample).  In the float model the distance of the one-
    feature rows [2^64] and [0] comes out as infinity: the square of the
    difference exceeds the float maximum.  The Euclidean distance of the
    two rows is [2^64], a float32 value. *)
Lemma partial_distance_matrix_overflow :
  let x := [[Finite (2 ^ 64)]; [Finite 0]] in
  (exists out,
     partial_distance_matrix x [[0; 1]; [0; 1]]%Z = Ok out
     /\ nth 1 (nth 0 (nth 0 out []) []) (Finite 0) = PInf)
  /\ norm (vsub [2 ^ 64] [0])%R = (2 ^ 64)%R
  /\ (2 ^ 64 <= float32_max)%R.
Proof.
  intros x.
  assert (Hbig : (float32_max < (2 ^ 64 + - 0) * (2 ^ 64 + - 0))%R).
  { pose proof float32_max_upper as Hu.
    replace ((2 ^ 64 + - 0) * (2 ^ 64 + - 0))%R with (2 * 2 ^ 127)%R; [exact Hu|].
    rewrite Ropp_0, Rplus_0_r, <- pow_add. change (64 + 64) with (S 127). simpl pow. ring. }
  assert (H64 : (2 ^ 64 <= float32_max)%R).
  { eapply Rle_trans; [|apply float32_max_lower]. apply Rle_pow; [lra|lia]. }
  assert (Hpos : (0 < 2 ^ 64)%R) by (apply pow_lt; lra).
  assert (Hpair : norm (vsub (xrow x 0%Z) (xrow x 1%Z)) = PInf).
  { unfold norm, vsub, xrow, x.
    change (Z.to_nat 0) with 0. change (Z.to_nat 1) with 1.
    cbn [nth combine map fst snd nsum fold_right].
    cbn [nsub nmul nadd nzero nsqrt Num_fval Floating_fval fsub fadd fopp].
    rewrite (@fround_finite (2 ^ 64 + - 0)%R) by (pose proof float32_max_pos; lra).
    cbn [fmul]. rewrite (fround_overflow Hbig). reflexivity. }
  split; [|split; [|exact H64]].
  - eexists. split.
    + apply (@partial_distance_matrix_value fval _ _ x [[0; 1]; [0; 1]]%Z).
      * reflexivity.
      * reflexivity.
      * intros row [<-|[<-|[]]]; reflexivity.
      * intros row v [<-|[<-|[]]] Hv; simpl in Hv; simpl; intuition lia.
    + cbn [map nth]. rewrite computed_entry_min_max. cbn [Z.eqb orb Z.min Z.max Z.compare].
      exact Hpair.
  - unfold norm, vsub. cbn [combine map fst snd nsum fold_right nsub nmul nadd nzero nsqrt
                             Num_R Floating_R].
    replace ((2 ^ 64 - 0) * (2 ^ 64 - 0) + 0)%R with ((2 ^ 64) * (2 ^ 64))%R by ring.
    apply sqrt_square. lra.
Qed.

(** ** The weighted dimension-wise median (C9) *)

Lemma in_firstn {A : Type} (n : nat) (l : list A) (a : A) : In a (firstn n l) -> In a l.
Proof.
  intros H. rewrite <- (firstn_skipn n l). apply in_or_app. now left.
Qed.

Lemma filter_none {A : Type} (f : A -> bool) (l : list A) :
  (forall a, In a l -> f a = false) -> filter f l = [].
Proof.
  induction l as [|a l IH]; simpl; intros H; [reflexivity|].
  rewrite (H a) by now left. apply IH. intros; apply H; now right.
Qed.

Section MedianFacts.
Open Scope R_scope.

Lemma nsum_app (l1 l2 : list R) : nsum (l1 ++ l2) = nsum l1 + nsum l2.
Proof. induction l1 as [|a l1 IH]; simpl; [lra|]. simpl in IH. rewrite IH. lra. Qed.

Lemma nsum_perm (l1 l2 : list R) : Permutation l1 l2 -> nsum l1 = nsum l2.
Proof.
  induction 1; simpl in *; try lra.
Qed.

Lemma nsum_nonneg (l : list R) : (forall a, In a l -> 0 <= a) -> 0 <= nsum l.
Proof.
  induction l as [|a l IH]; simpl; intros H; [lra|].
  assert (0 <= a) by (apply H; now left).
  assert (0 <= nsum l) by (apply IH; intros; apply H; now right).
  simpl in *. lra.
Qed.

Lemma map_nth_seq (row : list R) : map (fun j => nth j row 0) (seq 0 (length row)) = row.
Proof.
  induction row as [|a row IH]; simpl; [reflexivity|].
  f_equal. rewrite <- seq_shift, map_map. exact IH.
Qed.

(** The weights in sorted order are the weights of the row, reordered. *)
Lemma sorted_weights_perm (s : sorter (@nltb R _)) (col row : list R) :
  length row = length col ->
  Permutation (map (fun j => nth j row 0) (s col)) row.
Proof.
  intros H.
  assert (Hp : Permutation (map (fun j => nth j row 0) (s col))
                           (map (fun j => nth j row 0) (seq 0 (length row)))).
  { rewrite H. apply Permutation_map, sort_perm. }
  now rewrite map_nth_seq in Hp.
Qed.

Lemma cumsum_from_length (c : R) (l : list R) : length (cumsum_from c l) = length l.
Proof. revert c. induction l as [|a l IH]; intros c; simpl; [reflexivity|]. now rewrite IH. Qed.

(** Entry [q] of the running sum is the sum of the first [q + 1] weights. *)
Lemma cumsum_from_nth (c : R) (l : list R) (q : nat) :
  (q < length l)%nat -> nth q (cumsum_from c l) 0 = c + nsum (firstn (S q) l).
Proof.
  revert c q. induction l as [|a l IH]; intros c q H; simpl in H; [lia|].
  destruct q as [|q].
  - simpl. lra.
  - change (nth (S q) (cumsum_from c (a :: l)) 0) with (nth q (cumsum_from (c + a) l) 0).
    rewrite IH by lia. simpl. lra.
Qed.

(** With weights that are not negative the largest running sum is the
    last one, the total. *)
Lemma fold_max_cumsum (c : R) (l : list R) :
  (forall a, In a l -> 0 <= a) -> fold_left nmax (cumsum_from c l) c = c + nsum l.
Proof.
  revert c. induction l as [|a l IH]; intros c H; simpl; [lra|].
  assert (Ha : 0 <= a) by (apply H; now left).
  rewrite Rmax_right by lra.
  rewrite IH by (intros; apply H; now right). simpl. lra.
Qed.

Lemma nmax_cumsum (l : list R) :
  (forall a, In a l -> 0 <= a) -> nmax_list 0 (cumsum l) = nsum l.
Proof.
  intros H. destruct l as [|a l]; [reflexivity|].
  unfold cumsum. simpl cumsum_from. unfold nmax_list.
  rewrite fold_max_cumsum by (intros; apply H; now right).
  simpl. lra.
Qed.

(** The running sums below a bound form a prefix: the count of them is
    the first position that reaches the bound. *)
Lemma count_below_prefix (h c : R) (l : list R) :
  (forall a, In a l -> 0 <= a) ->
  let cum := cumsum_from c l in
  let p := count_if (fun v => nltb v h) cum in
  (forall q, (q < p)%nat -> nth q cum 0 < h)
  /\ (forall q, (p <= q < length l)%nat -> h <= nth q cum 0).
Proof.
  revert c. induction l as [|a l IH]; intros c H; simpl.
  - unfold count_if. simpl. split; intros q Hq; lia.
  - assert (Ha : 0 <= a) by (apply H; now left).
    assert (Hl : forall b, In b l -> 0 <= b) by (intros; apply H; now right).
    specialize (IH (c + a) Hl). simpl in IH. destruct IH as [IH1 IH2].
    unfold count_if in *. simpl.
    destruct (Rltb (c + a) h) eqn:E.
    + apply Rltb_true in E. simpl. split.
      * intros [|q] Hq; [exact E|]. apply IH1. lia.
      * intros [|q] Hq; [lia|]. apply IH2. lia.
    + apply Rltb_false in E.
      assert (Hall : forall q, (q < length l)%nat -> h <= nth q (cumsum_from (c + a) l) 0).
      { intros q Hq. rewrite cumsum_from_nth by assumption.
        assert (0 <= nsum (firstn (S q) l)).
        { apply nsum_nonneg. intros b Hb. apply Hl. eapply in_firstn; eauto. }
        lra. }
      assert (Hnil : filter (fun v => nltb v h) (cumsum_from (c + a) l) = []).
      { apply filter_none.
        intros v Hv. apply In_nth with (d := 0) in Hv.
        destruct Hv as (q & Hq & <-). rewrite cumsum_from_length in Hq.
        apply Rltb_false. now apply Hall. }
      cbn in Hnil. rewrite Hnil. simpl. split.
      * intros q Hq. lia.
      * intros [|q] Hq; [exact E|]. apply Hall. lia.
Qed.
End MedianFacts.

Section MedianTheorem.
Variable lib : backend R.

Lemma column_length (x : list (list R)) (d : nat) : length (column x d) = length x.
Proof. unfold column. apply length_map. Qed.

Lemma median_entry_selects (x : list (list R)) (row : list R) (d : nat) :
  x <> [] -> length row = length x -> (forall w, In w row -> (0 <= w)%R) ->
  let index_x := torch_sort lib (column x d) in
  let cum := cumsum (map (fun j => nth j row 0%R) index_x) in
  let p := count_if (fun c => Rltb c (nsum row / 2)) cum in
  p < length x
  /\ (nsum row / 2 <= nth p cum 0)%R
  /\ (forall q, q < p -> (nth q cum 0 < nsum row / 2)%R)
  /\ median_entry lib x row d = Ok (median_value lib x row d).
Proof.
  intros Hx Hlen Hnn index_x cum p.
  set (sw := map (fun j => nth j row 0%R) index_x) in *.
  assert (Hperm : Permutation sw row).
  { apply sorted_weights_perm. now rewrite column_length. }
  assert (Hsw : forall a, In a sw -> (0 <= a)%R).
  { intros a Ha. apply Hnn. eapply Permutation_in; eauto. }
  assert (Hsum : nsum sw = nsum row) by now apply nsum_perm.
  assert (Hlsw : length sw = length x).
  { unfold sw. rewrite length_map. unfold index_x. now rewrite sorter_length, column_length. }
  assert (Htot : (0 <= nsum row)%R) by now apply nsum_nonneg.
  assert (Hpre : (forall q, q < p -> (nth q cum 0 < nsum row / 2)%R)
                 /\ (forall q, p <= q < length sw -> (nsum row / 2 <= nth q cum 0)%R))
    by exact (count_below_prefix (nsum row / 2) 0 sw Hsw).
  destruct Hpre as [Hlt Hge].
  assert (Hn : 0 < length x) by (destruct x; [contradiction|simpl; lia]).
  assert (Hp : p < length x).
  { destruct (Nat.lt_ge_cases p (length x)) as [|Hbig]; [assumption|exfalso].
    specialize (Hlt (length x - 1) ltac:(lia)).
    unfold cum, cumsum in Hlt. rewrite cumsum_from_nth in Hlt by lia.
    replace (S (length x - 1)) with (length sw) in Hlt by lia.
    rewrite firstn_all, Hsum in Hlt. cbn in Hlt. lra. }
  split; [exact Hp|]. split; [apply Hge; lia|]. split; [exact Hlt|].
  unfold median_entry, median_value.
  set (ws := nmax_list nzero (cumsum (map (fun j => nth j row nzero) (torch_sort lib (column x d))))).
  assert (Hws : ws = nsum row) by (rewrite <- Hsum; apply (nmax_cumsum sw Hsw)).
  rewrite Hws.
  assert (Hhalf : ndiv (nsum row) (nadd none none) = (nsum row / 2)%R).
  { simpl. replace (1 + 1)%R with 2%R by lra. reflexivity. }
  rewrite Hhalf.
  change (count_if (fun c : R => nltb c (nsum row / 2)%R)
            (cumsum (map (fun j => nth j row nzero) (torch_sort lib (column x d))))) with p.
  assert (Hpi : p < length index_x).
  { unfold index_x. now rewrite sorter_length, column_length. }
  change (torch_sort lib (column x d)) with index_x.
  rewrite (nth_error_nth' index_x 0 Hpi). reflexivity.
Qed.

End MedianTheorem.


(** The example of the test-suite for the weighted median, over the
    rationals: the rows are the row sums times [x[1]], [x[0]], [x[2]] and
    [x[2]]. *)
Example weighted_dimwise_median_test_vectors :
  match weighted_dimwise_median_cpu backend_Q (SparseAdj test_A) test_x with
  | Ok out =>
      map (map Qred) out
      = [[-6 # 5; 6 # 5; 6 # 5]; [-5 # 1; 5 # 1; 5 # 1]; [0; 0; 0]; [0; 0; 0]]%Q
  | Err _ => False
  end.
Proof. vm_compute. reflexivity. Qed.

(** The example of the test-suite for the top-k selector, with [k = 2] and
    [k = 3]; the entries of the test matrix are in row order. *)
Example sparse_top_k_test_vectors :
  _sparse_top_k backend_Q false (A_rows test_A) (A_cols test_A) (A_values test_A) 4 2 false
  = Ok (TopKDense [[5 # 10; 4 # 10]; [3 # 10; 2 # 10]; [9 # 10; 3 # 10]; [4 # 10; 4 # 10]]%Q
                  [[0; 3]; [0; 1]; [2; 3]; [0; 2]]%Z)
  /\ _sparse_top_k backend_Q false (A_rows test_A) (A_cols test_A) (A_values test_A) 4 3 false
  = Ok (TopKDense [[5 # 10; 4 # 10; 3 # 10]; [3 # 10; 2 # 10; 0]; [9 # 10; 3 # 10; 0];
                   [4 # 10; 4 # 10; 4 # 10]]%Q
                  [[0; 3; 1]; [0; 1; -1]; [2; 3; -1]; [0; 2; 3]]%Z).
Proof. split; vm_compute; reflexivity. Qed.

(** ** The weighted medoid (C8) *)

Section WeightedMedoid.
Open Scope R_scope.

Lemma nsum_repeat (c : R) (n : nat) : nsum (repeat c n) = INR n * c.
Proof.
  induction n as [|n IH]; [simpl; lra|].
  rewrite S_INR. simpl repeat. simpl nsum. simpl in IH. rewrite IH. lra.
Qed.

(** The replaced sum of a candidate that is no neighbour is the float
    maximum, whatever the number of nodes. *)
Lemma clamp_masked_sum (n : nat) :
  (0 < n)%nat -> clamp_nonfinite (nsum (repeat float32_max n)) = float32_max.
Proof.
  intros Hn. unfold clamp_nonfinite. cbn [isfinite finfo_max Floating_R].
  destruct (Risfinite (nsum (repeat float32_max n))) eqn:E; [|reflexivity].
  apply Risfinite_true in E. rewrite nsum_repeat in E.
  pose proof float32_max_pos as Hm.
  assert (H1 : 1 <= INR n) by (replace 1 with (INR 1) by reflexivity; apply le_INR; lia).
  rewrite Rabs_pos_eq in E by nra.
  rewrite nsum_repeat. nra.
Qed.


Lemma clamp_le_max (d : R) : clamp_nonfinite d <= float32_max.
Proof.
  unfold clamp_nonfinite. cbn [isfinite finfo_max Floating_R].
  destruct (Risfinite d) eqn:E; [|lra].
  apply Risfinite_true in E. pose proof (Rle_abs d). lra.
Qed.

Lemma Reqb_true (a b : R) : Reqb a b = true <-> a = b.
Proof. unfold Reqb. destruct (Req_dec_T a b); split; intros; try discriminate; tauto. Qed.

(** The entries of [masked_distance_sums]. *)
Lemma masked_distance_sums_nth (l2 : list (list R)) (row : list R) (j : nat) :
  (j < length row)%nat ->
  nth j (masked_distance_sums l2 row) 0
  = if Reqb (nth j row 0) 0 then float32_max
    else clamp_nonfinite (dot row (nth j l2 [])).
Proof.
  intros Hj. unfold masked_distance_sums. rewrite nth_map_seq by assumption.
  cbn [neqb nzero Num_R]. destruct (Reqb (nth j row 0) 0); [|reflexivity].
  apply clamp_masked_sum. lia.
Qed.

Lemma masked_distance_sums_length (l2 : list (list R)) (row : list R) :
  length (masked_distance_sums l2 row) = length row.
Proof. unfold masked_distance_sums. now rewrite length_map, length_seq. Qed.

End WeightedMedoid.

(** *** Overflowing distance sums

    When the weighted distance sums of all neighbours reach the float
    maximum they are replaced by the float maximum, the value that the
    excluded columns carry, and the argmin returns the first column. *)

Lemma clamp_above_max (d : R) : (float32_max < d)%R -> clamp_nonfinite d = float32_max.
Proof.
  intros H. unfold clamp_nonfinite. cbn [isfinite finfo_max Floating_R].
  destruct (Risfinite d) eqn:E; [|reflexivity].
  apply Risfinite_true in E. pose proof (Rle_abs d). lra.
Qed.

Lemma overflow_distance_sums (M : R) :
  (float32_max <= M)%R ->
  masked_distance_sums (_distance_matrix [[1]; [0]; [M]]%R (nofQ 100)) [0; 1; 1]%R
  = [float32_max; float32_max; float32_max].
Proof.
  intros HM. pose proof float32_max_ge_2 as H2.
  assert (He : (0 < nofQ 100 * float32_eps)%R).
  { cbn [nofQ Floating_R]. rewrite Q2R_100. pose proof float32_eps_pos. lra. }
  assert (Hbig : forall a e, (0 < e)%R -> (M * M <= a)%R -> (float32_max < sqrt (Rabs a + e))%R).
  { intros a e He' Ha.
    assert (M * M < Rabs a + e)%R by (pose proof (Rle_abs a); lra).
    apply Rle_lt_trans with M; [assumption|].
    rewrite <- (sqrt_square M) at 1 by lra.
    apply sqrt_lt_1_alt. split; [nra|assumption]. }
  unfold masked_distance_sums, _distance_matrix.
  set (e := (nofQ 100 * float32_eps)%R) in *.
  cbn -[nofQ float32_eps float32_max Reqb clamp_nonfinite e].
  change (nmul (nofQ 100) finfo_eps) with e.
  rewrite (proj2 (Reqb_true 0 0) eq_refl).
  destruct (Reqb 1 0) eqn:E1; [apply Reqb_true in E1; lra|].
  f_equal; [|f_equal; [|f_equal]].
  - apply (@clamp_masked_sum 3). lia.
  - apply clamp_above_max. cbn [fold_right]. fold e.
    match goal with |- (_ < 0 * ?a + (1 * ?b + (1 * sqrt (Rabs ?c + e) + 0)))%R =>
      assert (0 <= b)%R by apply sqrt_pos;
      assert (float32_max < sqrt (Rabs c + e))%R by (apply Hbig; [assumption|nra])
    end. lra.
  - apply clamp_above_max. cbn [fold_right]. fold e.
    match goal with |- (_ < 0 * ?a + (1 * sqrt (Rabs ?c + e) + (1 * ?b + 0)))%R =>
      assert (0 <= b)%R by apply sqrt_pos;
      assert (float32_max < sqrt (Rabs c + e))%R by (apply Hbig; [assumption|nra])
    end. lra.
Qed.

(** C8 (counterexample).  Three nodes with the features 1, 0 and the float
    maximum, and an adjacency whose rows all are (0, 1, 1): the two
    neighbours of row 0 are the columns 1 and 2, but [weighted_medoid]
    returns the row sum times the features of column 0, which is no
    neighbour, and this value differs from the row sum times the features
    of either neighbour. *)
Lemma weighted_medoid_returns_non_neighbour :
  argmin (masked_distance_sums (_distance_matrix overflow_x (nofQ 100)) [0; 1; 1]%R) = 0
  /\ nth 0 (nth 0 (densify overflow_A) []) 1%R = 0%R
  /\ nth 0 (weighted_medoid overflow_A overflow_x) []
     = scale (nsum [0; 1; 1]%R) (nth 0 overflow_x [])
  /\ forall c, (0 < nth c (nth 0 (densify overflow_A) []) 0)%R ->
               nth 0 (weighted_medoid overflow_A overflow_x) []
               <> scale (nsum (nth 0 (densify overflow_A) [])) (nth c overflow_x []).
Proof.
  assert (Harg : argmin (masked_distance_sums (_distance_matrix overflow_x (nofQ 100))
                                              [0; 1; 1]%R) = 0).
  { unfold overflow_x. rewrite overflow_distance_sums by lra.
    cbn [argmin argmin_from nltb Num_R].
    rewrite (proj2 (Rltb_false float32_max float32_max)) by lra. reflexivity. }
  assert (Hout : nth 0 (weighted_medoid overflow_A overflow_x) []
                 = scale (nsum [0; 1; 1]%R) (nth 0 overflow_x [])).
  { unfold weighted_medoid, overflow_A. cbn [densify map nth].
    rewrite Harg. reflexivity. }
  split; [exact Harg|]. split; [reflexivity|]. split; [exact Hout|].
  intros c Hc. rewrite Hout. pose proof float32_max_ge_2 as H2.
  destruct c as [|[|[|c]]]; cbn -[float32_max] in *; try lra.
  - intros [=E]. lra.
  - intros [=E]. lra.
  - destruct c; lra.
Qed.

(** ** The soft k-medoid with weight correction (C7) *)

Section SoftKMedoidFacts.
Open Scope R_scope.









Lemma combine_map_both {A B C : Type} (g : A -> B) (h : A -> C) (l : list A) :
  combine (map g l) (map h l) = map (fun a => (g a, h a)) l.
Proof. induction l as [|a l IH]; cbn; [reflexivity|]. now rewrite IH. Qed.



Lemma topk_idx_in (lib : backend R) (row : list R) (k j : nat) :
  In j (topk_idx lib row k) -> (j < length row)%nat.
Proof.
  unfold topk_idx. intros H. apply in_firstn in H.
  now apply (sorter_in (torch_topk_order lib)) in H.
Qed.


End SoftKMedoidFacts.

(** *** The dense form of the two classes of sparse matrix *)


Lemma index_put_length {A : Type} (t : list (list A)) (rows cols : list nat) (vals : list A) :
  length (index_put t rows cols vals) = length t.
Proof.
  revert t cols vals. induction rows as [|r rows IH]; intros t [|c cols] [|v vals];
    simpl; auto.
  rewrite IH. unfold upd2. apply upd_length.
Qed.


Lemma index_put_other_row {A : Type} (t : list (list A)) (rows cols : list nat)
    (vals : list A) (i : nat) :
  (forall r, In r rows -> r <> i) ->
  nth i (index_put t rows cols vals) [] = nth i t [].
Proof.
  revert t cols vals. induction rows as [|r rows IH]; intros t [|c cols] [|v vals] H;
    simpl; auto.
  rewrite IH by (intros; apply H; now right).
  unfold upd2. apply nth_upd_other. apply H. now left.
Qed.

Lemma to_dense_isolated {W : Type} {N : Num W} (A : coo W) (i : nat) :
  i < A_size A -> (forall r, In r (A_rows A) -> r <> i) ->
  nth i (to_dense A) [] = repeat nzero (A_size A).
Proof.
  intros Hi Hrows. unfold to_dense. rewrite nth_map_seq by assumption.
  rewrite <- (map_const_seq nzero 0 (A_size A)).
  apply map_ext. intros j.
  rewrite filter_none; [reflexivity|].
  intros [[r c] v] Hp. cbn [fst snd].
  apply in_combine_l, in_combine_l in Hp.
  apply Hrows in Hp. apply Nat.eqb_neq in Hp. now rewrite Hp.
Qed.

Section DenseForm.
Context {W : Type} {N : Num W}.

Lemma to_dense_length (A : coo W) : length (to_dense A) = A_size A.
Proof. unfold to_dense. now rewrite length_map, length_seq. Qed.


Lemma sparse_tensor_to_dense_length (A : coo W) :
  length (sparse_tensor_to_dense A) = A_size A.
Proof. unfold sparse_tensor_to_dense. now rewrite index_put_length, repeat_length. Qed.


Lemma sparse_tensor_to_dense_isolated (A : coo W) (i : nat) :
  i < A_size A -> (forall r, In r (A_rows A) -> r <> i) ->
  nth i (sparse_tensor_to_dense A) [] = repeat nzero (A_size A).
Proof.
  intros Hi Hrows. unfold sparse_tensor_to_dense.
  rewrite index_put_other_row by assumption. now apply nth_repeat_lt.
Qed.

Lemma arg_to_dense_length (A : sparse_arg W) : length (arg_to_dense A) = A_size (arg_coo A).
Proof.
  destruct A; [apply to_dense_length|apply sparse_tensor_to_dense_length].
Qed.


(** A node without entries has a row of zeros in the dense form of either
    class. *)
Lemma arg_to_dense_isolated (A : sparse_arg W) (i : nat) :
  i < A_size (arg_coo A) -> (forall r, In r (A_rows (arg_coo A)) -> r <> i) ->
  nth i (arg_to_dense A) [] = repeat nzero (A_size (arg_coo A)).
Proof.
  destruct A; [apply to_dense_isolated|apply sparse_tensor_to_dense_isolated].
Qed.
End DenseForm.




(** *** Equal pairwise distances with differing weights *)

Lemma to_dense_equi :
  to_dense equi_A = [[1 / 2; 1 / 3; 1 / 6]; [0; 1; 0]; [0; 0; 1]]%R.
Proof. cbn. rewrite !Rplus_0_r. reflexivity. Qed.



Section Equilateral.
Open Scope R_scope.








End Equilateral.

(** ** Further properties of the soft k-medoid *)

(** At [k = n] the soft k-medoid with weight correction is computed: on
    the dense path the call returns one row per node.  The
    [NotImplementedError] belongs to [k > n] only. *)
Theorem k_equal_n_is_computed (lib : backend R) (A : sparse_arg R) (x : list (list R))
    (temperature eps : R) (threshold : nat) :
  A_size (arg_coo A) = length x ->
  length x < threshold ->
  exists out,
    soft_weighted_medoid_k_neighborhood lib false A x (length x) temperature true threshold eps
    = Ok out
    /\ length out = length x.
Proof.
  intros Hsize Hthr.
  unfold soft_weighted_medoid_k_neighborhood, dense_cpu_soft_weighted_medoid_k_neighborhood.
  rewrite Hsize, Nat.ltb_irrefl.
  replace (length x <? threshold) with true by (symmetry; apply Nat.ltb_lt; lia).
  cbn [negb andb]. eexists. split; [reflexivity|].
  now rewrite length_map, arg_to_dense_length.
Qed.

Lemma k_equal_n_is_computed_witness :
  exists out,
    soft_weighted_medoid_k_neighborhood backend_R false (TorchSparseTensor twin_A) twin_x
                                        (length twin_x) 1%R true 5000 0%R
    = Ok out
    /\ length out = length twin_x.
Proof.
  apply (@k_equal_n_is_computed backend_R (TorchSparseTensor twin_A) twin_x 1%R 0%R 5000).
  - reflexivity.
  - simpl. lia.
Defined.




(** ** Nodes without edges in the dense soft k-medoid

    The float model: values beyond the float maximum overflow, undefined
    operations give NaN. *)

Section PutRowFacts.
Context {W : Type}.

Lemma put_row_length (row : list W) (cols : list nat) (vals : list W) :
  length (put_row row cols vals) = length row.
Proof.
  revert row vals. induction cols as [|c cols IH]; intros row [|v vals]; cbn; auto.
  now rewrite IH, upd_length.
Qed.

Lemma put_row_nth_notin (row : list W) (cols : list nat) (vals : list W) (j : nat) (d : W) :
  ~ In j cols -> nth j (put_row row cols vals) d = nth j row d.
Proof.
  revert row vals. induction cols as [|c cols IH]; intros row [|v vals] Hj; cbn; auto.
  rewrite IH by (intros H; apply Hj; now right).
  apply nth_upd_other. intros ->. apply Hj. now left.
Qed.

Lemma put_row_nth_in (row : list W) (cols : list nat) (vals : list W) (j : nat) (d : W) :
  length cols <= length vals -> In j cols -> j < length row ->
  In (nth j (put_row row cols vals) d) vals.
Proof.
  revert row vals. induction cols as [|c cols IH]; intros row [|v vals] Hlen Hj Hlt;
    cbn in *; try contradiction; try lia.
  destruct (in_dec Nat.eq_dec j cols) as [Hin|Hout].
  - right. apply IH; [lia|assumption|now rewrite upd_length].
  - left. destruct Hj as [->|Hj]; [|contradiction].
    rewrite put_row_nth_notin by assumption. symmetry. now apply nth_upd_same.
Qed.
End PutRowFacts.

Section FloatZeroRow.

Lemma fround_0 : fround 0 = Finite 0.
Proof. apply fround_finite. pose proof float32_max_pos. lra. Qed.

Lemma fmul_0_l (r : R) : fmul (Finite 0) (Finite r) = Finite 0.
Proof. cbn. rewrite Rmult_0_l. apply fround_0. Qed.

Lemma fmul_0_r (r : R) : fmul (Finite r) (Finite 0) = Finite 0.
Proof. cbn. rewrite Rmult_0_r. apply fround_0. Qed.

Lemma nsum_all_zero (l : list fval) :
  (forall a, In a l -> a = Finite 0) -> nsum l = Finite 0.
Proof.
  intros H. rewrite (Forall_eq_repeat (x := Finite 0) (l := l)).
  - apply nsum_zero_row.
  - apply Forall_forall. intros a Ha. symmetry. now apply H.
Qed.

Lemma nsum_ones (k : nat) :
  (INR k <= float32_max)%R -> nsum (repeat (Finite 1) k) = Finite (INR k).
Proof.
  induction k as [|k IH]; intros Hk; [reflexivity|].
  rewrite S_INR in Hk. pose proof (pos_INR k).
  change (nsum (repeat (Finite 1) (S k))) with (fadd (Finite 1) (nsum (repeat (Finite 1) k))).
  rewrite IH by lra. cbn [fadd]. rewrite S_INR, fround_finite by lra.
  f_equal. lra.
Qed.

Lemma nmax_list_zeros (k : nat) : nmax_list nzero (repeat (Finite 0) k) = Finite 0.
Proof.
  destruct k as [|k]; [reflexivity|]. cbn [repeat nmax_list].
  induction k as [|k IH]; [reflexivity|]. cbn [repeat fold_left].
  replace (nmax (Finite 0) (Finite 0)) with (Finite 0); [exact IH|].
  cbn. destruct (Rltb 0 0); reflexivity.
Qed.

(** The soft maximum of [k] zeros is uniform and finite. *)
Lemma softmax_zeros (k : nat) :
  0 < k -> (INR k <= float32_max)%R ->
  softmax (repeat (Finite 0) k) = repeat (Finite (1 / INR k)) k.
Proof.
  intros Hk Hmax. pose proof float32_max_ge_2 as H2.
  assert (HINR : (1 <= INR k)%R) by (replace 1%R with (INR 1) by reflexivity; apply le_INR; lia).
  unfold softmax. rewrite nmax_list_zeros, map_repeat.
  assert (He : nexp (nsub (Finite 0) (Finite 0)) = Finite 1).
  { cbn. replace (0 + - 0)%R with 0%R by ring. rewrite fround_0. cbn.
    rewrite exp_0. apply fround_finite. lra. }
  rewrite He, nsum_ones, map_repeat by assumption. f_equal.
  cbn. destruct (Req_dec_T (INR k) 0); [lra|].
  apply fround_finite.
  assert (0 < 1 / INR k <= 1)%R.
  { split; [apply Rdiv_lt_0_compat; lra|].
    apply Rmult_le_reg_r with (INR k); [lra|].
    unfold Rdiv. rewrite Rmult_assoc, Rinv_l by lra. lra. }
  lra.
Qed.

(** A row of zeros in the dense soft k-medoid with weight correction: the
    selected distances are zero, the soft maximum is uniform, the
    correction multiplies it by the zero weights, and the row of the result
    is zero, not NaN. *)
Lemma dense_row_zero_row (lib : backend fval) (x l2 : list (list fval)) (k n : nat)
    (t e : R) :
  0 < k <= n ->
  (INR k <= float32_max)%R ->
  t <> 0%R ->
  (0 < e <= float32_max)%R ->
  finite_matrix l2 ->
  finite_matrix x ->
  length x = n ->
  dense_row lib x l2 k (Finite t) true (Finite e) (repeat (Finite 0) n)
  = repeat (Finite 0) (ncols x).
Proof.
  intros [Hk0 Hk] Hmax Ht He Hl2 Hx Hn.
  set (row := repeat (Finite 0) n).
  assert (Hlen : length row = n) by apply repeat_length.
  set (idx := topk_idx lib row k).
  assert (Hidx : forall j, In j idx -> j < n).
  { intros j Hj. unfold idx, topk_idx in Hj. apply in_firstn in Hj.
    apply (sorter_in (torch_topk_order lib)) in Hj. now rewrite Hlen in Hj. }
  assert (Hlidx : length idx = k).
  { unfold idx, topk_idx. rewrite length_firstn, sorter_length, Hlen. lia. }
  assert (Hw : topk_values lib row k = repeat (Finite 0) k).
  { transitivity (map (fun _ : nat => Finite 0) idx); [|now rewrite map_const, Hlidx].
    unfold topk_values. fold idx.
    apply map_ext. intros j. apply nth_repeat. }
  assert (Hd : map (neg_over (Finite t))
                   (map clamp_nonfinite (topk_distances l2 (repeat (Finite 0) k) idx))
               = repeat (Finite 0) k).
  { transitivity (map (fun _ : nat => Finite 0) idx); [|now rewrite map_const, Hlidx].
    unfold topk_distances. rewrite !map_map.
    apply map_ext. intros ia.
    rewrite nsum_all_zero.
    - cbn. destruct (Req_dec_T t 0); [contradiction|].
      replace (- 0 / t)%R with 0%R by (field; assumption). apply fround_0.
    - intros a Ha. apply in_map_iff in Ha. destruct Ha as ([w j] & <- & Hp).
      apply in_combine_l, repeat_spec in Hp. cbn [fst snd]. subst w.
      destruct (Hl2 j ia) as [r Hr]. unfold mget. cbn [nzero Num_fval].
      rewrite Hr. apply fmul_0_l. }
  unfold dense_row. cbv zeta. fold row. fold idx. rewrite Hw, Hd, Hlen.
  rewrite softmax_zeros by assumption.
  set (tw1 := put_row (repeat nzero n) idx (repeat (Finite (1 / INR k)) k)).
  assert (Htw1 : forall j, exists r, nth j tw1 nzero = Finite r).
  { intros j. destruct (in_dec Nat.eq_dec j idx) as [Hin|Hout].
    - pose proof (@put_row_nth_in _ (repeat nzero n) idx (repeat (Finite (1 / INR k)) k)
                                  j nzero) as H.
      rewrite !repeat_length in H.
      apply repeat_spec in H; [|lia|assumption|now apply Hidx].
      eexists. exact H.
    - exists 0%R. unfold tw1. rewrite put_row_nth_notin by assumption. apply nth_repeat. }
  set (vals := map (fun p : nat * fval => nmul (nth (fst p) tw1 nzero) (snd p))
                   (combine idx (repeat (Finite 0) k))).
  assert (Hvals : forall v, In v vals -> v = Finite 0).
  { intros v Hv. apply in_map_iff in Hv. destruct Hv as ([j w] & <- & Hp).
    apply in_combine_r, repeat_spec in Hp. cbn [fst snd]. subst w.
    destruct (Htw1 j) as [r ->]. apply fmul_0_r. }
  assert (Htw2 : put_row tw1 idx vals = repeat (Finite 0) n).
  { apply nth_ext with (d := Finite 0) (d' := Finite 0).
    - rewrite put_row_length. unfold tw1. now rewrite put_row_length, !repeat_length.
    - intros j Hj. rewrite put_row_length in Hj.
      assert (Hjn : j < n) by (unfold tw1 in Hj; now rewrite put_row_length, repeat_length in Hj).
      rewrite nth_repeat.
      destruct (in_dec Nat.eq_dec j idx) as [Hin|Hout].
      + apply Hvals. apply put_row_nth_in; [|assumption|assumption].
        unfold vals. rewrite length_map, length_combine, repeat_length. lia.
      + rewrite put_row_nth_notin by assumption.
        unfold tw1. rewrite put_row_nth_notin by assumption. apply nth_repeat. }
  rewrite Htw2, nsum_zero_row.
  assert (Hdiv : ndiv (Finite 0) (nadd (Finite 0) (Finite e)) = Finite 0).
  { cbn. rewrite Rplus_0_l, fround_finite by lra. cbn.
    destruct (Req_dec_T e 0); [lra|].
    replace (0 / e)%R with 0%R by (field; lra). apply fround_0. }
  rewrite map_repeat, Hdiv.
  unfold scale, row_matmul. rewrite map_map, <- (map_const_seq (Finite 0) 0 (ncols x)).
  apply map_ext. intros c.
  replace (dot (repeat (Finite 0) n) (column x c)) with (Finite 0).
  - unfold row. rewrite nsum_zero_row. apply fmul_0_l.
  - symmetry. unfold dot. apply nsum_all_zero.
    intros a Ha. apply in_map_iff in Ha. destruct Ha as ([w v] & <- & Hp).
    pose proof (in_combine_l _ _ _ _ Hp) as Hw'. apply repeat_spec in Hw'. subst w.
    apply in_combine_r in Hp. unfold column in Hp. apply in_map_iff in Hp.
    destruct Hp as (r & <- & Hr). apply In_nth with (d := []) in Hr.
    destruct Hr as (j & _ & <-). cbn [fst snd nzero Num_fval].
    destruct (Hx j c) as [r' ->]. apply fmul_0_l.
Qed.
End FloatZeroRow.

Section FloatDistanceMatrix.
Open Scope R_scope.

Lemma Rabs_le_between (a b : R) : Rabs a <= b -> - b <= a <= b.
Proof. unfold Rabs. destruct (Rcase_abs a); lra. Qed.

Lemma nsum_bounded (C : R) (l : list fval) :
  0 <= C -> INR (length l) * C <= float32_max ->
  (forall a, In a l -> exists v, a = Finite v /\ Rabs v <= C) ->
  exists s, nsum l = Finite s /\ Rabs s <= INR (length l) * C.
Proof.
  intros HC. induction l as [|a l IH]; intros Hmax Hl.
  - exists 0. split; [reflexivity|]. cbn. rewrite Rabs_R0. lra.
  - cbn [length] in *. rewrite S_INR in *.
    pose proof (pos_INR (length l)) as Hpos.
    destruct (Hl a (or_introl eq_refl)) as (v & -> & Hv).
    destruct IH as (s & Hs & Hb); [nra|intros; apply Hl; now right|].
    exists (v + s). change (nsum (Finite v :: l)) with (fadd (Finite v) (nsum l)).
    rewrite Hs. cbn [fadd].
    assert (Rabs (v + s) <= (INR (length l) + 1) * C).
    { eapply Rle_trans; [apply Rabs_triang|]. lra. }
    split; [|assumption].
    apply fround_finite. apply Rabs_le_between. lra.
Qed.

Lemma products_bounded (B : R) (d : nat) (u v : list fval) :
  0 <= B -> INR d * (B * B) <= float32_max ->
  (length u <= d)%nat ->
  (forall a, In a u -> exists r, a = Finite r /\ Rabs r <= B) ->
  (forall a, In a v -> exists r, a = Finite r /\ Rabs r <= B) ->
  exists s, dot u v = Finite s /\ Rabs s <= INR d * (B * B).
Proof.
  intros HB Hmax Hlen Hu Hv.
  assert (Hld : (length (combine u v) <= d)%nat).
  { rewrite length_combine. lia. }
  assert (HBB : 0 <= B * B) by nra.
  assert (Hle : INR (length (combine u v)) * (B * B) <= INR d * (B * B)).
  { apply Rmult_le_compat_r; [assumption|]. now apply le_INR. }
  destruct (@nsum_bounded (B * B) (map (fun p => nmul (fst p) (snd p)) (combine u v)))
    as (s & Hs & Hb).
  - assumption.
  - rewrite length_map. lra.
  - intros a Ha. apply in_map_iff in Ha. destruct Ha as ([p q] & <- & Hp).
    destruct (Hu p (in_combine_l _ _ _ _ Hp)) as (rp & -> & Hrp).
    destruct (Hv q (in_combine_r _ _ _ _ Hp)) as (rq & -> & Hrq).
    exists (rp * rq). cbn [fst snd nmul Num_fval fmul].
    assert (Rabs (rp * rq) <= B * B).
    { rewrite Rabs_mult. apply Rmult_le_compat; auto using Rabs_pos. }
    split; [|assumption].
    apply fround_finite. apply Rabs_le_between.
    destruct (combine u v) as [|c0 l0] eqn:E; [destruct Hp|].
    cbn [length] in Hle. rewrite S_INR in Hle.
    pose proof (pos_INR (length l0)). nra.
  - exists s. split; [exact Hs|]. rewrite length_map in Hb. lra.
Qed.

Lemma squares_as_dot {W : Type} {N : Num W} (r : list W) :
  nsum (map (fun a => nmul a a) r) = dot r r.
Proof.
  unfold dot. f_equal.
  induction r as [|a r IH]; cbn [map combine fst snd]; [reflexivity|]. now f_equal.
Qed.

(** In the float model the distance matrix of bounded features is finite
    and positive: nothing overflows on the way. *)
Lemma distance_matrix_finite (B : R) (d : nat) (x : list (list fval)) (i j : nat) :
  0 <= B -> 4 * INR d * (B * B) + 1 <= float32_max ->
  bounded_matrix B d x ->
  (i < length x)%nat -> (j < length x)%nat ->
  exists r, mget (_distance_matrix x (nofQ 100)) i j = Finite r /\ 0 < r.
Proof.
  intros HB Hmax Hx Hi Hj.
  pose proof (pos_INR d) as Hd. assert (HBB : 0 <= B * B) by nra.
  assert (Hdot : forall a b, (a < length x)%nat -> (b < length x)%nat ->
                   exists s, dot (nth a x []) (nth b x []) = Finite s
                             /\ Rabs s <= INR d * (B * B)).
  { intros a b Ha Hb.
    destruct (Hx (nth a x []) (nth_In _ _ Ha)) as [Hla Hea].
    destruct (Hx (nth b x []) (nth_In _ _ Hb)) as [_ Heb].
    apply products_bounded with (B := B); auto. nra. }
  unfold mget, _distance_matrix.
  rewrite map_map, nth_map_seq by assumption.
  rewrite map_map, nth_map_seq by assumption.
  rewrite !(nth_indep _ nzero (nsum (map (fun a => nmul a a) []))) by now rewrite length_map.
  rewrite !(map_nth (fun r => nsum (map (fun a => nmul a a) r)) x []).
  rewrite !squares_as_dot.
  destruct (Hdot i i Hi Hi) as (si & -> & Hsi).
  destruct (Hdot j j Hj Hj) as (sj & -> & Hsj).
  destruct (Hdot i j Hi Hj) as (sij & -> & Hsij).
  pose proof float32_eps_pos as Hep. pose proof float32_eps_lt_1 as Hel.
  pose proof float32_max_ge_2 as H2.
  assert (H100 : 100 <= float32_max).
  { eapply Rle_trans; [|apply float32_max_lower].
    apply Rle_trans with (2 ^ 7); [simpl; lra|]. apply Rle_pow; [lra|lia]. }
  assert (He100 : 100 * float32_eps <= 1).
  { unfold float32_eps in *.
    assert (100 <= 2 ^ 23) by (simpl; lra).
    apply Rmult_le_reg_r with (2 ^ 23); [apply pow_lt; lra|].
    rewrite Rmult_assoc, Rinv_l by (apply pow_nonzero; lra). lra. }
  assert (Htwo : @ntwo fval _ = Finite 2).
  { unfold ntwo. cbn. replace (1 + 1) with 2 by ring. apply fround_finite. lra. }
  rewrite Htwo.
  apply Rabs_le_between in Hsi, Hsj, Hsij.
  cbn [nadd nsub nmul nabs nsqrt finfo_eps nofQ Num_fval Floating_fval fadd fsub fopp fmul].
  rewrite Q2R_100.
  rewrite (fround_finite (r := si + sj)) by lra.
  rewrite (fround_finite (r := 2 * sij)) by lra.
  cbn [fsub fadd fopp]. rewrite (fround_finite (r := si + sj + - (2 * sij))) by lra.
  rewrite (fround_finite (r := 100)) by lra.
  cbn [fabs fmul]. rewrite (fround_finite (r := 100 * float32_eps)) by lra.
  cbn [fadd].
  assert (Habs : Rabs (si + sj + - (2 * sij)) <= 4 * INR d * (B * B)).
  { apply Rabs_le. lra. }
  pose proof (Rabs_pos (si + sj + - (2 * sij))) as Hap.
  rewrite fround_finite by lra.
  cbn [fsqrt]. destruct (Rlt_dec _ 0) as [Hneg|_]; [lra|].
  eexists. split; [reflexivity|]. apply sqrt_lt_R0. lra.
Qed.

Lemma distance_matrix_finite_matrix (B : R) (d : nat) (x : list (list fval)) :
  0 <= B -> 4 * INR d * (B * B) + 1 <= float32_max ->
  bounded_matrix B d x ->
  finite_matrix (_distance_matrix x (nofQ 100)).
Proof.
  intros HB Hmax Hx i j.
  destruct (Nat.lt_ge_cases i (length x)) as [Hi|Hi].
  - destruct (Nat.lt_ge_cases j (length x)) as [Hj|Hj].
    + destruct (@distance_matrix_finite B d x i j HB Hmax Hx Hi Hj) as (r & Hr & _).
      exists r. exact Hr.
    + exists 0. apply nth_overflow. unfold _distance_matrix.
      rewrite map_map, nth_map_seq by assumption. now rewrite !length_map, length_seq.
  - exists 0. rewrite (nth_overflow (_distance_matrix x (nofQ 100))).
    + now destruct j.
    + unfold _distance_matrix. now rewrite !length_map, length_seq.
Qed.

Lemma bounded_finite_matrix (B : R) (d : nat) (x : list (list fval)) :
  bounded_matrix B d x -> finite_matrix x.
Proof.
  intros Hx i j.
  destruct (Nat.lt_ge_cases i (length x)) as [Hi|Hi].
  - destruct (Nat.lt_ge_cases j (length (nth i x []))) as [Hj|Hj].
    + destruct (Hx _ (nth_In _ [] Hi)) as [_ He].
      destruct (He _ (nth_In _ (Finite 0) Hj)) as (v & Hv & _). now exists v.
    + exists 0. now apply nth_overflow.
  - exists 0. rewrite (nth_overflow x) by assumption. now destruct j.
Qed.
End FloatDistanceMatrix.

(** In the float model the dense soft k-medoid with weight correction
    gives a node without edges the zero vector, for every temperature
    other than zero and all features that are bounded so that no squared
    distance overflows: the masking by the float maximum that makes
    [soft_weighted_medoid] return NaN is not applied on this path. *)
Theorem dense_soft_k_medoid_isolated_node (lib : backend fval) (A : sparse_arg fval)
    (x : list (list fval)) (k : nat) (t : R) (eps : fval) (threshold i : nat)
    (B : R) (d : nat) :
  A_size (arg_coo A) = length x ->
  0 < k <= length x ->
  (INR k <= float32_max)%R ->
  length x < threshold ->
  t <> 0%R ->
  i < length x ->
  (forall r, In r (A_rows (arg_coo A)) -> r <> i) ->
  (0 <= B)%R ->
  (4 * INR d * (B * B) + 1 <= float32_max)%R ->
  bounded_matrix B d x ->
  exists out,
    soft_weighted_medoid_k_neighborhood lib false A x k (Finite t) true threshold eps
    = Ok out
    /\ nth i out [] = repeat (Finite 0) (ncols x).
Proof.
  intros Hsize Hk Hmaxk Hthr Ht Hi Hrows HB Hmax Hx.
  unfold soft_weighted_medoid_k_neighborhood, dense_cpu_soft_weighted_medoid_k_neighborhood.
  rewrite Hsize.
  replace (length x <? k) with false by (symmetry; apply Nat.ltb_ge; lia).
  replace (length x <? threshold) with true by (symmetry; apply Nat.ltb_lt; lia).
  cbn [negb andb]. eexists. split; [reflexivity|].
  set (f := dense_row _ _ _ _ _ _ _).
  rewrite (nth_indep _ [] (f []))
    by (rewrite length_map, arg_to_dense_length, Hsize; lia).
  rewrite map_nth. subst f.
  rewrite arg_to_dense_isolated by (try rewrite Hsize; assumption).
  rewrite Hsize.
  assert (He : nofQ (1 # 10000000000) = Finite eps_default).
  { cbn [nofQ Floating_fval]. fold eps_default. apply fround_finite.
    pose proof eps_default_pos. pose proof eps_default_small.
    pose proof float32_max_ge_2. lra. }
  rewrite He.
  apply dense_row_zero_row with (n := length x); auto.
  - pose proof eps_default_pos. pose proof eps_default_small.
    pose proof float32_max_ge_2. lra.
  - eapply distance_matrix_finite_matrix; eassumption.
  - eapply bounded_finite_matrix; eassumption.
Qed.

Lemma dense_soft_k_medoid_isolated_node_witness :
  exists out,
    soft_weighted_medoid_k_neighborhood
      backend_fval false (TorchSparseTensor disconnected_coo) disconnected_x 2
      (Finite (/ 1000)) true 5000 (Finite eps_default)
    = Ok out
    /\ nth 3 out [] = repeat (Finite 0) (ncols disconnected_x).
Proof.
  pose proof float32_max_lower as Hlow.
  assert (H11 : (2 ^ 11 <= 2 ^ 127)%R) by (apply Rle_pow; [lra|lia]).
  apply (@dense_soft_k_medoid_isolated_node
           backend_fval (TorchSparseTensor disconnected_coo) disconnected_x 2 (/ 1000)
           (Finite eps_default) 5000 3 10 3).
  - reflexivity.
  - simpl. lia.
  - simpl in *. lra.
  - simpl. lia.
  - lra.
  - simpl. lia.
  - simpl. intuition lia.
  - lra.
  - simpl in *. lra.
  - intros r Hr. cbn in Hr.
    assert (Hb : forall v, (- 10 <= v <= 10)%R -> exists v', Finite v = Finite v' /\ (Rabs v' <= 10)%R)
      by (intros v Hv; exists v; split; [reflexivity|apply Rabs_le; exact Hv]).
    destruct Hr as [<-|[<-|[<-|[<-|[]]]]]; (split; [simpl; lia|]);
      intros a [<-|[<-|[<-|[]]]]; apply Hb; lra.
Defined.

(** ** The float model computes the exact distance matrix where nothing
    overflows (C10) *)

Section FloatRefinesExact.
Open Scope R_scope.

Lemma combine_map_both_lists {A B C D : Type} (f : A -> C) (g : B -> D)
    (u : list A) (v : list B) :
  combine (map f u) (map g v) = map (fun p => (f (fst p), g (snd p))) (combine u v).
Proof.
  revert v. induction u as [|a u IH]; intros [|b v]; cbn; [reflexivity..|].
  now rewrite IH.
Qed.

Lemma nsum_finite_exact (C : R) (l : list R) :
  0 <= C -> INR (length l) * C <= float32_max ->
  (forall a, In a l -> Rabs a <= C) ->
  nsum (map Finite l) = Finite (nsum l) /\ Rabs (nsum l) <= INR (length l) * C.
Proof.
  intros HC. induction l as [|a l IH]; intros Hmax Hl.
  - split; [reflexivity|]. cbn. rewrite Rabs_R0. lra.
  - cbn [length] in *. rewrite S_INR in *.
    pose proof (pos_INR (length l)) as Hpos.
    pose proof (Hl a (or_introl eq_refl)) as Ha.
    destruct IH as (Hs & Hb); [nra|intros; apply Hl; now right|].
    change (nsum (map Finite (a :: l))) with (fadd (Finite a) (nsum (map Finite l))).
    change (nsum (a :: l)) with (a + nsum l).
    rewrite Hs. cbn [fadd].
    assert (Rabs (a + nsum l) <= (INR (length l) + 1) * C).
    { eapply Rle_trans; [apply Rabs_triang|]. lra. }
    split; [|assumption].
    apply fround_finite. apply Rabs_le_between. lra.
Qed.

Lemma dot_finite_exact (B : R) (d : nat) (u v : list R) :
  0 <= B -> INR d * (B * B) <= float32_max ->
  (length u <= d)%nat ->
  (forall a, In a u -> Rabs a <= B) ->
  (forall a, In a v -> Rabs a <= B) ->
  dot (map Finite u) (map Finite v) = Finite (dot u v)
  /\ Rabs (dot u v) <= INR d * (B * B).
Proof.
  intros HB Hmax Hlen Hu Hv.
  assert (HBB : 0 <= B * B) by nra.
  assert (Hld : (length (combine u v) <= d)%nat) by (rewrite length_combine; lia).
  assert (Hle : INR (length (combine u v)) * (B * B) <= INR d * (B * B)).
  { apply Rmult_le_compat_r; [assumption|]. now apply le_INR. }
  assert (Hprod : forall p, In p (combine u v) -> Rabs (fst p * snd p) <= B * B).
  { intros [a b] Hp. cbn [fst snd]. rewrite Rabs_mult.
    apply Rmult_le_compat; auto using Rabs_pos.
    - apply Hu. eapply in_combine_l; eassumption.
    - apply Hv. eapply in_combine_r; eassumption. }
  destruct (@nsum_finite_exact (B * B) (map (fun p => fst p * snd p) (combine u v)))
    as (Hs & Hb).
  - assumption.
  - rewrite length_map. lra.
  - intros a Ha. apply in_map_iff in Ha. destruct Ha as (p & <- & Hp). now apply Hprod.
  - rewrite length_map in Hb. split; [|unfold dot; cbn [nmul Num_R]; lra].
    unfold dot.
    change (nsum (map (fun p : R * R => nmul (fst p) (snd p)) (combine u v)))
      with (nsum (map (fun p : R * R => fst p * snd p) (combine u v))).
    rewrite <- Hs, combine_map_both_lists, !map_map. cbn [fst snd].
    f_equal. apply map_ext_in. intros p Hp.
    cbn [nmul Num_fval fmul]. apply fround_finite. apply Rabs_le_between.
    specialize (Hprod p Hp).
    destruct (combine u v) as [|c0 l0] eqn:E; [destruct Hp|].
    cbn [length] in Hle. rewrite S_INR in Hle.
    pose proof (pos_INR (length l0)). nra.
Qed.
End FloatRefinesExact.

Section FloatDistanceExact.
Open Scope R_scope.

(** Where no intermediate value leaves the float range, the float model
    of [_distance_matrix] returns the value of exact arithmetic. *)
Lemma distance_matrix_float_exact (B : R) (d : nat) (x : list (list R)) (i j : nat) :
  0 <= B -> 4 * INR d * (B * B) + 1 <= float32_max ->
  (forall r, In r x -> (length r <= d)%nat /\ forall a, In a r -> Rabs a <= B) ->
  (i < length x)%nat -> (j < length x)%nat ->
  mget (_distance_matrix (map (map Finite) x) (nofQ 100)) i j
  = Finite (mget (_distance_matrix x (nofQ 100)) i j).
Proof.
  intros HB Hmax Hx Hi Hj.
  pose proof (pos_INR d) as Hd. assert (HBB : 0 <= B * B) by nra.
  pose proof (nth_error_nth' x [] Hi) as Hxi. pose proof (nth_error_nth' x [] Hj) as Hxj.
  set (xi := nth i x []) in *. set (xj := nth j x []) in *.
  assert (Hdot : forall u v, In u x -> In v x ->
                   dot (map Finite u) (map Finite v) = Finite (dot u v)
                   /\ Rabs (dot u v) <= INR d * (B * B)).
  { intros u v Hu Hv. destruct (Hx u Hu) as [Hlu Heu]. destruct (Hx v Hv) as [_ Hev].
    apply dot_finite_exact; auto. nra. }
  assert (Hini : In xi x) by (eapply nth_error_In; eassumption).
  assert (Hinj : In xj x) by (eapply nth_error_In; eassumption).
  destruct (Hdot xi xi Hini Hini) as (Eii & Hsi).
  destruct (Hdot xj xj Hinj Hinj) as (Ejj & Hsj).
  destruct (Hdot xi xj Hini Hinj) as (Eij & Hsij).
  unfold mget, _distance_matrix. rewrite !length_map.
  rewrite !map_map, !nth_map_seq by assumption.
  rewrite !map_map, !nth_map_seq by assumption.
  repeat (erewrite nth_map_error; [|eassumption]).
  rewrite !map_map.
  repeat (erewrite nth_map_error; [|eassumption]).
  assert (Esq : forall u : list R,
             nsum (map (fun a : R => nmul (Finite a) (Finite a)) u)
             = dot (map Finite u) (map Finite u)).
  { intros u. now rewrite <- squares_as_dot, map_map. }
  rewrite !Esq, !squares_as_dot. fold xi xj. rewrite Eii, Ejj, Eij.
  revert Hsi Hsj Hsij. generalize (dot xi xi) (dot xj xj) (dot xi xj).
  intros si sj sij Hsi Hsj Hsij.
  apply Rabs_le_between in Hsi, Hsj, Hsij.
  pose proof float32_eps_pos as Hep. pose proof float32_max_ge_2 as H2.
  assert (H100 : 100 <= float32_max).
  { eapply Rle_trans; [|apply float32_max_lower].
    apply Rle_trans with (2 ^ 7); [simpl; lra|]. apply Rle_pow; [lra|lia]. }
  assert (He100 : 100 * float32_eps <= 1).
  { unfold float32_eps in *.
    assert (100 <= 2 ^ 23) by (simpl; lra).
    apply Rmult_le_reg_r with (2 ^ 23); [apply pow_lt; lra|].
    rewrite Rmult_assoc, Rinv_l by (apply pow_nonzero; lra). lra. }
  assert (Htwo : @ntwo fval _ = Finite 2).
  { unfold ntwo. cbn. replace (1 + 1) with 2 by ring. apply fround_finite. lra. }
  rewrite Htwo, ntwo_R.
  cbn [nadd nsub nmul nabs nsqrt finfo_eps nofQ Num_fval Floating_fval Num_R Floating_R
       fadd fsub fopp fmul].
  rewrite Q2R_100.
  rewrite (fround_finite (r := si + sj)) by lra.
  rewrite (fround_finite (r := 2 * sij)) by lra.
  cbn [fsub fadd fopp]. rewrite (fround_finite (r := si + sj + - (2 * sij))) by lra.
  rewrite (fround_finite (r := 100)) by lra.
  cbn [fabs fmul]. rewrite (fround_finite (r := 100 * float32_eps)) by lra.
  cbn [fadd].
  assert (Habs : Rabs (si + sj + - (2 * sij)) <= 4 * INR d * (B * B)).
  { apply Rabs_le. lra. }
  pose proof (Rabs_pos (si + sj + - (2 * sij))) as Hap.
  rewrite fround_finite by lra.
  cbn [fsqrt]. destruct (Rlt_dec _ 0) as [Hneg|_]; [lra|].
  reflexivity.
Qed.

End FloatDistanceExact.

(** C10 (amended).  For an [n] by [d] feature matrix of finite floats
    bounded by [B], with [8 * d * B^2 + 1] within the float range so that
    neither the squares nor their sums overflow, every entry of
    [_distance_matrix(x)] is a finite float and strictly positive, the
    diagonal included: the distance of a node to itself is not 0, because
    the guard adds a positive epsilon under the square root.  So the
    matrix holds no NaN. *)
Theorem distance_matrix_safe_sqrt (B : R) (d : nat) (x : list (list fval)) (i j : nat) :
  (0 <= B)%R -> (8 * INR d * (B * B) + 1 <= float32_max)%R ->
  bounded_matrix B d x ->
  i < length x -> j < length x ->
  let l2 := _distance_matrix x (nofQ 100) in
  (exists v, mget l2 i j = Finite v /\ (0 < v)%R)
  /\ isfinite (mget l2 i j) = true
  /\ nltb nzero (mget l2 i j) = true
  /\ (exists v, mget l2 i i = Finite v /\ (0 < v)%R)
  /\ neqb (mget l2 i i) nzero = false.
Proof.
  intros HB Hmax Hx Hi Hj l2.
  assert (Hmax' : (4 * INR d * (B * B) + 1 <= float32_max)%R).
  { pose proof (pos_INR d). assert (0 <= INR d * (B * B))%R by nra. lra. }
  destruct (@distance_matrix_finite B d x i j HB Hmax' Hx Hi Hj) as (v & Ev & Hv).
  destruct (@distance_matrix_finite B d x i i HB Hmax' Hx Hi Hi) as (u & Eu & Hu).
  fold l2 in Ev, Eu. rewrite Ev, Eu.
  split; [now exists v|]. split; [reflexivity|]. split.
  { cbn. now apply Rltb_true. }
  split; [now exists u|].
  cbn. unfold Reqb. destruct (Req_dec_T u 0); [lra|reflexivity].
Qed.

Lemma distance_matrix_safe_sqrt_witness :
  let x := [[Finite 0]; [Finite 1]] in
  let l2 := _distance_matrix x (nofQ 100) in
  (exists v, mget l2 0 1 = Finite v /\ (0 < v)%R)
  /\ isfinite (mget l2 0 1) = true
  /\ nltb nzero (mget l2 0 1) = true
  /\ (exists v, mget l2 0 0 = Finite v /\ (0 < v)%R)
  /\ neqb (mget l2 0 0) nzero = false.
Proof.
  intros x. pose proof float32_max_lower as Hlow.
  assert (H4 : (2 ^ 4 <= 2 ^ 127)%R) by (apply Rle_pow; [lra|lia]).
  apply (@distance_matrix_safe_sqrt 1%R 1 x 0 1).
  - lra.
  - simpl in *. lra.
  - intros r [<-|[<-|[]]]; (split; [simpl; lia|]); intros a [<-|[]];
      eexists; (split; [reflexivity|]); unfold Rabs; destruct (Rcase_abs _); lra.
  - simpl. lia.
  - simpl. lia.
Defined.

(** ** The medoid in every arithmetic (C8) *)

Section ArgminOrdered.
Context {W : Type} {N : Num W} {F : Floating W} {L : Ordered W}.

Lemma nltb_irrefl (a : W) : nltb a a = false.
Proof.
  destruct (nltb a a) eqn:E; [|reflexivity].
  pose proof (nltb_asym _ _ E). congruence.
Qed.

Lemma argmin_from_ordered (l pre : list W) (best : nat) (bv d : W) :
  (forall v, In v (pre ++ l) -> isfinite v = true) ->
  best < length pre -> nth best pre d = bv ->
  (forall j, j < length pre -> nltb (nth j pre d) bv = false) ->
  (forall j, j < best -> nltb bv (nth j pre d) = true) ->
  let r := argmin_from best bv (length pre) l in
  r < length (pre ++ l)
  /\ (forall j, j < length (pre ++ l) -> nltb (nth j (pre ++ l) d) (nth r (pre ++ l) d) = false)
  /\ (forall j, j < r -> nltb (nth r (pre ++ l) d) (nth j (pre ++ l) d) = true).
Proof.
  revert pre best bv. induction l as [|a l IH]; intros pre best bv Hfin Hb Hv Hle Hlt; simpl.
  - rewrite app_nil_r. subst bv. repeat split; auto.
  - assert (Hlen : length (pre ++ [a]) = S (length pre)) by (rewrite length_app; simpl; lia).
    assert (Happ : pre ++ a :: l = (pre ++ [a]) ++ l) by (rewrite <- app_assoc; reflexivity).
    assert (Hfa : isfinite a = true) by (apply Hfin, in_or_app; right; now left).
    assert (Hfpre : forall j, j < length pre -> isfinite (nth j pre d) = true).
    { intros j Hj. apply Hfin, in_or_app. left. now apply nth_In. }
    assert (Hfbv : isfinite bv = true) by (subst bv; now apply Hfpre).
    rewrite Happ in *. rewrite <- Hlen.
    destruct (nltb a bv) eqn:E.
    + apply IH.
      * exact Hfin.
      * lia.
      * rewrite app_nth2, Nat.sub_diag by lia. reflexivity.
      * intros j Hj. destruct (Nat.lt_ge_cases j (length pre)) as [Hjp|Hjp].
        -- rewrite app_nth1 by assumption.
           destruct (nltb (nth j pre d) a) eqn:E2; [|reflexivity].
           pose proof (nltb_le_trans _ _ _ Hfbv E2 (nltb_asym _ _ E)) as H3.
           rewrite (Hle j Hjp) in H3. discriminate.
        -- replace j with (length pre) by lia.
           rewrite app_nth2, Nat.sub_diag by lia. simpl. apply nltb_irrefl.
      * intros j Hj. rewrite app_nth1 by assumption.
        apply (nltb_le_trans _ _ _ (Hfpre j Hj) E (Hle j Hj)).
    + apply IH.
      * exact Hfin.
      * lia.
      * rewrite app_nth1 by assumption. exact Hv.
      * intros j Hj. destruct (Nat.lt_ge_cases j (length pre)).
        -- rewrite app_nth1 by assumption. now apply Hle.
        -- replace j with (length pre) by lia.
           rewrite app_nth2, Nat.sub_diag by lia. simpl. exact E.
      * intros j Hj. rewrite app_nth1 by lia. now apply Hlt.
Qed.

(** [argmin] returns the first position of a least entry, when no entry
    is NaN or infinite. *)
Lemma argmin_ordered (l : list W) (d : W) :
  l <> [] -> (forall v, In v l -> isfinite v = true) ->
  argmin l < length l
  /\ (forall j, j < length l -> nltb (nth j l d) (nth (argmin l) l d) = false)
  /\ (forall j, j < argmin l -> nltb (nth (argmin l) l d) (nth j l d) = true).
Proof.
  destruct l as [|a l]; [contradiction|]. intros _ Hfin. unfold argmin.
  apply (@argmin_from_ordered l [a] 0 a d); simpl.
  - exact Hfin.
  - lia.
  - reflexivity.
  - intros [|j] Hj; [apply nltb_irrefl|lia].
  - intros j Hj. lia.
Qed.

Lemma clamp_nonfinite_isfinite (v : W) : isfinite (clamp_nonfinite v) = true.
Proof.
  unfold clamp_nonfinite. destruct (isfinite v) eqn:E; [exact E|apply finfo_max_isfinite].
Qed.

Lemma clamp_nonfinite_finite (v : W) : isfinite v = true -> clamp_nonfinite v = v.
Proof. intros H. unfold clamp_nonfinite. now rewrite H. Qed.

(** The entries of [masked_distance_sums]: the float maximum for a
    candidate that is no neighbour, whatever the number of nodes. *)
Lemma masked_distance_sums_entry (l2 : list (list W)) (row : list W) (j : nat) :
  j < length row ->
  nth j (masked_distance_sums l2 row) nzero
  = if neqb (nth j row nzero) nzero then finfo_max
    else clamp_nonfinite (dot row (nth j l2 [])).
Proof.
  intros Hj. unfold masked_distance_sums.
  rewrite nth_map_seq by assumption.
  destruct (neqb (nth j row nzero) nzero); [|reflexivity].
  unfold clamp_nonfinite.
  destruct (isfinite (nsum (repeat finfo_max (length row)))) eqn:E; [|reflexivity].
  apply finfo_max_sum; [lia|exact E].
Qed.

Lemma masked_distance_sums_isfinite (l2 : list (list W)) (row : list W) (v : W) :
  In v (masked_distance_sums l2 row) -> isfinite v = true.
Proof.
  unfold masked_distance_sums. intros H. apply in_map_iff in H.
  destruct H as (j & <- & _). apply clamp_nonfinite_isfinite.
Qed.

(** The medoid of a row: when the sum of one neighbour is finite and
    below the float maximum, the selected candidate is a neighbour whose
    sum is finite and the least one, the first such. *)
Lemma weighted_medoid_selects_ordered (l2 : list (list W)) (row : list W) :
  let cost := fun j => dot row (nth j l2 []) in
  (exists j, j < length row /\ neqb (nth j row nzero) nzero = false
             /\ isfinite (cost j) = true /\ nltb (cost j) finfo_max = true) ->
  let c := argmin (masked_distance_sums l2 row) in
  c < length row
  /\ neqb (nth c row nzero) nzero = false
  /\ isfinite (cost c) = true
  /\ (forall j, j < length row -> neqb (nth j row nzero) nzero = false ->
                nltb (clamp_nonfinite (cost j)) (cost c) = false)
  /\ (forall j, j < c -> neqb (nth j row nzero) nzero = false ->
                nltb (cost c) (clamp_nonfinite (cost j)) = true).
Proof.
  intros cost (j0 & Hj0 & Hn0 & Hf0 & Hlt0) c.
  assert (Hlen : length (masked_distance_sums l2 row) = length row)
    by (unfold masked_distance_sums; now rewrite length_map, length_seq).
  assert (Hne : masked_distance_sums l2 row <> []).
  { intros E. rewrite E in Hlen. simpl in Hlen. lia. }
  destruct (@argmin_ordered _ nzero Hne (@masked_distance_sums_isfinite l2 row))
    as (Hc & Hmin & Hfirst).
  fold c in Hc, Hmin, Hfirst. rewrite Hlen in Hc, Hmin.
  assert (Hval0 : nth j0 (masked_distance_sums l2 row) nzero = cost j0).
  { rewrite masked_distance_sums_entry, Hn0 by assumption.
    now apply clamp_nonfinite_finite. }
  assert (Hcv : nth c (masked_distance_sums l2 row) nzero <> finfo_max).
  { intros E. specialize (Hmin j0 Hj0). rewrite Hval0, E in Hmin. congruence. }
  rewrite masked_distance_sums_entry in Hcv by assumption.
  destruct (neqb (nth c row nzero) nzero) eqn:Hnc; [congruence|].
  unfold clamp_nonfinite in Hcv. fold (cost c) in Hcv.
  destruct (isfinite (cost c)) eqn:Hfc; [|congruence].
  assert (Hvalc : nth c (masked_distance_sums l2 row) nzero = cost c).
  { rewrite masked_distance_sums_entry, Hnc by assumption.
    now apply clamp_nonfinite_finite. }
  split; [exact Hc|]. split; [reflexivity|]. split; [reflexivity|]. split.
  - intros j Hj Hnj. specialize (Hmin j Hj).
    now rewrite masked_distance_sums_entry, Hnj, Hvalc in Hmin by assumption.
  - intros j Hj Hnj. specialize (Hfirst j Hj).
    now rewrite (@masked_distance_sums_entry l2 row j), Hnj, Hvalc in Hfirst by lia.
Qed.
End ArgminOrdered.

#[export] Instance Ordered_R : Ordered R.
Proof.
  split.
  - intros a b H. apply Rltb_true in H. apply Rltb_false. lra.
  - intros a b c _ H1 H2. apply Rltb_true in H1. apply Rltb_false in H2.
    apply Rltb_true. lra.
  - change (Risfinite float32_max = true). apply Risfinite_true.
    pose proof float32_max_pos. rewrite Rabs_pos_eq; lra.
  - intros n Hn H. cbn [isfinite finfo_max Floating_R] in *.
    apply Risfinite_true in H. rewrite nsum_repeat in *.
    pose proof float32_max_pos as Hm.
    assert (H1 : (1 <= INR n)%R) by (replace 1%R with (INR 1) by reflexivity; apply le_INR; lia).
    rewrite Rabs_pos_eq in H by nra. nra.
Qed.

Lemma fval_max_sum (n : nat) :
  nsum (repeat (Finite float32_max) (S n)) = Finite float32_max
  \/ nsum (repeat (Finite float32_max) (S n)) = PInf.
Proof.
  pose proof float32_max_pos as Hm.
  induction n as [|n IH].
  - left. cbn. rewrite Rplus_0_r. apply fround_finite. lra.
  - right. change (nsum (repeat (Finite float32_max) (S (S n))))
      with (fadd (Finite float32_max) (nsum (repeat (Finite float32_max) (S n)))).
    destruct IH as [-> | ->]; [|reflexivity].
    cbn [fadd]. apply fround_overflow. lra.
Qed.

#[export] Instance Ordered_fval : Ordered fval.
Proof.
  split.
  - intros [a| | |] [b| | |] H; cbn in *; try discriminate; try reflexivity.
    apply Rltb_true in H. apply Rltb_false. lra.
  - intros [a| | |] [b| | |] [c| | |] Hc H1 H2; cbn in *; try discriminate; try reflexivity.
    + apply Rltb_true in H1. apply Rltb_false in H2. apply Rltb_true. lra.
  - reflexivity.
  - intros [|n] Hn H; [lia|]. cbn [finfo_max Floating_fval] in *.
    destruct (fval_max_sum n) as [E|E]; rewrite E in *; [reflexivity|discriminate].
Qed.

(** C8 (amended).  For a row i of which one neighbour has a weighted
    distance sum S(j) = sum_l A[i,l] * l2[j,l] that, as computed, is finite
    and below the float maximum, [weighted_medoid] returns the row sum
    times the features of a neighbour c whose sum is finite and which no
    neighbour undercuts, the first such one; a neighbour's sum that is not
    finite counts as the float maximum.  l2 is the distance of
    [_distance_matrix].  The candidates that are no neighbours take the
    float maximum as their sum and are never selected.  This holds in
    every arithmetic whose comparison is that of the floats or of the
    reals. *)
Theorem weighted_medoid_is_argmin {W : Type} {N : Num W} {F : Floating W} {L : Ordered W}
    (A : adjacency W) (x : list (list W)) (i : nat) (row : list W) :
  nth_error (densify A) i = Some row ->
  length row = length x ->
  let l2 := _distance_matrix x (nofQ 100) in
  let cost := fun j => dot row (nth j l2 []) in
  (exists j, j < length x /\ neqb (nth j row nzero) nzero = false
             /\ isfinite (cost j) = true /\ nltb (cost j) finfo_max = true) ->
  exists c,
    c < length x
    /\ neqb (nth c row nzero) nzero = false
    /\ isfinite (cost c) = true
    /\ (forall j, j < length x -> neqb (nth j row nzero) nzero = false ->
                  nltb (clamp_nonfinite (cost j)) (cost c) = false)
    /\ (forall j, j < c -> neqb (nth j row nzero) nzero = false ->
                  nltb (cost c) (clamp_nonfinite (cost j)) = true)
    /\ (forall j, j < length x -> neqb (nth j row nzero) nzero = true ->
                  nth j (masked_distance_sums l2 row) nzero = finfo_max)
    /\ nth i (weighted_medoid A x) [] = scale (nsum row) (nth c x []).
Proof.
  intros Hi Hlen l2 cost Hex. rewrite <- Hlen in *.
  destruct (@weighted_medoid_selects_ordered _ _ _ _ l2 row Hex)
    as (Hc & Hnc & Hfc & Hmin & Hfirst).
  exists (argmin (masked_distance_sums l2 row)).
  repeat split; auto.
  - intros j Hj Hz. now rewrite masked_distance_sums_entry, Hz by assumption.
  - unfold weighted_medoid. erewrite nth_map_error by eassumption. reflexivity.
Qed.

Lemma sqrt_le_succ (y : R) : (0 <= y -> sqrt y <= 1 + y)%R.
Proof.
  intros Hy. pose proof (sqrt_pos y) as Hs. pose proof (sqrt_sqrt y Hy) as Hq. nra.
Qed.

Lemma weighted_medoid_is_argmin_witness :
  (let A := DenseAdj [[0; 1; 1]; [0; 1; 1]; [0; 1; 1]]%R in
   let x := [[0]; [1]; [3]]%R in
   let row := [0; 1; 1]%R in
   let l2 := _distance_matrix x (nofQ 100) in
   let cost := fun j => dot row (nth j l2 []) in
   exists c,
     c < length x
     /\ neqb (nth c row nzero) nzero = false
     /\ isfinite (cost c) = true
     /\ (forall j, j < length x -> neqb (nth j row nzero) nzero = false ->
                   nltb (clamp_nonfinite (cost j)) (cost c) = false)
     /\ (forall j, j < c -> neqb (nth j row nzero) nzero = false ->
                   nltb (cost c) (clamp_nonfinite (cost j)) = true)
     /\ (forall j, j < length x -> neqb (nth j row nzero) nzero = true ->
                   nth j (masked_distance_sums l2 row) nzero = finfo_max)
     /\ nth 0 (weighted_medoid A x) [] = scale (nsum row) (nth c x []))
  /\ (let row := [Finite 0; Finite 1; Finite 1]%R in
      let A := DenseAdj [row; row; row] in
      let x := map (map Finite) [[0]; [1]; [3]]%R in
      let l2 := _distance_matrix x (nofQ 100) in
      let cost := fun j => dot row (nth j l2 []) in
      exists c,
        c < length x
        /\ neqb (nth c row nzero) nzero = false
        /\ isfinite (cost c) = true
        /\ (forall j, j < length x -> neqb (nth j row nzero) nzero = false ->
                      nltb (clamp_nonfinite (cost j)) (cost c) = false)
        /\ (forall j, j < c -> neqb (nth j row nzero) nzero = false ->
                      nltb (cost c) (clamp_nonfinite (cost j)) = true)
        /\ (forall j, j < length x -> neqb (nth j row nzero) nzero = true ->
                      nth j (masked_distance_sums l2 row) nzero = finfo_max)
        /\ nth 0 (weighted_medoid A x) [] = scale (nsum row) (nth c x [])).
Proof.
  assert (He : (0 < 100 * float32_eps <= 1)%R).
  { pose proof float32_eps_pos. split; [lra|]. unfold float32_eps in *.
    assert (100 <= 2 ^ 23)%R by (simpl; lra).
    apply Rmult_le_reg_r with (2 ^ 23)%R; [apply pow_lt; lra|].
    rewrite Rmult_assoc, Rinv_l by (apply pow_nonzero; lra). lra. }
  assert (H64 : (64 <= float32_max)%R).
  { eapply Rle_trans; [|apply float32_max_lower].
    apply Rle_trans with (2 ^ 6)%R; [simpl; lra|]. apply Rle_pow; [lra|lia]. }
  assert (Hent : forall k, k < 3 ->
            exists s, mget (_distance_matrix [[0]; [1]; [3]]%R (nofQ 100)) 1 k = s
                      /\ (0 <= s <= 6)%R).
  { intros k Hk. eexists. split; [reflexivity|].
    rewrite distance_matrix_entry by (simpl; lia || (destruct k as [|[|[|k]]]; reflexivity || lia)).
    cbn [nofQ Floating_R]. rewrite Q2R_100. split; [apply sqrt_pos|].
    destruct k as [|[|[|k]]]; try lia;
      unfold sqdist, vsub;
      cbn [combine map nth fst snd nsum fold_right nmul nadd nsub nzero Num_R];
      (eapply Rle_trans; [apply sqrt_le_succ; lra|lra]). }
  destruct (Hent 0 ltac:(lia)) as (sa & Ea & Ha).
  destruct (Hent 1 ltac:(lia)) as (sb & Eb & Hb).
  destruct (Hent 2 ltac:(lia)) as (sc & Ec & Hc).
  split.
  - intros A x row l2 cost.
    apply (@weighted_medoid_is_argmin R _ _ _ A x 0 row eq_refl eq_refl).
    exists 1. split; [simpl; lia|]. split.
    { cbn. unfold Reqb. destruct (Req_dec_T 1 0); [lra|reflexivity]. }
    assert (Hrow : nth 1 (_distance_matrix x (nofQ 100)) []
                   = [mget (_distance_matrix x (nofQ 100)) 1 0;
                      mget (_distance_matrix x (nofQ 100)) 1 1;
                      mget (_distance_matrix x (nofQ 100)) 1 2]) by reflexivity.
    rewrite Hrow. subst x. rewrite Ea, Eb, Ec. subst row.
    unfold dot. cbn [combine map fst snd nsum fold_right nmul nadd nzero Num_R].
    split.
    + apply Risfinite_true. rewrite Rabs_pos_eq; lra.
    + apply Rltb_true. cbn [finfo_max Floating_R]. lra.
  - intros row A x l2 cost.
    apply (@weighted_medoid_is_argmin fval _ _ _ A x 0 row eq_refl eq_refl).
    exists 1. split; [simpl; lia|]. split.
    { cbn. unfold Reqb. destruct (Req_dec_T 1 0); [lra|reflexivity]. }
    assert (Hrow : nth 1 (_distance_matrix x (nofQ 100)) []
                   = [mget (_distance_matrix x (nofQ 100)) 1 0;
                      mget (_distance_matrix x (nofQ 100)) 1 1;
                      mget (_distance_matrix x (nofQ 100)) 1 2]) by reflexivity.
    rewrite Hrow. subst x.
    assert (Hx : forall r, In r [[0]; [1]; [3]]%R ->
                   length r <= 1 /\ forall a, In a r -> (Rabs a <= 3)%R).
    { intros r [<-|[<-|[<-|[]]]]; (split; [simpl; lia|]); intros a [<-|[]];
        unfold Rabs; destruct (Rcase_abs _); lra. }
    rewrite !(@distance_matrix_float_exact 3%R 1) by (simpl; lra || lia || exact Hx).
    rewrite Ea, Eb, Ec. subst row.
    unfold dot. cbn [combine map fst snd nsum fold_right nmul nadd nzero Num_fval fmul fadd].
    repeat (rewrite fround_finite by lra; cbn [fadd]).
    split; [reflexivity|].
    cbn. apply Rltb_true. lra.
Defined.

(** ** The sparse soft k-medoid, row by row *)

Section SparseRow.
Open Scope R_scope.
Variable d : nat.
Variable x : list (list R).
Variable i : nat.


Let kept (e : nat * Z * R) : bool := negb (snd (fst e) =? -1)%Z.




End SparseRow.


Lemma combine_map_l {A B : Type} (g : A -> B) (l : list A) :
  combine (map g l) l = map (fun a => (g a, a)) l.
Proof. induction l as [|a l IH]; cbn; [reflexivity|]. now rewrite IH. Qed.



Section SparseUniform.
Open Scope R_scope.
Variable lib : backend R.



End SparseUniform.

(** ** When the chunked call fails *)

Lemma mapM_not_ok {A B : Type} (f : A -> result B) (l : list A) (a : A) :
  In a l -> (forall b, f a <> Ok b) -> forall r, mapM f l <> Ok r.
Proof.
  induction l as [|h l IH]; simpl; intros Hin Hf r; [contradiction|].
  destruct Hin as [->|Hin].
  - destruct (f a) as [b|e] eqn:E; [now elim (Hf b)|]. discriminate.
  - destruct (f h) as [b|e]; simpl; [|discriminate].
    destruct (mapM f l) as [bs|e] eqn:E; simpl; [|discriminate].
    now elim (IH Hin Hf bs).
Qed.

Lemma mapM_one_error {A B : Type} (f : A -> result B) (l : list A) (e : error) :
  (forall a, In a l -> (exists b, f a = Ok b) \/ f a = Err e) ->
  (exists r, mapM f l = Ok r) \/ mapM f l = Err e.
Proof.
  induction l as [|h l IH]; simpl; intros H; [left; eauto|].
  destruct (H h (or_introl eq_refl)) as [[b ->]| ->]; simpl; [|now right].
  destruct IH as [[r ->]| ->]; simpl; [intros; apply H; now right|left; eauto|now right].
Qed.

Section ChunkedFailure.
Context {W : Type} {N : Num W}.
Variable tuple_rest : Type.
Variable sparse_tensor_to_tuple : SparseTensor W -> list W * tuple_rest.
Variable tuple_to_sparse_tensor : list W -> tuple_rest -> SparseTensor W.

Lemma slice_rows_overrun (adj : SparseTensor W) (l u : Z) :
  (0 <= l <= u)%Z -> (Z.of_nat (length (st_rows adj)) < u)%Z ->
  slice_rows adj l u = Err RuntimeError.
Proof.
  intros H1 H2. unfold slice_rows.
  replace (l <? 0)%Z with false by (symmetry; apply Z.ltb_ge; lia).
  replace (u <? 0)%Z with false by (symmetry; apply Z.ltb_ge; lia).
  rewrite Z.max_l by lia.
  replace (l + (u - l) <=? Z.of_nat (length (st_rows adj)))%Z with false
    by (symmetry; apply Z.leb_gt; lia).
  now rewrite andb_false_r.
Qed.

Lemma slice_rows_ok_or_runtime (adj : SparseTensor W) (l u : Z) :
  (exists a, slice_rows adj l u = Ok a) \/ slice_rows adj l u = Err RuntimeError.
Proof.
  unfold slice_rows.
  match goal with |- context [if ?c then _ else _] => destruct c end; eauto.
Qed.

(** The chunked call fails when the [n_chunks - 1] full blocks need more
    than the [n] rows there are: the block that reaches past the last row
    cannot be sliced.  No aggregation function makes the call return; with
    one that returns on every block the error is the [RuntimeError] of
    the slice. *)
Theorem chunked_message_and_aggregate_overrun
    (adj_t : SparseTensor W) (x : list (list W)) (m : nat)
    (f : option (SparseTensor W -> list (list W) -> result (list (list W)))) :
  (forall a, let (w, r) := sparse_tensor_to_tuple a in tuple_to_sparse_tensor w r = a) ->
  st_requires_grad adj_t = true ->
  length (st_rows adj_t) = length x ->
  (Z.of_nat (length x) < Z.of_nat m * ceil_div (Z.of_nat (length x)) (Z.of_nat (S m)))%Z ->
  let r := chunked_message_and_aggregate sparse_tensor_to_tuple tuple_to_sparse_tensor
             adj_t x (Z.of_nat (S m)) f in
  (forall out, r <> Ok out)
  /\ ((forall g, f = Some g -> forall a y, exists o, g a y = Ok o) -> r = Err RuntimeError).
Proof.
  intros Hrt Hrg Hlen Hover r. subst r. unfold chunked_message_and_aggregate.
  rewrite Hrg. cbn [negb].
  specialize (Hrt adj_t). destruct (sparse_tensor_to_tuple adj_t) as [ew rest].
  destruct (Chunker_init_blocks (Z.of_nat (length x)) m true false)
    as (c & Hc & Hrgc & Hcs & Hblocks).
  rewrite Hc. cbn [bind]. unfold chunk. rewrite Hrgc, Hblocks.
  set (n := Z.of_nat (length x)) in *. set (cs := chunk_size c) in *.
  set (agg := match f with Some g => g | None => sparse_matmul end).
  assert (Hcs0 : (0 <= cs)%Z).
  { rewrite Hcs. pose proof (ceil_div_spec n (m := Z.of_nat (S m)) ltac:(lia)).
    destruct (Z_lt_le_dec (ceil_div n (Z.of_nat (S m))) 0); [nia|assumption]. }
  rewrite <- Hcs in Hover.
  destruct m as [|m]; [lia|].
  match goal with |- context [mapM ?g _] => set (run := g) end.
  assert (Hbad : forall r, mapM run (map (fun j => (j * cs, (j + 1) * cs)%Z)
                                         (range (Z.of_nat (S m)))
                                     ++ [(Z.of_nat (S m) * cs, n)%Z]) <> Ok r).
  { apply mapM_not_ok with (a := (Z.of_nat m * cs, (Z.of_nat m + 1) * cs)%Z).
    - apply in_or_app. left. apply in_map_iff. exists (Z.of_nat m). split; [reflexivity|].
      rewrite range_succ. apply in_or_app. right. now left.
    - intros b. unfold run, checkpoint. rewrite Hrt.
      rewrite slice_rows_overrun; [discriminate|nia|rewrite Hlen; fold n; lia]. }
  split.
  - intros out. destruct (mapM run _) as [blocks|e] eqn:E; [now elim (Hbad blocks)|].
    discriminate.
  - intros Htot.
    destruct (@mapM_one_error _ _ run
                (map (fun j => (j * cs, (j + 1) * cs)%Z) (range (Z.of_nat (S m)))
                 ++ [(Z.of_nat (S m) * cs, n)%Z]) RuntimeError) as [[bs E]|E].
    + intros [l u] _. unfold run, checkpoint. rewrite Hrt.
      destruct (slice_rows_ok_or_runtime adj_t l u) as [[a ->]| ->]; [|now right].
      left. cbn [bind]. unfold agg. destruct f as [g|].
      * apply (Htot g eq_refl).
      * eexists. reflexivity.
    + now elim (Hbad bs).
    + rewrite E. reflexivity.
Qed.
End ChunkedFailure.

(** A run of the theorem: five rows in four chunks, with the default
    aggregation. *)
Lemma chunked_message_and_aggregate_overrun_witness :
  (forall out, chunked_message_and_aggregate st_to_tuple st_of_tuple five_adj five_x 4 None
               <> Ok out)
  /\ chunked_message_and_aggregate st_to_tuple st_of_tuple five_adj five_x 4 None
     = Err RuntimeError.
Proof.
  pose proof (@chunked_message_and_aggregate_overrun Q _ _ st_to_tuple st_of_tuple
                five_adj five_x 3 None (@st_tuple_roundtrip Q) eq_refl eq_refl) as H.
  cbv zeta in H. destruct H as [H1 H2]; [vm_compute; reflexivity|].
  split; [exact H1|].
  apply H2. intros g Hg. discriminate.
Defined.

(** ** The top-k selector on a row index that is in order *)

Section RowMajor.

Lemma row_start_le (rows : list nat) (i : nat) : row_start rows i <= length rows.
Proof. apply filter_length_le. Qed.

Lemma row_start_mono (rows : list nat) (i j : nat) :
  i <= j -> row_start rows i <= row_start rows j.
Proof.
  intros Hij. unfold row_start. induction rows as [|a rows IH]; simpl; [lia|].
  destruct (a <? i) eqn:E1, (a <? j) eqn:E2; simpl; try lia.
  apply Nat.ltb_lt in E1. apply Nat.ltb_ge in E2. lia.
Qed.

Lemma row_start_count (rows : list nat) (i : nat) :
  row_start rows (S i) = row_start rows i + count_occ Nat.eq_dec rows i.
Proof.
  unfold row_start. induction rows as [|a rows IH]; simpl; [reflexivity|].
  destruct (Nat.eq_dec a i) as [->|Hne].
  - replace (i <? S i) with true by (symmetry; apply Nat.ltb_lt; lia).
    replace (i <? i) with false by (symmetry; apply Nat.ltb_ge; lia).
    simpl. lia.
  - destruct (a <? S i) eqn:E1, (a <? i) eqn:E2; simpl; try lia.
    + apply Nat.ltb_lt in E1. apply Nat.ltb_ge in E2. lia.
    + apply Nat.ltb_ge in E1. apply Nat.ltb_lt in E2. lia.
Qed.

(** In a row index that is in order the entries below [j] come first. *)
Lemma sorted_row_start (rows : list nat) (j e : nat) :
  StronglySorted le rows -> e < length rows ->
  (nth e rows 0 <? j) = (e <? row_start rows j).
Proof.
  intros Hs. revert e. unfold row_start.
  induction Hs as [|a rows Hs IH Hall]; intros e He; simpl in He; [lia|].
  simpl. destruct (a <? j) eqn:Ea.
  - destruct e as [|e]; [simpl; now rewrite Ea|].
    simpl. rewrite IH by lia. reflexivity.
  - assert (Hnone : filter (fun r => r <? j) rows = []).
    { apply filter_none. intros r Hr. rewrite Forall_forall in Hall.
      apply Nat.ltb_ge in Ea. apply Nat.ltb_ge. specialize (Hall r Hr). lia. }
    rewrite Hnone. simpl. replace (e <? 0) with false by (symmetry; apply Nat.ltb_ge; lia).
    destruct e as [|e]; [exact Ea|].
    simpl. apply Nat.ltb_ge. apply Nat.ltb_ge in Ea.
    rewrite Forall_forall in Hall. assert (He' : e < length rows) by lia.
    specialize (Hall (nth e rows 0) (nth_In rows 0 He')). lia.
Qed.

Lemma sorted_row_of (rows : list nat) (i e : nat) :
  StronglySorted le rows -> e < length rows ->
  (nth e rows 0 = i <-> row_start rows i <= e < row_start rows (S i)).
Proof.
  intros Hs He.
  pose proof (sorted_row_start i Hs He) as H1.
  pose proof (sorted_row_start (S i) Hs He) as H2.
  destruct (nth e rows 0 <? i) eqn:E1; symmetry in H1;
    destruct (nth e rows 0 <? S i) eqn:E2; symmetry in H2;
    repeat match goal with
           | H : (_ <? _) = true |- _ => apply Nat.ltb_lt in H
           | H : (_ <? _) = false |- _ => apply Nat.ltb_ge in H
           end; lia.
Qed.

(** The inner loop stops at the start of the next row. *)
Lemma advance_end_sorted (rows : list nat) (i fuel e : nat) :
  StronglySorted le rows ->
  row_start rows i <= e <= row_start rows (S i) ->
  row_start rows (S i) <= e + fuel ->
  advance_end fuel rows i e = row_start rows (S i).
Proof.
  intros Hs. revert e. induction fuel as [|fuel IH]; intros e He Hf; simpl.
  - lia.
  - destruct (nth_error rows e) as [r|] eqn:Er.
    + assert (Hlt : e < length rows) by (apply nth_error_Some; congruence).
      assert (Hr : r = nth e rows 0) by (symmetry; now apply nth_error_nth).
      rewrite Hr, Nat.add_1_r, (sorted_row_start (S i) Hs Hlt).
      destruct (e <? row_start rows (S i)) eqn:E.
      * apply Nat.ltb_lt in E. apply IH; lia.
      * apply Nat.ltb_ge in E. lia.
    + apply nth_error_None in Er. pose proof (row_start_le rows (S i)). lia.
Qed.

(** A sorted reordering of a sorted list is the list. *)
Lemma sorted_perm_eq (l1 l2 : list nat) :
  StronglySorted le l1 -> StronglySorted le l2 -> Permutation l1 l2 -> l1 = l2.
Proof.
  intros H1. revert l2. induction H1 as [|a l1 H1 IH Ha]; intros l2 H2 Hp.
  - apply Permutation_nil in Hp. now subst.
  - destruct H2 as [|b l2 H2 Hb]; [apply Permutation_sym, Permutation_nil in Hp; discriminate|].
    rewrite Forall_forall in Ha, Hb.
    assert (Hab : a = b).
    { assert (In a (b :: l2)) as [->|Hin] by (apply (Permutation_in _ Hp); now left);
        [reflexivity|].
      assert (In b (a :: l1)) as [->|Hin'] by (apply (Permutation_in _ (Permutation_sym Hp)); now left);
        [reflexivity|].
      specialize (Ha b Hin'). specialize (Hb a Hin). lia. }
    subst b. f_equal. apply IH; [assumption|]. eapply Permutation_cons_inv; eassumption.
Qed.

Lemma StronglySorted_map_keys (rows : list nat) (p : list nat) :
  (forall j, In j p -> j < length rows) ->
  StronglySorted (key_le Nat.ltb rows) p ->
  StronglySorted le (map (fun j => nth j rows 0) p).
Proof.
  intros Hin Hs. induction Hs as [|a p Hs IH Hall]; simpl; constructor.
  - apply IH. intros j Hj. apply Hin. now right.
  - rewrite Forall_forall in *. intros v Hv. apply in_map_iff in Hv.
    destruct Hv as (j & <- & Hj).
    specialize (Hall j Hj (nth a rows 0) (nth j rows 0)).
    assert (Hla : a < length rows) by (apply Hin; now left).
    assert (Hlj : j < length rows) by (apply Hin; now right).
    specialize (Hall (nth_error_nth' _ _ Hla) (nth_error_nth' _ _ Hlj)).
    apply Nat.ltb_ge in Hall. exact Hall.
Qed.

Lemma map_nth_seq_nat (rows : list nat) :
  map (fun j => nth j rows 0) (seq 0 (length rows)) = rows.
Proof.
  induction rows as [|a rows IH]; simpl; [reflexivity|].
  f_equal. rewrite <- seq_shift, map_map. exact IH.
Qed.

(** Sorting a row index that is in order changes nothing in it. *)
Lemma argsort_sorted_rows (s : sorter Nat.ltb) (rows : list nat) :
  StronglySorted le rows -> map (fun j => nth j rows 0) (s rows) = rows.
Proof.
  intros Hs. apply sorted_perm_eq; [|assumption|].
  - apply StronglySorted_map_keys; [|apply sort_sorted].
    intros j Hj. now apply (sorter_in s).
  - rewrite <- (map_nth_seq_nat rows) at 2. apply Permutation_map, sort_perm.
Qed.
End RowMajor.

Lemma upd_nth_same {A : Type} (l : list A) (i : nat) (d : A) : upd l i (nth i l d) = l.
Proof.
  revert i. induction l as [|a l IH]; intros [|i]; simpl; auto. now rewrite IH.
Qed.

Lemma upd_upd {A : Type} (l : list A) (i : nat) (u v : A) : upd (upd l i u) i v = upd l i v.
Proof.
  revert i. induction l as [|a l IH]; intros [|i]; simpl; auto. now rewrite IH.
Qed.

Lemma firstn_S_upd {A : Type} (l : list A) (b : nat) (a : A) :
  b < length l -> firstn (S b) (upd l b a) = firstn b l ++ [a].
Proof.
  revert b. induction l as [|h l IH]; intros [|b] H; simpl in H; try lia.
  - reflexivity.
  - change (firstn (S (S b)) (upd (h :: l) (S b) a)) with (h :: firstn (S b) (upd l b a)).
    rewrite IH by lia. reflexivity.
Qed.

Lemma skipn_upd_after {A : Type} (l : list A) (b m : nat) (a : A) :
  b < m -> skipn m (upd l b a) = skipn m l.
Proof.
  revert b m. induction l as [|h l IH]; intros [|b] [|m] H; simpl in *; try lia; auto.
  apply IH. lia.
Qed.

Lemma index_put_app {A : Type} (t : list (list A)) (r1 r2 c1 c2 : list nat) (v1 v2 : list A) :
  length r1 = length v1 -> length c1 = length v1 ->
  index_put t (r1 ++ r2) (c1 ++ c2) (v1 ++ v2) = index_put (index_put t r1 c1 v1) r2 c2 v2.
Proof.
  revert t r1 c1. induction v1 as [|a v1 IH]; intros t [|r r1] [|c c1] Hr Hc;
    simpl in *; try discriminate; [reflexivity|].
  apply IH; lia.
Qed.

(** Writing the values [v] into row [i] from column [b] on. *)
Lemma index_put_row {A : Type} (v : list A) (t : list (list A)) (i b : nat) :
  i < length t -> b + length v <= length (nth i t []) ->
  index_put t (map (fun _ => i) v) (seq b (length v)) v
  = upd t i (firstn b (nth i t []) ++ v ++ skipn (b + length v) (nth i t [])).
Proof.
  revert t b. induction v as [|a v IH]; intros t b Hi Hb; simpl in *.
  - rewrite Nat.add_0_r, firstn_skipn. symmetry. apply upd_nth_same.
  - unfold upd2. set (row := nth i t []) in *.
    rewrite IH.
    + rewrite nth_upd_same by assumption. rewrite upd_upd. f_equal.
      rewrite firstn_S_upd by lia. rewrite <- app_assoc. cbn [app].
      rewrite skipn_upd_after by lia.
      replace (S b + length v) with (b + S (length v)) by lia. reflexivity.
    + now rewrite upd_length.
    + rewrite nth_upd_same by assumption. rewrite upd_length. lia.
Qed.

(** Writing one block of values per row of [rs], each from column 0 on,
    into a tensor whose rows of [rs] still hold the padding. *)
Lemma index_put_blocks {A : Type} (d : A) (k : nat) (v : nat -> list A) (rs : list nat)
    (t : list (list A)) :
  NoDup rs ->
  (forall i, In i rs -> i < length t /\ length (v i) <= k /\ nth i t [] = repeat d k) ->
  let t' := index_put t (concat (map (fun i => map (fun _ => i) (v i)) rs))
                        (concat (map (fun i => seq 0 (length (v i))) rs))
                        (concat (map v rs)) in
  length t' = length t
  /\ forall r, nth r t' []
               = if existsb (Nat.eqb r) rs then v r ++ repeat d (k - length (v r))
                 else nth r t [].
Proof.
  intros Hnd. revert t. induction Hnd as [|i rs Hni Hnd IH]; intros t H; simpl.
  - split; reflexivity.
  - destruct (H i (or_introl eq_refl)) as (Hi & Hlen & Hrow).
    rewrite index_put_app by (now rewrite ?length_map, ?length_seq).
    rewrite index_put_row by (rewrite ?Hrow, ?repeat_length; simpl; lia).
    rewrite firstn_O, Hrow. cbn [app plus].
    set (t1 := upd t i _).
    assert (Hskip : skipn (length (v i)) (repeat d k) = repeat d (k - length (v i))).
    { clear -Hlen. revert Hlen. generalize (length (v i)) as m. intros m. revert k.
      induction m as [|m IHm]; intros k Hk; [now rewrite Nat.sub_0_r|].
      destruct k as [|k]; [lia|]. simpl. apply IHm. lia. }
    specialize (IH t1). cbv zeta in IH. destruct IH as [IHl IHr].
    { intros j Hj. destruct (H j (or_intror Hj)) as (Hj1 & Hj2 & Hj3).
      unfold t1. rewrite upd_length. repeat split; auto.
      rewrite nth_upd_other; [exact Hj3|]. intros ->. contradiction. }
    split.
    + rewrite IHl. unfold t1. apply upd_length.
    + intros r. rewrite IHr.
      destruct (Nat.eqb r i) eqn:E.
      * apply Nat.eqb_eq in E. subst r. cbn [orb].
        replace (existsb (Nat.eqb i) rs) with false.
        -- unfold t1. rewrite nth_upd_same by assumption. now rewrite Hskip.
        -- symmetry. apply not_true_is_false. intros Hex. apply existsb_exists in Hex.
           destruct Hex as (j & Hj & Hij). apply Nat.eqb_eq in Hij. subst j. contradiction.
      * cbn [orb]. destruct (existsb (Nat.eqb r) rs); [reflexivity|].
        unfold t1. apply nth_upd_other. intros ->. rewrite Nat.eqb_refl in E. discriminate.
Qed.

Lemma slice_length {A : Type} (l : list A) (a b : nat) :
  a <= b <= length l -> length (slice l a b) = b - a.
Proof.
  intros H. unfold slice. rewrite length_firstn, length_skipn. lia.
Qed.

Lemma nonempty_match {A X : Type} (l : list A) (a b : X) :
  l <> [] -> match l with [] => a | _ :: _ => b end = b.
Proof. destruct l; [contradiction|reflexivity]. Qed.

Lemma hstack_ok {A : Type} (l : list (list A)) : l <> [] -> hstack l = Ok (concat l).
Proof. destruct l; [contradiction|reflexivity]. Qed.

Lemma max_in_list (l : list nat) : l <> [] -> In (fold_right Nat.max 0 l) l.
Proof.
  induction l as [|a l IH]; [contradiction|]. intros _. simpl.
  destruct l as [|b l].
  - left. simpl. lia.
  - destruct (Nat.max_spec a (fold_right Nat.max 0 (b :: l))) as [[_ ->]|[_ ->]].
    + right. apply IH. discriminate.
    + now left.
Qed.

Lemma list_by_nth {A : Type} (l : list (list A)) (f : nat -> list A) (n : nat) :
  length l = n -> (forall r, r < n -> nth r l [] = f r) -> l = map f (seq 0 n).
Proof.
  intros Hl H. apply nth_ext with (d := []) (d' := f 0).
  - now rewrite length_map, length_seq.
  - intros r Hr. rewrite Hl in Hr. rewrite H by assumption.
    rewrite (nth_indep _ (f 0) (f (nth r (seq 0 n) 0))) by (now rewrite length_map, length_seq).
    rewrite map_nth, seq_nth by assumption. reflexivity.
Qed.

Lemma row_start_0 (rows : list nat) : row_start rows 0 = 0.
Proof. unfold row_start. rewrite filter_none; [reflexivity|]. intros a _. reflexivity. Qed.

Lemma concat_filter_flat_map {A : Type} (P : nat -> bool) (g : nat -> list A) (l : list nat) :
  (forall i, In i l -> P i = false -> g i = []) ->
  concat (map g (filter P l)) = flat_map g l.
Proof.
  induction l as [|a l IH]; intros H; [reflexivity|]. cbn [filter flat_map].
  destruct (P a) eqn:E.
  - cbn [map concat]. f_equal. apply IH. intros; apply H; auto. now right.
  - rewrite (H a (or_introl eq_refl) E). cbn [app]. apply IH. intros; apply H; auto. now right.
Qed.

Section SelectLoop.
Context {W : Type} {N : Num W}.
Variable lib : backend W.

Variables (rows cols : list nat) (vals : list W) (k : nat).
Hypothesis rows_sorted : StronglySorted le rows.
Hypothesis vals_length : length vals = length rows.

Local Abbreviation kr := (k_of_row rows k).
Local Abbreviation sel := (selected lib rows vals k).

Lemma selected_length (i : nat) : length (sel i) = kr i.
Proof.
  unfold selected, k_of_row. rewrite length_map, length_firstn, sorter_length, length_map.
  rewrite slice_length.
  - rewrite row_start_count. lia.
  - rewrite vals_length. split; [apply row_start_mono; lia|apply row_start_le].
Qed.

Lemma select_loop_sorted (cs kpr : list nat) (len a : nat)
    (L1 : list (list nat * list nat)) (L2 L3 : list (list nat)) :
  (forall i, a <= i < a + len -> nth_error kpr i = Some (kr i)) ->
  let rs := filter (fun i => 0 <? kr i) (seq a len) in
  select_loop lib rows cs vals kpr
    {| row_idx_start := row_start rows a; row_idx_end := row_start rows a;
       new_idx := L1; valiue_idx := L2; unroll_idx := L3 |}
    (seq a len)
  = Ok {| row_idx_start := row_start rows (a + len); row_idx_end := row_start rows (a + len);
          new_idx := L1 ++ map (fun i => (map (fun _ => i) (sel i),
                                         map (fun e => nth e cs 0) (sel i))) rs;
          valiue_idx := L2 ++ map sel rs;
          unroll_idx := L3 ++ map (fun i => seq 0 (length (sel i))) rs |}.
Proof.
  revert a L1 L2 L3. induction len as [|len IH]; intros a L1 L2 L3 Hk; cbv zeta.
  - simpl. rewrite Nat.add_0_r, !app_nil_r. reflexivity.
  - cbn [seq select_loop]. unfold select_step at 1.
    rewrite (Hk a) by lia. cbn [of_option bind row_idx_end row_idx_start new_idx valiue_idx
                                unroll_idx].
    rewrite (@advance_end_sorted rows a (length rows) (row_start rows a) rows_sorted)
      by (pose proof (row_start_mono rows (i := a) (j := S a)); pose proof (row_start_le rows (S a));
          lia).
    cbn [filter].
    assert (Hsel : map (fun c => row_start rows a + c)
                       (firstn (kr a)
                          (np_argsort lib
                             (map nopp (slice vals (row_start rows a) (row_start rows (S a))))))
                   = selected lib rows vals k a) by reflexivity.
    destruct (0 <? kr a) eqn:E; cbn [bind].
    + rewrite IH by (intros i Hi; apply Hk; lia).
      replace (S a + len) with (a + S len) by lia.
      cbn [map]. rewrite <- !app_assoc. cbn [app].
      rewrite <- Hsel. rewrite !map_map, !length_map. reflexivity.
    + rewrite IH by (intros i Hi; apply Hk; lia).
      replace (S a + len) with (a + S len) by lia. reflexivity.
Qed.

(** What the selector returns for a row index that is in order. *)
Lemma sparse_top_k_sorted (n : nat) (return_sparse : bool) :
  rows <> [] -> scatter_size rows = n -> 0 < k ->
  let cols' := map (fun j => nth j cols 0) (np_argsort_int lib rows) in
  _sparse_top_k lib false rows cols vals n k return_sparse
  = Ok (if return_sparse
        then TopKSparse
               (flat_map (fun i => map (fun _ => i) (sel i)) (seq 0 n))
               (flat_map (fun i => map (fun e => Z.of_nat (nth e cols' 0)) (sel i)) (seq 0 n))
               (flat_map (fun i => map (fun e => nth e vals nzero) (sel i)) (seq 0 n))
        else TopKDense
               (map (fun i => map (fun e => nth e vals nzero) (sel i)
                              ++ repeat nzero (k - length (sel i))) (seq 0 n))
               (map (fun i => map (fun e => Z.of_nat (nth e cols' 0)) (sel i)
                              ++ repeat (-1)%Z (k - length (sel i))) (seq 0 n))).
Proof.
  intros Hne Hn Hk cols'. unfold _sparse_top_k. cbn [negb].
  rewrite (nonempty_match _ _ Hne).
  assert (Hn' : n = S (fold_right Nat.max 0 rows)).
  { rewrite <- Hn. unfold scatter_size. now rewrite (nonempty_match _ _ Hne). }
  unfold _select_k_idx_cpu.
  rewrite (argsort_sorted_rows (np_argsort_int lib) rows_sorted). fold cols'.
  rewrite Hn.
  pose proof (@select_loop_sorted cols'
                (map (fun c => Nat.min c k)
                     (map (fun i => count_occ Nat.eq_dec rows i) (seq 0 n)))
                n 0 [] [] []) as Hloop.
  cbv zeta in Hloop. rewrite row_start_0 in Hloop.
  set (rs := filter (fun i => 0 <? kr i) (seq 0 n)) in *.
  rewrite Hloop; clear Hloop.
  2:{ intros i Hi. rewrite map_map. rewrite nth_error_map.
      rewrite nth_error_nth' with (d := 0) by (rewrite length_seq; lia).
      rewrite seq_nth by lia. reflexivity. }
  cbn [bind new_idx valiue_idx unroll_idx app].
  assert (Hrs : rs <> []).
  { assert (Hin : In (n - 1) rs).
    { apply filter_In. split; [apply in_seq; lia|].
      apply Nat.ltb_lt.
      assert (Hmax : In (n - 1) rows).
      { pose proof (max_in_list Hne) as Hm.
        replace (n - 1) with (fold_right Nat.max 0 rows) by lia. exact Hm. }
      apply (count_occ_In Nat.eq_dec) in Hmax. unfold k_of_row. lia. }
    intros E. rewrite E in Hin. contradiction. }
  rewrite !map_map. cbn [fst snd].
  rewrite !hstack_ok by (destruct rs; [contradiction|discriminate]).
  cbn [bind].
  assert (Hempty : forall i, In i (seq 0 n) -> (0 <? kr i) = false -> sel i = []).
  { intros i _ E. apply Nat.ltb_ge in E.
    assert (Hl : length (sel i) = 0) by (rewrite selected_length; lia).
    now destruct (sel i). }
  destruct return_sparse.
  { f_equal. f_equal.
    - unfold rs. apply concat_filter_flat_map. intros i Hi E. now rewrite (Hempty i Hi E).
    - rewrite concat_map, map_map. unfold rs.
      rewrite <- (concat_filter_flat_map (fun i => 0 <? kr i)
                    (fun i => map (fun e => Z.of_nat (nth e cols' 0)) (sel i)))
        by (intros i Hi E; now rewrite (Hempty i Hi E)).
      f_equal. apply map_ext. intros i. now rewrite map_map.
    - rewrite concat_map, map_map. unfold rs.
      apply concat_filter_flat_map. intros i Hi E. now rewrite (Hempty i Hi E). }
  cbn [bind].
  assert (Hnd : NoDup rs) by (apply NoDup_filter, seq_NoDup).
  assert (Hex : forall r, r < n -> existsb (Nat.eqb r) rs = (0 <? kr r)).
  { intros r Hr. destruct (0 <? kr r) eqn:E.
    - apply existsb_exists. exists r. split; [|apply Nat.eqb_refl].
      apply filter_In. split; [apply in_seq; lia|exact E].
    - apply not_true_is_false. intros Hx. apply existsb_exists in Hx.
      destruct Hx as (j & Hj & Hrj). apply Nat.eqb_eq in Hrj. subst j.
      apply filter_In in Hj. destruct Hj as [_ Hj]. congruence. }
  assert (Hblocks : forall (A : Type) (d : A) (f : nat -> A),
             index_put (repeat (repeat d k) n)
                       (concat (map (fun i => map (fun _ => i) (sel i)) rs))
                       (concat (map (fun i => seq 0 (length (sel i))) rs))
                       (map f (concat (map (fun i => sel i) rs)))
             = map (fun i => map f (sel i) ++ repeat d (k - length (sel i))) (seq 0 n)).
  { intros A d f.
    pose proof (@index_put_blocks A d k (fun i => map f (sel i)) rs (repeat (repeat d k) n) Hnd)
      as Hb. cbv beta zeta in Hb.
    assert (Hrows : concat (map (fun i => map (fun _ : A => i) (map f (sel i))) rs)
                    = concat (map (fun i => map (fun _ => i) (sel i)) rs)).
    { f_equal. apply map_ext. intros i. now rewrite map_map. }
    assert (Hseq : concat (map (fun i => seq 0 (length (map f (sel i)))) rs)
                   = concat (map (fun i => seq 0 (length (sel i))) rs)).
    { f_equal. apply map_ext. intros i. now rewrite length_map. }
    assert (Hv : concat (map (fun i => map f (sel i)) rs)
                 = map f (concat (map (fun i => sel i) rs))).
    { rewrite concat_map, map_map. reflexivity. }
    rewrite Hrows, Hseq, Hv in Hb.
    destruct Hb as [Hbl Hbr].
    { intros i Hi. apply filter_In in Hi. destruct Hi as [Hi _]. apply in_seq in Hi.
      rewrite repeat_length, length_map, selected_length.
      split; [lia|]. split; [unfold k_of_row; lia|]. apply nth_repeat_lt. lia. }
    apply list_by_nth.
    - now rewrite Hbl, repeat_length.
    - intros r Hr. rewrite Hbr, Hex by assumption. rewrite length_map.
      destruct (0 <? kr r) eqn:E; [reflexivity|].
      rewrite (Hempty r ltac:(apply in_seq; lia) E). simpl. rewrite Nat.sub_0_r.
      apply nth_repeat_lt. assumption. }
  f_equal. f_equal.
  - apply Hblocks.
  - rewrite <- (Hblocks Z (-1)%Z (fun e => Z.of_nat (nth e cols' 0))).
    f_equal. rewrite concat_map, !map_map. rewrite concat_map, !map_map.
    f_equal. apply map_ext. intros i. now rewrite map_map.
Qed.
End SelectLoop.

Lemma StronglySorted_app_inv {A : Type} (P : A -> A -> Prop) (l1 l2 : list A) (a b : A) :
  StronglySorted P (l1 ++ l2) -> In a l1 -> In b l2 -> P a b.
Proof.
  induction l1 as [|h l1 IH]; simpl; intros Hs Ha Hb; [contradiction|].
  inversion Hs as [|? ? Hs' Hall]; subst.
  destruct Ha as [->|Ha]; [|now apply IH].
  rewrite Forall_forall in Hall. apply Hall, in_or_app. now right.
Qed.

Lemma StronglySorted_firstn {A : Type} (P : A -> A -> Prop) (l : list A) (n : nat) :
  StronglySorted P l -> StronglySorted P (firstn n l).
Proof.
  intros Hs. revert n. induction Hs as [|a l Hs IH Hall]; intros [|n]; simpl; try constructor.
  - apply IH.
  - rewrite Forall_forall in *. intros b Hb. apply Hall. eapply in_firstn; eauto.
Qed.

Lemma StronglySorted_map {A B : Type} (P : B -> B -> Prop) (f : A -> B) (l : list A) :
  StronglySorted (fun a b => P (f a) (f b)) l -> StronglySorted P (map f l).
Proof.
  induction 1 as [|a l Hs IH Hall]; simpl; constructor; [assumption|].
  rewrite Forall_forall in *. intros b Hb. apply in_map_iff in Hb.
  destruct Hb as (c & <- & Hc). now apply Hall.
Qed.

Lemma StronglySorted_impl_in {A : Type} (P Q : A -> A -> Prop) (l : list A) :
  (forall a b, In a l -> In b l -> P a b -> Q a b) ->
  StronglySorted P l -> StronglySorted Q l.
Proof.
  intros H Hs. induction Hs as [|a l Hs IH Hall]; constructor.
  - apply IH. intros x y Hx Hy. apply H; now right.
  - rewrite Forall_forall in *. intros b Hb. apply H; [now left|now right|now apply Hall].
Qed.

Lemma nth_slice {A : Type} (l : list A) (a b c : nat) (d : A) :
  c < b - a -> nth c (slice l a b) d = nth (a + c) l d.
Proof.
  intros H. unfold slice. rewrite nth_firstn.
  replace (c <? b - a) with true by (symmetry; apply Nat.ltb_lt; lia).
  apply nth_skipn.
Qed.

Lemma NoDup_map_shift (s : nat) (l : list nat) :
  NoDup l -> NoDup (map (fun c => s + c) l).
Proof.
  induction 1 as [|a l Ha Hnd IH]; simpl; constructor; [|assumption].
  intros Hin. apply in_map_iff in Hin. destruct Hin as (b & Hb & Hin).
  assert (b = a) by lia. subst b. contradiction.
Qed.

Section TopKRowMajor.
Variable lib : backend R.
Open Scope R_scope.

Lemma selected_is_top_k (rows : list nat) (vals : list R) (k i : nat) :
  length vals = length rows -> StronglySorted le rows ->
  is_top_k_of_row rows vals k i (selected lib rows vals k i).
Proof.
  intros Hvals Hsorted.
  set (s := row_start rows i). set (e_ := row_start rows (S i)).
  set (deg := count_occ Nat.eq_dec rows i).
  assert (Hse : e_ = (s + deg)%nat) by apply row_start_count.
  assert (Hle : (e_ <= length rows)%nat) by apply row_start_le.
  set (rv := slice vals s e_).
  assert (Hrv : length rv = deg).
  { unfold rv. rewrite slice_length; lia. }
  set (order := np_argsort lib (map nopp rv)).
  assert (Hol : length order = deg) by (unfold order; now rewrite sorter_length, length_map).
  assert (Hoin : forall c, In c order <-> (c < deg)%nat).
  { intros c. unfold order. rewrite (sorter_in (np_argsort lib)), length_map, Hrv. reflexivity. }
  assert (Hsel : selected lib rows vals k i = map (fun c => (s + c)%nat) (firstn (Nat.min deg k) order))
    by reflexivity.
  assert (Hval : forall c, (c < deg)%nat -> nth c rv 0 = nth (s + c) vals 0).
  { intros c Hc. unfold rv. apply nth_slice. lia. }
  assert (Hkey : forall c1 c2, (c1 < deg)%nat -> (c2 < deg)%nat ->
                   key_le nltb (map nopp rv) c1 c2 -> nth (s + c2) vals 0 <= nth (s + c1) vals 0).
  { intros c1 c2 H1 H2 Hk12. unfold key_le in Hk12.
    specialize (Hk12 (- nth c1 rv 0) (- nth c2 rv 0)).
    rewrite <- !Hval by assumption.
    assert (Hn1 : nth_error (map nopp rv) c1 = Some (- nth c1 rv 0)).
    { rewrite nth_error_map, (nth_error_nth' rv 0) by lia. reflexivity. }
    assert (Hn2 : nth_error (map nopp rv) c2 = Some (- nth c2 rv 0)).
    { rewrite nth_error_map, (nth_error_nth' rv 0) by lia. reflexivity. }
    specialize (Hk12 Hn1 Hn2). apply Rltb_false in Hk12. lra. }
  assert (Hrowof : forall c, (c < deg)%nat -> nth (s + c) rows 0%nat = i).
  { intros c Hc. apply sorted_row_of; [assumption|lia|]. fold s e_. lia. }
  assert (Hin : forall e, In e (selected lib rows vals k i) ->
                  exists c, e = (s + c)%nat /\ (c < deg)%nat /\ In c (firstn (Nat.min deg k) order)).
  { intros e He. rewrite Hsel in He. apply in_map_iff in He. destruct He as (c & <- & Hc).
    exists c. split; [reflexivity|]. split; [|assumption]. apply Hoin. eapply in_firstn; eauto. }
  split; [now apply selected_length|]. split; [|split; [|split]].
  - rewrite Hsel. apply NoDup_map_shift.
    pose proof (sorter_NoDup (np_argsort lib) (map nopp rv)) as Hnd. fold order in Hnd.
    rewrite <- (firstn_skipn (Nat.min deg k)) in Hnd. now apply NoDup_app_remove_r in Hnd.
  - intros e He. destruct (Hin e He) as (c & -> & Hc & _).
    split; [lia|]. now apply Hrowof.
  - rewrite Hsel. apply StronglySorted_map.
    apply StronglySorted_impl_in with (P := key_le nltb (map nopp rv)).
    + intros a b Ha Hb Hab. apply Hkey; try assumption; apply Hoin; eapply in_firstn; eauto.
    + apply StronglySorted_firstn. apply sort_sorted.
  - intros e e' He He' Hrow Hnot.
    destruct (Hin e He) as (c & -> & Hc & Hcf).
    assert (Hrange : (s <= e' < e_)%nat).
    { apply sorted_row_of in Hrow; assumption. }
    set (c' := (e' - s)%nat).
    assert (Hc' : (c' < deg)%nat) by (unfold c'; lia).
    replace e' with (s + c')%nat in * by (unfold c'; lia).
    apply Hkey; try assumption.
    assert (Hc'o : In c' order) by now apply Hoin.
    rewrite <- (firstn_skipn (Nat.min deg k) order) in Hc'o. apply in_app_or in Hc'o.
    destruct Hc'o as [Hc'o|Hc'o].
    + exfalso. apply Hnot. rewrite Hsel. apply in_map_iff. exists c'. split; [reflexivity|assumption].
    + apply (@StronglySorted_app_inv _ _ (firstn (Nat.min deg k) order) (skipn (Nat.min deg k) order));
        [|assumption|assumption].
      rewrite firstn_skipn. apply sort_sorted.
Qed.

(** The columns that the selector reports are read through the order
    that [row_idx.argsort()] returned. *)
Lemma sorted_columns (rows cols : list nat) (e : nat) :
  StronglySorted le rows -> (e < length rows)%nat ->
  nth e (map (fun j => nth j cols 0%nat) (np_argsort_int lib rows)) 0%nat
  = nth (nth e (np_argsort_int lib rows) 0%nat) cols 0%nat
  /\ nth (nth e (np_argsort_int lib rows) 0%nat) rows 0%nat = nth e rows 0%nat.
Proof.
  intros Hsorted He. set (sort_idx := np_argsort_int lib rows). split.
  - rewrite (nth_indep (map (fun j => nth j cols 0%nat) sort_idx) 0%nat
                       ((fun j => nth j cols 0%nat) 0%nat)).
    + exact (map_nth (fun j => nth j cols 0%nat) sort_idx 0%nat e).
    + rewrite length_map. unfold sort_idx. now rewrite sorter_length.
  - pose proof (argsort_sorted_rows (np_argsort_int lib) Hsorted) as Hm.
    fold sort_idx in Hm.
    transitivity (nth e (map (fun j => nth j rows 0%nat) sort_idx) 0%nat); [|now rewrite Hm].
    rewrite (nth_indep (map (fun j => nth j rows 0%nat) sort_idx) 0%nat
                       ((fun j => nth j rows 0%nat) 0%nat)).
    + symmetry. exact (map_nth (fun j => nth j rows 0%nat) sort_idx 0%nat e).
    + rewrite length_map. unfold sort_idx. now rewrite sorter_length.
Qed.

(** For a sparse matrix whose entries come row by row (the row index is
    in order, as [coalesce] leaves it) and whose last row has an entry,
    the CPU top-k selector returns two [n] by [k] tensors.  Row [i] starts
    with the [min(k, out-degree)] largest weights of row [i] of the
    matrix, largest first, each taken from a different entry, and is
    padded with weight 0 and index -1.  The column index next to a weight
    is read through the order that [row_idx.argsort()] returned: it is the
    column of an entry of the same row, and that of the weight's own entry
    when the sort left the row index, which was in order, in place. *)
Theorem sparse_top_k_row_major (rows cols : list nat) (vals : list R) (n k : nat) :
  length cols = length rows -> length vals = length rows ->
  StronglySorted le rows -> rows <> [] -> scatter_size rows = n -> (0 < k)%nat ->
  let sort_idx := np_argsort_int lib rows in
  exists Wt It,
    _sparse_top_k lib false rows cols vals n k false = Ok (TopKDense Wt It)
    /\ length Wt = n /\ length It = n
    /\ forall i, (i < n)%nat ->
       exists sel : list nat,
         is_top_k_of_row rows vals k i sel
         /\ nth i Wt [] = map (fun e => nth e vals 0) sel ++ repeat 0 (k - length sel)
         /\ nth i It [] = map (fun e => Z.of_nat (nth (nth e sort_idx 0%nat) cols 0%nat)) sel
                          ++ repeat (-1)%Z (k - length sel)
         /\ (forall e, In e sel -> nth (nth e sort_idx 0%nat) rows 0%nat = i)
         /\ (sort_idx = seq 0 (length rows) ->
             nth i It [] = map (fun e => Z.of_nat (nth e cols 0%nat)) sel
                           ++ repeat (-1)%Z (k - length sel)).
Proof.
  intros Hcols Hvals Hsorted Hne Hn Hk sort_idx. subst sort_idx.
  pose proof (@sparse_top_k_sorted R _ lib rows cols vals k Hsorted Hvals n false Hne Hn Hk) as Htop.
  cbv zeta in Htop.
  eexists. eexists. split; [exact Htop|].
  split; [now rewrite length_map, length_seq|]. split; [now rewrite length_map, length_seq|].
  intros i Hi.
  pose proof (@selected_is_top_k rows vals k i Hvals Hsorted) as Hsel.
  exists (selected lib rows vals k i). split; [exact Hsel|].
  destruct Hsel as (_ & _ & Hin & _).
  set (sort_idx := np_argsort_int lib rows) in *.
  assert (Hidx : nth i (map (fun i0 => map (fun e => Z.of_nat (nth e (map (fun j => nth j cols 0%nat) sort_idx) 0%nat))
                                        (selected lib rows vals k i0)
                                    ++ repeat (-1)%Z (k - length (selected lib rows vals k i0)))
                            (seq 0 n)) []
                 = map (fun e => Z.of_nat (nth (nth e sort_idx 0%nat) cols 0%nat))
                       (selected lib rows vals k i)
                   ++ repeat (-1)%Z (k - length (selected lib rows vals k i))).
  { unfold sort_idx. rewrite nth_map_seq by assumption. f_equal.
    apply map_ext_in. intros e He. destruct (Hin e He) as [Hel _].
    now rewrite (proj1 (@sorted_columns rows cols e Hsorted Hel)). }
  split; [now rewrite nth_map_seq|]. split; [exact Hidx|]. split.
  - intros e He. destruct (Hin e He) as [Hel Hrow]. unfold sort_idx.
    now rewrite (proj2 (@sorted_columns rows cols e Hsorted Hel)).
  - intros Hid. rewrite Hidx. f_equal. apply map_ext_in. intros e He.
    destruct (Hin e He) as [Hel _]. rewrite Hid, seq_nth by assumption.
    reflexivity.
Qed.

(** With [return_sparse=True] the selector returns the same selection as
    a sparse tensor: the entries of row 0 first, then those of row 1, and
    so on, every row with its [min(k, out-degree)] largest weights,
    largest first. *)
Theorem sparse_top_k_row_major_sparse (rows cols : list nat) (vals : list R) (n k : nat) :
  length cols = length rows -> length vals = length rows ->
  StronglySorted le rows -> rows <> [] -> scatter_size rows = n -> (0 < k)%nat ->
  let sort_idx := np_argsort_int lib rows in
  exists sel : nat -> list nat,
    (forall i, is_top_k_of_row rows vals k i (sel i))
    /\ _sparse_top_k lib false rows cols vals n k true
       = Ok (TopKSparse
               (flat_map (fun i => map (fun _ => i) (sel i)) (seq 0 n))
               (flat_map (fun i => map (fun e => Z.of_nat (nth (nth e sort_idx 0%nat) cols 0%nat))
                                       (sel i)) (seq 0 n))
               (flat_map (fun i => map (fun e => nth e vals 0) (sel i)) (seq 0 n))).
Proof.
  intros Hcols Hvals Hsorted Hne Hn Hk sort_idx. subst sort_idx.
  pose proof (@sparse_top_k_sorted R _ lib rows cols vals k Hsorted Hvals n true Hne Hn Hk) as Htop.
  cbv zeta in Htop.
  exists (selected lib rows vals k). split; [intros i; now apply selected_is_top_k|].
  rewrite Htop. f_equal. f_equal.
  apply flat_map_ext. intros i.
  apply map_ext_in. intros e He.
  destruct (@selected_is_top_k rows vals k i Hvals Hsorted) as (_ & _ & Hin & _).
  destruct (Hin e He) as [Hel _].
  now rewrite (proj1 (@sorted_columns rows cols e Hsorted Hel)).
Qed.
End TopKRowMajor.

Lemma sparse_top_k_row_major_witness :
  let rows := [0; 0; 1] in
  let cols := [0; 1; 1] in
  let vals := [1; 3; 2]%R in
  let sort_idx := np_argsort_int backend_R rows in
  exists Wt It,
    _sparse_top_k backend_R false rows cols vals 2 1 false = Ok (TopKDense Wt It)
    /\ length Wt = 2 /\ length It = 2
    /\ forall i, i < 2 ->
       exists sel : list nat,
         is_top_k_of_row rows vals 1 i sel
         /\ nth i Wt [] = map (fun e => nth e vals 0%R) sel ++ repeat 0%R (1 - length sel)
         /\ nth i It [] = map (fun e => Z.of_nat (nth (nth e sort_idx 0) cols 0)) sel
                          ++ repeat (-1)%Z (1 - length sel)
         /\ (forall e, In e sel -> nth (nth e sort_idx 0) rows 0 = i)
         /\ (sort_idx = seq 0 (length rows) ->
             nth i It [] = map (fun e => Z.of_nat (nth e cols 0)) sel
                           ++ repeat (-1)%Z (1 - length sel)).
Proof.
  intros rows cols vals.
  apply (@sparse_top_k_row_major backend_R rows cols vals 2 1).
  - reflexivity.
  - reflexivity.
  - repeat constructor; lia.
  - discriminate.
  - reflexivity.
  - lia.
Defined.

Lemma sparse_top_k_row_major_sparse_witness :
  let rows := [0; 0; 1] in
  let cols := [0; 1; 1] in
  let vals := [1; 3; 2]%R in
  let sort_idx := np_argsort_int backend_R rows in
  exists sel : nat -> list nat,
    (forall i, is_top_k_of_row rows vals 1 i (sel i))
    /\ _sparse_top_k backend_R false rows cols vals 2 1 true
       = Ok (TopKSparse
               (flat_map (fun i => map (fun _ => i) (sel i)) (seq 0 2))
               (flat_map (fun i => map (fun e => Z.of_nat (nth (nth e sort_idx 0) cols 0))
                                       (sel i)) (seq 0 2))
               (flat_map (fun i => map (fun e => nth e vals 0%R) (sel i)) (seq 0 2))).
Proof.
  intros rows cols vals.
  apply (@sparse_top_k_row_major_sparse backend_R rows cols vals 2 1).
  - reflexivity.
  - reflexivity.
  - repeat constructor; lia.
  - discriminate.
  - reflexivity.
  - lia.
Defined.

(** ** The soft median *)

Lemma spmm_no_entry {W : Type} {N : Num W} (d : nat) (rows : list nat) (cols : list Z)
    (vals : list W) (m : nat) (matrix : list (list W)) (i : nat) :
  i < m -> (forall r, In r rows -> r <> i) ->
  nth i (spmm d rows cols vals m matrix) [] = repeat nzero d.
Proof.
  intros Hi Hrows. unfold spmm. rewrite nth_map_seq by assumption.
  set (l := combine (combine rows cols) vals).
  assert (Hl : forall e, In e l -> fst (fst e) <> i).
  { intros [[r c] v] He. apply in_combine_l, in_combine_l in He. now apply Hrows. }
  clearbody l. induction l as [|e l IH]; [reflexivity|]. cbn [fold_right].
  replace (fst (fst e) =? i) with false
    by (symmetry; apply Nat.eqb_neq, Hl; now left).
  apply IH. intros e' He'. apply Hl. now right.
Qed.

Lemma mapM_lookup {A : Type} (l : list A) (idx : list nat) (d : A) :
  (forall j, In j idx -> j < length l) ->
  mapM (fun j => of_option IndexError (nth_error l j)) idx = Ok (map (fun j => nth j l d) idx).
Proof.
  intros H. apply mapM_ok. intros j Hj. rewrite (nth_error_nth' l d (H j Hj)). reflexivity.
Qed.

Section SoftMedianRuns.
Context {W : Type} {N : Num W} {F : Floating W} {P : Power W}.
Variable lib : backend W.

(** The call returns when the indices are in range, whatever the
    numbers are. *)
Lemma soft_median_runs (A : coo W) (x : list (list W)) (p : nat) (temperature eps : W) :
  A_rows A <> [] ->
  length (A_cols A) = length (A_rows A) ->
  (forall r, In r (A_rows A) -> r < length x) ->
  (forall c, In c (A_cols A) -> c < length x) ->
  (forall i c, i < length x -> c < ncols x ->
     exists j, nth_error (nth i (cuda_dimmedian_idx lib x (A_rows A) (A_cols A) (A_values A)) [])
                         c = Some j /\ j < length x) ->
  0 < p ->
  soft_median lib A x p temperature eps
  = Ok (spmm (ncols x) (A_rows A) (map Z.of_nat (A_cols A))
             (final_adj_weights (A_rows A) (A_values A)
                                (scatter_sum (A_values A) (A_rows A))
                                (median_distances lib A x p) temperature eps)
             (length x) x).
Proof.
  intros Hne Hlen Hrows Hcols Hmed Hp. unfold soft_median.
  rewrite (nonempty_match _ _ Hne).
  set (mi := cuda_dimmedian_idx lib x (A_rows A) (A_cols A) (A_values A)) in *.
  rewrite (mapM_ok _ (median_row lib A x)).
  2:{ intros i Hi. apply in_seq in Hi. unfold median_row. fold mi.
      apply mapM_ok. intros c Hc. apply in_seq in Hc.
      destruct (Hmed i c ltac:(lia) ltac:(lia)) as (j & Hj & Hjx).
      rewrite Hj. cbn [of_option bind].
      rewrite (nth_error_nth' x [] Hjx). cbn [of_option bind].
      now rewrite (nth_error_nth _ _ 0 Hj). }
  cbn [bind].
  rewrite (mapM_lookup _ _ []) by (intros j Hj; rewrite length_map, length_seq; now apply Hrows).
  cbn [bind].
  rewrite (mapM_lookup _ _ []) by assumption.
  cbn [bind].
  replace (p =? 0) with false by (symmetry; apply Nat.eqb_neq; lia).
  do 3 f_equal. unfold median_distances.
  rewrite combine_map_both_lists, map_map. cbn [fst snd].
  apply map_ext_in. intros [r c] Hrc. cbn [fst snd].
  apply in_combine_l in Hrc.
  rewrite nth_map_seq by now apply Hrows. reflexivity.
Qed.

(** A node without entries gets the zero vector, in every arithmetic. *)
Theorem soft_median_isolated_node (A : coo W) (x : list (list W)) (p : nat)
    (temperature eps : W) :
  A_rows A <> [] ->
  length (A_cols A) = length (A_rows A) ->
  (forall r, In r (A_rows A) -> r < length x) ->
  (forall c, In c (A_cols A) -> c < length x) ->
  (forall i c, i < length x -> c < ncols x ->
     exists j, nth_error (nth i (cuda_dimmedian_idx lib x (A_rows A) (A_cols A) (A_values A)) [])
                         c = Some j /\ j < length x) ->
  0 < p ->
  exists out,
    soft_median lib A x p temperature eps = Ok out
    /\ length out = length x
    /\ forall i, i < length x -> (forall r, In r (A_rows A) -> r <> i) ->
         nth i out [] = repeat nzero (ncols x).
Proof.
  intros Hne Hlen Hrows Hcols Hmed Hp.
  pose proof (@soft_median_runs A x p temperature eps Hne Hlen Hrows Hcols Hmed Hp) as Hrun.
  eexists. split; [exact Hrun|]. split.
  - unfold spmm. now rewrite length_map, length_seq.
  - intros i Hi Hiso. now apply spmm_no_entry.
Qed.
End SoftMedianRuns.

Lemma nth_map_combine {A B C : Type} (g : A * B -> C) (a : list A) (b : list B) (e : nat)
    (da : A) (db : B) (dc : C) :
  e < length a -> e < length b ->
  nth e (map g (combine a b)) dc = g (nth e a da, nth e b db).
Proof.
  revert b e. induction a as [|h a IH]; intros [|k b] [|e] Ha Hb; simpl in *; try lia; auto.
  apply IH; lia.
Qed.

Lemma combine_by_index {A B : Type} (a : list A) (b : list B) (da : A) (db : B) :
  length b = length a ->
  combine a b = map (fun e => (nth e a da, nth e b db)) (seq 0 (length a)).
Proof.
  revert b. induction a as [|h a IH]; intros [|k b] H; simpl in *; try discriminate;
    [reflexivity|].
  f_equal. rewrite <- seq_shift, map_map. apply IH. lia.
Qed.

Lemma filter_map_swap {A B : Type} (f : B -> bool) (g : A -> B) (l : list A) :
  filter f (map g l) = map g (filter (fun a => f (g a)) l).
Proof.
  induction l as [|a l IH]; simpl; [reflexivity|].
  destruct (f (g a)); simpl; now rewrite IH.
Qed.

Lemma in_scatter_size (idx : list nat) (r : nat) : In r idx -> r < scatter_size idx.
Proof.
  intros H. unfold scatter_size. destruct idx as [|a idx]; [contradiction|].
  assert (Hmax : forall l, In r l -> r <= fold_right Nat.max 0 l).
  { induction l as [|h l IH]; simpl; [contradiction|]. intros [->|Hin]; [lia|].
    specialize (IH Hin). lia. }
  specialize (Hmax _ H). lia.
Qed.

Section ScatterFacts.
Open Scope R_scope.

Lemma slot_in (idx : list nat) (i e : nat) :
  In e (slot idx i) <-> (e < length idx)%nat /\ nth e idx 0%nat = i.
Proof.
  unfold slot. rewrite filter_In, in_seq, Nat.eqb_eq. intuition lia.
Qed.

Lemma scatter_sum_slot (v : list R) (idx : list nat) (i : nat) :
  length v = length idx -> (i < scatter_size idx)%nat ->
  nth i (scatter_sum v idx) 0 = nsum (map (fun e => nth e v 0) (slot idx i)).
Proof.
  intros Hlen Hi. unfold scatter_sum. rewrite nth_map_seq by assumption.
  rewrite (combine_by_index idx v 0%nat 0 Hlen), filter_map_swap, map_map. reflexivity.
Qed.

Lemma scatter_sum_by_slot (v : list R) (idx : list nat) :
  length v = length idx ->
  scatter_sum v idx = map (fun i => nsum (map (fun e => nth e v 0) (slot idx i)))
                          (seq 0 (scatter_size idx)).
Proof.
  intros Hlen. unfold scatter_sum. apply map_ext. intros i.
  rewrite (combine_by_index idx v 0%nat 0 Hlen), filter_map_swap, map_map. reflexivity.
Qed.

Lemma nsum_map_mul_r (c : R) (g : nat -> R) (l : list nat) :
  nsum (map (fun e => g e * c) l) = nsum (map g l) * c.
Proof.
  unfold nsum. induction l as [|a l IH]; cbn [map fold_right nadd nzero Num_R] in *; [lra|].
  rewrite IH. lra.
Qed.

Lemma nsum_map_nonneg (g : nat -> R) (l : list nat) :
  (forall e, In e l -> 0 <= g e) -> 0 <= nsum (map g l).
Proof.
  intros H. apply nsum_nonneg. intros a Ha. apply in_map_iff in Ha.
  destruct Ha as (e & <- & He). now apply H.
Qed.

Lemma nsum_map_ge_term (g : nat -> R) (l : list nat) (e : nat) :
  (forall e', In e' l -> 0 <= g e') -> In e l -> g e <= nsum (map g l).
Proof.
  induction l as [|a l IH]; intros Hnn Hin; [contradiction|].
  assert (Ha : 0 <= g a) by (apply Hnn; now left).
  assert (Hl : 0 <= nsum (map g l)) by (apply nsum_map_nonneg; intros; apply Hnn; now right).
  change (nsum (map g (a :: l))) with (g a + nsum (map g l)).
  destruct Hin as [->|Hin]; [lra|].
  specialize (IH (fun e' H => Hnn e' (or_intror H)) Hin). lra.
Qed.

Lemma nsum_map_pos_term (g : nat -> R) (l : list nat) :
  (forall e, In e l -> 0 <= g e) -> 0 < nsum (map g l) -> exists e, In e l /\ 0 < g e.
Proof.
  induction l as [|a l IH]; intros Hnn Hpos; [cbn in Hpos; lra|].
  change (nsum (map g (a :: l))) with (g a + nsum (map g l)) in Hpos.
  destruct (Rlt_dec 0 (g a)) as [Ha|Ha].
  - exists a. split; [now left|assumption].
  - assert (g a = 0) by (specialize (Hnn a (or_introl eq_refl)); lra).
    destruct IH as (e & He & Hge).
    + intros; apply Hnn; now right.
    + lra.
    + exists e. split; [now right|assumption].
Qed.
End ScatterFacts.

Section FinalWeights.
Open Scope R_scope.
Variables (rows : list nat) (w dist : list R) (T eps : R).
Hypothesis w_length : length w = length rows.
Hypothesis dist_length : length dist = length rows.
Hypothesis w_nonneg : forall v, In v w -> 0 <= v.
Hypothesis eps_nonneg : 0 <= eps.
Hypothesis rows_weigh : forall r, In r rows -> 0 < nth r (scatter_sum w rows) 0.

Local Abbreviation m := (length rows).
Local Abbreviation src := (map (neg_over T) dist).
Local Abbreviation M := (scatter_max src rows).
Local Abbreviation El :=
  (map (fun p : nat * R => nexp (nsub (snd p) (nth (fst p) M nzero))) (combine rows src)).
Local Abbreviation Es := (scatter_sum El rows).
Local Abbreviation soft := (scatter_softmax src rows eps).
Local Abbreviation wv := (map (fun sw : R * R => nmul (fst sw) (snd sw)) (combine soft w)).
Local Abbreviation RS := (scatter_sum wv rows).
Local Abbreviation ws := (scatter_sum w rows).
Local Abbreviation f := (final_adj_weights rows w ws dist T eps).

Lemma El_length : length El = m.
Proof. now rewrite length_map, length_combine, length_map, dist_length, Nat.min_id. Qed.

Lemma soft_length : length soft = m.
Proof.
  unfold scatter_softmax. rewrite length_map, length_combine, El_length. apply Nat.min_id.
Qed.

Lemma wv_length : length wv = m.
Proof. rewrite length_map, length_combine, soft_length, w_length. apply Nat.min_id. Qed.

Lemma final_length : length f = m.
Proof.
  unfold final_adj_weights. rewrite length_map, length_combine, wv_length. apply Nat.min_id.
Qed.

Lemma row_in (e : nat) : (e < m)%nat -> In (nth e rows 0%nat) rows.
Proof. intros H. now apply nth_In. Qed.

Lemma El_nth (e : nat) :
  (e < m)%nat ->
  nth e El 0 = exp (nth e src 0 - nth (nth e rows 0%nat) M 0).
Proof.
  intros He. rewrite (nth_map_combine _ rows src 0%nat 0 0) by (rewrite ?length_map; lia).
  reflexivity.
Qed.

Lemma El_pos (e : nat) : (e < m)%nat -> 0 < nth e El 0.
Proof. intros He. rewrite El_nth by assumption. apply exp_pos. Qed.

Lemma exp_sum_ge (e : nat) : (e < m)%nat -> nth e El 0 <= nth (nth e rows 0%nat) Es 0.
Proof.
  intros He.
  rewrite scatter_sum_slot by (apply El_length || apply in_scatter_size, row_in, He).
  apply (nsum_map_ge_term (fun e' => nth e' El 0)).
  - intros e' He'. apply slot_in in He'. left. now apply El_pos.
  - apply slot_in. split; [assumption|reflexivity].
Qed.

Lemma soft_nth (e : nat) :
  (e < m)%nat -> nth e soft 0 = nth e El 0 / (nth (nth e rows 0%nat) Es 0 + eps).
Proof.
  intros He. unfold scatter_softmax.
  rewrite (nth_map_combine _ rows El 0%nat 0 0) by (rewrite ?El_length; lia).
  reflexivity.
Qed.

Lemma soft_pos (e : nat) : (e < m)%nat -> 0 < nth e soft 0.
Proof.
  intros He. rewrite soft_nth by assumption.
  pose proof (El_pos He). pose proof (exp_sum_ge He).
  apply Rdiv_lt_0_compat; lra.
Qed.

Lemma wv_nth (e : nat) : (e < m)%nat -> nth e wv 0 = nth e soft 0 * nth e w 0.
Proof.
  intros He. rewrite (nth_map_combine _ soft w 0 0 0) by (rewrite ?soft_length; lia).
  reflexivity.
Qed.

Lemma w_nth_nonneg (e : nat) : 0 <= nth e w 0.
Proof.
  destruct (Nat.lt_ge_cases e (length w)) as [H|H].
  - apply w_nonneg, nth_In, H.
  - rewrite nth_overflow by assumption. lra.
Qed.

Lemma wv_nonneg (e : nat) : (e < m)%nat -> 0 <= nth e wv 0.
Proof.
  intros He. rewrite wv_nth by assumption.
  pose proof (soft_pos He). pose proof (w_nth_nonneg e). nra.
Qed.

Lemma RS_pos (r : nat) : In r rows -> 0 < nth r RS 0.
Proof.
  intros Hr. pose proof (rows_weigh r Hr) as Hw.
  rewrite scatter_sum_slot in Hw by (assumption || now apply in_scatter_size).
  destruct (nsum_map_pos_term (fun e => nth e w 0) (slot rows r)) as (e & He & Hpos);
    [intros; apply w_nth_nonneg|assumption|].
  rewrite scatter_sum_slot by (apply wv_length || now apply in_scatter_size).
  pose proof He as He'. apply slot_in in He'. destruct He' as [Hem _].
  apply Rlt_le_trans with (nth e wv 0).
  - rewrite wv_nth by assumption. pose proof (soft_pos Hem). nra.
  - apply (nsum_map_ge_term (fun e' => nth e' wv 0)); [|assumption].
    intros e' He''. apply slot_in in He''. now apply wv_nonneg.
Qed.

Lemma final_nth (e : nat) :
  (e < m)%nat ->
  nth e f 0 = nth e wv 0 / nth (nth e rows 0%nat) RS 0 * nth (nth e rows 0%nat) ws 0.
Proof.
  intros He. unfold final_adj_weights.
  rewrite (nth_map_combine _ rows wv 0%nat 0 0) by (rewrite ?wv_length; lia).
  reflexivity.
Qed.

Lemma final_nonneg (e : nat) : 0 <= nth e f 0.
Proof.
  destruct (Nat.lt_ge_cases e m) as [He|He].
  - rewrite final_nth by assumption.
    pose proof (wv_nonneg He). pose proof (RS_pos _ (row_in He)).
    pose proof (rows_weigh _ (row_in He)).
    apply Rmult_le_pos; [|lra]. apply Rmult_le_pos; [assumption|].
    left. now apply Rinv_0_lt_compat.
  - rewrite nth_overflow by (rewrite final_length; lia). lra.
Qed.

Lemma final_zero (e : nat) : nth e w 0 = 0 -> nth e f 0 = 0.
Proof.
  intros Hw. destruct (Nat.lt_ge_cases e m) as [He|He].
  - rewrite final_nth, wv_nth, Hw by assumption. unfold Rdiv. ring.
  - apply nth_overflow. rewrite final_length. lia.
Qed.

Lemma final_row_sums : scatter_sum f rows = ws.
Proof.
  etransitivity; [apply (scatter_sum_by_slot f rows final_length)|].
  symmetry. etransitivity; [apply (scatter_sum_by_slot w rows w_length)|]. symmetry.
  apply map_ext_in. intros i _.
  destruct (slot rows i) as [|e0 sl] eqn:Esl; [reflexivity|]. rewrite <- Esl.
  assert (He0 : In e0 (slot rows i)) by (rewrite Esl; now left).
  apply slot_in in He0. destruct He0 as [He0 Hrow0].
  assert (Hi : In i rows) by (rewrite <- Hrow0; now apply row_in).
  pose proof (RS_pos _ Hi) as HRS.
  rewrite (map_ext_in (fun e => nth e f 0)
                      (fun e => nth e wv 0 * (/ nth i RS 0 * nth i ws 0))).
  2:{ intros e He. apply slot_in in He. destruct He as [He Hrow].
      rewrite final_nth, Hrow by assumption. unfold Rdiv. ring. }
  rewrite nsum_map_mul_r.
  rewrite <- (scatter_sum_slot wv rows wv_length (in_scatter_size _ _ Hi)).
  rewrite <- (scatter_sum_slot w rows w_length (in_scatter_size _ _ Hi)).
  field. lra.
Qed.

(** Of two entries of a row, the one nearer to the median gets at least
    the share of its weight that the other gets of its own. *)
Lemma final_monotone (e e' : nat) :
  0 < T -> (e < m)%nat -> (e' < m)%nat -> nth e rows 0%nat = nth e' rows 0%nat ->
  nth e dist 0 <= nth e' dist 0 ->
  nth e' f 0 * nth e w 0 <= nth e f 0 * nth e' w 0.
Proof.
  intros HT He He' Hrow Hd.
  rewrite !final_nth, !wv_nth, !soft_nth, <- Hrow by assumption.
  set (r := nth e rows 0%nat).
  pose proof (RS_pos _ (row_in He)) as HRS. fold r in HRS.
  pose proof (rows_weigh _ (row_in He)) as Hws. fold r in Hws.
  pose proof (exp_sum_ge He) as HS. fold r in HS. pose proof (El_pos He) as HE.
  pose proof (El_pos He') as HE'.
  assert (Hle : nth e' El 0 <= nth e El 0).
  { rewrite !El_nth, <- Hrow by assumption. fold r.
    assert (Hs : nth e' src 0 <= nth e src 0).
    { rewrite !(nth_indep src 0 (neg_over T 0)) by (rewrite length_map; lia).
      rewrite !(map_nth (neg_over T)). unfold neg_over. cbn.
      unfold Rdiv. apply Rmult_le_compat_r; [left; now apply Rinv_0_lt_compat|lra]. }
    destruct Hs as [Hs|Hs]; [left; apply exp_increasing; lra|right; f_equal; lra]. }
  pose proof (w_nth_nonneg e) as Hw. pose proof (w_nth_nonneg e') as Hw'.
  set (K := / (nth r Es 0 + eps) * / nth r RS 0 * nth r ws 0).
  assert (HK : 0 <= K).
  { unfold K. apply Rmult_le_pos; [|lra]. apply Rmult_le_pos; left; apply Rinv_0_lt_compat; lra. }
  replace (nth e' El 0 / (nth r Es 0 + eps) * nth e' w 0 / nth r RS 0 * nth r ws 0 * nth e w 0)
    with (nth e' El 0 * (K * nth e w 0 * nth e' w 0)) by (unfold K, Rdiv; ring).
  replace (nth e El 0 / (nth r Es 0 + eps) * nth e w 0 / nth r RS 0 * nth r ws 0 * nth e' w 0)
    with (nth e El 0 * (K * nth e w 0 * nth e' w 0)) by (unfold K, Rdiv; ring).
  apply Rmult_le_compat_r; [|assumption].
  apply Rmult_le_pos; [apply Rmult_le_pos|]; assumption.
Qed.
End FinalWeights.

Definition backend_R_kernel : backend R :=
  {| np_argsort_int := np_argsort_int backend_R;
     np_argsort := np_argsort backend_R;
     torch_sort := torch_sort backend_R;
     torch_topk_order := torch_topk_order backend_R;
     cuda_topk := cuda_topk backend_R;
     cuda_dimmedian_idx := fun x _ _ _ => first_node_kernel x |}.

Section SoftMedianTheorems.
Variable lib : backend R.
Open Scope R_scope.

(** [soft_median] re-weights the entries of the adjacency and multiplies
    by [x]: for weights that are not negative, where every row that has
    entries has weight, the new weights are not negative, an entry of
    weight zero stays at zero, and every row keeps its total weight.  So
    row [i] of the result is the row sum of [A] times a weighted mean of
    the features of the neighbours of [i]. *)
Theorem soft_median_keeps_row_weights (A : coo R) (x : list (list R)) (p : nat) (T eps : R) :
  A_rows A <> [] ->
  length (A_cols A) = length (A_rows A) ->
  length (A_values A) = length (A_rows A) ->
  (forall r, In r (A_rows A) -> (r < length x)%nat) ->
  (forall c, In c (A_cols A) -> (c < length x)%nat) ->
  (forall i c, (i < length x)%nat -> (c < ncols x)%nat ->
     exists j, nth_error (nth i (cuda_dimmedian_idx lib x (A_rows A) (A_cols A) (A_values A)) [])
                         c = Some j /\ (j < length x)%nat) ->
  (0 < p)%nat -> (0 < ncols x)%nat -> T <> 0 -> 0 <= eps ->
  (forall v, In v (A_values A) -> 0 <= v) ->
  (forall r, In r (A_rows A) -> 0 < nth r (scatter_sum (A_values A) (A_rows A)) 0) ->
  exists f,
    soft_median lib A x p T eps
    = Ok (spmm (ncols x) (A_rows A) (map Z.of_nat (A_cols A)) f (length x) x)
    /\ length f = length (A_rows A)
    /\ (forall e, 0 <= nth e f 0)
    /\ (forall e, nth e (A_values A) 0 = 0 -> nth e f 0 = 0)
    /\ scatter_sum f (A_rows A) = scatter_sum (A_values A) (A_rows A).
Proof.
  intros Hne Hcl Hvl Hrows Hcols Hmed Hp Hd HT Heps Hnn Hw.
  eexists. split; [now apply soft_median_runs|].
  assert (Hdl : length (median_distances lib A x p) = length (A_rows A)).
  { unfold median_distances. now rewrite length_map, length_combine, Hcl, Nat.min_id. }
  split; [now apply final_length|]. split; [|split].
  - intros e. now apply final_nonneg.
  - intros e. now apply final_zero.
  - now apply final_row_sums.
Qed.

(** Within a row, [soft_median] favours the neighbours near the median:
    of two entries of the same row, the one whose features are nearer to
    the row's median (in the p-norm) gets at least the share of its weight
    that the other one gets of its own, for every positive temperature. *)
Theorem soft_median_prefers_near (A : coo R) (x : list (list R)) (p : nat) (T eps : R) :
  A_rows A <> [] ->
  length (A_cols A) = length (A_rows A) ->
  length (A_values A) = length (A_rows A) ->
  (forall r, In r (A_rows A) -> (r < length x)%nat) ->
  (forall c, In c (A_cols A) -> (c < length x)%nat) ->
  (forall i c, (i < length x)%nat -> (c < ncols x)%nat ->
     exists j, nth_error (nth i (cuda_dimmedian_idx lib x (A_rows A) (A_cols A) (A_values A)) [])
                         c = Some j /\ (j < length x)%nat) ->
  (0 < p)%nat -> (0 < ncols x)%nat -> 0 < T -> 0 <= eps ->
  (forall v, In v (A_values A) -> 0 <= v) ->
  (forall r, In r (A_rows A) -> 0 < nth r (scatter_sum (A_values A) (A_rows A)) 0) ->
  exists f,
    soft_median lib A x p T eps
    = Ok (spmm (ncols x) (A_rows A) (map Z.of_nat (A_cols A)) f (length x) x)
    /\ forall e e', (e < length (A_rows A))%nat -> (e' < length (A_rows A))%nat ->
         nth e (A_rows A) 0%nat = nth e' (A_rows A) 0%nat ->
         pnorm p (vsub (median_row lib A x (nth e (A_rows A) 0%nat)) (nth (nth e (A_cols A) 0%nat) x []))
         <= pnorm p (vsub (median_row lib A x (nth e' (A_rows A) 0%nat))
                          (nth (nth e' (A_cols A) 0%nat) x [])) ->
         nth e' f 0 * nth e (A_values A) 0 <= nth e f 0 * nth e' (A_values A) 0.
Proof.
  intros Hne Hcl Hvl Hrows Hcols Hmed Hp Hd HT Heps Hnn Hw.
  eexists. split; [now apply soft_median_runs|].
  assert (Hdl : length (median_distances lib A x p) = length (A_rows A)).
  { unfold median_distances. now rewrite length_map, length_combine, Hcl, Nat.min_id. }
  intros e e' He He' Hrow Hdist.
  apply final_monotone; try assumption.
  unfold median_distances.
  rewrite !(nth_map_combine _ (A_rows A) (A_cols A) 0%nat 0%nat 0) by lia.
  cbn [fst snd ndiv Num_R].
  assert (Hroot : 0 < nroot p (nofnat (ncols x))).
  { cbn [nroot nofnat Power_R].
    destruct (Req_dec_T (INR (ncols x)) 0) as [E|E].
    - exfalso. apply (INR_eq _ 0%nat) in E. lia.
    - unfold Rpower. apply exp_pos. }
  unfold Rdiv. apply Rmult_le_compat_r; [left; now apply Rinv_0_lt_compat|assumption].
Qed.
End SoftMedianTheorems.

Lemma first_node_kernel_in_range {W : Type} (x : list (list W)) (i c : nat) :
  i < length x -> c < ncols x ->
  exists j, nth_error (nth i (first_node_kernel x) []) c = Some j /\ j < length x.
Proof.
  intros Hi Hc. exists 0. unfold first_node_kernel.
  rewrite nth_repeat_lt by assumption. split; [|lia].
  rewrite (nth_error_nth' _ 0) by (rewrite repeat_length; exact Hc).
  now rewrite nth_repeat_lt by exact Hc.
Qed.

Lemma pair_A_hypotheses :
  (forall r, In r (A_rows pair_A) -> r < length pair_x)
  /\ (forall c, In c (A_cols pair_A) -> c < length pair_x)
  /\ (forall v, In v (A_values pair_A) -> (0 <= v)%R)
  /\ (forall r, In r (A_rows pair_A) ->
        (0 < nth r (scatter_sum (A_values pair_A) (A_rows pair_A)) 0)%R).
Proof.
  repeat split.
  - intros r [<-|[<-|[<-|[]]]]; simpl; lia.
  - intros c [<-|[<-|[<-|[]]]]; simpl; lia.
  - intros v [<-|[<-|[<-|[]]]]; lra.
  - intros r [<-|[<-|[<-|[]]]]; cbn; lra.
Qed.

Lemma soft_median_keeps_row_weights_witness :
  exists f,
    soft_median backend_R_kernel pair_A pair_x 2 1%R (Q2R (1 # 1000000000000))
    = Ok (spmm (ncols pair_x) (A_rows pair_A) (map Z.of_nat (A_cols pair_A)) f
               (length pair_x) pair_x)
    /\ length f = length (A_rows pair_A)
    /\ (forall e, (0 <= nth e f 0)%R)
    /\ (forall e, nth e (A_values pair_A) 0%R = 0%R -> nth e f 0%R = 0%R)
    /\ scatter_sum f (A_rows pair_A) = scatter_sum (A_values pair_A) (A_rows pair_A).
Proof.
  destruct pair_A_hypotheses as (H1 & H2 & H3 & H4).
  apply (@soft_median_keeps_row_weights backend_R_kernel pair_A pair_x 2 1%R
           (Q2R (1 # 1000000000000))); try assumption.
  - discriminate.
  - reflexivity.
  - reflexivity.
  - intros i c. apply first_node_kernel_in_range.
  - lia.
  - unfold ncols, pair_x. simpl. lia.
  - lra.
  - unfold Q2R. simpl. lra.
Defined.

Section SoftMedianErrors.
Context {W : Type} {N : Num W} {F : Floating W} {P : Power W}.
Variable lib : backend W.

(** With [p = 0] the call raises [ZeroDivisionError] at [1 / p], once
    the indices have been found in range. *)
Theorem soft_median_p_zero (A : coo W) (x : list (list W)) (temperature eps : W) :
  A_rows A <> [] ->
  length (A_cols A) = length (A_rows A) ->
  (forall r, In r (A_rows A) -> r < length x) ->
  (forall c, In c (A_cols A) -> c < length x) ->
  (forall i c, i < length x -> c < ncols x ->
     exists j, nth_error (nth i (cuda_dimmedian_idx lib x (A_rows A) (A_cols A) (A_values A)) [])
                         c = Some j /\ j < length x) ->
  soft_median lib A x 0 temperature eps = Err ZeroDivisionError.
Proof.
  intros Hne Hlen Hrows Hcols Hmed. unfold soft_median.
  rewrite (nonempty_match _ _ Hne).
  set (mi := cuda_dimmedian_idx lib x (A_rows A) (A_cols A) (A_values A)) in *.
  rewrite (mapM_ok _ (median_row lib A x)).
  2:{ intros i Hi. apply in_seq in Hi. unfold median_row. fold mi.
      apply mapM_ok. intros c Hc. apply in_seq in Hc.
      destruct (Hmed i c ltac:(lia) ltac:(lia)) as (j & Hj & Hjx).
      rewrite Hj. cbn [of_option bind].
      rewrite (nth_error_nth' x [] Hjx). cbn [of_option bind].
      now rewrite (nth_error_nth _ _ 0 Hj). }
  cbn [bind].
  rewrite (mapM_lookup _ _ []) by (intros j Hj; rewrite length_map, length_seq; now apply Hrows).
  cbn [bind].
  rewrite (mapM_lookup _ _ []) by assumption.
  reflexivity.
Qed.
End SoftMedianErrors.

Lemma soft_median_p_zero_witness :
  soft_median backend_R_kernel pair_A pair_x 0 1%R 0%R = Err ZeroDivisionError.
Proof.
  destruct pair_A_hypotheses as (H1 & H2 & _ & _).
  apply (@soft_median_p_zero R _ _ _ backend_R_kernel pair_A pair_x 1%R 0%R); try assumption.
  - discriminate.
  - reflexivity.
  - intros i c. apply first_node_kernel_in_range.
Defined.

Lemma soft_median_isolated_node_witness :
  exists out,
    soft_median backend_R_kernel lone_A pair_x 2 1%R 0%R = Ok out
    /\ length out = length pair_x
    /\ forall i, i < length pair_x -> (forall r, In r (A_rows lone_A) -> r <> i) ->
         nth i out [] = repeat nzero (ncols pair_x).
Proof.
  apply (@soft_median_isolated_node R _ _ _ backend_R_kernel lone_A pair_x 2 1%R 0%R).
  - discriminate.
  - reflexivity.
  - intros r [<-|[<-|[]]]; simpl; lia.
  - intros c [<-|[<-|[]]]; simpl; lia.
  - intros i c. apply first_node_kernel_in_range.
  - lia.
Defined.

Lemma soft_median_prefers_near_witness :
  exists f,
    soft_median backend_R_kernel pair_A pair_x 2 1%R 0%R
    = Ok (spmm (ncols pair_x) (A_rows pair_A) (map Z.of_nat (A_cols pair_A)) f
               (length pair_x) pair_x)
    /\ forall e e', e < length (A_rows pair_A) -> e' < length (A_rows pair_A) ->
         nth e (A_rows pair_A) 0 = nth e' (A_rows pair_A) 0 ->
         (pnorm 2 (vsub (median_row backend_R_kernel pair_A pair_x (nth e (A_rows pair_A) 0%nat))
                        (nth (nth e (A_cols pair_A) 0%nat) pair_x []))
          <= pnorm 2 (vsub (median_row backend_R_kernel pair_A pair_x (nth e' (A_rows pair_A) 0%nat))
                           (nth (nth e' (A_cols pair_A) 0%nat) pair_x [])))%R ->
         (nth e' f 0 * nth e (A_values pair_A) 0 <= nth e f 0 * nth e' (A_values pair_A) 0)%R.
Proof.
  destruct pair_A_hypotheses as (H1 & H2 & H3 & H4).
  apply (@soft_median_prefers_near backend_R_kernel pair_A pair_x 2 1%R 0%R); try assumption.
  - discriminate.
  - reflexivity.
  - reflexivity.
  - intros i c. apply first_node_kernel_in_range.
  - lia.
  - unfold ncols, pair_x. simpl. lia.
  - lra.
  - lra.
Defined.

(** ** The dimension-wise median on a CUDA device *)

Section DimMedianCuda.
Context {W : Type} {N : Num W} {F : Floating W}.
Variable lib : backend W.

(** On a CUDA device [weighted_dimwise_median] needs a row sum for every
    node: it returns row sum times median when the last node has an entry,
    and raises [RuntimeError] at [expand(N, D)] when the last node that has
    an entry is neither the last node nor node 0.  When node 0 alone has
    entries its row sum is expanded to all nodes: every node gets its
    median times the row sum of node 0. *)
Theorem weighted_dimwise_median_cuda_row_sums (A : coo W) (x : list (list W)) :
  A_rows A <> [] ->
  (forall i c, i < length x -> c < ncols x ->
     exists j, nth_error (nth i (cuda_dimmedian_idx lib x (A_rows A) (A_cols A) (A_values A)) [])
                         c = Some j /\ j < length x) ->
  let m := scatter_size (A_rows A) in
  let a_row_sum := scatter_sum (A_values A) (A_rows A) in
  (m = length x ->
     exists out, weighted_dimwise_median lib true A x = Ok out /\ length out = length x
       /\ forall i, i < length x ->
            nth i out [] = scale (nth i a_row_sum nzero) (median_row lib A x i))
  /\ (m = 1 ->
     exists out, weighted_dimwise_median lib true A x = Ok out /\ length out = length x
       /\ forall i, i < length x ->
            nth i out [] = scale (nth 0 a_row_sum nzero) (median_row lib A x i))
  /\ (m <> 1 -> m <> length x -> weighted_dimwise_median lib true A x = Err RuntimeError).
Proof.
  intros Hne Hmed m a_row_sum.
  assert (Hlen : length a_row_sum = m)
    by (unfold a_row_sum, scatter_sum; now rewrite length_map, length_seq).
  assert (Hrun : weighted_dimwise_median lib true A x
                 = if m =? length x
                   then Ok (map (fun p => scale (fst p) (snd p))
                                (combine a_row_sum (map (median_row lib A x) (seq 0 (length x)))))
                   else if m =? 1
                   then Ok (map (scale (nth 0 a_row_sum nzero))
                                (map (median_row lib A x) (seq 0 (length x))))
                   else Err RuntimeError).
  { unfold weighted_dimwise_median. cbn [negb].
    set (mi := cuda_dimmedian_idx lib x (A_rows A) (A_cols A) (A_values A)) in *.
    rewrite (mapM_ok _ (median_row lib A x)).
    2:{ intros i Hi. apply in_seq in Hi. unfold median_row. fold mi.
        apply mapM_ok. intros c Hc. apply in_seq in Hc.
        destruct (Hmed i c ltac:(lia) ltac:(lia)) as (j & Hj & Hjx).
        rewrite Hj. cbn [of_option bind].
        rewrite (nth_error_nth' x [] Hjx). cbn [of_option bind].
        now rewrite (nth_error_nth _ _ 0 Hj). }
    cbn [bind]. rewrite (nonempty_match _ _ Hne).
    fold a_row_sum. rewrite Hlen. reflexivity. }
  split; [|split].
  - intros Hm. rewrite Hrun, Hm, Nat.eqb_refl. eexists. split; [reflexivity|]. split.
    + rewrite length_map, length_combine, Hlen, Hm, length_map, length_seq. lia.
    + intros i Hi.
      rewrite (nth_map_combine _ _ _ nzero []) by (rewrite ?length_map, ?length_seq; lia).
      cbn [fst snd]. now rewrite nth_map_seq.
  - intros Hm. rewrite Hrun, Hm.
    destruct (1 =? length x) eqn:E.
    + apply Nat.eqb_eq in E. eexists. split; [reflexivity|]. split.
      * rewrite length_map, length_combine, Hlen, Hm, length_map, length_seq. lia.
      * intros i Hi. assert (i = 0) by lia. subst i.
        rewrite (nth_map_combine _ _ _ nzero []) by (rewrite ?length_map, ?length_seq; lia).
        cbn [fst snd]. now rewrite nth_map_seq.
    + cbn [Nat.eqb]. eexists. split; [reflexivity|]. split.
      * now rewrite !length_map, length_seq.
      * intros i Hi. rewrite map_map. now rewrite nth_map_seq.
  - intros H1 Hn. rewrite Hrun.
    replace (m =? length x) with false by (symmetry; now apply Nat.eqb_neq).
    replace (m =? 1) with false by (symmetry; now apply Nat.eqb_neq).
    reflexivity.
Qed.
End DimMedianCuda.

Lemma weighted_dimwise_median_cuda_row_sums_witness :
  (exists out, weighted_dimwise_median backend_R_kernel true pair_A pair_x = Ok out
     /\ length out = length pair_x
     /\ forall i, i < length pair_x ->
          nth i out [] = scale (nth i (scatter_sum (A_values pair_A) (A_rows pair_A)) nzero)
                               (median_row backend_R_kernel pair_A pair_x i))
  /\ (exists out, weighted_dimwise_median backend_R_kernel true lone_A pair_x = Ok out
     /\ length out = length pair_x
     /\ forall i, i < length pair_x ->
          nth i out [] = scale (nth 0 (scatter_sum (A_values lone_A) (A_rows lone_A)) nzero)
                               (median_row backend_R_kernel lone_A pair_x i))
  /\ weighted_dimwise_median backend_R_kernel true short_A short_x = Err RuntimeError.
Proof.
  split; [|split].
  - refine (proj1 (@weighted_dimwise_median_cuda_row_sums R _ backend_R_kernel
                     pair_A pair_x _ _) _).
    + discriminate.
    + intros i c. apply first_node_kernel_in_range.
    + reflexivity.
  - refine (proj1 (proj2 (@weighted_dimwise_median_cuda_row_sums R _ backend_R_kernel
                            lone_A pair_x _ _)) _).
    + discriminate.
    + intros i c. apply first_node_kernel_in_range.
    + reflexivity.
  - refine (proj2 (proj2 (@weighted_dimwise_median_cuda_row_sums R _ backend_R_kernel
                            short_A short_x _ _)) _ _).
    + discriminate.
    + intros i c. apply first_node_kernel_in_range.
    + simpl. lia.
    + simpl. lia.
Defined.

(** ** Entries for the rows that have none ([add_missing_rows]) *)

Lemma fold_max_bound (l : list nat) (b : nat) :
  (forall r, In r l -> r <= b) -> fold_right Nat.max 0 l <= b.
Proof.
  induction l as [|a l IH]; simpl; intros H; [lia|].
  specialize (IH (fun r Hr => H r (or_intror Hr))). specialize (H a (or_introl eq_refl)). lia.
Qed.

Lemma fold_max_ge (l : list nat) (r : nat) : In r l -> r <= fold_right Nat.max 0 l.
Proof.
  induction l as [|a l IH]; simpl; [contradiction|]. intros [->|Hin]; [lia|].
  specialize (IH Hin). lia.
Qed.

Lemma scatter_size_full (l : list nat) (n : nat) :
  (forall r, In r l -> r < n) -> (forall i, i < n -> In i l) -> scatter_size l = n.
Proof.
  intros Hlt Hall. destruct n as [|n].
  - destruct l as [|a l]; [reflexivity|]. specialize (Hlt a (or_introl eq_refl)). lia.
  - pose proof (Hall n ltac:(lia)) as Hn.
    unfold scatter_size. destruct l as [|a l]; [contradiction|].
    pose proof (fold_max_ge _ _ Hn).
    pose proof (@fold_max_bound (a :: l) n (fun r Hr => proj1 (Nat.lt_succ_r r n) (Hlt r Hr))).
    lia.
Qed.

Lemma all_rows_nodup (rows : list nat) (n : nat) :
  (forall r, In r rows -> r < n) ->
  (length (nodup Nat.eq_dec rows) = n <-> forall i, i < n -> In i rows).
Proof.
  intros Hlt.
  assert (Hincl : incl (nodup Nat.eq_dec rows) (seq 0 n)).
  { intros r Hr. apply nodup_In in Hr. apply in_seq. specialize (Hlt r Hr). lia. }
  split.
  - intros Hlen i Hi.
    apply (nodup_In Nat.eq_dec).
    apply (@NoDup_length_incl _ (nodup Nat.eq_dec rows) (seq 0 n)
             (NoDup_nodup Nat.eq_dec rows));
      [rewrite length_seq; lia|exact Hincl|apply in_seq; lia].
  - intros Hall. apply Nat.le_antisymm.
    + rewrite <- (length_seq n 0). apply NoDup_incl_length; [apply NoDup_nodup|exact Hincl].
    + rewrite <- (length_seq n 0) at 1. apply NoDup_incl_length; [apply seq_NoDup|].
      intros i Hi. apply in_seq in Hi. apply nodup_In, Hall. lia.
Qed.

Section MissingRows.
Open Scope R_scope.

Lemma nsum_zero_values (l : list (nat * nat * R)) :
  (forall e, In e l -> snd e = 0) -> nsum (map snd l) = 0.
Proof.
  induction l as [|a l IH]; intros H; [reflexivity|].
  change (nsum (map snd (a :: l))) with (snd a + nsum (map snd l)).
  rewrite (H a (or_introl eq_refl)), IH by (intros; apply H; now right). lra.
Qed.

(** When a node has no entry, [soft_weighted_medoid_k_neighborhood] adds
    one of weight zero for every such node before it selects the top k.
    After that every node has an entry, so that the row sums have one slot
    per node; the entries that were there stay in place, and the matrix is
    the same.  Nothing is added when every node has an entry. *)
Theorem add_missing_rows_completes (n : nat) (rows cols : list nat) (vals : list R) :
  length cols = length rows -> length vals = length rows ->
  (forall r, In r rows -> (r < n)%nat) ->
  let '(rows', cols', vals') := add_missing_rows n rows cols vals in
  (forall i, (i < n)%nat -> In i rows')
  /\ (forall r, In r rows' -> (r < n)%nat)
  /\ length cols' = length rows' /\ length vals' = length rows'
  /\ length (scatter_sum vals' rows') = n
  /\ (exists added, rows' = rows ++ added /\ cols' = cols ++ map (fun _ => 0%nat) added
                    /\ vals' = vals ++ map (fun _ => 0) added
                    /\ forall i, In i added <-> (i < n)%nat /\ ~ In i rows)
  /\ to_dense {| A_rows := rows'; A_cols := cols'; A_values := vals'; A_size := n |}
     = to_dense {| A_rows := rows; A_cols := cols; A_values := vals; A_size := n |}
  /\ ((forall i, (i < n)%nat -> In i rows) -> (rows', cols', vals') = (rows, cols, vals)).
Proof.
  intros Hcl Hvl Hlt. unfold add_missing_rows.
  pose proof (all_rows_nodup rows Hlt) as Hfull.
  destruct (length (nodup Nat.eq_dec rows) =? n)%nat eqn:E.
  - apply Nat.eqb_eq in E. pose proof (proj1 Hfull E) as Hall.
    split; [exact Hall|]. split; [exact Hlt|]. split; [exact Hcl|]. split; [exact Hvl|].
    split. { unfold scatter_sum. rewrite length_map, length_seq. now apply scatter_size_full. }
    split.
    { exists []. rewrite !app_nil_r.
      split; [reflexivity|]. split; [reflexivity|]. split; [reflexivity|].
      intros i. split; [contradiction|]. intros [Hi Hn]. apply Hn, Hall, Hi. }
    split; [reflexivity|]. intros _. reflexivity.
  - apply Nat.eqb_neq in E.
    set (added := filter (fun r => negb (existsb (Nat.eqb r) rows)) (seq 0 n)).
    assert (Hadded : forall i, In i added <-> (i < n)%nat /\ ~ In i rows).
    { intros i. unfold added. rewrite filter_In, in_seq, negb_true_iff.
      split.
      - intros [Hi Hex]. split; [lia|]. intros Hin.
        assert (existsb (Nat.eqb i) rows = true)
          by (apply existsb_exists; exists i; split; [assumption|apply Nat.eqb_refl]).
        congruence.
      - intros [Hi Hn]. split; [lia|]. apply not_true_is_false. intros Hex.
        apply existsb_exists in Hex. destruct Hex as (j & Hj & Hij).
        apply Nat.eqb_eq in Hij. subst j. contradiction. }
    assert (Hall : forall i, (i < n)%nat -> In i (rows ++ added)).
    { intros i Hi. apply in_or_app.
      destruct (in_dec Nat.eq_dec i rows) as [Hin|Hin]; [now left|right].
      apply Hadded. split; assumption. }
    assert (Hlt' : forall r, In r (rows ++ added) -> (r < n)%nat).
    { intros r Hr. apply in_app_or in Hr. destruct Hr as [Hr|Hr]; [now apply Hlt|].
      now apply Hadded in Hr. }
    split; [exact Hall|]. split; [exact Hlt'|].
    split; [rewrite !length_app, length_map; lia|].
    split; [rewrite !length_app, length_map; lia|].
    split. { unfold scatter_sum. rewrite length_map, length_seq. now apply scatter_size_full. }
    split.
    { exists added. split; [reflexivity|]. split; [reflexivity|]. split; [reflexivity|].
      exact Hadded. }
    split.
    + unfold to_dense. cbn [A_rows A_cols A_values A_size].
      apply map_ext. intros i. apply map_ext. intros j.
      rewrite combine_app by (now symmetry).
      rewrite combine_app by (rewrite length_combine; lia).
      rewrite filter_app, map_app, nsum_app.
      rewrite (nsum_zero_values (filter _ (combine (combine added _) _))).
      * cbn. lra.
      * intros [[r c] v] He. apply filter_In in He. destruct He as [He _].
        apply in_combine_r in He. apply in_map_iff in He. destruct He as (? & <- & _).
        reflexivity.
    + intros Hfullrows. exfalso. apply E. now apply Hfull.
Qed.
End MissingRows.

Lemma add_missing_rows_completes_witness :
  let '(rows', cols', vals') := add_missing_rows 3 [0; 2] [0; 2] [1; 1]%R in
  (forall i, i < 3 -> In i rows')
  /\ (forall r, In r rows' -> r < 3)
  /\ length cols' = length rows' /\ length vals' = length rows'
  /\ length (scatter_sum vals' rows') = 3
  /\ (exists added, rows' = [0; 2] ++ added /\ cols' = [0; 2] ++ map (fun _ => 0) added
                    /\ vals' = [1; 1]%R ++ map (fun _ => 0%R) added
                    /\ forall i, In i added <-> i < 3 /\ ~ In i [0; 2])
  /\ to_dense {| A_rows := rows'; A_cols := cols'; A_values := vals'; A_size := 3 |}
     = to_dense {| A_rows := [0; 2]; A_cols := [0; 2]; A_values := [1; 1]%R; A_size := 3 |}
  /\ ((forall i, i < 3 -> In i [0; 2]) -> (rows', cols', vals') = ([0; 2], [0; 2], [1; 1]%R)).
Proof.
  apply (@add_missing_rows_completes 3 [0; 2] [0; 2] [1; 1]%R).
  - reflexivity.
  - reflexivity.
  - intros r [<-|[<-|[]]]; lia.
Defined.

(** ** Row sums of the dense and of the sparse form *)

Section RowSums.
Open Scope R_scope.

Lemma nsum_single (c s n : nat) (v : R) (g : nat -> R) :
  (s <= c < s + n)%nat ->
  nsum (map (fun j => if (c =? j)%nat then v + g j else g j) (seq s n))
  = v + nsum (map g (seq s n)).
Proof.
  revert s. induction n as [|n IH]; intros s Hc; [lia|].
  cbn [seq map].
  change (nsum (?a :: ?l)) with (a + nsum l).
  destruct (Nat.eq_dec c s) as [->|Hne].
  - rewrite Nat.eqb_refl.
    rewrite (map_ext_in (fun j => if (s =? j)%nat then v + g j else g j) g).
    + change (nsum (g s :: map g (seq (S s) n))) with (g s + nsum (map g (seq (S s) n))). lra.
    + intros j Hj. apply in_seq in Hj.
      replace (s =? j)%nat with false by (symmetry; apply Nat.eqb_neq; lia). reflexivity.
  - replace (c =? s)%nat with false by (symmetry; now apply Nat.eqb_neq).
    rewrite IH by lia.
    change (nsum (g s :: map g (seq (S s) n))) with (g s + nsum (map g (seq (S s) n))). lra.
Qed.

Lemma dense_row_sum_entries (n i : nat) (rows cols : list nat) (vals : list R) :
  length cols = length rows -> length vals = length rows ->
  (forall c, In c cols -> (c < n)%nat) ->
  nsum (map (fun j =>
               nsum (map snd (filter (fun p => (fst (fst p) =? i)%nat && (snd (fst p) =? j)%nat)
                                     (combine (combine rows cols) vals))))
            (seq 0 n))
  = nsum (map snd (filter (fun p => (fst p =? i)%nat) (combine rows vals))).
Proof.
  revert cols vals. induction rows as [|r rows IH]; intros [|c cols] [|v vals] Hcl Hvl Hc;
    cbn [length] in *; try discriminate.
  - cbn [combine filter map]. clear. induction (seq 0 n) as [|a l IHl]; [reflexivity|].
    cbn [map]. change (nsum (?a :: ?l)) with (a + nsum l). rewrite IHl. cbn. lra.
  - cbn [combine filter fst snd].
    destruct (r =? i)%nat eqn:E.
    + cbn [andb map].
      rewrite (map_ext (fun j => nsum (map snd (if (c =? j)%nat then _ else _)))
                       (fun j => if (c =? j)%nat
                                 then v + nsum (map snd (filter (fun p => (fst (fst p) =? i)%nat
                                                                          && (snd (fst p) =? j)%nat)
                                                                (combine (combine rows cols) vals)))
                                 else nsum (map snd (filter (fun p => (fst (fst p) =? i)%nat
                                                                      && (snd (fst p) =? j)%nat)
                                                            (combine (combine rows cols) vals)))))
        by (intros j; destruct (c =? j)%nat; reflexivity).
      rewrite nsum_single by (specialize (Hc c (or_introl eq_refl)); lia).
      rewrite IH by (try lia; intros; apply Hc; now right).
      reflexivity.
    + cbn [andb]. apply IH; try lia. intros; apply Hc; now right.
Qed.

End RowSums.

Section RowSumsOverwrite.
Open Scope R_scope.

Lemma nsum_upd (row : list R) (c : nat) (v : R) :
  (c < length row)%nat -> nsum (upd row c v) = nsum row - nth c row 0 + v.
Proof.
  revert c. induction row as [|a row IH]; intros [|c] Hc; simpl in *; try lia.
  - lra.
  - rewrite IH by lia. lra.
Qed.

Lemma mget_upd2_other (t : list (list R)) (r c r' c' : nat) (v : R) :
  (r, c) <> (r', c') -> mget (upd2 t r c v) r' c' = mget t r' c'.
Proof.
  intros Hne. unfold mget, upd2.
  destruct (Nat.eq_dec r r') as [<-|Hr].
  - destruct (Nat.lt_ge_cases r (length t)) as [Hlt|Hge].
    + rewrite nth_upd_same by assumption. apply nth_upd_other. congruence.
    + rewrite (nth_overflow (upd t r _)) by now rewrite upd_length.
      now rewrite (nth_overflow t).
  - now rewrite nth_upd_other.
Qed.

(** Writing entries at positions that differ, into places that hold
    zero, adds to the sum of row [i] the values written into row [i]. *)
Lemma index_put_row_sum (t : list (list R)) (rows cols : list nat) (vals : list R) (i : nat) :
  length cols = length rows -> length vals = length rows ->
  NoDup (combine rows cols) ->
  (forall r c, In (r, c) (combine rows cols) ->
               (r < length t)%nat /\ (c < length (nth r t []))%nat
               /\ mget t r c = 0) ->
  nsum (nth i (index_put t rows cols vals) [])
  = nsum (nth i t []) + nsum (map snd (filter (fun p => (fst p =? i)%nat) (combine rows vals))).
Proof.
  revert t cols vals. induction rows as [|r rows IH]; intros t [|c cols] [|v vals] Hcl Hvl Hnd Hin;
    cbn [length] in *; try discriminate.
  - cbn [index_put combine filter map]. change (nsum (@nil R)) with 0. lra.
  - cbn [index_put combine filter fst].
    inversion Hnd as [|? ? Hnotin Hnd']; subst.
    destruct (Hin r c (or_introl eq_refl)) as (Hr & Hc & Hz).
    rewrite IH; try lia; try assumption.
    + unfold upd2. destruct (Nat.eqb_spec r i) as [->|Hne].
      * rewrite nth_upd_same by assumption. rewrite nsum_upd by assumption.
        unfold mget in Hz. cbn [nzero Num_R] in Hz. rewrite Hz. cbn [map snd].
        change (nsum (v :: ?l)) with (v + nsum l). lra.
      * rewrite nth_upd_other by assumption. reflexivity.
    + intros r' c' Hp.
      destruct (Hin r' c' (or_intror Hp)) as (Hr' & Hc' & Hz').
      assert (Hne : (r, c) <> (r', c')) by (intros E; rewrite E in Hnotin; contradiction).
      split; [unfold upd2; now rewrite upd_length|]. split.
      * unfold upd2. destruct (Nat.eq_dec r r') as [<-|Hrr].
        -- rewrite nth_upd_same by assumption. now rewrite upd_length.
        -- now rewrite nth_upd_other.
      * now rewrite mget_upd2_other.
Qed.
End RowSumsOverwrite.

Section RowSums2.
Open Scope R_scope.

(** The row sum that the dense path takes from [A.to_dense()] is the one
    that the sparse path takes from the entries with [scatter_sum]: for
    a torch.sparse tensor, whose [to_dense] adds up the entries at one
    position, always; for a [torch_sparse.SparseTensor], whose [to_dense]
    keeps the last entry at a position, when no position occurs twice. *)
Theorem dense_row_sum_is_scatter_sum (A : sparse_arg R) (i : nat) :
  let a := arg_coo A in
  length (A_cols a) = length (A_rows a) -> length (A_values a) = length (A_rows a) ->
  (forall r, In r (A_rows a) -> (r < A_size a)%nat) ->
  (forall c, In c (A_cols a) -> (c < A_size a)%nat) ->
  (i < A_size a)%nat ->
  match A with
  | TorchSparseCoo _ => True
  | TorchSparseTensor _ => NoDup (combine (A_rows a) (A_cols a))
  end ->
  nsum (nth i (arg_to_dense A) []) = nth i (scatter_sum (A_values a) (A_rows a)) 0.
Proof.
  intros a Hcl Hvl Hr Hc Hi Hnd.
  assert (Hslot : nsum (map snd (filter (fun p => (fst p =? i)%nat)
                                        (combine (A_rows a) (A_values a))))
                  = nth i (scatter_sum (A_values a) (A_rows a)) 0).
  { unfold scatter_sum.
    destruct (Nat.lt_ge_cases i (scatter_size (A_rows a))) as [Hs|Hs].
    - now rewrite nth_map_seq.
    - rewrite nth_overflow by (now rewrite length_map, length_seq).
      rewrite filter_none; [reflexivity|].
      intros [r v] Hp. cbn [fst]. apply in_combine_l in Hp.
      pose proof (in_scatter_size _ _ Hp). apply Nat.eqb_neq. lia. }
  rewrite <- Hslot. destruct A as [a'|a']; cbn [arg_to_dense arg_coo] in *; subst a.
  - unfold to_dense. rewrite nth_map_seq by assumption.
    now apply dense_row_sum_entries.
  - unfold sparse_tensor_to_dense. rewrite index_put_row_sum; try assumption.
    + rewrite nth_repeat_lt by assumption.
      rewrite nsum_repeat. cbn [nzero Num_R]. lra.
    + intros r c Hp. pose proof (in_combine_l _ _ _ _ Hp) as Hr'.
      pose proof (in_combine_r _ _ _ _ Hp) as Hc'.
      specialize (Hr r Hr'). specialize (Hc c Hc').
      rewrite repeat_length. rewrite nth_repeat_lt by assumption. rewrite repeat_length.
      split; [assumption|]. split; [assumption|].
      unfold mget. rewrite nth_repeat_lt by assumption. now apply nth_repeat_lt.
Qed.
End RowSums2.

(** Two entries at one position: the dense form of a
    [torch_sparse.SparseTensor] keeps the last one, and its row sum is not
    the sum of the entries. *)
Lemma sparse_tensor_to_dense_duplicates :
  let a := {| A_rows := [0; 0]; A_cols := [0; 0]; A_values := [1; 2]%R; A_size := 1 |} in
  sparse_tensor_to_dense a = [[2%R]]
  /\ to_dense a = [[(1 + (2 + 0))%R]]
  /\ nsum (nth 0 (sparse_tensor_to_dense a) []) <> nth 0 (scatter_sum (A_values a) (A_rows a)) 0%R.
Proof.
  cbn. repeat split. lra.
Qed.

Lemma dense_row_sum_is_scatter_sum_witness :
  nsum (nth 0 (arg_to_dense (TorchSparseTensor equi_A)) [])
  = nth 0 (scatter_sum (A_values equi_A) (A_rows equi_A)) 0%R
  /\ (let a := {| A_rows := [0; 0; 1]; A_cols := [1; 1; 0]; A_values := [1; 2; 4]%R;
                  A_size := 2 |} in
      nsum (nth 0 (arg_to_dense (TorchSparseCoo a)) [])
      = nth 0 (scatter_sum (A_values a) (A_rows a)) 0%R).
Proof.
  split.
  - apply (@dense_row_sum_is_scatter_sum (TorchSparseTensor equi_A) 0).
    + reflexivity.
    + reflexivity.
    + intros r Hr. cbn in Hr. cbn. intuition lia.
    + intros c Hc. cbn in Hc. cbn. intuition lia.
    + cbn. lia.
    + cbn. repeat constructor; cbn; intuition congruence.
  - intros a. apply (@dense_row_sum_is_scatter_sum (TorchSparseCoo a) 0).
    + reflexivity.
    + reflexivity.
    + intros r Hr. cbn in Hr. cbn. intuition lia.
    + intros c Hc. cbn in Hc. cbn. intuition lia.
    + cbn. lia.
    + exact I.
Defined.

(** ** The soft medoid *)

Section SoftmaxFacts.
Open Scope R_scope.

Lemma nsum_map_div (s : R) (l : list R) : nsum (map (fun a => a / s) l) = nsum l / s.
Proof.
  unfold nsum. induction l as [|a l IH]; cbn [map fold_right nadd nzero Num_R] in *.
  - unfold Rdiv. ring.
  - rewrite IH. unfold Rdiv. ring.
Qed.

Lemma nsum_exp_pos (m : R) (v : list R) : v <> [] -> 0 < nsum (map (fun a => exp (a - m)) v).
Proof.
  destruct v as [|a v]; [contradiction|]. intros _.
  change (nsum (map (fun a => exp (a - m)) (a :: v)))
    with (exp (a - m) + nsum (map (fun a => exp (a - m)) v)).
  pose proof (exp_pos (a - m)).
  assert (0 <= nsum (map (fun a => exp (a - m)) v)).
  { apply nsum_nonneg. intros b Hb. apply in_map_iff in Hb. destruct Hb as (c & <- & _).
    left. apply exp_pos. }
  lra.
Qed.

(** The soft maximum over a non-empty list: positive weights that sum to
    one, in the order of the scores. *)
Lemma softmax_weights (v : list R) :
  v <> [] ->
  length (softmax v) = length v
  /\ nsum (softmax v) = 1
  /\ (forall j, (j < length v)%nat -> 0 < nth j (softmax v) 0)
  /\ (forall j j', (j < length v)%nat -> (j' < length v)%nat ->
        nth j v 0 <= nth j' v 0 -> nth j (softmax v) 0 <= nth j' (softmax v) 0).
Proof.
  intros Hne. unfold softmax. cbn [nexp nsub ndiv Num_R Floating_R nzero].
  set (m := nmax_list 0 v). set (e := map (fun a => exp (a - m)) v).
  pose proof (nsum_exp_pos m Hne) as Hs. fold e in Hs.
  assert (He : forall j, (j < length v)%nat ->
                         nth j (map (fun a => a / nsum e) e) 0 = exp (nth j v 0 - m) / nsum e).
  { intros j Hj. unfold e.
    rewrite map_map, (nth_indep _ 0 ((fun a => exp (a - m) / nsum e) 0))
      by (now rewrite length_map).
    unfold e. exact (map_nth (fun a => exp (a - m) / _) v 0 j). }
  split; [unfold e; now rewrite !length_map|]. split; [|split].
  - rewrite nsum_map_div. field. lra.
  - intros j Hj. rewrite He by assumption. apply Rdiv_lt_0_compat; [apply exp_pos|assumption].
  - intros j j' Hj Hj' Hle. rewrite !He by assumption.
    unfold Rdiv. apply Rmult_le_compat_r; [left; now apply Rinv_0_lt_compat|].
    destruct Hle as [Hlt|Heq]; [left; apply exp_increasing; lra|right; f_equal; lra].
Qed.
End SoftmaxFacts.

Section SoftMedoid.
Open Scope R_scope.

(** In exact real arithmetic, for a positive temperature and a row of
    which some candidate has a replaced distance sum that, divided by the
    temperature, is within the float range, row [i] of
    [soft_weighted_medoid] is the row sum times a weighted mean of all rows
    of [x]: the weights are not negative and sum to one, a candidate with a
    smaller weighted distance sum gets no less weight, and a candidate that
    is no neighbour (its sum is replaced by the float maximum) gets no more
    weight than any other candidate.  Where every candidate's sum over the
    temperature leaves the float range, as for a row of zeros at a
    temperature below one, the float code divides zero by zero. *)
Theorem soft_weighted_medoid_is_weighted_mean (A : adjacency R) (x : list (list R)) (T : R)
    (i : nat) (row : list R) :
  nth_error (densify A) i = Some row ->
  length row = length x ->
  x <> [] ->
  0 < T ->
  let l2 := _distance_matrix x (nofQ 100) in
  let D := masked_distance_sums l2 row in
  (exists j, (j < length x)%nat /\ nth j D 0 <= T * float32_max) ->
  exists s,
    length s = length x
    /\ nsum s = 1
    /\ (forall j, (j < length x)%nat -> 0 <= nth j s 0)
    /\ nth i (soft_weighted_medoid A x T) [] = scale (nsum row) (row_matmul (ncols x) s x)
    /\ (forall j j', (j < length x)%nat -> (j' < length x)%nat ->
          nth j D 0 <= nth j' D 0 -> nth j' s 0 <= nth j s 0)
    /\ (forall j j', (j < length x)%nat -> (j' < length x)%nat ->
          nth j row 0 = 0 -> nth j s 0 <= nth j' s 0).
Proof.
  intros Hi Hlen Hx HT l2 D _.
  assert (Hn : (0 < length x)%nat) by (destruct x; [contradiction|simpl; lia]).
  assert (HD : length D = length x) by (unfold D; now rewrite masked_distance_sums_length).
  set (v := map (neg_over T) D).
  assert (Hv : length v = length x) by (unfold v; now rewrite length_map).
  assert (Hvne : v <> []) by (intros E; rewrite E in Hv; simpl in Hv; lia).
  destruct (softmax_weights Hvne) as (Hl & Hsum & Hpos & Hmono).
  rewrite Hv in *.
  assert (Hvn : forall j, (j < length x)%nat -> nth j v 0 = - nth j D 0 / T).
  { intros j Hj. unfold v.
    rewrite (nth_indep _ 0 (neg_over T 0)) by (rewrite length_map; lia).
    rewrite (map_nth (neg_over T)). reflexivity. }
  assert (Hanti : forall j j', (j < length x)%nat -> (j' < length x)%nat ->
                    nth j D 0 <= nth j' D 0 -> nth j' (softmax v) 0 <= nth j (softmax v) 0).
  { intros j j' Hj Hj' Hle. apply Hmono; try assumption. rewrite !Hvn by assumption.
    unfold Rdiv. apply Rmult_le_compat_r; [left; now apply Rinv_0_lt_compat|lra]. }
  exists (softmax v). split; [exact Hl|]. split; [exact Hsum|].
  split; [intros j Hj; left; now apply Hpos|].
  split; [|split].
  - unfold soft_weighted_medoid. erewrite nth_map_error by eassumption. reflexivity.
  - exact Hanti.
  - intros j j' Hj Hj' Hz. apply Hanti; try assumption.
    unfold D. rewrite !masked_distance_sums_nth by (rewrite Hlen; assumption).
    rewrite Hz, (proj2 (Reqb_true 0 0) eq_refl).
    destruct (Reqb (nth j' row 0) 0); [lra|apply clamp_le_max].
Qed.
End SoftMedoid.

Lemma soft_weighted_medoid_is_weighted_mean_witness :
  let row := [1 / 2; 1 / 3; 1 / 6]%R in
  let l2 := _distance_matrix equi_x (nofQ 100) in
  let D := masked_distance_sums l2 row in
  exists s,
    length s = length equi_x
    /\ nsum s = 1%R
    /\ (forall j, j < length equi_x -> (0 <= nth j s 0)%R)
    /\ nth 0 (soft_weighted_medoid (SparseAdj equi_A) equi_x 1%R) []
       = scale (nsum row) (row_matmul (ncols equi_x) s equi_x)
    /\ (forall j j', j < length equi_x -> j' < length equi_x ->
          (nth j D 0 <= nth j' D 0)%R -> (nth j' s 0 <= nth j s 0)%R)
    /\ (forall j j', j < length equi_x -> j' < length equi_x ->
          nth j row 0%R = 0%R -> (nth j s 0 <= nth j' s 0)%R).
Proof.
  intros row.
  apply (@soft_weighted_medoid_is_weighted_mean (SparseAdj equi_A) equi_x 1%R 0 row).
  - cbn [densify]. rewrite to_dense_equi. reflexivity.
  - reflexivity.
  - discriminate.
  - lra.
  - exists 0. split; [simpl; lia|]. rewrite Rmult_1_l.
    unfold masked_distance_sums. rewrite nth_map_seq by (simpl; lia).
    apply clamp_le_max.
Defined.

(** ** Nodes without edges in the medoid and the k-medoid *)

Section IsolatedMedoid.
Variable lib : backend fval.

Lemma argmin_from_repeat (c : fval) (best i n : nat) :
  nltb c c = false -> argmin_from best c i (repeat c n) = best.
Proof.
  intros Hc. revert i. induction n as [|n IH]; intros i; simpl; [reflexivity|].
  cbn [nltb Num_fval] in Hc. rewrite Hc. apply IH.
Qed.

Lemma argmin_repeat (c : fval) (n : nat) : nltb c c = false -> argmin (repeat c n) = 0.
Proof.
  intros Hc. destruct n as [|n]; [reflexivity|]. simpl. now apply argmin_from_repeat.
Qed.

Lemma fltb_max_irrefl : nltb (Finite float32_max) (Finite float32_max) = false.
Proof. cbn. apply Rltb_false. lra. Qed.

Lemma scale_zero_finite (r : list fval) :
  (forall a, In a r -> exists v, a = Finite v) ->
  scale (Finite 0) r = repeat (Finite 0) (length r).
Proof.
  induction r as [|a r IH]; intros H; [reflexivity|].
  destruct (H a (or_introl eq_refl)) as [v ->].
  cbn [scale map length repeat]. f_equal.
  - apply fmul_0_l.
  - apply IH. intros b Hb. apply H. now right.
Qed.

Lemma zero_row_repeat (row : list fval) :
  (forall w, In w row -> w = Finite 0) -> row = repeat (Finite 0) (length row).
Proof.
  intros H. apply Forall_eq_repeat, Forall_forall. intros a Ha. symmetry. now apply H.
Qed.

Lemma finite_row_scaled (d : nat) (x : list (list fval)) (j : nat) :
  finite_features d x -> j < length x ->
  scale (Finite 0) (nth j x []) = repeat (Finite 0) d.
Proof.
  intros Hx Hj. destruct (Hx (nth j x []) (nth_In _ _ Hj)) as [Hlen Hfin].
  rewrite scale_zero_finite by assumption. now rewrite Hlen.
Qed.

(** The medoid and the k-medoid give a node without edges the zero
    vector: all its candidates get the float maximum as distance, the
    first one is taken, and its features are multiplied by the row sum
    zero.  (The soft medoid turns the same row into NaN.) *)
Theorem medoid_isolated_node (A : adjacency fval) (x : list (list fval)) (k i d : nat)
    (row : list fval) :
  nth_error (densify A) i = Some row ->
  (forall w, In w row -> w = Finite 0) ->
  length row = length x ->
  x <> [] ->
  finite_features d x ->
  0 < k ->
  nth i (weighted_medoid A x) [] = repeat (Finite 0) d
  /\ nth i (weighted_medoid_k_neighborhood lib A x k) [] = repeat (Finite 0) d.
Proof.
  intros Hi Hzero Hlen Hx Hfin Hk.
  assert (Hn : 0 < length x) by (destruct x; [contradiction|simpl; lia]).
  assert (Hrow : row = repeat (Finite 0) (S (length x - 1))).
  { rewrite (zero_row_repeat row Hzero) at 1. f_equal. lia. }
  assert (Hmed : nth i (weighted_medoid A x) [] = repeat (Finite 0) d).
  { unfold weighted_medoid. erewrite nth_map_error by eassumption.
    rewrite Hrow. rewrite masked_sums_zero_row.
    rewrite argmin_repeat by apply fltb_max_irrefl.
    rewrite nsum_zero_row. now apply finite_row_scaled. }
  split; [exact Hmed|].
  unfold weighted_medoid_k_neighborhood.
  destruct (length x <? k) eqn:Ek; [exact Hmed|].
  apply Nat.ltb_ge in Ek.
  erewrite nth_map_error by eassumption.
  rewrite (nsum_all_zero row Hzero).
  set (idx := topk_idx lib row k).
  assert (Hidxl : length idx = k).
  { unfold idx, topk_idx. rewrite length_firstn, sorter_length. lia. }
  assert (Hvals : topk_values lib row k = repeat (Finite 0) k).
  { unfold topk_values. fold idx. rewrite <- Hidxl, <- (map_const (Finite 0) idx).
    apply map_ext. intros j.
    destruct (Nat.lt_ge_cases j (length row)) as [Hj|Hj].
    - apply Hzero, nth_In, Hj.
    - now apply nth_overflow. }
  rewrite Hvals.
  set (dk := topk_distances _ _ _).
  assert (Hdk : length dk = k) by (unfold dk, topk_distances; now rewrite length_map).
  assert (Hmask : map (fun p : fval * fval => if neqb (snd p) nzero then finfo_max else fst p)
                      (combine dk (repeat (Finite 0) k))
                  = repeat (Finite float32_max) k).
  { clearbody dk. clear -Hdk. revert dk Hdk.
    induction k as [|k IH]; intros [|a dk] Hdk; simpl in *; try discriminate; [reflexivity|].
    f_equal.
    - unfold Reqb. destruct (Req_dec_T 0 0); [reflexivity|contradiction].
    - apply IH. lia. }
  rewrite Hmask, map_repeat.
  replace (clamp_nonfinite (Finite float32_max)) with (Finite float32_max) by reflexivity.
  rewrite argmin_repeat by apply fltb_max_irrefl.
  apply finite_row_scaled; [assumption|].
  rewrite <- Hlen. apply (sorter_in (torch_topk_order lib)).
  apply (@in_firstn _ k). fold (topk_idx lib row k). fold idx.
  apply nth_In. lia.
Qed.
End IsolatedMedoid.

Lemma medoid_isolated_node_witness :
  nth 3 (weighted_medoid (DenseAdj disconnected_A) disconnected_x) []
  = repeat (Finite 0) 3
  /\ nth 3 (weighted_medoid_k_neighborhood backend_fval (DenseAdj disconnected_A)
              disconnected_x 2) []
     = repeat (Finite 0) 3.
Proof.
  apply (@medoid_isolated_node backend_fval (DenseAdj disconnected_A) disconnected_x 2 3 3
           (repeat (Finite 0) 4)).
  - reflexivity.
  - intros w Hw. now apply repeat_spec in Hw.
  - reflexivity.
  - discriminate.
  - intros r Hr. cbn in Hr.
    destruct Hr as [<-|[<-|[<-|[<-|[]]]]]; (split; [reflexivity|]);
      intros a [<-|[<-|[<-|[]]]]; eexists; reflexivity.
  - lia.
Defined.

(** ** The k-medoid *)

Section KMedoidOrder.
Variable lib : backend R.
Open Scope R_scope.

(** The first of the top-k indices holds a largest weight of the row. *)
Lemma topk_head_max (row : list R) (k : nat) :
  (0 < k)%nat -> row <> [] ->
  exists j0 rest, topk_idx lib row k = j0 :: rest
    /\ forall j, (j < length row)%nat -> nth j row 0 <= nth j0 row 0.
Proof.
  intros Hk Hne. unfold topk_idx.
  pose proof (sort_sorted (torch_topk_order lib) row) as Hs.
  pose proof (sorter_length (torch_topk_order lib) row) as Hl.
  destruct (run_sort (torch_topk_order lib) row) as [|j0 order] eqn:E.
  { destruct row; [contradiction|discriminate]. }
  destruct k as [|k]; [lia|]. cbn [firstn]. exists j0, (firstn k order).
  split; [reflexivity|]. intros j Hj.
  assert (Hin : In j (j0 :: order)).
  { rewrite <- E. now apply (sorter_in (torch_topk_order lib)). }
  assert (Hj0 : (j0 < length row)%nat).
  { apply (sorter_in (torch_topk_order lib)). rewrite E. now left. }
  destruct Hin as [->|Hin]; [lra|].
  inversion Hs as [|? ? _ Hall]; subst. rewrite Forall_forall in Hall.
  specialize (Hall j Hin (nth j0 row 0) (nth j row 0)
                   (nth_error_nth' _ _ Hj0) (nth_error_nth' _ _ Hj)).
  cbn in Hall. apply Rltb_false in Hall. lra.
Qed.

Lemma nsum_between (C : R) (l : list R) :
  (forall v, In v l -> 0 <= v <= C) -> 0 <= nsum l <= INR (length l) * C.
Proof.
  induction l as [|a l IH]; intros H.
  - cbn. lra.
  - change (nsum (a :: l)) with (a + nsum l). cbn [length]. rewrite S_INR.
    pose proof (H a (or_introl eq_refl)).
    pose proof (IH (fun v Hv => H v (or_intror Hv))). lra.
Qed.
End KMedoidOrder.

Lemma in_nth_pos {A : Type} (l : list A) (a d : A) :
  In a l -> exists q, q < length l /\ nth q l d = a.
Proof. intros H. destruct (In_nth l a d H) as (q & Hq & He). eauto. Qed.

Section KMedoid.
Context {W : Type} {N : Num W} {F : Floating W} {L : Ordered W}.
Variable lib : backend W.

Lemma topk_distances_sums (l2 : list (list W)) (row : list W) (idx : list nat) :
  topk_distances l2 (map (fun j => nth j row nzero) idx) idx
  = map (neighbourhood_sum l2 row idx) idx.
Proof.
  unfold topk_distances, neighbourhood_sum. apply map_ext. intros ia.
  rewrite combine_map_l, map_map. reflexivity.
Qed.

(** For a row of which one of the [k] top-weighted nodes is a neighbour
    whose weighted distance sum over that neighbourhood,
    sum_b A[i,b] * l2[b,c], is, as computed, finite and below the float
    maximum, [weighted_medoid_k_neighborhood] with [0 < k <= n] returns the
    row sum times the features of one of the [k] top-weighted nodes of the
    row: a neighbour [c] whose sum is finite and which no neighbour among
    them undercuts; a sum that is not finite counts as the float maximum.
    This holds in every arithmetic whose comparison is that of the floats
    or of the reals. *)
Theorem weighted_medoid_k_neighborhood_is_argmin (A : adjacency W) (x : list (list W))
    (k i : nat) (row : list W) :
  nth_error (densify A) i = Some row ->
  length row = length x ->
  0 < k <= length x ->
  let l2 := _distance_matrix x (nofQ 100) in
  let idx := topk_idx lib row k in
  let cost := neighbourhood_sum l2 row idx in
  (exists j, In j idx /\ neqb (nth j row nzero) nzero = false
             /\ isfinite (cost j) = true /\ nltb (cost j) finfo_max = true) ->
  exists c,
    In c idx
    /\ neqb (nth c row nzero) nzero = false
    /\ isfinite (cost c) = true
    /\ (forall j, In j idx -> neqb (nth j row nzero) nzero = false ->
                  nltb (clamp_nonfinite (cost j)) (cost c) = false)
    /\ nth i (weighted_medoid_k_neighborhood lib A x k) [] = scale (nsum row) (nth c x []).
Proof.
  intros Hi Hlen Hk l2 idx cost (j0 & Hj0in & Hn0 & Hf0 & Hlt0).
  set (G := fun b => clamp_nonfinite (if neqb (nth b row nzero) nzero then finfo_max
                                      else cost b)).
  assert (Hout : nth i (weighted_medoid_k_neighborhood lib A x k) []
                 = scale (nsum row) (nth (nth (argmin (map G idx)) idx 0) x [])).
  { unfold weighted_medoid_k_neighborhood.
    replace (length x <? k) with false by (symmetry; apply Nat.ltb_ge; lia).
    erewrite nth_map_error by eassumption. unfold topk_values. fold idx.
    rewrite topk_distances_sums. fold l2. fold cost.
    rewrite combine_map_both, !map_map. reflexivity. }
  assert (Hne : map G idx <> []).
  { destruct idx; [contradiction|discriminate]. }
  assert (Hfin : forall v, In v (map G idx) -> isfinite v = true).
  { intros v Hv. apply in_map_iff in Hv. destruct Hv as (b & <- & _).
    apply clamp_nonfinite_isfinite. }
  destruct (@argmin_ordered _ _ _ _ (map G idx) nzero Hne Hfin) as (Hq & Hmin & _).
  set (q := argmin (map G idx)) in *. rewrite length_map in Hq, Hmin.
  set (c := nth q idx 0).
  assert (HG : forall a, a < length idx -> nth a (map G idx) nzero = G (nth a idx 0)).
  { intros a Ha. rewrite (nth_indep _ nzero (G 0)) by now rewrite length_map.
    apply map_nth. }
  assert (Hcin : In c idx) by (apply nth_In; assumption).
  destruct (in_nth_pos idx j0 0 Hj0in) as (a0 & Ha0 & Hea0).
  assert (HG0 : G j0 = cost j0).
  { unfold G. rewrite Hn0. now apply clamp_nonfinite_finite. }
  assert (HGc : G c <> finfo_max).
  { intros E. specialize (Hmin a0 Ha0). rewrite !HG in Hmin by assumption.
    fold c in Hmin. rewrite Hea0, HG0, E in Hmin. congruence. }
  unfold G in HGc.
  destruct (neqb (nth c row nzero) nzero) eqn:Hnc.
  { exfalso. apply HGc. apply clamp_nonfinite_finite, finfo_max_isfinite. }
  unfold clamp_nonfinite in HGc.
  destruct (isfinite (cost c)) eqn:Hfc; [|congruence].
  assert (HGc' : G c = cost c).
  { unfold G. rewrite Hnc. now apply clamp_nonfinite_finite. }
  exists c. split; [exact Hcin|]. split; [exact Hnc|]. split; [exact Hfc|].
  split; [|exact Hout].
  intros j Hj Hnj. destruct (in_nth_pos idx j 0 Hj) as (a & Ha & Hea).
  specialize (Hmin a Ha). rewrite !HG in Hmin by assumption. fold c in Hmin.
  rewrite Hea, HGc' in Hmin. unfold G in Hmin. now rewrite Hnj in Hmin.
Qed.
End KMedoid.

Lemma weighted_medoid_k_neighborhood_is_argmin_witness :
  let A := DenseAdj [[0; 1; 1]; [0; 1; 1]; [0; 1; 1]]%R in
  let x := [[0]; [1]; [3]]%R in
  let row := [0; 1; 1]%R in
  let l2 := _distance_matrix x (nofQ 100) in
  let idx := topk_idx backend_R row 2 in
  let cost := neighbourhood_sum l2 row idx in
  exists c,
    In c idx
    /\ neqb (nth c row nzero) nzero = false
    /\ isfinite (cost c) = true
    /\ (forall j, In j idx -> neqb (nth j row nzero) nzero = false ->
                  nltb (clamp_nonfinite (cost j)) (cost c) = false)
    /\ nth 0 (weighted_medoid_k_neighborhood backend_R A x 2) [] = scale (nsum row) (nth c x []).
Proof.
  intros A x row l2 idx cost.
  apply (@weighted_medoid_k_neighborhood_is_argmin R _ _ _ backend_R A x 2 0 row
           eq_refl eq_refl ltac:(simpl; lia)).
  fold l2 idx cost.
  assert (He : (0 < 100 * float32_eps <= 1)%R).
  { pose proof float32_eps_pos. split; [lra|]. unfold float32_eps in *.
    assert (100 <= 2 ^ 23)%R by (simpl; lra).
    apply Rmult_le_reg_r with (2 ^ 23)%R; [apply pow_lt; lra|].
    rewrite Rmult_assoc, Rinv_l by (apply pow_nonzero; lra). lra. }
  assert (H64 : (64 <= float32_max)%R).
  { eapply Rle_trans; [|apply float32_max_lower].
    apply Rle_trans with (2 ^ 6)%R; [simpl; lra|]. apply Rle_pow; [lra|lia]. }
  assert (Hent : forall b j, b < 3 -> j < 3 -> (0 <= mget l2 b j <= 11)%R).
  { intros b j Hb Hj. unfold l2.
    rewrite distance_matrix_entry
      by (simpl; lia || (destruct b as [|[|[|b]]], j as [|[|[|j]]]; reflexivity || lia)).
    cbn [nofQ Floating_R]. rewrite Q2R_100. split; [apply sqrt_pos|].
    destruct b as [|[|[|b]]], j as [|[|[|j]]]; try lia;
      unfold sqdist, vsub, x;
      cbn [combine map nth fst snd nsum fold_right nmul nadd nsub nzero Num_R];
      (eapply Rle_trans; [apply sqrt_le_succ; lra|lra]). }
  assert (Hrow : forall b, b < 3 -> (0 <= nth b row 0 <= 1)%R).
  { intros [|[|[|b]]] Hb; [| | |exfalso; lia]; unfold row; simpl; lra. }
  assert (Hidx : forall b, In b idx -> b < 3).
  { intros b Hb. now apply topk_idx_in in Hb. }
  destruct (@topk_head_max backend_R row 2 ltac:(lia) ltac:(discriminate))
    as (j0 & rest & Ej & Hmax).
  fold idx in Ej.
  assert (Hj0 : In j0 idx) by (rewrite Ej; now left).
  exists j0. split; [exact Hj0|]. split.
  { specialize (Hmax 1 ltac:(simpl; lia)). change (nth 1 row 0%R) with 1%R in Hmax.
    cbn [neqb nzero Num_R]. unfold Reqb.
    destruct (Req_dec_T (nth j0 row 0%R) 0) as [E|E]; [|reflexivity].
    rewrite E in Hmax. lra. }
  assert (Hlen : length idx <= 2).
  { unfold idx, topk_idx. rewrite length_firstn. lia. }
  assert (Hcost : (0 <= cost j0 <= INR (length idx) * 11)%R).
  { unfold cost, neighbourhood_sum. rewrite <- (length_map (fun b => nmul (nth b row nzero) (mget l2 b j0)) idx).
    apply nsum_between. intros v Hv. apply in_map_iff in Hv.
    destruct Hv as (b & <- & Hb).
    pose proof (Hent b j0 (Hidx b Hb) (Hidx j0 Hj0)).
    pose proof (Hrow b (Hidx b Hb)). cbn [nmul nzero Num_R]. nra. }
  assert (H2 : (INR (length idx) <= 2)%R).
  { replace 2%R with (INR 2) by (simpl; lra). now apply le_INR. }
  split.
  - apply Risfinite_true. rewrite Rabs_pos_eq; lra.
  - apply Rltb_true. cbn [finfo_max Floating_R]. lra.
Defined.

(** ** The dimension-wise median is a weighted median *)

Lemma StronglySorted_nth {A : Type} (P : A -> A -> Prop) (l : list A) (d : A) (a b : nat) :
  StronglySorted P l -> a < b < length l -> P (nth a l d) (nth b l d).
Proof.
  intros H. revert a b. induction H as [|h l Hs IH Hall]; intros a b Hab; simpl in *; [lia|].
  destruct a as [|a], b as [|b]; try lia.
  - rewrite Forall_forall in Hall. apply Hall, nth_In. lia.
  - apply IH. lia.
Qed.

Lemma combine_as_map (row col : list R) :
  length row = length col ->
  combine row col = map (fun t => (nth t row 0%R, nth t col 0%R)) (seq 0 (length row)).
Proof.
  revert col. induction row as [|a row IH]; intros [|b col] H; simpl in *; try discriminate;
    [reflexivity|].
  f_equal. rewrite <- seq_shift, map_map. apply IH. lia.
Qed.

Lemma filter_perm {A : Type} (f : A -> bool) (l1 l2 : list A) :
  Permutation l1 l2 -> Permutation (filter f l1) (filter f l2).
Proof.
  induction 1; simpl.
  - constructor.
  - destruct (f x); auto.
  - destruct (f x), (f y); auto. apply perm_swap.
  - eapply perm_trans; eauto.
Qed.

Section WeightedMedianFacts.
Open Scope R_scope.

Lemma nsum_filter_le (f : R * R -> bool) (l : list (R * R)) :
  (forall p, In p l -> 0 <= fst p) ->
  nsum (map fst (filter f l)) <= nsum (map fst l).
Proof.
  induction l as [|a l IH]; simpl; intros H; [lra|].
  assert (0 <= fst a) by (apply H; now left).
  assert (nsum (map fst (filter f l)) <= nsum (map fst l)) by (apply IH; intros; apply H; now right).
  destruct (f a); simpl in *; [lra|].
  lra.
Qed.

Lemma nsum_firstn_skipn (l : list R) (p : nat) :
  nsum l = nsum (firstn p l) + nsum (skipn p l).
Proof. rewrite <- (firstn_skipn p l) at 1. apply nsum_app. Qed.

Lemma nsum_firstn_S (l : list R) (p : nat) :
  (p < length l)%nat -> nsum (firstn (S p) l) = nsum (firstn p l) + nth p l 0.
Proof.
  revert p. induction l as [|a l IH]; intros p Hp; simpl in Hp; [lia|].
  destruct p as [|p].
  - cbn. lra.
  - change (firstn (S (S p)) (a :: l)) with (a :: firstn (S p) l).
    change (firstn (S p) (a :: l)) with (a :: firstn p l).
    change (nth (S p) (a :: l) 0) with (nth p l 0).
    cbn [nsum fold_right]. specialize (IH p ltac:(lia)). unfold nsum in IH. rewrite IH.
    cbn. lra.
Qed.

(** The weight of the nodes that satisfy [p], summed along an order [pi]
    of the nodes. *)
Lemma weight_where_perm (p : R -> bool) (row col : list R) (pi : list nat) :
  length row = length col -> Permutation pi (seq 0 (length row)) ->
  weight_where p row col
  = nsum (map fst (filter (fun wv => p (snd wv))
                          (map (fun t => (nth t row 0, nth t col 0)) pi))).
Proof.
  intros Hlen Hperm. unfold weight_where. rewrite (combine_as_map row col Hlen).
  apply nsum_perm, Permutation_map, filter_perm, Permutation_map, Permutation_sym, Hperm.
Qed.
End WeightedMedianFacts.

Section WeightedMedian.
Variable lib : backend R.
Open Scope R_scope.

Lemma median_entry_weighted_median (x : list (list R)) (row : list R) (d : nat) :
  x <> [] -> length row = length x -> (forall w, In w row -> 0 <= w) ->
  exists j, (j < length x)%nat
    /\ median_entry lib x row d = Ok (nsum row * nth d (nth j x []) 0)
    /\ (0 < nsum row -> 0 < nth j row 0)
    /\ 2 * weight_where (fun v => Rltb v (nth d (nth j x []) 0)) row (column x d) <= nsum row
    /\ 2 * weight_where (fun v => Rltb (nth d (nth j x []) 0) v) row (column x d) <= nsum row.
Proof.
  intros Hx Hlen Hnn.
  destruct (@median_entry_selects lib x row d Hx Hlen Hnn) as (Hp & Hge & Hlt & Hval).
  cbv zeta in *.
  set (pi := torch_sort lib (column x d)) in *.
  set (sw := map (fun j => nth j row 0) pi) in *.
  set (p := count_if (fun c => Rltb c (nsum row / 2)) (cumsum sw)) in *.
  set (col := column x d) in *.
  assert (Hcol : length col = length x) by apply column_length.
  assert (Hpil : length pi = length x) by (unfold pi; now rewrite sorter_length).
  assert (Hperm : Permutation pi (seq 0 (length row))).
  { unfold pi. rewrite Hlen, <- Hcol. apply sort_perm. }
  assert (Hsorted : StronglySorted (key_le nltb col) pi) by apply sort_sorted.
  assert (Hswl : length sw = length x) by (unfold sw; now rewrite length_map).
  assert (Hsum : nsum sw = nsum row).
  { apply nsum_perm. apply sorted_weights_perm. now rewrite Hcol. }
  assert (Hsw : forall a, In a sw -> 0 <= a).
  { intros a Ha. unfold sw in Ha. apply in_map_iff in Ha. destruct Ha as (t & <- & Ht).
    destruct (Nat.lt_ge_cases t (length row)) as [Hlt'|Hge'].
    - apply Hnn, nth_In, Hlt'.
    - rewrite nth_overflow by assumption. lra. }
  set (j := nth p pi 0%nat).
  assert (Hj : (j < length x)%nat).
  { rewrite <- Hcol. apply (sorter_in (torch_sort lib)). apply nth_In. change (p < length pi)%nat. lia. }
  assert (Hkey : forall t, (t < length x)%nat -> nth t col 0 = nth d (nth t x []) 0).
  { intros t Ht. unfold col, column.
    rewrite (nth_indep _ 0 (nth d [] 0)) by (rewrite length_map; lia).
    rewrite (map_nth (fun r => nth d r 0)). reflexivity. }
  set (m := nth d (nth j x []) 0).
  assert (Hm : m = nth j col 0) by (unfold m; symmetry; apply Hkey, Hj).
  (* keys along the order *)
  assert (Hin : forall q, (q < length x)%nat -> (nth q pi 0%nat < length x)%nat).
  { intros q Hq. rewrite <- Hcol. apply (sorter_in (torch_sort lib)). apply nth_In.
    change (q < length pi)%nat. lia. }
  assert (Hafter : forall q, (p <= q < length x)%nat -> Rltb (nth (nth q pi 0%nat) col 0) m = false).
  { intros q Hq. destruct (Nat.eq_dec q p) as [->|Hne].
    - fold j. rewrite <- Hm. apply Rltb_false. lra.
    - pose proof (@StronglySorted_nth _ _ pi 0%nat p q Hsorted ltac:(lia)) as Hk.
      unfold key_le in Hk.
      specialize (Hk (nth j col 0) (nth (nth q pi 0%nat) col 0)).
      rewrite Hm. apply Hk; apply nth_error_nth'.
      + fold j. lia.
      + rewrite Hcol. apply Hin. lia. }
  assert (Hbefore : forall q, (q <= p)%nat -> Rltb m (nth (nth q pi 0%nat) col 0) = false).
  { intros q Hq. destruct (Nat.eq_dec q p) as [->|Hne].
    - fold j. rewrite <- Hm. apply Rltb_false. lra.
    - pose proof (@StronglySorted_nth _ _ pi 0%nat q p Hsorted ltac:(lia)) as Hk.
      unfold key_le in Hk.
      specialize (Hk (nth (nth q pi 0%nat) col 0) (nth j col 0)).
      rewrite Hm. apply Hk; apply nth_error_nth'.
      + rewrite Hcol. apply Hin. lia.
      + fold j. lia. }
  (* the running sums *)
  assert (Hcum : forall q, (q < length x)%nat -> nth q (cumsum sw) 0 = nsum (firstn (S q) sw)).
  { intros q Hq. unfold cumsum. rewrite cumsum_from_nth by lia. cbn. lra. }
  assert (Hpre : 2 * nsum (firstn p sw) <= nsum row
                 /\ (0 < nsum row -> 2 * nsum (firstn p sw) < nsum row)).
  { destruct p as [|p'] eqn:Ep.
    - simpl. assert (0 <= nsum row) by now apply nsum_nonneg. split; cbn; lra.
    - specialize (Hlt p' ltac:(lia)). rewrite Hcum in Hlt by lia. split; lra. }
  assert (Hpost : nsum row <= 2 * nsum (firstn (S p) sw)).
  { rewrite Hcum in Hge by lia. lra. }
  set (f := fun t => (nth t row 0, nth t col 0)).
  assert (Hfst : forall l, map fst (map f l) = map (fun t => nth t row 0) l).
  { intros l. rewrite map_map. reflexivity. }
  exists j. split; [exact Hj|]. split.
  { rewrite Hval. unfold median_value. reflexivity. }
  split; [|split].
  - intros Hpos.
    pose proof (@nsum_firstn_S sw p ltac:(lia)) as Hsplit.
    assert (Hsp : nth p sw 0 = nth j row 0).
    { unfold sw. rewrite (nth_indep _ 0 (nth 0%nat row 0)) by (rewrite length_map; lia).
      rewrite (map_nth (fun t => nth t row 0)). reflexivity. }
    destruct Hpre as [_ Hpre]. specialize (Hpre Hpos). lra.
  - fold m. fold col. rewrite (weight_where_perm _ row col (pi := pi)) by (auto; lia).
    fold f. rewrite <- (firstn_skipn p pi), map_app, filter_app, map_app, nsum_app.
    rewrite (filter_none _ (map f (skipn p pi))).
    + change (nsum (map fst (@nil (R * R)))) with 0.
      assert (nsum (map fst (filter (fun wv => Rltb (snd wv) m) (map f (firstn p pi))))
              <= nsum (firstn p sw)).
      { unfold sw. rewrite firstn_map, <- Hfst. apply nsum_filter_le. intros q Hq. apply in_map_iff in Hq. destruct Hq as (t & <- & Ht). simpl.
        destruct (Nat.lt_ge_cases t (length row)) as [Hlt'|Hge'].
        - apply Hnn, nth_In, Hlt'.
        - rewrite nth_overflow by assumption. lra. }
      destruct Hpre as [Hpre _]. lra.
    + intros a Ha. apply in_map_iff in Ha. destruct Ha as (t & <- & Ht). simpl.
      apply In_nth with (d := 0%nat) in Ht. destruct Ht as (q & Hq & <-).
      rewrite length_skipn in Hq. rewrite nth_skipn. apply Hafter. lia.
  - fold m. fold col. rewrite (weight_where_perm _ row col (pi := pi)) by (auto; lia).
    fold f. rewrite <- (firstn_skipn (S p) pi), map_app, filter_app, map_app, nsum_app.
    rewrite (filter_none _ (map f (firstn (S p) pi))).
    + change (nsum (map fst (@nil (R * R)))) with 0.
      assert (nsum (map fst (filter (fun wv => Rltb m (snd wv)) (map f (skipn (S p) pi))))
              <= nsum (skipn (S p) sw)).
      { unfold sw. rewrite skipn_map, <- Hfst. apply nsum_filter_le. intros q Hq. apply in_map_iff in Hq. destruct Hq as (t & <- & Ht). simpl.
        destruct (Nat.lt_ge_cases t (length row)) as [Hlt'|Hge'].
        - apply Hnn, nth_In, Hlt'.
        - rewrite nth_overflow by assumption. lra. }
      pose proof (nsum_firstn_skipn sw (S p)) as Hs.
      lra.
    + intros a Ha. apply in_map_iff in Ha. destruct Ha as (t & <- & Ht). simpl.
      apply In_nth with (d := 0%nat) in Ht. destruct Ht as (q & Hq & <-).
      rewrite length_firstn in Hq. rewrite nth_firstn.
      replace (q <? S p)%nat with true by (symmetry; apply Nat.ltb_lt; lia).
      apply Hbefore. lia.
Qed.

(** For an adjacency whose weights are not negative, every entry (i, d)
    of [weighted_dimwise_median_cpu(A, x)] is the total weight of row i
    times the feature [x[j, d]] of a node [j] that is a weighted median of
    dimension [d]: the nodes whose feature is below [x[j, d]] carry at
    most half of the row's weight, and so do the nodes whose feature is
    above it, whatever the sort does with equal features.  When the row
    has weight at all, [j] is one of its neighbours. *)
Theorem weighted_dimwise_median_is_weighted_median (A : adjacency R) (x : list (list R)) :
  x <> [] ->
  (forall row, In row (densify A) -> length row = length x /\ forall w, In w row -> 0 <= w) ->
  exists out,
    weighted_dimwise_median_cpu lib A x = Ok out
    /\ forall i row d,
         nth_error (densify A) i = Some row -> (d < ncols x)%nat ->
         exists j, (j < length x)%nat
           /\ nth d (nth i out []) 0 = nsum row * nth d (nth j x []) 0
           /\ (0 < nsum row -> 0 < nth j row 0)
           /\ 2 * weight_where (fun v => Rltb v (nth d (nth j x []) 0)) row (column x d)
              <= nsum row
           /\ 2 * weight_where (fun v => Rltb (nth d (nth j x []) 0) v) row (column x d)
              <= nsum row.
Proof.
  intros Hx Hrows.
  exists (map (fun row => map (median_value lib x row) (seq 0 (ncols x))) (densify A)).
  split.
  - unfold weighted_dimwise_median_cpu. apply mapM_ok. intros row Hrow.
    destruct (Hrows row Hrow) as [Hlen Hnn].
    apply mapM_ok. intros d _.
    now apply median_entry_selects.
  - intros i row d Hi Hd.
    destruct (Hrows row (nth_error_In _ _ Hi)) as [Hlen Hnn].
    destruct (@median_entry_weighted_median x row d Hx Hlen Hnn) as (j & Hj & Hval & Hrest).
    destruct (@median_entry_selects lib x row d Hx Hlen Hnn) as (_ & _ & _ & Hsel).
    rewrite Hsel in Hval. injection Hval as Hval.
    exists j. split; [exact Hj|]. split; [|exact Hrest].
    erewrite nth_map_error by eassumption. rewrite nth_map_seq by assumption. exact Hval.
Qed.
End WeightedMedian.

Lemma weighted_dimwise_median_is_weighted_median_witness :
  let A := DenseAdj [[1; 1]; [0; 1]]%R in
  let x := [[1]; [2]]%R in
  exists out,
    weighted_dimwise_median_cpu backend_R A x = Ok out
    /\ forall i row d,
         nth_error (densify A) i = Some row -> (d < ncols x)%nat ->
         exists j, (j < length x)%nat
           /\ (nth d (nth i out []) 0 = nsum row * nth d (nth j x []) 0)%R
           /\ (0 < nsum row -> 0 < nth j row 0)%R
           /\ (2 * weight_where (fun v => Rltb v (nth d (nth j x []) 0%R)) row (column x d)
               <= nsum row)%R
           /\ (2 * weight_where (fun v => Rltb (nth d (nth j x []) 0%R) v) row (column x d)
               <= nsum row)%R.
Proof.
  intros A x.
  apply (@weighted_dimwise_median_is_weighted_median backend_R A x).
  - discriminate.
  - intros row [<-|[<-|[]]]; (split; [reflexivity|]);
      intros w [<-|[<-|[]]]; lra.
Defined.

(** ** The normalised adjacency of the dense GCN *)

Section DenseNormalisation.
Open Scope R_scope.

Lemma nsum_zeros_map {A : Type} (l : list A) : nsum (map (fun _ => 0) l) = 0.
Proof.
  unfold nsum. induction l as [|a l IH]; cbn [map fold_right nadd nzero Num_R] in *; [reflexivity|].
  rewrite IH. lra.
Qed.

Lemma nsum_one_term (i n : nat) (g : nat -> R) :
  (i < n)%nat -> nsum (map (fun k => if (i =? k)%nat then g k else 0) (seq 0 n)) = g i.
Proof.
  intros Hi.
  rewrite (map_ext_in _ (fun k => if (i =? k)%nat then g i + 0 else 0)).
  - rewrite (@nsum_single i 0 n (g i) (fun _ => 0)) by lia. rewrite nsum_zeros_map. lra.
  - intros k _. destruct (Nat.eqb_spec i k) as [->|_]; [lra|reflexivity].
Qed.

Lemma dot_by_index (a b : list R) (n : nat) :
  length a = n -> length b = n ->
  dot a b = nsum (map (fun k => nth k a 0 * nth k b 0) (seq 0 n)).
Proof.
  intros Ha Hb. unfold dot.
  rewrite (combine_by_index a b 0 0) by lia. rewrite map_map, Ha. reflexivity.
Qed.

Lemma mget_map_seq (f : nat -> nat -> R) (n m i j : nat) :
  (i < n)%nat -> (j < m)%nat ->
  mget (map (fun i => map (fun j => f i j) (seq 0 m)) (seq 0 n)) i j = f i j.
Proof.
  intros Hi Hj. unfold mget. rewrite nth_map_seq by assumption. now rewrite nth_map_seq.
Qed.

Variable adj : list (list R).
Hypothesis adj_square : forall r, In r adj -> length r = length adj.
Local Abbreviation n := (length adj).

Lemma adj_ncols : (0 < n)%nat -> ncols adj = n.
Proof. intros Hn. unfold ncols. apply adj_square, nth_In. lia. Qed.

Lemma triu1_entry (i j : nat) :
  (i < n)%nat -> (j < n)%nat ->
  mget (triu1 adj) i j = if (i <? j)%nat then mget adj i j else 0.
Proof.
  intros Hi Hj. unfold triu1. rewrite adj_ncols by lia.
  now rewrite (mget_map_seq (fun i j => if (i <? j)%nat then mget adj i j else 0)).
Qed.

Lemma triu1_shape :
  length (triu1 adj) = n /\ forall r, In r (triu1 adj) -> length r = ncols adj.
Proof.
  unfold triu1. split; [now rewrite length_map, length_seq|].
  intros r Hr. apply in_map_iff in Hr. destruct Hr as (i & <- & _).
  now rewrite length_map, length_seq.
Qed.

Lemma mirror_upper_entry (i j : nat) :
  (i < n)%nat -> (j < n)%nat -> mget (mirror_upper adj) i j = mirrored adj i j.
Proof.
  intros Hi Hj. assert (Hn : (0 < n)%nat) by lia.
  pose proof (adj_ncols Hn) as Hnc.
  destruct triu1_shape as [Htl Htr]. rewrite Hnc in Htr.
  assert (Htn : ncols (triu1 adj) = n).
  { unfold ncols. apply Htr, nth_In. lia. }
  assert (Htt : length (transpose (triu1 adj)) = n).
  { unfold transpose. now rewrite length_map, length_seq. }
  assert (Hrow_t : length (nth i (triu1 adj) []) = n) by (apply Htr, nth_In; lia).
  assert (Hrow_tt : length (nth i (transpose (triu1 adj)) []) = n).
  { unfold transpose. rewrite Htn, nth_map_seq by assumption. unfold column.
    now rewrite length_map. }
  assert (Hsum : nth j (nth i (madd (triu1 adj) (transpose (triu1 adj))) []) 0
                 = mget (triu1 adj) i j + mget (triu1 adj) j i).
  { unfold madd.
    rewrite (nth_map_combine _ (triu1 adj) (transpose (triu1 adj)) [] [] []) by lia.
    cbn [fst snd]. unfold vadd.
    rewrite (nth_map_combine _ _ _ 0 0 0) by lia. cbn [fst snd nadd Num_R].
    f_equal. unfold transpose. rewrite Htn, nth_map_seq by assumption.
    unfold column, mget.
    rewrite (nth_indep _ 0 ((fun r => nth i r 0) [])) by (rewrite length_map; lia).
    now rewrite (map_nth (fun r => nth i r 0)). }
  unfold mirror_upper, mget. rewrite nth_map_seq by assumption.
  cbn [nzero none Num_R]. unfold mirrored.
  destruct (Nat.eqb_spec i j) as [->|Hne].
  - apply nth_upd_same.
    unfold madd. rewrite (nth_map_combine _ (triu1 adj) (transpose (triu1 adj)) [] [] []) by lia.
    cbn [fst snd]. unfold vadd. rewrite length_map, length_combine. lia.
  - rewrite nth_upd_other by assumption. rewrite Hsum, !triu1_entry by assumption.
    destruct (i <? j)%nat eqn:E1, (j <? i)%nat eqn:E2;
      repeat match goal with
             | H : (_ <? _)%nat = true |- _ => apply Nat.ltb_lt in H
             | H : (_ <? _)%nat = false |- _ => apply Nat.ltb_ge in H
             end; try lia; lra.
Qed.

Lemma mirrored_sym (i j : nat) : mirrored adj i j = mirrored adj j i.
Proof.
  unfold mirrored. rewrite (Nat.eqb_sym j i).
  destruct (Nat.eqb_spec i j) as [|Hne]; [reflexivity|].
  destruct (i <? j)%nat eqn:E1, (j <? i)%nat eqn:E2;
    repeat match goal with
           | H : (_ <? _)%nat = true |- _ => apply Nat.ltb_lt in H
           | H : (_ <? _)%nat = false |- _ => apply Nat.ltb_ge in H
           end; try lia; reflexivity.
Qed.

Lemma mirror_upper_shape :
  length (mirror_upper adj) = n /\ forall i, (i < n)%nat -> length (nth i (mirror_upper adj) []) = n.
Proof.
  unfold mirror_upper. split; [now rewrite length_map, length_seq|].
  intros i Hi. rewrite nth_map_seq, upd_length by assumption.
  assert (Hn : (0 < n)%nat) by lia. pose proof (adj_ncols Hn) as Hnc.
  destruct triu1_shape as [Htl Htr]. rewrite Hnc in Htr.
  assert (Htn : ncols (triu1 adj) = n) by (unfold ncols; apply Htr, nth_In; lia).
  unfold madd.
  rewrite (nth_map_combine _ (triu1 adj) (transpose (triu1 adj)) [] [] [])
    by (unfold transpose; rewrite ?length_map, ?length_seq; lia).
  cbn [fst snd]. unfold vadd. rewrite length_map, length_combine.
  rewrite (Htr (nth i (triu1 adj) [])) by (apply nth_In; lia).
  unfold transpose. rewrite Htn, nth_map_seq by assumption. unfold column.
  rewrite length_map. lia.
Qed.

Lemma mirror_upper_row_sum (i : nat) :
  (i < n)%nat -> nsum (nth i (mirror_upper adj) []) = mirrored_degree adj i.
Proof.
  intros Hi. destruct mirror_upper_shape as [_ Hrow]. specialize (Hrow i Hi).
  unfold mirrored_degree. f_equal.
  apply nth_ext with (d := 0) (d' := 0); [now rewrite length_map, length_seq|].
  intros j Hj. rewrite Hrow in Hj. rewrite nth_map_seq by assumption.
  now apply mirror_upper_entry.
Qed.

Lemma normalized_entry (i j : nat) :
  (i < n)%nat -> (j < n)%nat ->
  mget (normalize_dense_adjacency_matrix adj) i j
  = / sqrt (mirrored_degree adj i) * mirrored adj i j * / sqrt (mirrored_degree adj j).
Proof.
  intros Hi Hj. destruct mirror_upper_shape as [Hml Hmr].
  unfold normalize_dense_adjacency_matrix.
  set (A := mirror_upper adj) in *.
  set (dv := map (fun row => pow_neg_half (nsum row)) A).
  assert (Hdv : length dv = n) by (unfold dv; now rewrite length_map).
  assert (Hd : forall k, (k < n)%nat -> nth k dv 0 = / sqrt (mirrored_degree adj k)).
  { intros k Hk. unfold dv.
    rewrite (nth_indep _ 0 ((fun row => pow_neg_half (nsum row)) [])) by (rewrite length_map; lia).
    rewrite (map_nth (fun row => pow_neg_half (nsum row))).
    unfold A. rewrite mirror_upper_row_sum by assumption.
    unfold pow_neg_half. cbn. unfold Rdiv. lra. }
  assert (Hdiag_len : length (diag dv) = n) by (unfold diag; now rewrite length_map, length_seq).
  assert (Hdiag_row : forall k, (k < n)%nat ->
                        nth k (diag dv) [] = map (fun l => if (k =? l)%nat then nth k dv 0 else 0)
                                                 (seq 0 n)).
  { intros k Hk. unfold diag. rewrite Hdv, nth_map_seq by assumption. reflexivity. }
  assert (Hdiag_ncols : ncols (diag dv) = n).
  { unfold ncols. rewrite Hdiag_row by lia. now rewrite length_map, length_seq. }
  assert (HAcols : ncols A = n) by (unfold ncols; apply Hmr; lia).
  assert (Hcol : forall (m : list (list R)) c, length (column m c) = length m)
    by (intros; unfold column; apply length_map).
  (* deg @ adj_norm *)
  assert (H1 : forall k, (k < n)%nat ->
                 nth i (matmul (diag dv) A) [] = map (fun k => nth i dv 0 * mget A i k) (seq 0 n)).
  { intros _ _. unfold matmul.
    rewrite (nth_indep _ [] ((fun row => row_matmul (ncols A) row A) [])) by (rewrite length_map; lia).
    rewrite (map_nth (fun row => row_matmul (ncols A) row A)).
    unfold row_matmul. rewrite HAcols. apply map_ext_in. intros k Hk. apply in_seq in Hk.
    rewrite (@dot_by_index _ _ n) by (rewrite ?Hdiag_row, ?length_map, ?length_seq, ?Hcol; lia).
    rewrite Hdiag_row by assumption.
    rewrite (map_ext_in _ (fun l => if (i =? l)%nat then nth i dv 0 * nth l (column A k) 0 else 0)).
    - rewrite nsum_one_term by assumption. f_equal. unfold column, mget.
      rewrite (nth_indep _ 0 ((fun r => nth k r 0) [])) by (rewrite length_map; lia).
      now rewrite (map_nth (fun r => nth k r 0)).
    - intros l Hl. apply in_seq in Hl. rewrite nth_map_seq by lia.
      destruct (i =? l)%nat; [reflexivity|lra]. }
  specialize (H1 i Hi).
  unfold mget. unfold matmul at 1.
  rewrite (nth_indep _ [] ((fun row => row_matmul (ncols (diag dv)) row (diag dv)) []))
    by (unfold matmul; rewrite !length_map; lia).
  rewrite (map_nth (fun row => row_matmul (ncols (diag dv)) row (diag dv))).
  rewrite H1. unfold row_matmul. rewrite Hdiag_ncols, nth_map_seq by assumption.
  rewrite (@dot_by_index _ _ n) by (rewrite ?length_map, ?length_seq, ?Hcol; lia).
  rewrite (map_ext_in _ (fun l => if (j =? l)%nat then nth i dv 0 * mget A i l * nth j dv 0 else 0)).
  - rewrite nsum_one_term by assumption. rewrite !Hd by assumption.
    unfold A. rewrite mirror_upper_entry by assumption. reflexivity.
  - intros l Hl. apply in_seq in Hl. rewrite nth_map_seq by lia.
    unfold column.
    rewrite (nth_indep (map (fun r => nth j r 0) (diag dv)) 0 ((fun r => nth j r 0) []))
      by (rewrite length_map; lia).
    rewrite (map_nth (fun r => nth j r 0)), Hdiag_row, nth_map_seq by lia.
    rewrite (Nat.eqb_sym l j). destruct (Nat.eqb_spec j l) as [->|_]; [reflexivity|lra].
Qed.

Lemma mirrored_degree_ge_1 (i : nat) :
  (i < n)%nat -> (forall a b, (a < b < n)%nat -> 0 <= mget adj a b) ->
  1 <= mirrored_degree adj i.
Proof.
  intros Hi Hnn. unfold mirrored_degree.
  assert (Hterm : forall j, In j (seq 0 n) -> 0 <= mirrored adj i j).
  { intros j Hj. apply in_seq in Hj. unfold mirrored.
    destruct (Nat.eqb_spec i j); [lra|].
    destruct (i <? j)%nat eqn:E.
    - apply Nat.ltb_lt in E. apply Hnn. lia.
    - apply Nat.ltb_ge in E. apply Hnn. lia. }
  pose proof (@nsum_map_ge_term (mirrored adj i) (seq 0 n) i Hterm ltac:(apply in_seq; lia)) as H.
  unfold mirrored in H at 1. now rewrite Nat.eqb_refl in H.
Qed.
End DenseNormalisation.

Section DenseNormalisationTheorem.
Open Scope R_scope.

Lemma mirrored_upper_only (adj adj' : list (list R)) (i j : nat) :
  length adj' = length adj ->
  (forall a b, (a < b < length adj)%nat -> mget adj' a b = mget adj a b) ->
  (i < length adj)%nat -> (j < length adj)%nat ->
  mirrored adj' i j = mirrored adj i j.
Proof.
  intros Hl Hup Hi Hj. unfold mirrored.
  destruct (Nat.eqb_spec i j); [reflexivity|].
  destruct (i <? j)%nat eqn:E.
  - apply Nat.ltb_lt in E. apply Hup. lia.
  - apply Nat.ltb_ge in E. apply Hup. lia.
Qed.

(** [DenseGCN.normalize_dense_adjacency_matrix] on a square matrix whose
    entries above the diagonal are not negative: entry (i, j) of the
    result is [a(i, j) / sqrt(deg(i) * deg(j))], where [a] mirrors the
    upper triangle of the input to both sides and has ones on the
    diagonal, and [deg(i)] is the sum of row [i] of [a], which is at least
    one.  The result is symmetric, and it is the same for every input with
    the same entries above the diagonal: the diagonal and the lower
    triangle of the input are not read. *)
Theorem normalize_dense_adjacency_matrix_entries (adj : list (list R)) (i j : nat) :
  (forall r, In r adj -> length r = length adj) ->
  (forall a b, (a < b < length adj)%nat -> 0 <= mget adj a b) ->
  (i < length adj)%nat -> (j < length adj)%nat ->
  let out := normalize_dense_adjacency_matrix adj in
  1 <= mirrored_degree adj i
  /\ mget out i j = mirrored adj i j / sqrt (mirrored_degree adj i * mirrored_degree adj j)
  /\ mget out i j = mget out j i
  /\ (forall adj', length adj' = length adj ->
        (forall r, In r adj' -> length r = length adj') ->
        (forall a b, (a < b < length adj)%nat -> mget adj' a b = mget adj a b) ->
        mget (normalize_dense_adjacency_matrix adj') i j = mget out i j).
Proof.
  intros Hsq Hnn Hi Hj out.
  pose proof (@mirrored_degree_ge_1 adj i Hi Hnn) as Hdi.
  pose proof (@mirrored_degree_ge_1 adj j Hj Hnn) as Hdj.
  assert (Hsi : 0 < sqrt (mirrored_degree adj i)) by (apply sqrt_lt_R0; lra).
  assert (Hsj : 0 < sqrt (mirrored_degree adj j)) by (apply sqrt_lt_R0; lra).
  split; [exact Hdi|]. split; [|split].
  - unfold out. rewrite (@normalized_entry adj Hsq i j Hi Hj).
    rewrite sqrt_mult by lra. field. split; lra.
  - unfold out. rewrite (@normalized_entry adj Hsq i j Hi Hj).
    rewrite (@normalized_entry adj Hsq j i Hj Hi).
    rewrite (mirrored_sym adj i j). ring.
  - intros adj' Hl Hsq' Hup. unfold out.
    rewrite (@normalized_entry adj Hsq i j Hi Hj).
    rewrite (@normalized_entry adj' Hsq' i j) by (rewrite Hl; assumption).
    assert (Hdeg : forall k, (k < length adj)%nat -> mirrored_degree adj' k = mirrored_degree adj k).
    { intros k Hk. unfold mirrored_degree. rewrite Hl. f_equal.
      apply map_ext_in. intros l Hlin. apply in_seq in Hlin.
      apply mirrored_upper_only; try assumption. lia. }
    rewrite !Hdeg by assumption.
    now rewrite (@mirrored_upper_only adj adj' i j Hl Hup Hi Hj).
Qed.
End DenseNormalisationTheorem.

Lemma normalize_dense_adjacency_matrix_entries_witness :
  let adj := [[0; 1]; [5; 0]]%R in
  let out := normalize_dense_adjacency_matrix adj in
  (1 <= mirrored_degree adj 0)%R
  /\ mget out 0 1 = (mirrored adj 0 1 / sqrt (mirrored_degree adj 0 * mirrored_degree adj 1))%R
  /\ mget out 0 1 = mget out 1 0
  /\ (forall adj', length adj' = length adj ->
        (forall r, In r adj' -> length r = length adj') ->
        (forall a b, a < b < length adj -> mget adj' a b = mget adj a b) ->
        mget (normalize_dense_adjacency_matrix adj') 0 1 = mget out 0 1).
Proof.
  intros adj.
  apply (@normalize_dense_adjacency_matrix_entries adj 0 1).
  - intros r [<-|[<-|[]]]; reflexivity.
  - intros a b Hab. simpl in Hab. assert (a = 0 /\ b = 1) as [-> ->] by lia. cbn. lra.
  - simpl. lia.
  - simpl. lia.
Defined.

(** ** The sparse path, for a row index that is in order *)



Section SparseTopKRow.
Variable lib : backend R.
Open Scope R_scope.



End SparseTopKRow.

Section SparseUniformRow.
Variable lib : backend R.
Open Scope R_scope.

End SparseUniformRow.


